(** * quicklist.c: a doubly linked list of ziplists

    A shallow embedding of [src/quicklist.c].  The C heap that holds the
    [quicklist] headers and the [quicklistNode] cells is an explicit store;
    every function of the file is a computation in a state-and-error monad
    over that store, so that pointer updates, sharing between two lists and
    null dereferences are visible in the model. *)

From Stdlib Require Import ZArith String Ascii DecimalString Lia.
From stdpp Require Import gmap list strings.

Open Scope Z_scope.

(** ** Machine integers *)

(** [unsigned int] (node counts), [unsigned long] / [size_t] (list counters,
    fill factors, extents) and [int] (in-block offsets) on an LP64 target.
    Arithmetic is done in [Z] and wrapped where C wraps. *)
Definition wrap32 (z : Z) : Z := z mod 2 ^ 32.
Definition wrap64 (z : Z) : Z := z mod 2 ^ 64.
Definition cast_int (z : Z) : Z := (z + 2 ^ 31) mod 2 ^ 32 - 2 ^ 31.
Definition UINT_MAX : Z := 2 ^ 32 - 1.
Definition LLONG_MIN : Z := - 2 ^ 63.
Definition LLONG_MAX : Z := 2 ^ 63 - 1.

(** [snprintf(buf, sizeof buf, "%lld", v)]: the decimal text of [v]. *)
Definition lld (v : Z) : string := NilZero.string_of_int (Z.to_int v).

Definition slen (s : string) : Z := Z.of_nat (String.length s).

(** ** The packed-block codec (ziplist) *)

(** Modelled from the spec: [ziplist.c] is not part of the sources.  A block
    is the sequence of its entries; an entry is a byte string or an integer. *)
Inductive zlentry : Type :=
| ZStr (s : string)
| ZInt (v : Z).

#[global] Instance zlentry_eq_dec : EqDecision zlentry.
Proof. solve_decision. Defined.

Definition ziplist : Type := list zlentry.

(** Modelled from the spec: a cursor is the position of its entry inside the
    block, [NULL] is [None], and the position one past the last entry is the
    end marker that [ziplistDelete] leaves behind after deleting the last
    entry.  A cursor names a position: after an edit of its block it stands
    on whatever entry then has that position. *)
Definition cursor : Type := option nat.

Definition ZIPLIST_HEAD : Z := 0.
Definition ZIPLIST_TAIL : Z := 1.

(** Modelled from the spec: the codec stores a pushed byte string as an
    integer when it is the canonical decimal text of a [long long] shorter
    than 32 bytes ("re-encodes into integer form if it qualifies"). *)
Definition zipTryEncoding (s : string) : option Z :=
  if (0 <? slen s) && (slen s <? 32) then
    match NilZero.int_of_string s with
    | Some d =>
        let v := Z.of_int d in
        if String.eqb (lld v) s && (LLONG_MIN <=? v) && (v <=? LLONG_MAX)
        then Some v else None
    | None => None
    end
  else None.

Definition zipEntry (s : string) : zlentry :=
  match zipTryEncoding s with
  | Some v => ZInt v
  | None => ZStr s
  end.

(** Modelled from the spec: [new() → block]. *)
Definition ziplistNew : ziplist := [].

(** Modelled from the spec: [entryCount(block) → uint]. *)
Definition ziplistLen (zl : ziplist) : Z := wrap32 (Z.of_nat (length zl)).

(** Modelled from the spec: [pushHead] / [pushTail]. *)
Definition ziplistPush (zl : ziplist) (s : string) (where_ : Z) : ziplist :=
  if where_ =? ZIPLIST_HEAD then zipEntry s :: zl else zl ++ [zipEntry s].

(** Modelled from the spec: [index(block, signed_offset) → cursor | none],
    0 is the first entry and -1 the last. *)
Definition ziplistIndex (zl : ziplist) (index : Z) : cursor :=
  let n := Z.of_nat (length zl) in
  if index <? 0 then
    if - index <=? n then Some (Z.to_nat (n + index)) else None
  else
    if index <? n then Some (Z.to_nat index) else None.

(** Modelled from the spec: [next] / [prev], [none] past either end. *)
Definition ziplistNext (zl : ziplist) (p : nat) : cursor :=
  if (S p <? length zl)%nat then Some (S p) else None.

Definition ziplistPrev (zl : ziplist) (p : nat) : cursor :=
  if (length zl <=? p)%nat then
    match length zl with O => None | S k => Some k end
  else
    match p with O => None | S k => Some k end.

(** Modelled from the spec: [get(cursor) → (bytes?, len, int?) | none].  The
    three out-parameters are threaded: a byte string sets the value and its
    length, an integer clears the value and sets the integer, and nothing is
    written when there is no entry at the cursor. *)
Definition ziplistGet (zl : ziplist) (p : cursor)
    (out : option string * Z * Z) : bool * (option string * Z * Z) :=
  let '(sstr, sz, sval) := out in
  match p with
  | None => (false, out)
  | Some i =>
      match zl !! i with
      | None => (false, out)
      | Some (ZStr s) => (true, (Some s, slen s, sval))
      | Some (ZInt v) => (true, (None, sz, v))
      end
  end.

(** Modelled from the spec: [insertBefore(block, cursor, bytes, sz)]; at the
    end marker the entry is appended. *)
Definition ziplistInsert (zl : ziplist) (p : nat) (s : string) : ziplist :=
  take p zl ++ zipEntry s :: drop p zl.

(** Modelled from the spec: [delete(block, cursor-in-out)]; the cursor keeps
    its position, which now holds the successor. *)
Definition ziplistDelete (zl : ziplist) (p : nat) : ziplist * nat :=
  (delete p zl, p).

(** Modelled from the spec: [deleteRange(block, start_offset, len)], where a
    negative [len] (the sentinel -1) means until the end of the block; an
    offset that names no entry leaves the block as it is. *)
Definition ziplistDeleteRange (zl : ziplist) (index num : Z) : ziplist :=
  match ziplistIndex zl index with
  | None => zl
  | Some i =>
      if num <? 0 then take i zl
      else take i zl ++ drop (i + Z.to_nat num) zl
  end.

(** ** Structures *)

Definition addr : Type := positive.
Definition ptr : Type := option addr.

(** Modelled from the spec: [quicklist.h] is not part of the sources.  The
    fields are the ones [quicklist.c] reads and writes; a node's [count] is
    printed with [%u] and the list's [len] and [count] with [%lu]. *)
Record quicklistNode : Type := mkNode {
  n_prev : ptr;
  n_next : ptr;
  n_zl : ziplist;
  n_count : Z
}.

Record quicklist : Type := mkList {
  q_head : ptr;
  q_tail : ptr;
  q_len : Z;
  q_count : Z
}.

Record quicklistEntry : Type := mkEntry {
  e_quicklist : ptr;
  e_node : ptr;
  e_zi : cursor;
  e_value : option string;
  e_sz : Z;
  e_longval : Z;
  e_offset : Z
}.

Record quicklistIter : Type := mkIter {
  i_quicklist : ptr;
  i_current : ptr;
  i_zi : cursor;
  i_offset : Z;
  i_direction : Z
}.

Definition QUICKLIST_HEAD : Z := 0.
Definition QUICKLIST_TAIL : Z := -1.
Definition AL_START_HEAD : Z := 0.
Definition AL_START_TAIL : Z := 1.

Definition set_prev (n : quicklistNode) (p : ptr) : quicklistNode :=
  mkNode p (n_next n) (n_zl n) (n_count n).
Definition set_next (n : quicklistNode) (p : ptr) : quicklistNode :=
  mkNode (n_prev n) p (n_zl n) (n_count n).
Definition set_zl (n : quicklistNode) (zl : ziplist) : quicklistNode :=
  mkNode (n_prev n) (n_next n) zl (n_count n).
Definition set_count (n : quicklistNode) (c : Z) : quicklistNode :=
  mkNode (n_prev n) (n_next n) (n_zl n) c.

Definition set_head (q : quicklist) (p : ptr) : quicklist :=
  mkList p (q_tail q) (q_len q) (q_count q).
Definition set_tail (q : quicklist) (p : ptr) : quicklist :=
  mkList (q_head q) p (q_len q) (q_count q).
Definition set_len (q : quicklist) (n : Z) : quicklist :=
  mkList (q_head q) (q_tail q) n (q_count q).
Definition set_qcount (q : quicklist) (n : Z) : quicklist :=
  mkList (q_head q) (q_tail q) (q_len q) n.

(** ** The store *)

(** [nodes] and [lists] hold the allocated cells, [brk] is the next address
    [zmalloc] hands out.  [uninit n] is what a fresh allocation of [n] bytes
    happens to contain, and [stray a n] is what [n] bytes read through a
    pointer forged from the integer [a] yield ([None]: the read traps). *)
Record mem : Type := mkMem {
  nodes : gmap positive quicklistNode;
  lists : gmap positive quicklist;
  brk : positive;
  uninit : nat → string;
  stray : Z → nat → option string
}.

Definition with_nodes (σ : mem) (m : gmap positive quicklistNode) : mem :=
  mkMem m (lists σ) (brk σ) (uninit σ) (stray σ).
Definition with_lists (σ : mem) (m : gmap positive quicklist) : mem :=
  mkMem (nodes σ) m (brk σ) (uninit σ) (stray σ).
Definition with_brk (σ : mem) (b : positive) : mem :=
  mkMem (nodes σ) (lists σ) b (uninit σ) (stray σ).

(** A call returns, traps on an invalid access, or runs out of the steps
    granted to its loops. *)
Inductive outcome (A : Type) : Type :=
| Done (a : A)
| Fault
| Spin.
Arguments Done {A} a.
Arguments Fault {A}.
Arguments Spin {A}.

Definition M (A : Type) : Type := mem → outcome (A * mem).

#[global] Instance M_ret : MRet M := λ A a σ, Done (a, σ).
#[global] Instance M_bind : MBind M := λ A B f m σ,
  match m σ with
  | Done (a, σ') => f a σ'
  | Fault => Fault
  | Spin => Spin
  end.

Definition fault {A : Type} : M A := λ _, Fault.
Definition spin {A : Type} : M A := λ _, Spin.

(** Dereferencing a pointer: [NULL] traps. *)
Definition deref (p : ptr) : M addr :=
  match p with
  | Some a => mret a
  | None => fault
  end.

Definition getNode (a : addr) : M quicklistNode := λ σ,
  match nodes σ !! a with
  | Some n => Done (n, σ)
  | None => Fault
  end.

Definition setNode (a : addr) (n : quicklistNode) : M unit := λ σ,
  match nodes σ !! a with
  | Some _ => Done (tt, with_nodes σ (<[a := n]> (nodes σ)))
  | None => Fault
  end.

Definition getList (q : addr) : M quicklist := λ σ,
  match lists σ !! q with
  | Some l => Done (l, σ)
  | None => Fault
  end.

Definition setList (q : addr) (l : quicklist) : M unit := λ σ,
  match lists σ !! q with
  | Some _ => Done (tt, with_lists σ (<[q := l]> (lists σ)))
  | None => Fault
  end.

(** [zmalloc] of a node cell and of a list header.  The allocator of the
    server aborts the process when memory runs out, so the [NULL] checks of
    the source never fire and an allocation always yields a fresh cell. *)
Definition allocNode (n : quicklistNode) : M addr := λ σ,
  Done (brk σ, mkMem (<[brk σ := n]> (nodes σ)) (lists σ)
                     (Pos.succ (brk σ)) (uninit σ) (stray σ)).

Definition allocList (l : quicklist) : M addr := λ σ,
  Done (brk σ, mkMem (nodes σ) (<[brk σ := l]> (lists σ))
                     (Pos.succ (brk σ)) (uninit σ) (stray σ)).

(** [zfree(node->zl); zfree(node)]. *)
Definition freeNode (a : addr) : M unit := λ σ,
  match nodes σ !! a with
  | Some _ => Done (tt, with_nodes σ (delete a (nodes σ)))
  | None => Fault
  end.

(** [zfree(quicklist)]. *)
Definition freeList (q : addr) : M unit := λ σ,
  match lists σ !! q with
  | Some _ => Done (tt, with_lists σ (delete q (lists σ)))
  | None => Fault
  end.

Definition getUninit (n : nat) : M string := λ σ, Done (uninit σ n, σ).

Definition readStray (a : Z) (n : nat) : M string := λ σ,
  match stray σ a n with
  | Some s => Done (s, σ)
  | None => Fault
  end.

(** The steps granted to a loop over the node chain: a chain without a cycle
    is no longer than the number of allocated nodes. *)
Definition chainFuel : M nat := λ σ, Done (S (size (nodes σ)), σ).

(** ** quicklist.c *)

Definition initEntry : quicklistEntry :=
  mkEntry None None None None 0 (-123456789) 123456789.

Definition quicklistCreate : M addr :=
  allocList (mkList None None 0 0).

Definition quicklistCreateNode : M addr :=
  allocNode (mkNode None None [] 0).

Definition quicklistCount (ql : addr) : M Z :=
  l ← getList ql; mret (wrap32 (q_count l)).

(** The loop [while (len--)] of [quicklistRelease]: every round frees the
    block and the cell of the node at [current] and takes the node off the
    counters of the header. *)
Fixpoint release_loop (fuel : nat) (ql : addr) (len : Z) (current : ptr)
    : M unit :=
  if len =? 0 then mret tt
  else
    match fuel with
    | O => spin
    | S fuel' =>
        c ← deref current;
        n ← getNode c;
        let next := n_next n in
        l ← getList ql;
        setList ql (set_qcount l (wrap64 (q_count l - n_count n)));;
        freeNode c;;
        l ← getList ql;
        setList ql (set_len l (wrap64 (q_len l - 1)));;
        release_loop fuel' ql (wrap64 (len - 1)) next
    end.

Definition quicklistRelease (ql : addr) : M unit :=
  l ← getList ql;
  fuel ← chainFuel;
  release_loop fuel ql (q_len l) (q_head l);;
  freeList ql.

Definition __quicklistInsertNode (ql : addr) (old_node : ptr)
    (new_node : addr) (after : bool) : M unit :=
  (if after then
     nn ← getNode new_node;
     setNode new_node (set_prev nn old_node);;
     match old_node with
     | Some o =>
         old ← getNode o;
         nn ← getNode new_node;
         setNode new_node (set_next nn (n_next old));;
         match n_next old with
         | Some x => nx ← getNode x; setNode x (set_prev nx (Some new_node))
         | None => mret tt
         end;;
         old ← getNode o;
         setNode o (set_next old (Some new_node))
     | None => mret tt
     end;;
     l ← getList ql;
     if decide (q_tail l = old_node)
     then setList ql (set_tail l (Some new_node)) else mret tt
   else
     nn ← getNode new_node;
     setNode new_node (set_next nn old_node);;
     match old_node with
     | Some o =>
         old ← getNode o;
         nn ← getNode new_node;
         setNode new_node (set_prev nn (n_prev old));;
         match n_prev old with
         | Some x => px ← getNode x; setNode x (set_next px (Some new_node))
         | None => mret tt
         end;;
         old ← getNode o;
         setNode o (set_prev old (Some new_node))
     | None => mret tt
     end;;
     l ← getList ql;
     if decide (q_head l = old_node)
     then setList ql (set_head l (Some new_node)) else mret tt);;
  l ← getList ql;
  (if q_len l =? 0
   then setList ql (set_tail (set_head l (Some new_node)) (Some new_node))
   else mret tt);;
  l ← getList ql;
  setList ql (set_len l (wrap64 (q_len l + 1))).

Definition _quicklistInsertNodeBefore (ql : addr) (old_node : ptr)
    (new_node : addr) : M unit :=
  __quicklistInsertNode ql old_node new_node false.

Definition _quicklistInsertNodeAfter (ql : addr) (old_node : ptr)
    (new_node : addr) : M unit :=
  __quicklistInsertNode ql old_node new_node true.

(** A [(value, sz)] argument is the string of the [sz] bytes at [value]. *)
Definition quicklistPushHead (ql : addr) (fill : Z) (value : string)
    : M addr :=
  l ← getList ql;
  reuse ← match q_head l with
          | Some h => n ← getNode h; mret (n_count n <? fill)
          | None => mret false
          end;
  (if reuse : bool then
     h ← deref (q_head l);
     n ← getNode h;
     setNode h (set_zl n (ziplistPush (n_zl n) value ZIPLIST_HEAD))
   else
     node ← quicklistCreateNode;
     n ← getNode node;
     setNode node (set_zl n (ziplistPush ziplistNew value ZIPLIST_HEAD));;
     _quicklistInsertNodeBefore ql (q_head l) node);;
  l ← getList ql;
  setList ql (set_qcount l (wrap64 (q_count l + 1)));;
  l ← getList ql;
  h ← deref (q_head l);
  n ← getNode h;
  setNode h (set_count n (wrap32 (n_count n + 1)));;
  mret ql.

Definition quicklistPushTail (ql : addr) (fill : Z) (value : string)
    : M addr :=
  l ← getList ql;
  reuse ← match q_tail l with
          | Some t => n ← getNode t; mret (n_count n <? fill)
          | None => mret false
          end;
  (if reuse : bool then
     t ← deref (q_tail l);
     n ← getNode t;
     setNode t (set_zl n (ziplistPush (n_zl n) value ZIPLIST_TAIL))
   else
     node ← quicklistCreateNode;
     n ← getNode node;
     setNode node (set_zl n (ziplistPush ziplistNew value ZIPLIST_TAIL));;
     _quicklistInsertNodeAfter ql (q_tail l) node);;
  l ← getList ql;
  setList ql (set_qcount l (wrap64 (q_count l + 1)));;
  l ← getList ql;
  t ← deref (q_tail l);
  n ← getNode t;
  setNode t (set_count n (wrap32 (n_count n + 1)));;
  mret ql.

Definition quicklistPushTailZiplist (ql : addr) (zl : ziplist) : M unit :=
  let sz := ziplistLen zl in
  node ← quicklistCreateNode;
  l ← getList ql;
  _quicklistInsertNodeAfter ql (q_tail l) node;;
  n ← getNode node;
  setNode node (set_zl n zl);;
  n ← getNode node;
  setNode node (set_count n sz);;
  l ← getList ql;
  setList ql (set_qcount l (wrap64 (q_count l + sz))).

Definition __quicklistDelNode (ql : addr) (node : addr) : M unit :=
  n ← getNode node;
  match n_next n with
  | Some x => nx ← getNode x; setNode x (set_prev nx (n_prev n))
  | None => mret tt
  end;;
  n ← getNode node;
  match n_prev n with
  | Some x => px ← getNode x; setNode x (set_next px (n_next n))
  | None => mret tt
  end;;
  n ← getNode node;
  l ← getList ql;
  (if decide (Some node = q_tail l)
   then setList ql (set_tail l (n_prev n)) else mret tt);;
  l ← getList ql;
  (if decide (Some node = q_head l)
   then setList ql (set_head l (n_next n)) else mret tt);;
  l ← getList ql;
  setList ql (set_qcount l (wrap64 (q_count l - n_count n)));;
  freeNode node;;
  l ← getList ql;
  setList ql (set_len l (wrap64 (q_len l - 1))).

Definition quicklistDeleteIfEmpty (ql : addr) (node : addr) : M unit :=
  n ← getNode node;
  if n_count n =? 0 then __quicklistDelNode ql node else mret tt.

(** The in/out cursor [*p] is returned next to the flag; [ziplistDelete]
    reads through it, so a [NULL] cursor traps. *)
Definition quicklistDelIndex (ql : addr) (node : addr) (p : cursor)
    : M (bool * cursor) :=
  n ← getNode node;
  i ← match p with Some i => mret i | None => fault end;
  let '(zl', p') := ziplistDelete (n_zl n) i in
  setNode node (set_zl n zl');;
  n ← getNode node;
  setNode node (set_count n (wrap32 (n_count n - 1)));;
  n ← getNode node;
  let gone := n_count n =? 0 in
  l ← getList ql;
  setList ql (set_qcount l (wrap64 (q_count l - 1)));;
  quicklistDeleteIfEmpty ql node;;
  mret (gone, Some p').

(** The two records the caller passes by pointer come back updated. *)
Definition quicklistDelEntry (iter : quicklistIter) (entry : quicklistEntry)
    : M (quicklistIter * quicklistEntry) :=
  node ← deref (e_node entry);
  n ← getNode node;
  let prev := n_prev n in
  let next := n_next n in
  ql ← deref (e_quicklist entry);
  '(deleted_node, zi') ← quicklistDelIndex ql node (e_zi entry);
  let entry := mkEntry (e_quicklist entry) (e_node entry) zi' (e_value entry)
                       (e_sz entry) (e_longval entry) (e_offset entry) in
  let iter := mkIter (i_quicklist iter) (i_current iter) None
                     (i_offset iter) (i_direction iter) in
  if i_direction iter =? AL_START_HEAD then
    if deleted_node : bool then
      mret (mkIter (i_quicklist iter) next (i_zi iter) 0 (i_direction iter),
            entry)
    else
      mret (mkIter (i_quicklist iter) (i_current iter) (e_zi entry)
                   (i_offset iter + 1) (i_direction iter), entry)
  else if i_direction iter =? AL_START_TAIL then
    if deleted_node : bool then
      mret (mkIter (i_quicklist iter) prev (i_zi iter) (-1)
                   (i_direction iter), entry)
    else mret (iter, entry)
  else mret (iter, entry).

Fixpoint index_walk (fuel : nat) (forward : bool) (index accum : Z) (n : ptr)
    : M (ptr * Z) :=
  match n with
  | None => mret (None, accum)
  | Some a =>
      match fuel with
      | O => spin
      | S fuel' =>
          nd ← getNode a;
          if wrap64 (accum + n_count nd) >? index then mret (Some a, accum)
          else index_walk fuel' forward index (wrap64 (accum + n_count nd))
                          (if forward then n_next nd else n_prev nd)
      end
  end.

(** [entry] is the record behind the caller's pointer; the updated record is
    returned with the flag. *)
Definition quicklistIndex (ql : addr) (idx : Z) (entry : quicklistEntry)
    : M (bool * quicklistEntry) :=
  let forward := negb (idx <? 0) in
  let entry := initEntry in
  let entry := mkEntry (Some ql) (e_node entry) (e_zi entry) (e_value entry)
                       (e_sz entry) (e_longval entry) (e_offset entry) in
  l ← getList ql;
  let index := if forward then wrap64 idx else wrap64 (- idx - 1) in
  let n := if forward then q_head l else q_tail l in
  if index >=? q_count l then mret (false, entry)
  else
    fuel ← chainFuel;
    '(n, accum) ← index_walk fuel forward index 0 n;
    match n with
    | None => mret (false, entry)
    | Some a =>
        let offset :=
          if forward then cast_int (wrap64 (index - accum))
          else cast_int (wrap64 (- index - 1 + accum)) in
        nd ← getNode a;
        let zi := ziplistIndex (n_zl nd) offset in
        let '(_, (value, sz, longval)) :=
          ziplistGet (n_zl nd) zi (e_value entry, e_sz entry, e_longval entry) in
        mret (true, mkEntry (e_quicklist entry) (Some a) zi value sz longval
                            offset)
    end.

Definition quicklistReplaceAtIndex (ql : addr) (index : Z) (data : string)
    : M Z :=
  '(found, entry) ← quicklistIndex ql index initEntry;
  if found : bool then
    node ← deref (e_node entry);
    n ← getNode node;
    zi ← match e_zi entry with Some i => mret i | None => fault end;
    let '(zl', zi') := ziplistDelete (n_zl n) zi in
    setNode node (set_zl n zl');;
    n ← getNode node;
    setNode node (set_zl n (ziplistInsert (n_zl n) zi' data));;
    mret 1
  else mret 0.

(** The transfer loop of [_quicklistZiplistMerge].  The cursor [p] walks the
    block of the node that is not the target; that block is not edited while
    the loop runs, so its length bounds the number of rounds. *)
Fixpoint merge_loop (fuel : nat) (a b target : addr) (where_ : Z) (p : cursor)
    : M unit :=
  src ← getNode (if decide (target = a) then b else a);
  match ziplistGet (n_zl src) p (None, 0, 0) with
  | (false, _) => mret tt
  | (true, (val, sz, longval)) =>
      match fuel with
      | O => spin
      | S fuel' =>
          let bytes := match val with Some s => s | None => lld longval end in
          t ← getNode target;
          setNode target (set_zl t (ziplistPush (n_zl t) bytes where_));;
          i ← match p with Some i => mret i | None => fault end;
          (if decide (target = a) then
             nb ← getNode b;
             let p' := ziplistNext (n_zl nb) i in
             setNode b (set_count nb (wrap32 (n_count nb - 1)));;
             na ← getNode a;
             setNode a (set_count na (wrap32 (n_count na + 1)));;
             mret p'
           else
             na ← getNode a;
             let p' := ziplistPrev (n_zl na) i in
             setNode a (set_count na (wrap32 (n_count na - 1)));;
             nb ← getNode b;
             setNode b (set_count nb (wrap32 (n_count nb + 1)));;
             mret p') ≫= merge_loop fuel' a b target where_
      end
  end.

Definition _quicklistZiplistMerge (ql : addr) (a b : addr) : M ptr :=
  na ← getNode a;
  nb ← getNode b;
  let target := if n_count na >? n_count nb then a else b in
  if (n_count na =? 0) || (n_count nb =? 0) then mret None
  else
    let where_ := if decide (target = a) then ZIPLIST_TAIL else ZIPLIST_HEAD in
    let p := if decide (target = a) then ziplistIndex (n_zl nb) 0
             else ziplistIndex (n_zl na) (-1) in
    let fuel := if decide (target = a) then S (length (n_zl nb))
                else S (length (n_zl na)) in
    merge_loop fuel a b target where_ p;;
    (if decide (target = a) then __quicklistDelNode ql b
     else __quicklistDelNode ql a);;
    mret (Some target).

Definition _quicklistMergeNodes (ql : addr) (fill : Z) (center : addr)
    : M unit :=
  c ← getNode center;
  prev_prev ← match n_prev c with
              | Some p => np ← getNode p; mret (n_prev np)
              | None => mret None
              end;
  let prev := n_prev c in
  next_next ← match n_next c with
              | Some x => nx ← getNode x; mret (n_next nx)
              | None => mret None
              end;
  let next := n_next c in
  match prev, prev_prev with
  | Some p, Some pp =>
      np ← getNode p;
      npp ← getNode pp;
      if wrap32 (n_count np + n_count npp) <=? fill
      then _quicklistZiplistMerge ql pp p;; mret tt
      else mret tt
  | _, _ => mret tt
  end;;
  match next, next_next with
  | Some x, Some xx =>
      nx ← getNode x;
      nxx ← getNode xx;
      if wrap32 (n_count nx + n_count nxx) <=? fill
      then _quicklistZiplistMerge ql x xx;; mret tt
      else mret tt
  | _, _ => mret tt
  end;;
  c ← getNode center;
  target ← match n_prev c with
           | Some p =>
               np ← getNode p;
               if wrap32 (n_count c + n_count np) <=? fill
               then _quicklistZiplistMerge ql p center
               else mret None
           | None => mret None
           end;
  match target with
  | Some t =>
      nt ← getNode t;
      match n_next nt with
      | Some x =>
          nx ← getNode x;
          if wrap32 (n_count nt + n_count nx) <=? fill
          then _quicklistZiplistMerge ql t x;; mret tt
          else mret tt
      | None => mret tt
      end
  | None => mret tt
  end.

Definition _quicklistSplitNode (node : addr) (offset : Z) (after : bool)
    : M addr :=
  n ← getNode node;
  new_node ← quicklistCreateNode;
  nn ← getNode new_node;
  setNode new_node (set_zl nn (n_zl n));;
  let orig_start := if after then cast_int (offset + 1) else 0 in
  let orig_extent := if after then -1 else offset in
  let new_start := if after then 0 else offset in
  let new_extent := if after then cast_int (offset + 1) else -1 in
  n ← getNode node;
  setNode node (set_zl n (ziplistDeleteRange (n_zl n) orig_start orig_extent));;
  n ← getNode node;
  setNode node (set_count n (ziplistLen (n_zl n)));;
  nn ← getNode new_node;
  setNode new_node
    (set_zl nn (ziplistDeleteRange (n_zl nn) new_start new_extent));;
  nn ← getNode new_node;
  setNode new_node (set_count nn (ziplistLen (n_zl nn)));;
  mret new_node.

Definition cur (p : cursor) : M nat :=
  match p with
  | Some i => mret i
  | None => fault
  end.

Definition _quicklistInsert (ql : addr) (fill : Z) (entry : quicklistEntry)
    (value : string) (after : bool) : M unit :=
  match e_node entry with
  | None =>
      new_node ← quicklistCreateNode;
      nn ← getNode new_node;
      setNode new_node
        (set_zl nn (ziplistPush ziplistNew value ZIPLIST_HEAD));;
      __quicklistInsertNode ql None new_node after;;
      nn ← getNode new_node;
      setNode new_node (set_count nn (wrap32 (n_count nn + 1)));;
      l ← getList ql;
      setList ql (set_qcount l (wrap64 (q_count l + 1)))
  | Some node =>
      n ← getNode node;
      let full := n_count n >=? fill in
      '(at_tail, full_next) ←
        (if after then
           zi ← cur (e_zi entry);
           match ziplistNext (n_zl n) zi with
           | None =>
               match n_next n with
               | Some x => nx ← getNode x; mret (true, n_count nx >=? fill)
               | None => mret (true, false)
               end
           | Some _ => mret (false, false)
           end
         else mret (false, false));
      '(at_head, full_prev) ←
        (if negb after then
           zi ← cur (e_zi entry);
           match ziplistPrev (n_zl n) zi with
           | None =>
               match n_prev n with
               | Some x => px ← getNode x; mret (true, n_count px >=? fill)
               | None => mret (true, false)
               end
           | Some _ => mret (false, false)
           end
         else mret (false, false));
      (if negb full && after then
         zi ← cur (e_zi entry);
         match ziplistNext (n_zl n) zi with
         | None =>
             setNode node (set_zl n (ziplistPush (n_zl n) value ZIPLIST_TAIL))
         | Some next =>
             setNode node (set_zl n (ziplistInsert (n_zl n) next value))
         end;;
         n ← getNode node;
         setNode node (set_count n (wrap32 (n_count n + 1)))
       else if negb full && negb after then
         zi ← cur (e_zi entry);
         setNode node (set_zl n (ziplistInsert (n_zl n) zi value));;
         n ← getNode node;
         setNode node (set_count n (wrap32 (n_count n + 1)))
       else if full && at_tail && bool_decide (n_next n ≠ None)
               && negb full_next && after then
         new_node ← deref (n_next n);
         nn ← getNode new_node;
         setNode new_node
           (set_zl nn (ziplistPush (n_zl nn) value ZIPLIST_HEAD));;
         nn ← getNode new_node;
         setNode new_node (set_count nn (wrap32 (n_count nn + 1)))
       else if full && at_head && bool_decide (n_prev n ≠ None)
               && negb full_prev && negb after then
         new_node ← deref (n_prev n);
         nn ← getNode new_node;
         setNode new_node
           (set_zl nn (ziplistPush (n_zl nn) value ZIPLIST_TAIL));;
         nn ← getNode new_node;
         setNode new_node (set_count nn (wrap32 (n_count nn + 1)))
       else if full &&
               ((at_tail && bool_decide (n_next n ≠ None) && full_next
                 && after)
                || (at_head && bool_decide (n_prev n ≠ None) && full_prev
                    && negb after)) then
         new_node ← quicklistCreateNode;
         nn ← getNode new_node;
         setNode new_node
           (set_zl nn (ziplistPush ziplistNew value ZIPLIST_HEAD));;
         nn ← getNode new_node;
         setNode new_node (set_count nn (wrap32 (n_count nn + 1)));;
         __quicklistInsertNode ql (Some node) new_node after
       else if full then
         new_node ← _quicklistSplitNode node (e_offset entry) after;
         nn ← getNode new_node;
         setNode new_node
           (set_zl nn (ziplistPush (n_zl nn) value
                         (if after then ZIPLIST_HEAD else ZIPLIST_TAIL)));;
         nn ← getNode new_node;
         setNode new_node (set_count nn (wrap32 (n_count nn + 1)));;
         __quicklistInsertNode ql (Some node) new_node after;;
         _quicklistMergeNodes ql fill node
       else mret tt);;
      l ← getList ql;
      setList ql (set_qcount l (wrap64 (q_count l + 1)))
  end.

Definition quicklistInsertBefore (ql : addr) (fill : Z)
    (entry : quicklistEntry) (value : string) : M unit :=
  _quicklistInsert ql fill entry value false.

Definition quicklistInsertAfter (ql : addr) (fill : Z)
    (entry : quicklistEntry) (value : string) : M unit :=
  _quicklistInsert ql fill entry value true.

(** The [while (extent)] loop of [quicklistDelRange]; reading [node->next]
    through a [NULL] node traps. *)
Fixpoint delrange_loop (fuel : nat) (ql : addr) (extent : Z) (node : ptr)
    (offset : Z) : M unit :=
  if extent =? 0 then mret tt
  else
    match fuel with
    | O => spin
    | S fuel' =>
        a ← deref node;
        n ← getNode a;
        let next := n_next n in
        let '(delete_entire_node, del) :=
          if (offset =? 0) && (extent >=? n_count n) then (true, n_count n)
          else if (offset >=? 0) && (extent >? n_count n)
               then (false, wrap32 (n_count n - offset))
          else if offset <? 0
               then (false, if wrap64 (- offset) >? extent then extent
                            else wrap64 (- offset))
          else (false, extent) in
        (if delete_entire_node : bool then __quicklistDelNode ql a
         else
           setNode a (set_zl n (ziplistDeleteRange (n_zl n) offset del));;
           n ← getNode a;
           setNode a (set_count n (wrap32 (n_count n - del)));;
           l ← getList ql;
           setList ql (set_qcount l (wrap64 (q_count l - del)));;
           quicklistDeleteIfEmpty ql a);;
        delrange_loop fuel' ql (wrap64 (extent - del)) next 0
    end.

Definition quicklistDelRange (ql : addr) (start count : Z) : M Z :=
  if count <=? 0 then mret 0
  else
    l ← getList ql;
    let extent := wrap64 count in
    let extent :=
      if (start >=? 0) && (extent >? wrap64 (q_count l - start))
      then q_count l
      else if (start <? 0) && (extent >? wrap64 (q_count l - (- start) + 1))
           then wrap64 (- start)
           else extent in
    '(found, entry) ← quicklistIndex ql start initEntry;
    if negb found then mret 0
    else
      fuel ← chainFuel;
      delrange_loop fuel ql extent (e_node entry) (e_offset entry);;
      mret 1.

(** The iterator is returned by value.  For a direction that is neither of
    the two the source leaves [current] and [offset] as [zmalloc] returned
    them; the model takes what a zero-filled allocation holds, [NULL] and 0. *)
Definition quicklistGetIterator (ql : addr) (direction : Z)
    : M quicklistIter :=
  l ← getList ql;
  if direction =? AL_START_HEAD
  then mret (mkIter (Some ql) (q_head l) None 0 direction)
  else if direction =? AL_START_TAIL
       then mret (mkIter (Some ql) (q_tail l) None (-1) direction)
       else mret (mkIter (Some ql) None None 0 direction).

Definition quicklistGetIteratorAtIdx (ql : addr) (direction : Z) (idx : Z)
    : M (option quicklistIter) :=
  '(found, entry) ← quicklistIndex ql idx initEntry;
  if found : bool then
    base ← quicklistGetIterator ql direction;
    mret (Some (mkIter (i_quicklist base) (e_node entry) None
                       (e_offset entry) (i_direction base)))
  else mret None.

(** [quicklistNext] calls itself once per node it steps over; the recursion
    is granted [fuel] such calls. *)
Fixpoint quicklistNext_rec (fuel : nat) (iter : quicklistIter)
    : M (bool * quicklistIter * quicklistEntry) :=
  let entry := mkEntry (i_quicklist iter) (i_current iter) None None 0
                       (-123456789) 123456789 in
  match i_current iter with
  | None => mret (false, iter, entry)
  | Some c =>
      cn ← getNode c;
      iter ← match i_zi iter with
             | None =>
                 mret (mkIter (i_quicklist iter) (i_current iter)
                         (ziplistIndex (n_zl cn) (cast_int (i_offset iter)))
                         (i_offset iter) (i_direction iter))
             | Some zi =>
                 if i_direction iter =? AL_START_HEAD then
                   mret (mkIter (i_quicklist iter) (i_current iter)
                           (ziplistNext (n_zl cn) zi)
                           (i_offset iter + 1) (i_direction iter))
                 else if i_direction iter =? AL_START_TAIL then
                   mret (mkIter (i_quicklist iter) (i_current iter)
                           (ziplistPrev (n_zl cn) zi)
                           (i_offset iter - 1) (i_direction iter))
                 else fault
             end;
      let entry := mkEntry (e_quicklist entry) (e_node entry) (i_zi iter)
                           (e_value entry) (e_sz entry) (e_longval entry)
                           (cast_int (i_offset iter)) in
      match i_zi iter with
      | Some _ =>
          let '(_, (value, sz, longval)) :=
            ziplistGet (n_zl cn) (e_zi entry)
                       (e_value entry, e_sz entry, e_longval entry) in
          mret (true, iter,
                mkEntry (e_quicklist entry) (e_node entry) (e_zi entry)
                        value sz longval (e_offset entry))
      | None =>
          let iter :=
            if i_direction iter =? AL_START_HEAD
            then mkIter (i_quicklist iter) (n_next cn) None 0
                        (i_direction iter)
            else if i_direction iter =? AL_START_TAIL
                 then mkIter (i_quicklist iter) (n_prev cn) None (-1)
                             (i_direction iter)
                 else mkIter (i_quicklist iter) (i_current iter) None
                             (i_offset iter) (i_direction iter) in
          match fuel with
          | O => spin
          | S fuel' => quicklistNext_rec fuel' iter
          end
      end
  end.

Definition quicklistNext (iter : quicklistIter)
    : M (bool * quicklistIter * quicklistEntry) :=
  fuel ← chainFuel;
  quicklistNext_rec fuel iter.

Fixpoint dup_loop (fuel : nat) (copy : addr) (current : ptr) : M unit :=
  match current with
  | None => mret tt
  | Some c =>
      match fuel with
      | O => spin
      | S fuel' =>
          node ← quicklistCreateNode;
          cn ← getNode c;
          nn ← getNode node;
          setNode node (set_zl nn (n_zl cn));;
          nn ← getNode node;
          setNode node (set_count nn (n_count cn));;
          nn ← getNode node;
          cp ← getList copy;
          setList copy (set_qcount cp (wrap64 (q_count cp + n_count nn)));;
          cp ← getList copy;
          _quicklistInsertNodeAfter copy (q_tail cp) node;;
          cn ← getNode c;
          dup_loop fuel' copy (n_next cn)
      end
  end.

Definition quicklistDup (orig : addr) : M ptr :=
  copy ← quicklistCreate;
  o ← getList orig;
  fuel ← chainFuel;
  dup_loop fuel copy (q_head o);;
  mret (Some copy).

(** Modelled from the spec: the codec stores the bytes [s] as a byte string,
    not as an integer. *)
Definition kept_as_string (s : string) : bool :=
  match zipTryEncoding s with
  | None => true
  | Some _ => false
  end.

(** Modelled from the spec: what [ziplistPush] copies when its source lies
    in the very block it pushes into.  [quicklistRotate] takes the pointer
    [value] and the cursor [p] from the block of the tail node and uses them
    only after [quicklistPushHead]; the push leaves that block alone unless
    the list is a single node with room.  Then the codec makes room at the
    head of this block, moving its entries up, and copies the [sz] bytes at
    [value] afterwards.  A cursor is a position in its block, and so is the
    pointer to the bytes of an entry: once the entries have moved, the place
    [value] points at holds the entry that stood before the tail.  The bytes
    copied are the bytes of that entry when it is a byte string of the
    tail's length and the codec keeps both as byte strings.  Any other entry
    does not fill the place: what is read there is not the bytes of an
    entry, the call has left the model, and the model traps. *)
Definition rotate_value (l : quicklist) (t : quicklistNode) (fill : Z)
    (p : cursor) (s : string) : M string :=
  if bool_decide (q_head l = q_tail l) && (n_count t <? fill) then
    match p with
    | Some (S i) =>
        match n_zl t !! i with
        | Some (ZStr s') =>
            if (String.length s' =? String.length s)%nat
               && kept_as_string s && kept_as_string s'
            then mret s' else fault
        | _ => fault
        end
    | _ => fault
    end
  else mret s.

(** The source sets [value = (unsigned char * )longval] for an integer tail
    entry: the bytes handed to [quicklistPushHead] are then the [wrote] bytes
    found at the address whose bit pattern is the integer.  After the push
    the cursor [p] still names the position the tail had before it. *)
Definition quicklistRotate (ql : addr) (fill : Z) : M unit :=
  l ← getList ql;
  if q_count l <=? 1 then mret tt
  else
    tail ← deref (q_tail l);
    t ← getNode tail;
    let p := ziplistIndex (n_zl t) (-1) in
    match ziplistGet (n_zl t) p (None, 0, 0) with
    | (false, _) => fault
    | (true, (value, sz, longval)) =>
        bytes ← match value with
                | Some s => rotate_value l t fill p s
                | None =>
                    let wrote := String.length (lld longval) in
                    readStray longval wrote
                end;
        quicklistPushHead ql fill bytes;;
        quicklistDelIndex ql tail p;;
        mret tt
    end.

(** The three results the caller receives through [data], [sz] and [sval]:
    the saved bytes (or [NULL]), their length and the integer. *)
Definition popout : Type := (option string * Z * Z)%type.

Definition quicklistPopCustom (ql : addr) (where_ : Z) (out : popout)
    (saver : addr → nat → Z → M (option string)) : M (Z * popout) :=
  let pos := if where_ =? QUICKLIST_HEAD then 0 else -1 in
  l ← getList ql;
  if q_count l =? 0 then mret (0, out)
  else
    let out : popout := (None, 0, -123456789) in
    let node :=
      if (where_ =? QUICKLIST_HEAD) && bool_decide (q_head l ≠ None)
      then q_head l
      else if (where_ =? QUICKLIST_TAIL) && bool_decide (q_tail l ≠ None)
           then q_tail l
           else None in
    match node with
    | None => mret (0, out)
    | Some node =>
        n ← getNode node;
        let p := ziplistIndex (n_zl n) pos in
        match ziplistGet (n_zl n) p (None, 0, 0) with
        | (true, (vstr, vlen, vlong)) =>
            out ← match vstr, p with
                  | Some _, Some i =>
                      d ← saver node i vlen;
                      mret ((d, vlen, out.2) : popout)
                  | Some _, None => fault
                  | None, _ => mret ((None, out.1.2, vlong) : popout)
                  end;
            quicklistDelIndex ql node p;;
            mret (1, out)
        | (false, _) => mret (0, out)
        end
    end.

(** [data] points at the bytes of entry [i] in the block of [node].  The
    source calls [memcpy(data, vstr, sz)]: the fresh allocation is the
    source of the copy and the entry its destination. *)
Definition _quicklistSaver (node : addr) (i : nat) (sz : Z)
    : M (option string) :=
  vstr ← getUninit (Z.to_nat sz);
  n ← getNode node;
  setNode node (set_zl n (<[i := ZStr vstr]> (n_zl n)));;
  mret (Some vstr).

Definition quicklistPop (ql : addr) (where_ : Z) (out : popout)
    : M (Z * popout) :=
  l ← getList ql;
  if q_count l =? 0 then mret (0, out)
  else
    '(ret, (vstr, vlen, vlong)) ←
      quicklistPopCustom ql where_ (None, 0, 0) _quicklistSaver;
    mret (ret, (vstr, vlen, vlong)).

Definition quicklistPush (ql : addr) (fill : Z) (value : string) (where_ : Z)
    : M unit :=
  if where_ =? QUICKLIST_HEAD then quicklistPushHead ql fill value;; mret tt
  else if where_ =? QUICKLIST_TAIL then quicklistPushTail ql fill value;; mret tt
  else mret tt.

(** ** Reading a list back from the store *)

(** The nodes reachable from [p] by following [next], in order. *)
Fixpoint chain_from (fuel : nat) (σ : mem) (p : ptr)
    : option (list (addr * quicklistNode)) :=
  match p with
  | None => Some []
  | Some a =>
      match fuel with
      | O => None
      | S fuel' =>
          match nodes σ !! a with
          | None => None
          | Some n => ((a, n) ::.) <$> chain_from fuel' σ (n_next n)
          end
      end
  end.

Definition quicklistNodes (σ : mem) (ql : addr)
    : option (list (addr * quicklistNode)) :=
  match lists σ !! ql with
  | None => None
  | Some l => chain_from (S (size (nodes σ))) σ (q_head l)
  end.

Definition quicklistEntries (σ : mem) (ql : addr) : option (list zlentry) :=
  (λ ns, concat (map (λ an, n_zl an.2) ns)) <$> quicklistNodes σ ql.

(** A store with nothing allocated, in which fresh allocations are filled
    with zero bytes and no forged address can be read. *)
Fixpoint zeros (n : nat) : string :=
  match n with
  | O => EmptyString
  | S k => String "000"%char (zeros k)
  end.

Definition emptyMem : mem :=
  mkMem ∅ ∅ 1%positive zeros (λ _ _, None).

(** * Specification-level definitions *)

Definition wp {A : Type} (m : M A) (σ : mem) (Q : A → mem → Prop) : Prop :=
  match m σ with
  | Done (a, σ') => Q a σ'
  | _ => False
  end.

(** Structure of the chain *)
Definition link_of (σ : mem) (a : addr) : option (ptr * ptr) :=
  (λ n, (n_prev n, n_next n)) <$> nodes σ !! a.

Definition payload (σ : mem) (a : addr) : option (ziplist * Z) :=
  (λ n, (n_zl n, n_count n)) <$> nodes σ !! a.

Definition links (σ : mem) (ns : list addr) : Prop :=
  ∀ l1 a l2, ns = l1 ++ a :: l2 → link_of σ a = Some (last l1, head l2).

Record dll (σ : mem) (ql : addr) (ns : list addr) : Prop := mkDll {
  dll_nodup : NoDup ns;
  dll_links : links σ ns;
  dll_hdr : ∃ l, lists σ !! ql = Some l ∧ q_head l = head ns ∧
                 q_tail l = last ns ∧ q_len l = Z.of_nat (length ns);
  dll_len : Z.of_nat (length ns) < 2 ^ 64
}.

Definition upd_next (x : ptr) (l : option (ptr * ptr)) : option (ptr * ptr) :=
  (λ pn, (pn.1, x)) <$> l.

Definition upd_prev (x : ptr) (l : option (ptr * ptr)) : option (ptr * ptr) :=
  (λ pn, (x, pn.2)) <$> l.

(** What [__quicklistInsertNode] leaves alone. *)
Record relinked (X : list addr) (ql : addr) (σ σ' : mem) : Prop := mkRelinked {
  rl_payload : ∀ a, payload σ' a = payload σ a;
  rl_nodes : ∀ a, a ∉ X → nodes σ' !! a = nodes σ !! a;
  rl_lists : ∀ q, q ≠ ql → lists σ' !! q = lists σ !! q;
  rl_count : q_count <$> lists σ' !! ql = q_count <$> lists σ !! ql;
  rl_brk : brk σ' = brk σ;
  rl_uninit : uninit σ' = uninit σ;
  rl_stray : stray σ' = stray σ
}.

(** What [__quicklistDelNode] does to the store around the chain [X]. *)
Record unlinked (X : list addr) (a : addr) (c : Z) (ql : addr) (σ σ' : mem)
    : Prop := mkUnlinked {
  ul_payload : ∀ b, b ≠ a → payload σ' b = payload σ b;
  ul_gone : nodes σ' !! a = None;
  ul_nodes : ∀ b, b ∉ X → nodes σ' !! b = nodes σ !! b;
  ul_lists : ∀ q, q ≠ ql → lists σ' !! q = lists σ !! q;
  ul_count : q_count <$> lists σ' !! ql =
             (λ l, wrap64 (q_count l - c)) <$> lists σ !! ql;
  ul_brk : brk σ' = brk σ;
  ul_uninit : uninit σ' = uninit σ;
  ul_stray : stray σ' = stray σ
}.

(** ** Invariants *)

Definition INT_MAX : Z := 2 ^ 31 - 1.

Definition heap_ok (σ : mem) : Prop :=
  (∀ (a : addr) n, nodes σ !! a = Some n → (a < brk σ)%positive) ∧
  (∀ (q : addr) l, lists σ !! q = Some l → (q < brk σ)%positive).

Definition node_ok (n : quicklistNode) : Prop :=
  n_count n = Z.of_nat (length (n_zl n)) ∧ 0 < n_count n ≤ INT_MAX.

Definition nodes_ok (σ : mem) (ns : list addr) : Prop :=
  ∀ a, a ∈ ns → ∃ n, nodes σ !! a = Some n ∧ node_ok n.

Definition count_at (σ : mem) (a : addr) : Z :=
  match nodes σ !! a with
  | Some n => n_count n
  | None => 0
  end.

Fixpoint counts (σ : mem) (ns : list addr) : Z :=
  match ns with
  | [] => 0
  | a :: ns' => count_at σ a + counts σ ns'
  end.

Record shape (σ : mem) (ql : addr) (ns : list addr) : Prop := mkShape {
  sh_heap : heap_ok σ;
  sh_dll : dll σ ql ns;
  sh_nodes : nodes_ok σ ns
}.

Record qinv (σ : mem) (ql : addr) (ns : list addr) : Prop := mkQinv {
  qi_shape : shape σ ql ns;
  qi_count : q_count <$> lists σ !! ql = Some (counts σ ns);
  qi_cap : counts σ ns < 2 ^ 64
}.

(** The part of the store a call on list [ql] may change: the header of
    [ql], the nodes in [X] and what it allocates.  [X'] bounds the nodes the
    list owns afterwards. *)
Record frame (ql : addr) (X X' : list addr) (σ σ' : mem) : Prop := mkFrame {
  fr_brk : (brk σ ≤ brk σ')%positive;
  fr_nodes : ∀ a, a ∉ X → (a < brk σ)%positive →
                  nodes σ' !! a = nodes σ !! a;
  fr_lists : ∀ q, q ≠ ql → (q < brk σ)%positive →
                  lists σ' !! q = lists σ !! q;
  fr_chain : ∀ a, a ∈ X' → a ∈ X ∨ (brk σ ≤ a)%positive;
  fr_uninit : uninit σ' = uninit σ;
  fr_stray : stray σ' = stray σ
}.

(** ** Transport of the structure between stores *)

Definition hdr_of (σ : mem) (ql : addr) : option (ptr * ptr * Z) :=
  (λ l, (q_head l, q_tail l, q_len l)) <$> lists σ !! ql.

(** The nodes of a list in order, each with its block and cached count. *)
Definition chain : Type := list (addr * (ziplist * Z)).

Definition loose_addr (F : option (addr * quicklistNode)) : list addr :=
  match F with
  | Some (a, _) => [a]
  | None => []
  end.

(** [st σ0 X0 σ ql A cnt F]: in store [σ], list [ql] is the chain [A] with
    cached total [cnt], the call under way holds the detached node [F], and
    since the call started in [σ0] only the header of [ql], the nodes [X0]
    and fresh cells have changed. *)
Record st (σ0 : mem) (X0 : list addr) (σ : mem) (ql : addr) (A : chain)
    (cnt : Z) (F : option (addr * quicklistNode)) : Prop := mkSt {
  st_heap : heap_ok σ;
  st_dll : dll σ ql A.*1;
  st_pay : ∀ a p, (a, p) ∈ A → payload σ a = Some p;
  st_cnt : q_count <$> lists σ !! ql = Some cnt;
  st_loose : match F with
             | Some (a, n) => nodes σ !! a = Some n ∧ a ∉ A.*1
             | None => True
             end;
  st_frame : frame ql X0 (A.*1 ++ loose_addr F) σ0 σ
}.

(** ** Between the invariant and the chain value *)

Definition entry_ok (e : addr * (ziplist * Z)) : Prop :=
  e.2.2 = Z.of_nat (length e.2.1) ∧ 0 < e.2.2 ≤ INT_MAX.

Definition csum (A : chain) : Z := foldr (λ e s, e.2.2 + s) 0 A.

(** ** Pushing at either end *)

Definition push_head_abs (fill : Z) (v : string) (new : addr) (A : chain)
    : chain :=
  match A with
  | (h, (zl, c)) :: rest =>
      if c <? fill then (h, (zipEntry v :: zl, wrap32 (c + 1))) :: rest
      else (new, ([zipEntry v], wrap32 (0 + 1))) :: A
  | [] => [(new, ([zipEntry v], wrap32 (0 + 1)))]
  end.

Definition push_tail_abs (fill : Z) (v : string) (new : addr) (A : chain)
    : chain :=
  match last A with
  | Some (t, (zl, c)) =>
      if c <? fill
      then removelast A ++ [(t, (zl ++ [zipEntry v], wrap32 (c + 1)))]
      else A ++ [(new, ([zipEntry v], wrap32 (0 + 1)))]
  | None => [(new, ([zipEntry v], wrap32 (0 + 1)))]
  end.

(** [quicklistPush] dispatches on [where]. *)
Definition push_abs (fill : Z) (v : string) (where_ : Z) (new : addr)
    (A : chain) : chain :=
  if where_ =? QUICKLIST_HEAD then push_head_abs fill v new A
  else if where_ =? QUICKLIST_TAIL then push_tail_abs fill v new A
  else A.

(** ** Deleting one entry *)

Definition del_index_abs (A1 : chain) (a : addr) (zl : ziplist) (c : Z)
    (A2 : chain) (i : nat) : chain :=
  if wrap32 (c - 1) =? 0 then A1 ++ A2
  else A1 ++ (a, (delete i zl, wrap32 (c - 1))) :: A2.

Definition del_index_cnt (c cnt : Z) : Z :=
  if wrap32 (c - 1) =? 0 then wrap64 (wrap64 (cnt - 1) - wrap32 (c - 1))
  else wrap64 (cnt - 1).

(** What the caller of [quicklistPop] receives for entry [e]: for a byte
    string, the contents of the fresh allocation. *)
Definition pop_out (junk : nat → string) (e : zlentry) : popout :=
  match e with
  | ZStr s => (Some (junk (Z.to_nat (slen s))), slen s, -123456789)
  | ZInt v => (None, 0, v)
  end.

(** The node that holds entry [index] when counting from [accum], and the
    count of the entries before it. *)
Fixpoint seek (index accum : Z) (A : chain)
    : option (addr * (ziplist * Z)) * Z :=
  match A with
  | [] => (None, accum)
  | (a, (zl, c)) :: rest =>
      if wrap64 (accum + c) >? index then (Some (a, (zl, c)), accum)
      else seek index (wrap64 (accum + c)) rest
  end.

(** ** quicklistIndex *)

Definition index_abs (ql : addr) (idx : Z) (A : chain) (cnt : Z)
    : bool * quicklistEntry :=
  let forward := negb (idx <? 0) in
  let none := mkEntry (Some ql) None None None 0 (-123456789) 123456789 in
  let index := if forward then wrap64 idx else wrap64 (- idx - 1) in
  if index >=? cnt then (false, none)
  else
    match seek index 0 (if forward then A else rev A) with
    | (None, _) => (false, none)
    | (Some (a, (zl, c)), accum) =>
        let offset :=
          if forward then cast_int (wrap64 (index - accum))
          else cast_int (wrap64 (- index - 1 + accum)) in
        let zi := ziplistIndex zl offset in
        let '(_, (value, sz, longval)) :=
          ziplistGet zl zi (None, 0, -123456789) in
        (true, mkEntry (Some ql) (Some a) zi value sz longval offset)
    end.

(** The entry record [quicklistIndex] fills for position [i] of node [a]. *)
Definition entry_at (ql a : addr) (zl : ziplist) (i : nat) (offset : Z)
    : quicklistEntry :=
  let '(_, (value, sz, longval)) :=
    ziplistGet zl (Some i) (None, 0, -123456789) in
  mkEntry (Some ql) (Some a) (Some i) value sz longval offset.

(** ** The position an index names *)

Definition none_entry (ql : addr) : quicklistEntry :=
  mkEntry (Some ql) None None None 0 (-123456789) 123456789.

(** The position counted from the head that [idx] names. *)
Definition abs_pos (idx total : Z) : Z := if idx <? 0 then total + idx else idx.

(** Whether the head push of a rotation goes into the block of the tail
    node: the tail is the only node, and it has room. *)
Definition in_place (A1 : chain) (c fill : Z) : bool :=
  bool_decide (A1 = []) && (c <? fill).

(** The bytes [quicklistRotate] hands to [quicklistPushHead] for the tail
    entry [e] of the block [zl ++ [e]]: the string itself, read after the
    entries have moved when the push is in place, or what is stored at the
    address whose bit pattern is the integer. *)
Definition rotate_bytes (σ : mem) (A1 : chain) (zl : ziplist) (e : zlentry)
    (c fill : Z) : option string :=
  match e with
  | ZStr s =>
      if in_place A1 c fill then
        match last zl with
        | Some (ZStr s') =>
            if (String.length s' =? String.length s)%nat
               && kept_as_string s && kept_as_string s'
            then Some s' else None
        | _ => None
        end
      else Some s
  | ZInt v => stray σ v (String.length (lld v))
  end.

(** ** Splitting a node *)

Definition split_orig (zl : ziplist) (offset : Z) (after : bool) : ziplist :=
  ziplistDeleteRange zl (if after then cast_int (offset + 1) else 0)
                     (if after then -1 else offset).

Definition split_new (zl : ziplist) (offset : Z) (after : bool) : ziplist :=
  ziplistDeleteRange zl (if after then 0 else offset)
                     (if after then cast_int (offset + 1) else -1).

(** The bytes the merge loop reads from an entry, and the entry the codec
    stores when they are pushed again. *)
Definition entry_bytes (e : zlentry) : string :=
  match e with
  | ZStr s => s
  | ZInt v => lld v
  end.

Definition reenc (e : zlentry) : zlentry := zipEntry (entry_bytes e).

(** The decoded byte strings of the entries of a chain, in order. *)
Definition bytes (A : chain) : list string :=
  entry_bytes <$> concat (A.*2.*1).

Definition merge_abs (A1 : chain) (a : addr) (za : ziplist) (ca : Z)
    (b : addr) (zb : ziplist) (cb : Z) (A2 : chain) (cnt : Z)
    : ptr * chain * Z :=
  if (ca =? 0) || (cb =? 0)
  then (None, A1 ++ (a, (za, ca)) :: (b, (zb, cb)) :: A2, cnt)
  else if ca >? cb
  then (Some a,
        A1 ++ (a, (za ++ (reenc <$> zb), wrap32 (ca + Z.of_nat (length zb))))
           :: A2,
        wrap64 (cnt - wrap32 (cb - Z.of_nat (length zb))))
  else (Some b,
        A1 ++ (b, ((reenc <$> za) ++ zb, wrap32 (cb + Z.of_nat (length za))))
           :: A2,
        wrap64 (cnt - wrap32 (ca - Z.of_nat (length za)))).

(** The byte strings of the chain [A1 ++ (a, zl) :: A2] with [v] put in at
    position [k] of the block [zl]. *)
Definition insert_bytes (A1 : chain) (zl : ziplist) (A2 : chain) (k : nat)
    (v : string) : list string :=
  bytes A1 ++ (entry_bytes <$> take k zl) ++
  v :: (entry_bytes <$> drop k zl) ++ bytes A2.

(** [_quicklistInsert] next to position [i] of the node [(zl, c)] takes the
    branch that splits the node: the node is full, and on the side of the
    insertion the entry is not the outermost one of a node with a neighbour. *)
Definition split_at (A1 : chain) (zl : ziplist) (c : Z) (A2 : chain)
    (fill : Z) (i : nat) (after : bool) : Prop :=
  fill ≤ c ∧
  if after then (S i < length zl)%nat ∨ A2 = [] else (0 < i)%nat ∨ A1 = [].

Definition range_del (c extent offset : Z) : bool * Z :=
  if (offset =? 0) && (extent >=? c) then (true, c)
  else if (offset >=? 0) && (extent >? c) then (false, wrap32 (c - offset))
  else if offset <? 0
       then (false, if wrap64 (- offset) >? extent then extent
                    else wrap64 (- offset))
  else (false, extent).

(** The loop of [quicklistDelRange] on the chain: [A1] is what lies before
    the current node, [A2] starts at it; [None] when the loop runs off the
    end of the chain. *)
Fixpoint delrange_abs (A1 A2 : chain) (extent offset cnt : Z)
    : option (chain * Z) :=
  if extent =? 0 then Some (A1 ++ A2, cnt)
  else
    match A2 with
    | [] => None
    | (a, (zl, c)) :: rest =>
        let '(entire, del) := range_del c extent offset in
        if entire : bool
        then delrange_abs A1 rest (wrap64 (extent - del)) 0 (wrap64 (cnt - c))
        else
          let zl' := ziplistDeleteRange zl offset del in
          let c' := wrap32 (c - del) in
          let cnt' := wrap64 (cnt - del) in
          if c' =? 0
          then delrange_abs A1 rest (wrap64 (extent - del)) 0
                            (wrap64 (cnt' - c'))
          else delrange_abs (A1 ++ [(a, (zl', c'))]) rest
                            (wrap64 (extent - del)) 0 cnt'
    end.

Definition delrange_post (σ0 : mem) (X0 : list addr) (ql : addr)
    (F : option (addr * quicklistNode)) (res : option (chain * Z))
    (o : outcome (unit * mem)) : Prop :=
  match res with
  | Some (B, cnt') => ∃ σ', o = Done (tt, σ') ∧ st σ0 X0 σ' ql B cnt' F
  | None => o = Fault
  end.

(** The first node of a range is left with a count that differs from the
    number of its entries when the range starts past the node's first entry
    and ends beyond its last one without being longer than the node. *)
Definition crossing (c offset extent : Z) : Prop :=
  0 < offset ∧ c - offset < extent < c.

(** The number of entries [quicklistDelRange] sets out to delete. *)
Definition delrange_extent (total start count : Z) : Z :=
  if (start >=? 0) && (wrap64 count >? wrap64 (total - start)) then total
  else if (start <? 0) && (wrap64 count >? wrap64 (total - (- start) + 1))
       then wrap64 (- start)
       else wrap64 count.

(** An iterator of list [ql] whose current node, if it still exists, is a
    node of the chain. *)
Definition iter_ok (σ : mem) (ql : addr) (A : chain) (it : quicklistIter)
    : Prop :=
  i_quicklist it = Some ql ∧
  match i_current it with
  | None => True
  | Some c => c ∈ A.*1 ∨ nodes σ !! c = None
  end.

(** An entry that names an existing position of the chain. *)
Definition entry_in (ql : addr) (A : chain) (e : quicklistEntry) : Prop :=
  e_quicklist e = Some ql ∧
  ∃ A1 a zl c A2 i, A = A1 ++ (a, (zl, c)) :: A2 ∧ e_node e = Some a ∧
    e_zi e = Some i ∧ (i < length zl)%nat.

(** ** Creation and duplication *)

Definition created (σ : mem) : mem :=
  mkMem (nodes σ) (<[brk σ := mkList None None 0 0]> (lists σ))
        (Pos.succ (brk σ)) (uninit σ) (stray σ).

(** Every node record of the chain [A], as the store holds it. *)
Definition linked (σ : mem) (A : chain) : Prop :=
  ∀ A1 a zl c A2, A = A1 ++ (a, (zl, c)) :: A2 →
    nodes σ !! a = Some (mkNode (last A1.*1) (head A2.*1) zl c).

(** What [quicklistDup] leaves of the store it started from: nothing that
    was allocated is changed. *)
Definition kept (σ σ' : mem) : Prop :=
  (∀ a, (a < brk σ)%positive → nodes σ' !! a = nodes σ !! a) ∧
  (∀ q, (q < brk σ)%positive → lists σ' !! q = lists σ !! q) ∧
  (brk σ ≤ brk σ')%positive ∧ uninit σ' = uninit σ ∧ stray σ' = stray σ.

(** ** The invariants, read back from the store *)

Definition sumZ (l : list Z) : Z := foldr Z.add 0 l.

(** The three invariants of a list, checked on the store: the cached total
    is the sum of the node counts along the chain, no node of the chain has
    count 0, and head, tail, length and total are empty together. *)
Definition ql_invariants (σ : mem) (ql : addr) : bool :=
  match lists σ !! ql, quicklistNodes σ ql with
  | Some l, Some ns =>
      (q_count l =? sumZ ((λ an, n_count an.2) <$> ns)) &&
      forallb (λ an, negb (n_count an.2 =? 0)) ns &&
      bool_decide ((q_head l = None ↔ q_tail l = None) ∧
                   (q_tail l = None ↔ q_len l = 0) ∧
                   (q_len l = 0 ↔ q_count l = 0))
  | _, _ => false
  end.

(** The node records of a chain whose first node has [prev] before it. *)
Fixpoint recs (prev : ptr) (A : chain) : list (addr * quicklistNode) :=
  match A with
  | [] => []
  | (a, (zl, c)) :: rest =>
      (a, mkNode prev (head rest.*1) zl c) :: recs (Some a) rest
  end.

(** [quicklistDelRange ql start count] starts past the first entry of a node
    and ends beyond that node without being longer than it. *)
Definition crosses (σ : mem) (ql : addr) (start count : Z) : Prop :=
  ∃ l e a n, lists σ !! ql = Some l ∧
    quicklistIndex ql start initEntry σ = Done ((true, e), σ) ∧
    e_node e = Some a ∧ nodes σ !! a = Some n ∧
    crossing (n_count n) (e_offset e)
             (delrange_extent (q_count l) start count).

(** [quicklistRotate ql fill] reads its tail entry and then pushes into the
    very block that entry lies in: the list has a single node, and that node
    has room. *)
Definition rotates_in_place (σ : mem) (ql : addr) (fill : Z) : Prop :=
  ∃ l h n, lists σ !! ql = Some l ∧ 1 < q_count l ∧
    q_head l = Some h ∧ q_tail l = Some h ∧
    nodes σ !! h = Some n ∧ n_count n < fill.

(** [_quicklistInsert] next to [e] takes the branch that splits the node of
    [e]: the node is full, and on the side of the insertion the entry is not
    the outermost one of a node with a neighbour. *)
Definition splits (σ : mem) (fill : Z) (e : quicklistEntry) (after : bool)
    : Prop :=
  ∃ a n i, e_node e = Some a ∧ nodes σ !! a = Some n ∧ e_zi e = Some i ∧
    fill ≤ n_count n ∧
    if after then ziplistNext (n_zl n) i ≠ None ∨ n_next n = None
    else ziplistPrev (n_zl n) i ≠ None ∨ n_prev n = None.

(** One completed public operation that changes list [ql], called within
    the capacity of the counters. *)
Inductive step (ql : addr) (σ σ' : mem) : Prop :=
| step_pushHead fill v l r :
    0 ≤ fill ≤ INT_MAX → lists σ !! ql = Some l → q_count l + 1 < 2 ^ 64 →
    quicklistPushHead ql fill v σ = Done (r, σ') → step ql σ σ'
| step_pushTail fill v l r :
    0 ≤ fill ≤ INT_MAX → lists σ !! ql = Some l → q_count l + 1 < 2 ^ 64 →
    quicklistPushTail ql fill v σ = Done (r, σ') → step ql σ σ'
| step_push fill v where_ l r :
    0 ≤ fill ≤ INT_MAX → lists σ !! ql = Some l → q_count l + 1 < 2 ^ 64 →
    quicklistPush ql fill v where_ σ = Done (r, σ') → step ql σ σ'
| step_ingest zl l r :
    (0 < length zl)%nat → Z.of_nat (length zl) ≤ INT_MAX →
    lists σ !! ql = Some l → q_count l + Z.of_nat (length zl) < 2 ^ 64 →
    quicklistPushTailZiplist ql zl σ = Done (r, σ') → step ql σ σ'
| step_pop where_ out r :
    quicklistPop ql where_ out σ = Done (r, σ') → step ql σ σ'
| step_rotate fill l r :
    0 ≤ fill ≤ INT_MAX → lists σ !! ql = Some l → q_count l + 1 < 2 ^ 64 →
    quicklistRotate ql fill σ = Done (r, σ') → step ql σ σ'
| step_replace idx data r :
    LLONG_MIN ≤ idx ≤ LLONG_MAX →
    quicklistReplaceAtIndex ql idx data σ = Done (r, σ') → step ql σ σ'
| step_insert fill idx v (after : bool) l found e r :
    0 ≤ fill ≤ INT_MAX → LLONG_MIN ≤ idx ≤ LLONG_MAX →
    lists σ !! ql = Some l → q_count l + 1 < 2 ^ 64 →
    quicklistIndex ql idx initEntry σ = Done ((found, e), σ) →
    found = true ∨ q_len l = 0 →
    (idx < 0 → ¬ splits σ fill e after) →
    (if after then quicklistInsertAfter ql fill e v
     else quicklistInsertBefore ql fill e v) σ = Done (r, σ') →
    step ql σ σ'
| step_delRange start count r :
    LLONG_MIN ≤ start ≤ LLONG_MAX → count ≤ LLONG_MAX →
    ¬ crosses σ ql start count →
    quicklistDelRange ql start count σ = Done (r, σ') → step ql σ σ'
| step_dup r :
    quicklistDup ql σ = Done (r, σ') → step ql σ σ'.

(** What a client holding list [ql] and at most one iterator over it does
    next: a mutation (which invalidates the iterator), taking an iterator,
    advancing it, or deleting the entry it has just produced. *)
Inductive act (ql : addr)
    : mem * option quicklistIter → mem * option quicklistIter → Prop :=
| act_step σ oit σ' :
    step ql σ σ' → act ql (σ, oit) (σ', None)
| act_iter σ oit dir it σ' :
    quicklistGetIterator ql dir σ = Done (it, σ') →
    act ql (σ, oit) (σ', Some it)
| act_iter_at σ oit dir idx it σ' :
    quicklistGetIteratorAtIdx ql dir idx σ = Done (Some it, σ') →
    act ql (σ, oit) (σ', Some it)
| act_next σ it found it' e σ' :
    quicklistNext it σ = Done ((found, it', e), σ') →
    act ql (σ, Some it) (σ', Some it')
| act_del σ it it' e σ1 it'' e' σ' :
    quicklistNext it σ = Done ((true, it', e), σ1) →
    quicklistDelEntry it' e σ1 = Done ((it'', e'), σ') →
    act ql (σ, Some it) (σ', Some it'').

Inductive acts (ql : addr)
    : mem * option quicklistIter → mem * option quicklistIter → Prop :=
| acts_nil s : acts ql s s
| acts_snoc s s' s'' : acts ql s s' → act ql s' s'' → acts ql s s''.

(** The states of list [ql] that a client can reach from its creation. *)
Definition live (ql : addr) (σ : mem) (oit : option quicklistIter) : Prop :=
  ∃ σ0 σ1, heap_ok σ0 ∧ quicklistCreate σ0 = Done (ql, σ1) ∧
           acts ql (σ1, None) (σ, oit).

(** The chain [A] is the list [ql] of the store, and is well formed. *)
Definition good (σ : mem) (ql : addr) (A : chain) : Prop :=
  st σ A.*1 σ ql A (csum A) None ∧ Forall entry_ok A ∧ csum A < 2 ^ 64.

Definition oiter_ok (σ : mem) (ql : addr) (A : chain)
    (oit : option quicklistIter) : Prop :=
  match oit with
  | Some it => iter_ok σ ql A it
  | None => True
  end.

(** The chain a list of node records stands for. *)
Definition chain_of (ns : list (addr * quicklistNode)) : chain :=
  (λ an, (an.1, (n_zl an.2, n_count an.2))) <$> ns.

(** A run of pushes on list [ql] with fill factor [fill]; [true] pushes at
    the head, [false] at the tail. *)
Fixpoint push_all (ql : addr) (fill : Z) (ops : list (bool * string))
    : M unit :=
  match ops with
  | [] => mret tt
  | (at_head, v) :: rest =>
      (if at_head : bool then quicklistPushHead ql fill v
       else quicklistPushTail ql fill v);;
      push_all ql fill rest
  end.

(** The store after the program [prog] has run from the empty store. *)
Definition store_after {A : Type} (prog : M A) : mem :=
  match prog emptyMem with
  | Done (_, σ) => σ
  | _ => emptyMem
  end.

(** A list of two nodes, ["a"; "b"] and ["c"], built with fill factor 2. *)
Definition demo : mem :=
  Eval vm_compute in
    store_after (ql ← quicklistCreate;
                 quicklistPushTail ql 2 "a";;
                 quicklistPushTail ql 2 "b";;
                 quicklistPushTail ql 2 "c").

(** A single node with room, ["a"; "b"; "c"] under fill factor 4. *)
Definition abc : mem :=
  Eval vm_compute in
    store_after (ql ← quicklistCreate;
                 quicklistPushTail ql 4 "a";;
                 quicklistPushTail ql 4 "b";;
                 quicklistPushTail ql 4 "c").

(** [abc] after a rotation with the same fill factor: the head push went
    into the block of the tail. *)
Definition rotated : mem :=
  Eval vm_compute in
    match quicklistRotate 1%positive 4 abc with
    | Done (_, σ) => σ
    | _ => abc
    end.

(** ** C10: pushes with fill factor 0 *)

Definition single (e : addr * (ziplist * Z)) : Prop :=
  e.2.2 = 1 ∧ length e.2.1 = 1%nat.

(** List [ql] of the store is a well-linked chain: [head] and [tail] are its
    two ends, [prev] and [next] agree along it, [len] is its length and no
    cell occurs twice.  The cached total is left open: where the merge pass
    runs, inside [_quicklistInsert], the new entry is in its node already
    and [quicklist->count++] is still to come. *)
Definition well_linked (σ : mem) (ql : addr) : Prop :=
  ∃ (A : chain) cnt, st σ A.*1 σ ql A cnt None.

(** Five entries pushed at the tail with fill factor 4: the nodes
    ["a"; "b"; "c"; "d"] and ["e"]. *)
Definition five : mem :=
  Eval vm_compute in
    store_after (ql ← quicklistCreate;
                 push_all ql 4 [(false, "a"); (false, "b"); (false, "c");
                                (false, "d"); (false, "e")]%string).

(** The statements of [_quicklistInsert] that come before the merge pass
    when the node is full and the entry is not at its end: the split, the
    push into the new node and the linking of the new node. *)
Definition insert_until_merge (ql node : addr) (offset : Z) (value : string)
    (after : bool) : M unit :=
  new_node ← _quicklistSplitNode node offset after;
  nn ← getNode new_node;
  setNode new_node
    (set_zl nn (ziplistPush (n_zl nn) value
                  (if after then ZIPLIST_HEAD else ZIPLIST_TAIL)));;
  nn ← getNode new_node;
  setNode new_node (set_count nn (wrap32 (n_count nn + 1)));;
  __quicklistInsertNode ql (Some node) new_node after.

(** The store in which [quicklistInsertAfter] starts its merge pass when "x"
    is inserted after index 1 of [five] with fill factor 4: the nodes
    ["a"; "b"], ["x"; "c"; "d"] and ["e"], and a total of 5. *)
Definition mid_insert : mem :=
  Eval vm_compute in
    match insert_until_merge 1%positive 2%positive 1 "x" true five with
    | Done (_, σ) => σ
    | _ => five
    end.

(** The store after the first [n] of the five pushes. *)
Definition pushed (n : nat) : mem :=
  store_after (ql ← quicklistCreate;
               push_all ql 4 (take n [(false, "a"); (false, "b"); (false, "c");
                                      (false, "d"); (false, "e")]%string)).

(** The lookup record [e] carries the decoded entry [x]. *)
Definition entry_holds (e : quicklistEntry) (x : zlentry) : Prop :=
  match x with
  | ZStr s => e_value e = Some s ∧ e_sz e = slen s
  | ZInt v => e_value e = None ∧ e_longval e = v
  end.

(** A list of two nodes, ["a"] and the integer 7, built with fill factor 1. *)
Definition demo7 : mem :=
  Eval vm_compute in
    store_after (ql ← quicklistCreate;
                 quicklistPushTail ql 1 "a";;
                 quicklistPushTail ql 1 "7").

(** The client loop the source documents for an iterator,
    [while (quicklistNext(iter, &entry)) ...], run for at most [n] rounds;
    it collects the records the rounds produce. *)
Fixpoint iterate (n : nat) (it : quicklistIter) : M (list quicklistEntry) :=
  match n with
  | O => mret []
  | S n' =>
      '(found, it', e) ← quicklistNext it;
      if found : bool then es ← iterate n' it'; mret (e :: es)
      else mret []
  end.

(** The iterator [quicklistGetIterator] returns at the head of [demo]. *)
Definition demo_it : quicklistIter :=
  mkIter (Some 1%positive) (Some 2%positive) None 0 AL_START_HEAD.

(** [quicklistDelRange ql start count] starts past the first entry of a node
    and ends at the end of that node or beyond it, without being longer
    than the node. *)
Definition overruns (σ : mem) (ql : addr) (start count : Z) : Prop :=
  ∃ e a n, quicklistIndex ql start initEntry σ = Done ((true, e), σ) ∧
    e_node e = Some a ∧ nodes σ !! a = Some n ∧
    0 < e_offset e ∧ n_count n - e_offset e < count ≤ n_count n.

(** * Proofs *)

Set Warnings "-clear-no-such-hyp".

Lemma wp_ret {A} (a : A) σ (Q : A → mem → Prop) : Q a σ → wp (mret a) σ Q.
Proof. done. Qed.

Lemma wp_bind {A B} (m : M A) (f : A → M B) σ (Q : B → mem → Prop) :
  wp m σ (λ a σ', wp (f a) σ' Q) → wp (m ≫= f) σ Q.
Proof.
  unfold wp, mbind, M_bind. destruct (m σ) as [[a σ']| |]; done.
Qed.

Lemma wp_mono {A} (m : M A) σ (Q Q' : A → mem → Prop) :
  wp m σ Q → (∀ a σ', Q a σ' → Q' a σ') → wp m σ Q'.
Proof. unfold wp. destruct (m σ) as [[a σ']| |]; auto. Qed.

Lemma wp_done {A} (m : M A) σ (Q : A → mem → Prop) :
  wp m σ Q ↔ ∃ a σ', m σ = Done (a, σ') ∧ Q a σ'.
Proof.
  unfold wp. destruct (m σ) as [[a σ']| |]; split; try done.
  - eauto.
  - by intros (? & ? & [= <- <-] & ?).
  - by intros (? & ? & ? & ?).
  - by intros (? & ? & ? & ?).
Qed.

Lemma wp_getNode a n σ (Q : quicklistNode → mem → Prop) :
  nodes σ !! a = Some n → Q n σ → wp (getNode a) σ Q.
Proof. unfold wp, getNode. by intros ->. Qed.

Lemma wp_setNode a n n0 σ (Q : unit → mem → Prop) :
  nodes σ !! a = Some n0 →
  Q tt (with_nodes σ (<[a := n]> (nodes σ))) → wp (setNode a n) σ Q.
Proof. unfold wp, setNode. by intros ->. Qed.

Lemma wp_getList q l σ (Q : quicklist → mem → Prop) :
  lists σ !! q = Some l → Q l σ → wp (getList q) σ Q.
Proof. unfold wp, getList. by intros ->. Qed.

Lemma wp_setList q l l0 σ (Q : unit → mem → Prop) :
  lists σ !! q = Some l0 →
  Q tt (with_lists σ (<[q := l]> (lists σ))) → wp (setList q l) σ Q.
Proof. unfold wp, setList. by intros ->. Qed.

Lemma wp_freeNode a n0 σ (Q : unit → mem → Prop) :
  nodes σ !! a = Some n0 →
  Q tt (with_nodes σ (delete a (nodes σ))) → wp (freeNode a) σ Q.
Proof. unfold wp, freeNode. by intros ->. Qed.

Lemma wp_deref a σ (Q : addr → mem → Prop) : Q a σ → wp (deref (Some a)) σ Q.
Proof. done. Qed.

Lemma wp_allocNode n σ (Q : addr → mem → Prop) :
  Q (brk σ) (mkMem (<[brk σ := n]> (nodes σ)) (lists σ) (Pos.succ (brk σ))
                   (uninit σ) (stray σ)) →
  wp (allocNode n) σ Q.
Proof. done. Qed.

Lemma wp_allocList l σ (Q : addr → mem → Prop) :
  Q (brk σ) (mkMem (nodes σ) (<[brk σ := l]> (lists σ)) (Pos.succ (brk σ))
                   (uninit σ) (stray σ)) →
  wp (allocList l) σ Q.
Proof. done. Qed.

Lemma wp_chainFuel σ (Q : nat → mem → Prop) :
  Q (S (size (nodes σ))) σ → wp chainFuel σ Q.
Proof. done. Qed.

Ltac mem_simpl :=
  cbn [nodes lists brk uninit stray with_nodes with_lists with_brk
       n_prev n_next n_zl n_count set_prev set_next set_zl set_count
       q_head q_tail q_len q_count set_head set_tail set_len set_qcount
       fst snd head last].

Ltac map_lookup :=
  mem_simpl;
  first [ eassumption
        | by simplify_map_eq
        | rewrite lookup_insert_eq; reflexivity
        | (rewrite lookup_insert_ne by congruence); map_lookup ].

Ltac wp_step :=
  lazymatch goal with
  | |- wp (mret _) _ _ => apply wp_ret
  | |- wp (_ ≫= _) _ _ => apply wp_bind
  | |- wp (getNode _) _ _ => eapply wp_getNode; [map_lookup|]
  | |- wp (setNode _ _) _ _ => eapply wp_setNode; [map_lookup|]
  | |- wp (getList _) _ _ => eapply wp_getList; [map_lookup|]
  | |- wp (setList _ _) _ _ => eapply wp_setList; [map_lookup|]
  | |- wp (freeNode _) _ _ => eapply wp_freeNode; [map_lookup|]
  | |- wp (deref (Some _)) _ _ => apply wp_deref
  | |- wp (allocNode _) _ _ => apply wp_allocNode
  | |- wp (allocList _) _ _ => apply wp_allocList
  | |- wp chainFuel _ _ => apply wp_chainFuel
  end;
  mem_simpl; rewrite ?insert_insert_eq.

Ltac wp_steps := repeat wp_step.

Lemma link_of_Some σ a p x :
  link_of σ a = Some (p, x) ↔ ∃ n, nodes σ !! a = Some n ∧ n_prev n = p ∧ n_next n = x.
Proof.
  unfold link_of. destruct (nodes σ !! a) as [n|]; cbn; split.
  - intros [= <- <-]. eauto.
  - intros (? & [= <-] & <- & <-). done.
  - done.
  - intros (? & ? & _). done.
Qed.

Lemma head_cons_split {A} (l : list A) x : head l = Some x → ∃ l', l = x :: l'.
Proof. destruct l; [done|]. intros [= ->]. eauto. Qed.

Lemma last_snoc_split {A} (l : list A) x : last l = Some x → ∃ l', l = l' ++ [x].
Proof.
  destruct l as [|y l] using rev_ind; [done|].
  rewrite last_snoc. intros [= ->]. eauto.
Qed.

Lemma NoDup_split_unique {A} (m1 m2 k1 k2 : list A) b :
  NoDup (m1 ++ b :: m2) → m1 ++ b :: m2 = k1 ++ b :: k2 → m1 = k1 ∧ m2 = k2.
Proof.
  intros Hnd Heq.
  assert (Hnd' : NoDup (k1 ++ b :: k2)) by by rewrite <- Heq.
  apply NoDup_app in Hnd as (_ & Hm & _).
  apply NoDup_app in Hnd' as (_ & Hk & _).
  destruct (not_elem_of_app_cons_inv_l b b m1 m2 k1 k2) as (? & _ & ?); auto.
  - intros Hin. apply (Hk _ Hin). left.
  - intros Hin. apply (Hm _ Hin). left.
Qed.

Lemma last_app_snoc {A} (l k : list A) c : last (l ++ k ++ [c]) = Some c.
Proof. by rewrite app_assoc, last_snoc. Qed.

Lemma last_app_cons_snoc {A} (l k : list A) x c :
  last (l ++ x :: k ++ [c]) = Some c.
Proof. by rewrite app_comm_cons, app_assoc, last_snoc. Qed.

Ltac in_list :=
  repeat (rewrite ?elem_of_app, ?elem_of_cons, ?elem_of_nil); tauto.

Ltac nodup_contra H :=
  exfalso; clear -H; repeat (rewrite ?NoDup_app, ?NoDup_cons in H); set_solver.

Lemma links_insert σ σ' l1 l2 new :
  links σ (l1 ++ l2) → NoDup (l1 ++ new :: l2) →
  link_of σ' new = Some (last l1, head l2) →
  (∀ a, a ∈ l1 ++ l2 → Some a ≠ last l1 → Some a ≠ head l2 →
        link_of σ' a = link_of σ a) →
  (∀ o, last l1 = Some o → link_of σ' o = upd_next (Some new) (link_of σ o)) →
  (∀ x, head l2 = Some x → link_of σ' x = upd_prev (Some new) (link_of σ x)) →
  links σ' (l1 ++ new :: l2).
Proof.
  intros Hl Hnd Hnew Hsame Ho Hx m1 b m2 Heq.
  assert (Hb : b ∈ l1 ++ new :: l2) by (rewrite Heq; set_solver).
  rewrite elem_of_app, elem_of_cons in Hb.
  destruct Hb as [Hb | [-> | Hb]].
  - apply list_elem_of_split in Hb as (k1 & k2 & ->).
    rewrite <- app_assoc in Heq, Hnd, Hl. cbn in Heq, Hnd, Hl.
    apply NoDup_split_unique in Heq as [<- <-]; [|done].
    specialize (Hl k1 b (k2 ++ l2) eq_refl).
    destruct k2 as [|c k2].
    + cbn in *. rewrite (Ho b) by apply last_snoc. rewrite Hl. done.
    + rewrite Hsame, Hl; [done|set_solver| |].
      * rewrite last_app_cons, last_cons_cons. intros Hc.
        destruct (last_snoc_split (c :: k2) b) as [k' Hk']; [done|].
        rewrite Hk' in Hnd. nodup_contra Hnd.
      * intros Hc. destruct (head_cons_split l2 b) as [l2' ->]; [done|].
        nodup_contra Hnd.
  - apply NoDup_split_unique in Heq as [<- <-]; done.
  - apply list_elem_of_split in Hb as (k1 & k2 & ->).
    assert (Heq' : (l1 ++ new :: k1) ++ b :: k2 = m1 ++ b :: m2)
      by by rewrite <- app_assoc.
    apply NoDup_split_unique in Heq' as [<- <-];
      [|by rewrite <- app_assoc].
    specialize (Hl (l1 ++ k1) b k2). rewrite <- app_assoc in Hl.
    specialize (Hl eq_refl).
    destruct k1 as [|c k1 _] using rev_ind.
    + cbn in *. rewrite app_nil_r in *. rewrite (Hx b) by done. rewrite Hl.
      cbn. by rewrite last_snoc.
    + rewrite Hsame, Hl; [|set_solver| |].
      * by rewrite last_app_snoc, last_app_cons_snoc.
      * intros Hc. destruct (last_snoc_split l1 b) as [l1' ->]; [done|].
        nodup_contra Hnd.
      * destruct k1 as [|d k1]; cbn; intros [= ->]; nodup_contra Hnd.
Qed.

Lemma links_delete σ σ' l1 l2 a :
  links σ (l1 ++ a :: l2) → NoDup (l1 ++ a :: l2) →
  (∀ b, b ∈ l1 ++ l2 → b ≠ a → Some b ≠ last l1 → Some b ≠ head l2 →
        link_of σ' b = link_of σ b) →
  (∀ o, last l1 = Some o → o ≠ a →
        link_of σ' o = upd_next (head l2) (link_of σ o)) →
  (∀ x, head l2 = Some x → x ≠ a →
        link_of σ' x = upd_prev (last l1) (link_of σ x)) →
  links σ' (l1 ++ l2).
Proof.
  intros Hl Hnd Hsame Ho Hx m1 b m2 Heq.
  assert (Hnd' : NoDup (l1 ++ l2)).
  { apply NoDup_app in Hnd as (? & ? & [? ?]%NoDup_cons).
    apply NoDup_app. clear -H H0 H1 H2. set_solver. }
  assert (Hb : b ∈ l1 ++ l2) by (rewrite Heq; in_list).
  assert (Hba : b ≠ a).
  { intros ->. clear -Hb Hnd. rewrite elem_of_app in Hb.
    repeat (rewrite ?NoDup_app, ?NoDup_cons in Hnd). set_solver. }
  rewrite elem_of_app in Hb.
  destruct Hb as [Hb | Hb].
  - apply list_elem_of_split in Hb as (k1 & k2 & ->).
    rewrite <- app_assoc in Heq, Hnd', Hl. cbn in Heq, Hnd', Hl.
    apply NoDup_split_unique in Heq as [<- <-]; [|done].
    specialize (Hl k1 b (k2 ++ a :: l2) eq_refl).
    destruct k2 as [|c k2].
    + cbn in *. rewrite (Ho b) by (done || apply last_snoc). rewrite Hl. done.
    + rewrite Hsame, Hl; [done|in_list|done| |].
      * rewrite last_app_cons, last_cons_cons. intros Hc.
        destruct (last_snoc_split (c :: k2) b) as [k' Hk']; [done|].
        rewrite Hk' in Hnd'. nodup_contra Hnd'.
      * intros Hc. destruct (head_cons_split l2 b) as [l2' ->]; [done|].
        nodup_contra Hnd'.
  - apply list_elem_of_split in Hb as (k1 & k2 & ->).
    assert (Heq' : (l1 ++ k1) ++ b :: k2 = m1 ++ b :: m2)
      by by rewrite <- app_assoc.
    apply NoDup_split_unique in Heq' as [<- <-];
      [|by rewrite <- app_assoc].
    specialize (Hl (l1 ++ a :: k1) b k2). rewrite <- app_assoc in Hl.
    specialize (Hl eq_refl).
    destruct k1 as [|c k1 _] using rev_ind.
    + cbn in *. rewrite app_nil_r in *. rewrite (Hx b) by done. rewrite Hl.
      cbn. done.
    + rewrite Hsame, Hl; [|in_list|done| |].
      * by rewrite last_app_snoc, last_app_cons_snoc.
      * intros Hc. destruct (last_snoc_split l1 b) as [l1' ->]; [done|].
        nodup_contra Hnd'.
      * destruct k1 as [|d k1]; cbn; intros [= ->]; nodup_contra Hnd'.
Qed.

Lemma wrap64_small z : 0 ≤ z < 2 ^ 64 → wrap64 z = z.
Proof. intros. unfold wrap64. by apply Z.mod_small. Qed.

Lemma wrap32_small z : 0 ≤ z < 2 ^ 32 → wrap32 z = z.
Proof. intros. unfold wrap32. by apply Z.mod_small. Qed.

Ltac link_solve :=
  unfold link_of, payload, upd_next, upd_prev;
  mem_simpl;
  repeat first
    [ rewrite lookup_insert_eq
    | rewrite lookup_insert_ne by congruence
    | rewrite lookup_delete_eq
    | rewrite lookup_delete_ne by congruence ];
  try done.

(** Case analysis on the keys of the nested map updates around a lookup. *)
Ltac map_cases :=
  unfold link_of, payload, upd_next, upd_prev; mem_simpl;
  repeat match goal with
  | |- context [<[?k := _]> _ !! ?a] =>
      first [ rewrite (lookup_insert_eq _ k)
            | rewrite (lookup_insert_ne _ k a) by congruence
            | destruct (decide (k = a)) as [->|];
              [rewrite lookup_insert_eq
              |rewrite (lookup_insert_ne _ k a) by done] ]
  | |- context [delete ?k _ !! ?a] =>
      first [ rewrite (lookup_delete_eq _ k)
            | rewrite (lookup_delete_ne _ k a) by congruence
            | destruct (decide (k = a)) as [->|];
              [rewrite lookup_delete_eq
              |rewrite (lookup_delete_ne _ k a) by done] ]
  end;
  repeat match goal with
  | H : ?m !! ?a = Some _ |- context [?m !! ?a] => rewrite H
  | H : ?m !! ?a = None |- context [?m !! ?a] => rewrite H
  end;
  mem_simpl; try done.

Ltac notin_contra :=
  match goal with
  | H : ?a ∉ _ |- _ => exfalso; apply H; in_list
  end.

Ltac relinked_solve :=
  split; mem_simpl; try done; intros; map_cases; try notin_contra.

Lemma insert_node_spec σ ql l1 l2 new nn old after (Q : unit → mem → Prop) :
  dll σ ql (l1 ++ l2) →
  nodes σ !! new = Some nn → n_prev nn = None → n_next nn = None →
  new ∉ l1 ++ l2 →
  Z.of_nat (length (l1 ++ l2)) + 1 < 2 ^ 64 →
  (if after : bool then old = last l1 ∧ (l1 = [] → l2 = [])
   else old = head l2 ∧ (l2 = [] → l1 = [])) →
  (∀ σ', dll σ' ql (l1 ++ new :: l2) →
         relinked (l1 ++ new :: l2) ql σ σ' → Q tt σ') →
  wp (__quicklistInsertNode ql old new after) σ Q.
Proof.
  intros [Hnd Hl (l & Hql & Hhd & Htl & Hlen) Hbound] Hnew Hp Hn Hfresh Hcap Hold HQ.
  assert (Hnd' : NoDup (l1 ++ new :: l2)).
  { apply NoDup_app in Hnd as (? & ? & ?). apply NoDup_app.
    split; [done|]. split; [set_solver|]. apply NoDup_cons. set_solver. }
  unfold __quicklistInsertNode.
  destruct after.
  - destruct Hold as [-> Hemp].
    destruct l1 as [|o l1 _] using rev_ind.
    + rewrite (Hemp eq_refl) in *. cbn in *.
      wp_steps. rewrite decide_True by done.
      wp_steps. rewrite Hlen. change (Z.of_nat 0 =? 0) with true. cbn iota. wp_steps.
      apply HQ.
      * split; [done| | |done].
        -- apply (links_insert σ _ [] [] new); try done.
           ++ destruct nn; cbn in *; subst; link_solve.
           ++ intros a Ha. set_solver.
        -- eexists. split; [map_lookup|]. cbn. by rewrite Hlen.
      * relinked_solve.
    + rewrite last_snoc in *.
      assert (Hlo := Hl l1 o l2). rewrite <- app_assoc in Hlo.
      specialize (Hlo eq_refl).
      apply link_of_Some in Hlo as (no & Hno & Hnop & Hnon).
      assert (Hon : o ≠ new) by (intros ->; apply Hfresh; in_list).
      destruct l2 as [|x l2].
      * wp_steps. rewrite Hnon. cbn [head]. wp_steps.
        rewrite app_nil_r, last_snoc in Htl.
        rewrite decide_True by done. wp_steps.
        replace (q_len l =? 0) with false
          by (symmetry; apply Z.eqb_neq; rewrite Hlen, !length_app; cbn; lia).
        wp_steps. apply HQ.
        -- split; [done| | |].
           ++ apply (links_insert σ); try done.
              ** rewrite last_snoc. destruct nn; cbn in *; subst. map_cases.
              ** intros a Ha. rewrite last_snoc. intros ??. map_cases.
              ** intros o' Ho'. rewrite last_snoc in Ho'. injection Ho' as <-.
                 map_cases.
           ++ eexists. split; [map_lookup|]. mem_simpl.
              rewrite Hhd, app_nil_r, !head_app, last_snoc.
              split; [by destruct (head l1)|]. split; [done|].
              rewrite Hlen, !length_app in *. cbn in *.
              rewrite wrap64_small; lia.
           ++ rewrite !length_app in *. cbn in *. lia.
        -- relinked_solve.
      * assert (Hlx := Hl (l1 ++ [o]) x l2 eq_refl).
        rewrite last_snoc in Hlx.
        apply link_of_Some in Hlx as (nx & Hnx & Hnxp & Hnxn).
        assert (Hxn : x ≠ new) by (intros ->; apply Hfresh; in_list).
        assert (Hxo : x ≠ o) by (intros ->; nodup_contra Hnd).
        wp_steps. rewrite Hnon. cbn [head]. wp_steps.
        rewrite decide_False; last first.
        { rewrite Htl, last_app_cons. intros Hc.
          apply last_snoc_split in Hc as [k Hk]. rewrite Hk in Hnd.
          nodup_contra Hnd. }
        wp_steps.
        replace (q_len l =? 0) with false
          by (symmetry; apply Z.eqb_neq; rewrite Hlen, !length_app; cbn; lia).
        wp_steps. apply HQ.
        -- split; [done| | |].
           ++ apply (links_insert σ); try done.
              ** rewrite last_snoc. destruct nn; cbn in *; subst. map_cases.
              ** intros a Ha. rewrite last_snoc. cbn [head]. intros ??. map_cases.
              ** intros o' Ho'. rewrite last_snoc in Ho'. injection Ho' as <-.
                 map_cases.
              ** intros x' [= <-]. map_cases.
           ++ eexists. split; [map_lookup|]. mem_simpl.
              rewrite Hhd, Htl, !head_app, !last_app_cons.
              split; [by destruct (head l1)|]. split; [done|].
              rewrite Hlen, !length_app in *. cbn in *.
              rewrite wrap64_small; lia.
           ++ rewrite !length_app in *. cbn in *. lia.
        -- relinked_solve.
  - destruct Hold as [-> Hemp].
    destruct l2 as [|o l2].
    + rewrite (Hemp eq_refl) in *. cbn in *.
      wp_steps. rewrite decide_True by done.
      wp_steps. rewrite Hlen. change (Z.of_nat 0 =? 0) with true. cbn iota. wp_steps.
      apply HQ.
      * split; [done| | |done].
        -- apply (links_insert σ _ [] [] new); try done.
           ++ destruct nn; cbn in *; subst; link_solve.
           ++ intros a Ha. set_solver.
        -- eexists. split; [map_lookup|]. cbn. by rewrite Hlen.
      * relinked_solve.
    + cbn [head] in *.
      assert (Hlo := Hl l1 o l2 eq_refl).
      apply link_of_Some in Hlo as (no & Hno & Hnop & Hnon).
      assert (Hon : o ≠ new) by (intros ->; apply Hfresh; in_list).
      destruct l1 as [|x l1 _] using rev_ind.
      * wp_steps. rewrite Hnop. cbn [last]. wp_steps.
        cbn [app head] in Hhd.
        rewrite decide_True by done. wp_steps.
        replace (q_len l =? 0) with false
          by (symmetry; apply Z.eqb_neq; rewrite Hlen, !length_app; cbn; lia).
        wp_steps. apply HQ.
        -- split; [done| | |].
           ++ apply (links_insert σ _ [] (o :: l2)); try done.
              ** destruct nn; cbn in *; subst. map_cases.
              ** intros a Ha. cbn [head last]. intros ??. map_cases.
              ** intros x' [= <-]. map_cases.
           ++ eexists. split; [map_lookup|]. mem_simpl.
              cbn [app head] in *. split; [done|]. split; [done|].
              rewrite Hlen. cbn [app length] in *.
              rewrite wrap64_small; lia.
           ++ cbn [app length] in *. lia.
        -- relinked_solve.
      * assert (Hlx := Hl l1 x (o :: l2)). rewrite <- app_assoc in Hlx.
        specialize (Hlx eq_refl). cbn [head] in Hlx.
        apply link_of_Some in Hlx as (nx & Hnx & Hnxp & Hnxn).
        assert (Hxn : x ≠ new) by (intros ->; apply Hfresh; in_list).
        assert (Hxo : x ≠ o) by (intros ->; nodup_contra Hnd).
        rewrite last_snoc in Hnop.
        wp_steps. rewrite Hnop. wp_steps.
        rewrite decide_False; last first.
        { rewrite Hhd, <- app_assoc. cbn [app]. intros Hc.
          apply head_cons_split in Hc as [k Hk].
          destruct l1; injection Hk as -> Hk; nodup_contra Hnd. }
        wp_steps.
        replace (q_len l =? 0) with false
          by (symmetry; apply Z.eqb_neq; rewrite Hlen, !length_app; cbn; lia).
        wp_steps. apply HQ.
        -- split; [done| | |].
           ++ apply (links_insert σ); try done.
              ** rewrite last_snoc. destruct nn; cbn in *; subst. map_cases.
              ** intros a Ha. rewrite last_snoc. cbn [head]. intros ??. map_cases.
              ** intros o' Ho'. rewrite last_snoc in Ho'. injection Ho' as <-.
                 map_cases.
              ** intros x' [= <-]. map_cases.
           ++ eexists. split; [map_lookup|]. mem_simpl.
              rewrite Hhd, Htl, !head_app, !last_app_cons.
              split; [by destruct (head l1)|]. split; [done|].
              rewrite Hlen, !length_app in *. cbn in *.
              rewrite wrap64_small; lia.
           ++ rewrite !length_app in *. cbn in *. lia.
        -- relinked_solve.
Qed.

Ltac unlinked_solve :=
  split; mem_simpl; try done; intros; map_cases; try notin_contra.

Lemma del_node_spec σ ql l1 l2 a n (Q : unit → mem → Prop) :
  dll σ ql (l1 ++ a :: l2) →
  nodes σ !! a = Some n →
  (∀ σ', dll σ' ql (l1 ++ l2) →
         unlinked (l1 ++ a :: l2) a (n_count n) ql σ σ' → Q tt σ') →
  wp (__quicklistDelNode ql a) σ Q.
Proof.
  intros [Hnd Hl (l & Hql & Hhd & Htl & Hlen) Hbound] Hn HQ.
  assert (Hnd' : NoDup (l1 ++ l2)).
  { apply NoDup_app in Hnd as (? & ? & [? ?]%NoDup_cons).
    apply NoDup_app. clear -H H0 H1 H2. set_solver. }
  assert (Hla := Hl l1 a l2 eq_refl).
  apply link_of_Some in Hla as (n' & Hn' & Hnp & Hnn).
  rewrite Hn in Hn'. injection Hn' as <-.
  assert (Hbound' : Z.of_nat (length (l1 ++ l2)) < 2 ^ 64)
    by (rewrite !length_app in *; cbn [length] in *; lia).
  destruct n as [np nx zl c]. cbn [n_prev n_next n_count] in *. subst np nx.
  assert (Hlen' : q_len l ≠ 0)
    by (rewrite Hlen, length_app; cbn; lia).
  assert (Hlenw : wrap64 (q_len l - 1) = Z.of_nat (length (l1 ++ l2))).
  { rewrite Hlen, !length_app in *. cbn [length] in *.
    rewrite wrap64_small; lia. }
  unfold __quicklistDelNode.
  destruct l2 as [|x l2]; (destruct l1 as [|y l1 _] using rev_ind).
  - (* the only node *)
    cbn [app head last] in *.
    wp_steps. wp_steps.
    rewrite decide_True by done. wp_steps.
    rewrite decide_True by done. wp_steps.
    apply HQ.
    + split; [done| | |done].
      * intros m1 b m2 Hm. by destruct m1.
      * eexists. split; [map_lookup|]. mem_simpl. done.
    + unlinked_solve.
  - (* the tail, with a predecessor *)
    rewrite last_snoc in *.
    assert (Hly := Hl l1 y [a]). rewrite <- app_assoc in Hly.
    specialize (Hly eq_refl). cbn [head] in Hly.
    apply link_of_Some in Hly as (ny & Hny & Hnyp & Hnyn).
    assert (Hya : y ≠ a) by (intros ->; nodup_contra Hnd).
    wp_steps. wp_steps.
    rewrite decide_True by done. wp_steps.
    rewrite decide_False; last first.
    { rewrite Hhd, <- app_assoc. cbn [app]. intros Hc. symmetry in Hc.
      apply head_cons_split in Hc as [k Hk].
      destruct l1; injection Hk as -> Hk; nodup_contra Hnd. }
    wp_steps. apply HQ.
    + split; [done| | |done].
      * apply (links_delete σ _ _ _ a); try done.
        -- intros b Hb Hba. rewrite last_snoc. cbn [head]. intros ??. map_cases.
        -- intros o' Ho'. rewrite last_snoc in Ho'. injection Ho' as <-.
           intros _. map_cases.
      * eexists. split; [map_lookup|]. mem_simpl.
        rewrite Hhd, !app_nil_r, !head_app, last_snoc.
        split; [by destruct (head l1)|]. split; [done|].
        by rewrite app_nil_r in Hlenw.
    + unlinked_solve.
  - (* the head, with a successor *)
    cbn [app head last] in *.
    assert (Hlx := Hl [a] x l2 eq_refl). cbn [last] in Hlx.
    apply link_of_Some in Hlx as (nx & Hnx & Hnxp & Hnxn).
    assert (Hxa : x ≠ a) by (intros ->; nodup_contra Hnd).
    wp_steps. wp_steps.
    rewrite decide_False; last first.
    { rewrite Htl. intros Hc. symmetry in Hc.
      apply last_snoc_split in Hc as [k Hk]. rewrite Hk in Hnd.
      nodup_contra Hnd. }
    wp_steps. rewrite decide_True by done. wp_steps.
    apply HQ.
    + split; [done| | |done].
      * apply (links_delete σ _ [] _ a); try done.
        -- intros b Hb Hba. cbn [head last]. intros ??. map_cases.
        -- intros x' [= <-] _. map_cases.
      * eexists. split; [map_lookup|]. mem_simpl.
        rewrite Htl. cbn [head]. split; [done|].
        done.
    + unlinked_solve.
  - (* an inner node *)
    rewrite last_snoc in *.
    assert (Hly := Hl l1 y (a :: x :: l2)). rewrite <- app_assoc in Hly.
    specialize (Hly eq_refl). cbn [head] in Hly.
    apply link_of_Some in Hly as (ny & Hny & Hnyp & Hnyn).
    assert (Hlx := Hl ((l1 ++ [y]) ++ [a]) x l2).
    rewrite <- !app_assoc in Hlx. specialize (Hlx eq_refl).
    rewrite !app_assoc, last_snoc in Hlx.
    apply link_of_Some in Hlx as (nx & Hnx & Hnxp & Hnxn).
    assert (Hya : y ≠ a) by (intros ->; nodup_contra Hnd).
    assert (Hxa : x ≠ a) by (intros ->; nodup_contra Hnd).
    assert (Hxy : x ≠ y) by (intros ->; nodup_contra Hnd).
    cbn [head] in *.
    wp_steps. wp_steps.
    rewrite decide_False; last first.
    { rewrite Htl, last_app_cons, last_cons_cons. intros Hc. symmetry in Hc.
      apply last_snoc_split in Hc as [k Hk]. rewrite Hk in Hnd.
      nodup_contra Hnd. }
    wp_steps.
    rewrite decide_False; last first.
    { rewrite Hhd, <- app_assoc. cbn [app]. intros Hc. symmetry in Hc.
      apply head_cons_split in Hc as [k Hk].
      destruct l1; injection Hk as -> Hk; nodup_contra Hnd. }
    wp_steps. apply HQ.
    + split; [done| | |done].
      * apply (links_delete σ _ _ _ a); try done.
        -- intros b Hb Hba. rewrite last_snoc. cbn [head]. intros ??. map_cases.
        -- intros o' Ho'. rewrite last_snoc in Ho'. injection Ho' as <-.
           intros _. map_cases.
        -- intros x' [= <-] _. rewrite last_snoc. map_cases.
      * eexists. split; [map_lookup|]. mem_simpl.
        rewrite Hhd, Htl, !head_app, !last_app_cons, !last_cons_cons.
        split; [by destruct (head l1)|]. done.
    + unlinked_solve.
Qed.

Lemma frame_refl ql X σ : frame ql X X σ σ.
Proof. split; auto. lia. Qed.

Lemma frame_trans ql X X' X'' σ σ' σ'' :
  frame ql X X' σ σ' → frame ql X' X'' σ' σ'' → frame ql X X'' σ σ''.
Proof.
  intros [H1 H2 H3 H4 H5 H6] [G1 G2 G3 G4 G5 G6]. split.
  - lia.
  - intros a Ha Hlt. rewrite G2, H2; auto; [|lia].
    intros Hin. destruct (H4 _ Hin); [done|lia].
  - intros q Hq Hlt. rewrite G3, H3; auto. lia.
  - intros a Ha. destruct (G4 _ Ha) as [Hin|]; [|right; lia].
    apply H4, Hin.
  - congruence.
  - congruence.
Qed.

Lemma frame_weaken ql X X' Y Y' σ σ' :
  frame ql X X' σ σ' → (∀ a, a ∈ X → a ∈ Y) → (∀ a, a ∈ Y' → a ∈ X') →
  frame ql Y Y' σ σ'.
Proof.
  intros [H1 H2 H3 H4 H5 H6] HX HY. split; auto.
  intros a Ha. destruct (H4 a); auto.
Qed.

Lemma relinked_frame X ql σ σ' :
  relinked X ql σ σ' → frame ql X X σ σ'.
Proof.
  intros [H1 H2 H3 H4 H5 H6 H7]. split; auto. rewrite H5. lia.
Qed.

Lemma unlinked_frame X a c ql σ σ' l1 l2 :
  unlinked X a c ql σ σ' → X = l1 ++ a :: l2 → frame ql X (l1 ++ l2) σ σ'.
Proof.
  intros [H1 H2 H3 H4 H5 H6 H7 H8] ->. split; auto.
  - rewrite H6. lia.
  - intros b Hb. left. revert Hb. in_list.
Qed.

Lemma dll_transport σ σ' ql ns :
  dll σ ql ns → hdr_of σ' ql = hdr_of σ ql →
  (∀ a, a ∈ ns → link_of σ' a = link_of σ a) → dll σ' ql ns.
Proof.
  intros [Hnd Hl (l & Hql & Hhd & Htl & Hlen) Hb] Hh Hlk.
  split; [done| | |done].
  - intros l1 a l2 ->. rewrite Hlk; [by apply Hl|in_list].
  - unfold hdr_of in Hh. rewrite Hql in Hh.
    destruct (lists σ' !! ql) as [l'|]; [|done].
    cbn in Hh. injection Hh as ???. exists l'. repeat split; congruence.
Qed.

Lemma count_at_payload σ σ' a :
  payload σ' a = payload σ a → count_at σ' a = count_at σ a.
Proof.
  unfold payload, count_at.
  destruct (nodes σ' !! a), (nodes σ !! a); cbn; congruence.
Qed.

Lemma counts_ext σ σ' ns :
  (∀ a, a ∈ ns → payload σ' a = payload σ a) → counts σ' ns = counts σ ns.
Proof.
  induction ns as [|a ns IH]; intros H; [done|]. cbn.
  rewrite IH, (count_at_payload σ σ' a); [done| |].
  - apply H. left.
  - intros b Hb. apply H. by right.
Qed.

Lemma counts_app σ l1 l2 : counts σ (l1 ++ l2) = counts σ l1 + counts σ l2.
Proof. induction l1 as [|a l1 IH]; cbn; [done|]. rewrite IH. lia. Qed.

Lemma nodes_ok_ext σ σ' ns :
  nodes_ok σ ns → (∀ a, a ∈ ns → payload σ' a = payload σ a) → nodes_ok σ' ns.
Proof.
  intros Hok Hp a Ha. destruct (Hok a Ha) as (n & Hn & Hc & Hr).
  specialize (Hp a Ha). unfold payload in Hp. rewrite Hn in Hp.
  destruct (nodes σ' !! a) as [n'|]; [|done].
  cbn in Hp. injection Hp as Hz Hcnt. exists n'. split; [done|].
  unfold node_ok. rewrite Hz, Hcnt. done.
Qed.

Lemma counts_ge_length σ ns :
  nodes_ok σ ns → Z.of_nat (length ns) ≤ counts σ ns.
Proof.
  induction ns as [|a ns IH]; intros Hok; cbn [counts length]; [lia|].
  destruct (Hok a) as (n & Hn & _ & Hr); [left|].
  unfold count_at. rewrite Hn.
  assert (Z.of_nat (length ns) ≤ counts σ ns).
  { apply IH. intros b Hb. apply Hok. by right. }
  lia.
Qed.

Lemma counts_nonneg σ ns : nodes_ok σ ns → 0 ≤ counts σ ns.
Proof. intros H. apply counts_ge_length in H. lia. Qed.

Lemma nodes_ok_app σ l1 l2 :
  nodes_ok σ (l1 ++ l2) ↔ nodes_ok σ l1 ∧ nodes_ok σ l2.
Proof.
  unfold nodes_ok. split.
  - intros H. split; intros a Ha; apply H; in_list.
  - intros [H1 H2] a Ha. apply elem_of_app in Ha as [?|?]; auto.
Qed.

Lemma nodes_ok_cons σ a l :
  nodes_ok σ (a :: l) ↔ (∃ n, nodes σ !! a = Some n ∧ node_ok n) ∧ nodes_ok σ l.
Proof.
  unfold nodes_ok. split.
  - intros H. split; [apply H; left|]. intros b Hb. apply H. by right.
  - intros [H1 H2] b Hb. apply elem_of_cons in Hb as [->|?]; auto.
Qed.

(** ** Allocation bookkeeping *)

Lemma heap_ok_set_node σ a n :
  heap_ok σ → is_Some (nodes σ !! a) →
  heap_ok (with_nodes σ (<[a := n]> (nodes σ))).
Proof.
  intros [H1 H2] [n0 Hn0]. split; mem_simpl; [|done].
  intros b m. destruct (decide (a = b)) as [<-|].
  - intros _. by eapply H1.
  - rewrite lookup_insert_ne by done. apply H1.
Qed.

Lemma heap_ok_set_list σ q l :
  heap_ok σ → is_Some (lists σ !! q) →
  heap_ok (with_lists σ (<[q := l]> (lists σ))).
Proof.
  intros [H1 H2] [l0 Hl0]. split; mem_simpl; [done|].
  intros b m. destruct (decide (q = b)) as [<-|].
  - intros _. by eapply H2.
  - rewrite lookup_insert_ne by done. apply H2.
Qed.

Lemma heap_ok_free σ a :
  heap_ok σ → heap_ok (with_nodes σ (delete a (nodes σ))).
Proof.
  intros [H1 H2]. split; mem_simpl; [|done].
  intros b m. destruct (decide (a = b)) as [<-|].
  - by rewrite lookup_delete_eq.
  - rewrite lookup_delete_ne by done. apply H1.
Qed.

Lemma heap_ok_alloc_node σ n :
  heap_ok σ →
  heap_ok (mkMem (<[brk σ := n]> (nodes σ)) (lists σ) (Pos.succ (brk σ))
                 (uninit σ) (stray σ)).
Proof.
  intros [H1 H2]. split; mem_simpl.
  - intros b m. destruct (decide (brk σ = b)) as [<-|].
    + intros _. lia.
    + rewrite lookup_insert_ne by done. intros H%H1. lia.
  - intros q l H%H2. lia.
Qed.

Lemma heap_ok_alloc_list σ l :
  heap_ok σ →
  heap_ok (mkMem (nodes σ) (<[brk σ := l]> (lists σ)) (Pos.succ (brk σ))
                 (uninit σ) (stray σ)).
Proof.
  intros [H1 H2]. split; mem_simpl.
  - intros q n H%H1. lia.
  - intros b m. destruct (decide (brk σ = b)) as [<-|].
    + intros _. lia.
    + rewrite lookup_insert_ne by done. intros H%H2. lia.
Qed.

Lemma heap_ok_fresh_node σ : heap_ok σ → nodes σ !! brk σ = None.
Proof.
  intros [H1 _]. destruct (nodes σ !! brk σ) eqn:E; [|done].
  apply H1 in E. lia.
Qed.

Lemma heap_ok_fresh_list σ : heap_ok σ → lists σ !! brk σ = None.
Proof.
  intros [_ H2]. destruct (lists σ !! brk σ) eqn:E; [|done].
  apply H2 in E. lia.
Qed.

Lemma shape_lookup σ ql ns a :
  shape σ ql ns → a ∈ ns → ∃ n, nodes σ !! a = Some n ∧ node_ok n.
Proof. intros [_ _ H] Ha. by apply H. Qed.

Lemma shape_fresh σ ql ns : shape σ ql ns → brk σ ∉ ns.
Proof.
  intros Hs Hin. destruct (shape_lookup _ _ _ _ Hs Hin) as (n & Hn & _).
  rewrite heap_ok_fresh_node in Hn; [done|apply Hs].
Qed.

Lemma shape_below σ ql ns a : shape σ ql ns → a ∈ ns → (a < brk σ)%positive.
Proof.
  intros Hs Hin. destruct (shape_lookup _ _ _ _ Hs Hin) as (n & Hn & _).
  destruct Hs as [[H1 _] _ _]. by eapply H1.
Qed.

Lemma dll_header σ ql ns :
  dll σ ql ns → ∃ l, lists σ !! ql = Some l ∧ q_head l = head ns ∧
                     q_tail l = last ns ∧ q_len l = Z.of_nat (length ns).
Proof. by intros []. Qed.

Lemma dll_link σ ql l1 a l2 :
  dll σ ql (l1 ++ a :: l2) →
  ∃ n, nodes σ !! a = Some n ∧ n_prev n = last l1 ∧ n_next n = head l2.
Proof. intros [_ Hl _ _]. apply link_of_Some. by apply Hl. Qed.

Ltac nodup_contra_with H H2 :=
  exfalso; clear -H H2;
  repeat (rewrite ?NoDup_app, ?NoDup_cons in H); set_solver.

(** ** The chain as a value *)

Lemma payload_Some σ a zl c :
  payload σ a = Some (zl, c) ↔
  ∃ n, nodes σ !! a = Some n ∧ n_zl n = zl ∧ n_count n = c.
Proof.
  unfold payload. destruct (nodes σ !! a) as [n|]; cbn; split.
  - intros [= <- <-]. eauto.
  - intros (? & [= <-] & <- & <-). done.
  - done.
  - intros (? & ? & _). done.
Qed.

Lemma fmap_fst_app_cons (A1 A2 : chain) a p :
  (A1 ++ (a, p) :: A2).*1 = A1.*1 ++ a :: A2.*1.
Proof. by rewrite fmap_app. Qed.

Lemma st_node σ0 X0 σ ql A1 a zl c A2 cnt F :
  st σ0 X0 σ ql (A1 ++ (a, (zl, c)) :: A2) cnt F →
  nodes σ !! a = Some (mkNode (last A1.*1) (head A2.*1) zl c).
Proof.
  intros [_ Hdll Hpay _ _ _].
  rewrite fmap_fst_app_cons in Hdll.
  destruct (dll_link _ _ _ _ _ Hdll) as (n & Hn & Hp & Hx).
  specialize (Hpay a (zl, c)).
  rewrite payload_Some in Hpay. destruct Hpay as (n' & Hn' & Hz & Hc); [in_list|].
  rewrite Hn in Hn'. injection Hn' as <-.
  rewrite Hn. destruct n; cbn in *; congruence.
Qed.

Lemma st_header σ0 X0 σ ql A cnt F :
  st σ0 X0 σ ql A cnt F →
  lists σ !! ql = Some (mkList (head A.*1) (last A.*1)
                               (Z.of_nat (length A)) cnt).
Proof.
  intros [_ Hdll _ Hcnt _ _].
  destruct (dll_header _ _ _ Hdll) as (l & Hl & Hh & Ht & Hlen).
  rewrite Hl in Hcnt |- *. cbn in Hcnt. injection Hcnt as Hcnt.
  rewrite length_fmap in Hlen. destruct l; cbn in *; congruence.
Qed.

Lemma st_nodup σ0 X0 σ ql A cnt F : st σ0 X0 σ ql A cnt F → NoDup A.*1.
Proof. intros [_ [] _ _ _ _]. done. Qed.

Lemma st_getNode σ0 X0 σ ql A1 a zl c A2 cnt F (Q : quicklistNode → mem → Prop) :
  st σ0 X0 σ ql (A1 ++ (a, (zl, c)) :: A2) cnt F →
  Q (mkNode (last A1.*1) (head A2.*1) zl c) σ →
  wp (getNode a) σ Q.
Proof. intros Hst HQ. eapply wp_getNode; [by eapply st_node|done]. Qed.

Lemma st_getList σ0 X0 σ ql A cnt F (Q : quicklist → mem → Prop) :
  st σ0 X0 σ ql A cnt F →
  Q (mkList (head A.*1) (last A.*1) (Z.of_nat (length A)) cnt) σ →
  wp (getList ql) σ Q.
Proof. intros Hst HQ. eapply wp_getList; [by eapply st_header|done]. Qed.

Lemma st_getLoose σ0 X0 σ ql A cnt a n (Q : quicklistNode → mem → Prop) :
  st σ0 X0 σ ql A cnt (Some (a, n)) → Q n σ → wp (getNode a) σ Q.
Proof.
  intros [_ _ _ _ [Hn _] _] HQ. by eapply wp_getNode.
Qed.

Lemma frame_set_node ql X0 X σ0 σ a n :
  frame ql X0 X σ0 σ → a ∈ X →
  frame ql X0 X σ0 (with_nodes σ (<[a := n]> (nodes σ))).
Proof.
  intros [H1 H2 H3 H4 H5 H6] Ha. split; mem_simpl; auto.
  intros b Hb Hlt. rewrite lookup_insert_ne; [by apply H2|].
  intros ->. destruct (H4 _ Ha); [done|lia].
Qed.

Lemma frame_set_list ql X0 X σ0 σ l :
  frame ql X0 X σ0 σ →
  frame ql X0 X σ0 (with_lists σ (<[ql := l]> (lists σ))).
Proof.
  intros [H1 H2 H3 H4 H5 H6]. split; mem_simpl; auto.
  intros q Hq Hlt. rewrite lookup_insert_ne by done. by apply H3.
Qed.

Lemma st_setNode σ0 X0 σ ql A1 a p A2 cnt F n' (Q : unit → mem → Prop) :
  st σ0 X0 σ ql (A1 ++ (a, p) :: A2) cnt F →
  n_prev n' = last A1.*1 → n_next n' = head A2.*1 →
  (∀ σ', st σ0 X0 σ' ql (A1 ++ (a, (n_zl n', n_count n')) :: A2) cnt F →
         Q tt σ') →
  wp (setNode a n') σ Q.
Proof.
  intros Hst Hp Hx HQ. destruct p as [zl c].
  assert (Hn := st_node _ _ _ _ _ _ _ _ _ _ _ Hst).
  assert (Hnd := st_nodup _ _ _ _ _ _ _ Hst).
  rewrite fmap_fst_app_cons in Hnd.
  eapply wp_setNode; [done|]. apply HQ.
  destruct Hst as [Hheap Hdll Hpay Hcnt Hloose Hfr].
  split.
  - apply heap_ok_set_node; eauto.
  - rewrite fmap_fst_app_cons in *.
    eapply dll_transport; [exact Hdll|done|].
    intros b Hb. unfold link_of. mem_simpl.
    destruct (decide (a = b)) as [<-|].
    + rewrite lookup_insert_eq, Hn. cbn. by rewrite Hp, Hx.
    + by rewrite lookup_insert_ne.
  - intros b q Hb. unfold payload. mem_simpl.
    destruct (decide (a = b)) as [<-|].
    + rewrite lookup_insert_eq. cbn.
      rewrite elem_of_app, elem_of_cons in Hb.
      destruct Hb as [Hb|[Hb|Hb]]; [| congruence |].
      * apply (list_elem_of_fmap_2 fst) in Hb. cbn in Hb.
        nodup_contra_with Hnd Hb.
      * apply (list_elem_of_fmap_2 fst) in Hb. cbn in Hb.
        nodup_contra_with Hnd Hb.
    + rewrite lookup_insert_ne by done. apply Hpay.
      rewrite elem_of_app, elem_of_cons in Hb |- *.
      destruct Hb as [Hb|[Hb|Hb]]; [tauto| |tauto]. congruence.
  - done.
  - destruct F as [[f nf]|]; [|done]. destruct Hloose as [Hf Hnin].
    rewrite fmap_fst_app_cons in *. split; [|done]. mem_simpl.
    rewrite lookup_insert_ne; [done|]. intros <-. apply Hnin. in_list.
  - rewrite fmap_fst_app_cons in *. apply frame_set_node; [done|]. in_list.
Qed.

Lemma st_setLoose σ0 X0 σ ql A cnt a n n' (Q : unit → mem → Prop) :
  st σ0 X0 σ ql A cnt (Some (a, n)) →
  (∀ σ', st σ0 X0 σ' ql A cnt (Some (a, n')) → Q tt σ') →
  wp (setNode a n') σ Q.
Proof.
  intros [Hheap Hdll Hpay Hcnt [Hn Hnin] Hfr] HQ.
  eapply wp_setNode; [done|]. apply HQ. split.
  - apply heap_ok_set_node; eauto.
  - eapply dll_transport; [exact Hdll|done|].
    intros b Hb. unfold link_of. mem_simpl.
    rewrite lookup_insert_ne; [done|]. by intros <-.
  - intros b q Hb. unfold payload. mem_simpl.
    rewrite lookup_insert_ne; [by apply Hpay|]. intros <-.
    apply Hnin. by apply (list_elem_of_fmap_2 fst) in Hb.
  - done.
  - split; [|done]. mem_simpl. by rewrite lookup_insert_eq.
  - apply frame_set_node; [done|]. cbn. in_list.
Qed.

Lemma st_setCount σ0 X0 σ ql A cnt F l c' (Q : unit → mem → Prop) :
  st σ0 X0 σ ql A cnt F →
  q_head l = head A.*1 → q_tail l = last A.*1 →
  q_len l = Z.of_nat (length A) → q_count l = c' →
  (∀ σ', st σ0 X0 σ' ql A c' F → Q tt σ') →
  wp (setList ql l) σ Q.
Proof.
  intros Hst Hh Ht Hlen Hc HQ.
  assert (Hl := st_header _ _ _ _ _ _ _ Hst).
  destruct Hst as [Hheap Hdll Hpay Hcnt Hloose Hfr].
  eapply wp_setList; [done|]. apply HQ. split; mem_simpl; try done.
  - apply heap_ok_set_list; eauto.
  - eapply dll_transport; [exact Hdll| |done].
    unfold hdr_of. mem_simpl. rewrite lookup_insert_eq, Hl. cbn.
    by rewrite Hh, Ht, Hlen.
  - rewrite lookup_insert_eq. cbn. by rewrite Hc.
  - by apply frame_set_list.
Qed.

Lemma payload_None σ a : payload σ a = None ↔ nodes σ !! a = None.
Proof. unfold payload. by destruct (nodes σ !! a). Qed.

Lemma relinked_heap_ok X ql σ σ' :
  heap_ok σ → relinked X ql σ σ' → heap_ok σ'.
Proof.
  intros [H1 H2] [Hp Hn Hl Hc Hb Hu Hs]. split; rewrite Hb.
  - intros a n Ha. specialize (Hp a). unfold payload in Hp. rewrite Ha in Hp.
    destruct (nodes σ !! a) eqn:E; [by eapply H1|done].
  - intros q l Hq. destruct (decide (q = ql)) as [->|Hne].
    + rewrite Hq in Hc. destruct (lists σ !! ql) eqn:E; [by eapply H2|done].
    + rewrite Hl in Hq by done. by eapply H2.
Qed.

Lemma unlinked_heap_ok X a c ql σ σ' :
  heap_ok σ → unlinked X a c ql σ σ' → heap_ok σ'.
Proof.
  intros [H1 H2] [Hp Hg Hn Hl Hc Hb Hu Hs]. split; rewrite Hb.
  - intros b n Hb'. destruct (decide (b = a)) as [->|Hne]; [congruence|].
    specialize (Hp b Hne). unfold payload in Hp. rewrite Hb' in Hp.
    destruct (nodes σ !! b) eqn:E; [by eapply H1|done].
  - intros q l Hq. destruct (decide (q = ql)) as [->|Hne].
    + rewrite Hq in Hc. destruct (lists σ !! ql) eqn:E; [by eapply H2|done].
    + rewrite Hl in Hq by done. by eapply H2.
Qed.

Lemma st_alloc σ0 X0 σ ql A cnt (Q : addr → mem → Prop) :
  st σ0 X0 σ ql A cnt None →
  (∀ σ', st σ0 X0 σ' ql A cnt (Some (brk σ, mkNode None None [] 0)) →
         Q (brk σ) σ') →
  wp quicklistCreateNode σ Q.
Proof.
  intros [Hheap Hdll Hpay Hcnt _ Hfr] HQ.
  assert (Hfresh : ∀ a, a ∈ A.*1 → a ≠ brk σ).
  { intros a Ha ->. destruct Hdll as [_ Hl _ _].
    apply list_elem_of_split in Ha as (l1 & l2 & Hsplit).
    specialize (Hl _ _ _ Hsplit). apply link_of_Some in Hl as (n & Hn & _).
    rewrite heap_ok_fresh_node in Hn; done. }
  unfold quicklistCreateNode. apply wp_allocNode. apply HQ. split; mem_simpl.
  - by apply heap_ok_alloc_node.
  - eapply dll_transport; [exact Hdll|done|].
    intros b Hb. unfold link_of. mem_simpl.
    rewrite lookup_insert_ne; [done|]. intros E. by apply (Hfresh b).
  - intros b q Hb. unfold payload. mem_simpl.
    rewrite lookup_insert_ne; [by apply Hpay|]. intros E.
    apply (Hfresh b); [|done]. by apply (list_elem_of_fmap_2 fst) in Hb.
  - done.
  - split; [by rewrite lookup_insert_eq|]. intros Hin. by apply (Hfresh _ Hin).
  - destruct Hfr as [H1 H2 H3 H4 H5 H6]. split; mem_simpl; auto.
    + lia.
    + intros b Hb Hlt. rewrite lookup_insert_ne; [by apply H2|]. lia.
    + intros b Hb. rewrite app_nil_r in H4. cbn in Hb.
      rewrite elem_of_app, elem_of_cons, elem_of_nil in Hb.
      destruct Hb as [Hb|[->|[]]]; [by apply H4|]. right. lia.
Qed.

Lemma st_insertNode σ0 X0 σ ql A1 A2 cnt new nn old after
    (Q : unit → mem → Prop) :
  st σ0 X0 σ ql (A1 ++ A2) cnt (Some (new, nn)) →
  n_prev nn = None → n_next nn = None →
  Z.of_nat (length (A1 ++ A2)) + 1 < 2 ^ 64 →
  (if after : bool then old = last A1.*1 ∧ (A1 = [] → A2 = [])
   else old = head A2.*1 ∧ (A2 = [] → A1 = [])) →
  (∀ σ', st σ0 X0 σ' ql (A1 ++ (new, (n_zl nn, n_count nn)) :: A2) cnt None →
         Q tt σ') →
  wp (__quicklistInsertNode ql old new after) σ Q.
Proof.
  intros [Hheap Hdll Hpay Hcnt [Hn Hnin] Hfr] Hp Hx Hlen Hold HQ.
  rewrite fmap_app in Hdll, Hnin.
  eapply (insert_node_spec _ _ A1.*1 A2.*1); try done.
  - by rewrite <- fmap_app, length_fmap.
  - destruct after; destruct Hold as [-> Hold]; (split; [done|]).
    + intros E. apply fmap_nil_inv in E. by rewrite Hold.
    + intros E. apply fmap_nil_inv in E. by rewrite Hold.
  - intros σ' Hdll' Hrl. apply HQ.
    assert (Hfr' := relinked_frame _ _ _ _ Hrl).
    assert (Hheap' := relinked_heap_ok _ _ _ _ Hheap Hrl).
    destruct Hrl as [Hp' Hn' Hl' Hc' Hb' Hu' Hs'].
    split.
    + done.
    + by rewrite fmap_fst_app_cons.
    + intros b q Hb. rewrite Hp'.
      rewrite elem_of_app, elem_of_cons in Hb.
      destruct Hb as [Hb|[[= -> ->]|Hb]].
      * apply Hpay. in_list.
      * unfold payload. by rewrite Hn.
      * apply Hpay. in_list.
    + by rewrite Hc'.
    + done.
    + rewrite app_nil_r, fmap_fst_app_cons.
      eapply frame_trans; [|exact Hfr'].
      eapply frame_weaken; [exact Hfr| |]; cbn.
      * done.
      * intros a. rewrite fmap_app. in_list.
Qed.

Lemma st_delNode σ0 X0 σ ql A1 a zl c A2 cnt F (Q : unit → mem → Prop) :
  st σ0 X0 σ ql (A1 ++ (a, (zl, c)) :: A2) cnt F →
  (∀ σ', st σ0 X0 σ' ql (A1 ++ A2) (wrap64 (cnt - c)) F →
         nodes σ' !! a = None → Q tt σ') →
  wp (__quicklistDelNode ql a) σ Q.
Proof.
  intros Hst HQ.
  assert (Hn := st_node _ _ _ _ _ _ _ _ _ _ _ Hst).
  assert (Hnd := st_nodup _ _ _ _ _ _ _ Hst).
  destruct Hst as [Hheap Hdll Hpay Hcnt Hloose Hfr].
  rewrite fmap_fst_app_cons in Hdll, Hnd, Hfr, Hloose.
  eapply (del_node_spec _ _ A1.*1 A2.*1); [done|done|].
  intros σ' Hdll' Hul. cbn [n_count] in Hul. apply HQ; [|by destruct Hul].
  assert (Hfr' := unlinked_frame _ _ _ _ _ _ _ _ Hul eq_refl).
  assert (Hheap' := unlinked_heap_ok _ _ _ _ _ _ Hheap Hul).
  destruct Hul as [Hp' Hg' Hn' Hl' Hc' Hb' Hu' Hs'].
  split.
  - done.
  - by rewrite fmap_app.
  - intros b q Hb. rewrite Hp'.
    + apply Hpay. revert Hb. in_list.
    + intros ->. apply (list_elem_of_fmap_2 fst) in Hb. cbn in Hb.
      rewrite fmap_app in Hb. nodup_contra_with Hnd Hb.
  - rewrite Hc'. destruct (lists σ !! ql); cbn in *; congruence.
  - destruct F as [[f nf]|]; [|done]. destruct Hloose as [Hf Hnin].
    split.
    + rewrite Hn'; [done|]. done.
    + rewrite fmap_app. revert Hnin. in_list.
  - rewrite fmap_app.
    eapply frame_trans; [exact Hfr|].
    split; try (by destruct Hfr').
    + intros b Hb Hlt. apply Hfr'; [|done]. revert Hb. in_list.
    + intros b Hb. left. revert Hb. in_list.
Qed.

Lemma csum_app A1 A2 : csum (A1 ++ A2) = csum A1 + csum A2.
Proof. induction A1 as [|e A1 IH]; cbn; [done|]. unfold csum in *. lia. Qed.

Lemma csum_cons e A : csum (e :: A) = e.2.2 + csum A.
Proof. done. Qed.

Lemma csum_counts σ A :
  (∀ a p, (a, p) ∈ A → payload σ a = Some p) → counts σ A.*1 = csum A.
Proof.
  induction A as [|[a [zl c]] A IH]; intros H; [done|].
  cbn. rewrite IH.
  - unfold count_at. specialize (H a (zl, c)).
    rewrite payload_Some in H. destruct H as (n & -> & _ & <-); [left|]. done.
  - intros b p Hb. apply H. by right.
Qed.

Lemma qinv_st σ ql ns :
  qinv σ ql ns →
  ∃ A, A.*1 = ns ∧ st σ ns σ ql A (csum A) None ∧ Forall entry_ok A ∧
       csum A < 2 ^ 64.
Proof.
  intros [[Hheap Hdll Hok] Hcnt Hcap].
  assert (HA : ∃ A : chain, A.*1 = ns ∧
            (∀ a p, (a, p) ∈ A → payload σ a = Some p) ∧ Forall entry_ok A).
  { clear -Hok. induction ns as [|a ns IH].
    - exists []. split; [done|]. split; [|done]. intros ?? H. inversion H.
    - apply nodes_ok_cons in Hok as [(n & Hn & Hnc & Hnr) Hok].
      destruct (IH Hok) as (A & HA & Hp & Hf).
      exists ((a, (n_zl n, n_count n)) :: A). split; [cbn; by rewrite HA|].
      split.
      + intros b p Hb. apply elem_of_cons in Hb as [[= -> ->]|Hb]; [|by apply Hp].
        unfold payload. by rewrite Hn.
      + constructor; [|done]. done. }
  destruct HA as (A & HA & Hp & Hf). exists A.
  assert (Hc : counts σ ns = csum A) by (rewrite <- HA; by apply csum_counts).
  split; [done|]. split; [|split; [done|by rewrite <- Hc]].
  split; try done.
  - by rewrite HA.
  - by rewrite <- Hc.
  - rewrite app_nil_r, HA. apply frame_refl.
Qed.

Lemma st_qinv σ0 X0 σ ql A cnt :
  st σ0 X0 σ ql A cnt None → Forall entry_ok A → cnt = csum A →
  csum A < 2 ^ 64 →
  qinv σ ql A.*1 ∧ frame ql X0 A.*1 σ0 σ.
Proof.
  intros [Hheap Hdll Hpay Hcnt _ Hfr] Hok -> Hcap.
  assert (Hc := csum_counts σ A Hpay).
  split; [|by rewrite app_nil_r in Hfr].
  split; [split; [done|done|]| |].
  - intros a Ha. apply list_elem_of_fmap_1 in Ha as ([a' [zl c]] & -> & Ha).
    cbn. assert (Hp := Hpay _ _ Ha).
    apply payload_Some in Hp as (n & Hn & Hz & Hcn). exists n. split; [done|].
    rewrite Forall_forall in Hok. specialize (Hok _ Ha).
    unfold entry_ok, node_ok in *. cbn in Hok. by rewrite Hz, Hcn.
  - by rewrite Hc.
  - by rewrite Hc.
Qed.

Lemma st_entries σ0 X0 σ ql A cnt F :
  st σ0 X0 σ ql A cnt F → ∀ a p, (a, p) ∈ A → nodes σ !! a ≠ None.
Proof.
  intros [_ _ Hpay _ _ _] a p Ha. specialize (Hpay _ _ Ha).
  unfold payload in Hpay. by destruct (nodes σ !! a).
Qed.

Ltac mem_simpl_in H :=
  cbn [nodes lists brk uninit stray with_nodes with_lists with_brk
       n_prev n_next n_zl n_count set_prev set_next set_zl set_count
       q_head q_tail q_len q_count set_head set_tail set_len set_qcount
       fst snd head last] in H.

Ltac wp_bind_syn :=
  repeat lazymatch goal with
  | |- wp (_ ≫= _) _ _ => apply wp_bind
  end.

Tactic Notation "wp_apply" open_constr(lem) :=
  wp_bind_syn; eapply wp_mono; [eapply lem|].

(** Symbolic execution over the chain value. *)
Ltac st_getList Hst :=
  wp_bind_syn; eapply st_getList; [exact Hst|]; mem_simpl.

Ltac st_get Hst A1 :=
  wp_bind_syn; eapply (st_getNode _ _ _ _ A1); [exact Hst|]; mem_simpl.

Ltac st_getL Hst :=
  wp_bind_syn; eapply st_getLoose; [exact Hst|]; mem_simpl.

Ltac st_set Hst A1 :=
  wp_bind_syn; eapply (st_setNode _ _ _ _ A1);
  [exact Hst|(mem_simpl; try reflexivity) ..|];
  let s' := fresh "σ" in clear Hst; intros s' Hst; mem_simpl_in Hst; mem_simpl.

Ltac st_setL Hst :=
  wp_bind_syn; eapply st_setLoose; [exact Hst|];
  let s' := fresh "σ" in clear Hst; intros s' Hst; mem_simpl_in Hst; mem_simpl.

Ltac st_setCount Hst :=
  wp_bind_syn; eapply st_setCount;
  [exact Hst|(mem_simpl; try reflexivity) ..|];
  let s' := fresh "σ" in clear Hst; intros s' Hst; mem_simpl.

Ltac st_new Hst :=
  wp_bind_syn; eapply st_alloc; [exact Hst|];
  let s' := fresh "σ" in intros s' Hst'; clear Hst; rename Hst' into Hst;
  mem_simpl.

Ltac st_insert Hst A1 A2 :=
  wp_bind_syn;
  lazymatch goal with
  | |- wp (__quicklistInsertNode ?ql ?old ?new ?after) ?s _ =>
      eapply (st_insertNode _ _ s ql A1 A2 _ new _ old after);
      [exact Hst|try done..|
       let s' := fresh "σ" in clear Hst; intros s' Hst; mem_simpl_in Hst;
       mem_simpl]
  end.

Ltac st_del Hst A1 :=
  wp_bind_syn;
  eapply (st_delNode _ _ _ _ A1); [exact Hst|];
  let s' := fresh "σ" in let Hg := fresh "Hgone" in
  clear Hst; intros s' Hst Hg; mem_simpl.

Lemma quicklistPushHead_st σ0 X0 σ ql A cnt fill v :
  st σ0 X0 σ ql A cnt None → Z.of_nat (length A) + 1 < 2 ^ 64 →
  wp (quicklistPushHead ql fill v) σ (λ r σ',
    r = ql ∧
    st σ0 X0 σ' ql (push_head_abs fill v (brk σ) A) (wrap64 (cnt + 1)) None).
Proof.
  intros Hst Hlen. unfold quicklistPushHead.
  st_getList Hst.
  destruct A as [|[h [zl c]] rest]; cbn [fmap list_fmap head fst].
  - wp_steps. st_new Hst. st_getL Hst. st_setL Hst.
    unfold _quicklistInsertNodeBefore.
    st_insert Hst (@nil (addr * (ziplist * Z))) (@nil (addr * (ziplist * Z))).
    st_getList Hst. st_setCount Hst. st_getList Hst.
    cbn [fmap list_fmap head fst app]. wp_steps.
    st_get Hst (@nil (addr * (ziplist * Z))).
    st_set Hst (@nil (addr * (ziplist * Z))). wp_steps.
    split; [done|]. exact Hst.
  - st_get Hst (@nil (addr * (ziplist * Z))). wp_steps.
    unfold push_head_abs. destruct (c <? fill) eqn:Hc.
    + wp_steps.
      st_get Hst (@nil (addr * (ziplist * Z))).
      st_set Hst (@nil (addr * (ziplist * Z))).
      st_getList Hst. st_setCount Hst. st_getList Hst.
      cbn [fmap list_fmap head fst app]. wp_steps.
      st_get Hst (@nil (addr * (ziplist * Z))).
      st_set Hst (@nil (addr * (ziplist * Z))). wp_steps.
      split; [done|]. exact Hst.
    + wp_steps. st_new Hst. st_getL Hst. st_setL Hst.
      unfold _quicklistInsertNodeBefore.
      st_insert Hst (@nil (addr * (ziplist * Z))) ((h, (zl, c)) :: rest).
      st_getList Hst. st_setCount Hst. st_getList Hst.
      cbn [fmap list_fmap head fst app]. wp_steps.
      st_get Hst (@nil (addr * (ziplist * Z))).
      st_set Hst (@nil (addr * (ziplist * Z))). wp_steps.
      split; [done|]. exact Hst.
Qed.

Lemma removelast_snoc {X} (l : list X) x : removelast (l ++ [x]) = l.
Proof. by rewrite removelast_last. Qed.

Lemma fmap_fst_snoc (A1 : chain) a p : (A1 ++ [(a, p)]).*1 = A1.*1 ++ [a].
Proof. by rewrite fmap_app. Qed.

Lemma quicklistPushTail_st σ0 X0 σ ql A cnt fill v :
  st σ0 X0 σ ql A cnt None → Z.of_nat (length A) + 1 < 2 ^ 64 →
  wp (quicklistPushTail ql fill v) σ (λ r σ',
    r = ql ∧
    st σ0 X0 σ' ql (push_tail_abs fill v (brk σ) A) (wrap64 (cnt + 1)) None).
Proof.
  intros Hst Hlen. unfold quicklistPushTail.
  st_getList Hst.
  destruct A as [|[t [zl c]] A1 _] using rev_ind.
  - cbn [fmap list_fmap last fst].
    wp_steps. st_new Hst. st_getL Hst. st_setL Hst.
    unfold _quicklistInsertNodeAfter.
    st_insert Hst (@nil (addr * (ziplist * Z))) (@nil (addr * (ziplist * Z))).
    st_getList Hst. st_setCount Hst. st_getList Hst.
    cbn [fmap list_fmap last fst app]. wp_steps.
    st_get Hst (@nil (addr * (ziplist * Z))).
    st_set Hst (@nil (addr * (ziplist * Z))). wp_steps.
    split; [done|]. exact Hst.
  - rewrite fmap_fst_snoc, last_snoc.
    st_get Hst A1. wp_steps.
    unfold push_tail_abs. rewrite last_snoc, removelast_snoc.
    destruct (c <? fill) eqn:Hc.
    + wp_steps.
      st_get Hst A1. st_set Hst A1.
      st_getList Hst. st_setCount Hst. st_getList Hst.
      rewrite fmap_fst_snoc, last_snoc. wp_steps.
      st_get Hst A1. st_set Hst A1. wp_steps.
      split; [done|]. exact Hst.
    + wp_steps. st_new Hst. st_getL Hst. st_setL Hst.
      unfold _quicklistInsertNodeAfter.
      rewrite <- (app_nil_r (A1 ++ [(t, (zl, c))])) in Hst.
      st_insert Hst (A1 ++ [(t, (zl, c))]) (@nil (addr * (ziplist * Z))).
      { by rewrite app_nil_r. }
      { split; [by rewrite fmap_fst_snoc, last_snoc|]. by destruct A1. }
      st_getList Hst. st_setCount Hst. st_getList Hst.
      rewrite fmap_fst_snoc, last_snoc. wp_steps.
      st_get Hst (A1 ++ [(t, (zl, c))]).
      st_set Hst (A1 ++ [(t, (zl, c))]). wp_steps.
      split; [done|]. exact Hst.
Qed.

Lemma quicklistPush_st σ0 X0 σ ql A cnt fill v where_ :
  st σ0 X0 σ ql A cnt None → Z.of_nat (length A) + 1 < 2 ^ 64 →
  wp (quicklistPush ql fill v where_) σ (λ _ σ',
    st σ0 X0 σ' ql (push_abs fill v where_ (brk σ) A)
       (if (where_ =? QUICKLIST_HEAD) || (where_ =? QUICKLIST_TAIL)
        then wrap64 (cnt + 1) else cnt) None).
Proof.
  intros Hst Hlen. unfold quicklistPush, push_abs.
  destruct (where_ =? QUICKLIST_HEAD).
  - wp_apply quicklistPushHead_st; [done|done|]. by intros r σ' [_ H].
  - destruct (where_ =? QUICKLIST_TAIL).
    + wp_apply quicklistPushTail_st; [done|done|]. by intros r σ' [_ H].
    + by apply wp_ret.
Qed.

(** ** Adopting a whole block *)

Lemma quicklistPushTailZiplist_st σ0 X0 σ ql A cnt zl :
  st σ0 X0 σ ql A cnt None → Z.of_nat (length A) + 1 < 2 ^ 64 →
  wp (quicklistPushTailZiplist ql zl) σ (λ _ σ',
    st σ0 X0 σ' ql (A ++ [(brk σ, (zl, ziplistLen zl))])
       (wrap64 (cnt + ziplistLen zl)) None).
Proof.
  intros Hst Hlen. unfold quicklistPushTailZiplist.
  st_new Hst. st_getList Hst.
  unfold _quicklistInsertNodeAfter.
  rewrite <- (app_nil_r A) in Hst.
  st_insert Hst A (@nil (addr * (ziplist * Z))).
  { by rewrite app_nil_r. }
  st_get Hst A. st_set Hst A. st_get Hst A. st_set Hst A.
  st_getList Hst. st_setCount Hst. exact Hst.
Qed.

Lemma quicklistDeleteIfEmpty_st σ0 X0 σ ql A1 a zl c A2 cnt F :
  st σ0 X0 σ ql (A1 ++ (a, (zl, c)) :: A2) cnt F →
  wp (quicklistDeleteIfEmpty ql a) σ (λ _ σ',
    st σ0 X0 σ' ql (if c =? 0 then A1 ++ A2 else A1 ++ (a, (zl, c)) :: A2)
       (if c =? 0 then wrap64 (cnt - c) else cnt) F).
Proof.
  intros Hst. unfold quicklistDeleteIfEmpty.
  st_get Hst A1. destruct (c =? 0).
  - st_del Hst A1. exact Hst.
  - by apply wp_ret.
Qed.

Lemma quicklistDelIndex_st σ0 X0 σ ql A1 a zl c A2 cnt F i :
  st σ0 X0 σ ql (A1 ++ (a, (zl, c)) :: A2) cnt F →
  wp (quicklistDelIndex ql a (Some i)) σ (λ r σ',
    r = (wrap32 (c - 1) =? 0, Some i) ∧
    st σ0 X0 σ' ql (del_index_abs A1 a zl c A2 i) (del_index_cnt c cnt) F).
Proof.
  intros Hst. unfold quicklistDelIndex.
  st_get Hst A1. wp_steps. unfold ziplistDelete.
  st_set Hst A1. st_get Hst A1. st_set Hst A1. st_get Hst A1.
  st_getList Hst. st_setCount Hst.
  wp_apply quicklistDeleteIfEmpty_st; [exact Hst|].
  intros [] σ' Hst'. apply wp_ret. split; [done|].
  unfold del_index_abs, del_index_cnt. by destruct (wrap32 (c - 1) =? 0).
Qed.

(** ** Pop *)

Lemma wp_getUninit n σ (Q : string → mem → Prop) :
  Q (uninit σ n) σ → wp (getUninit n) σ Q.
Proof. done. Qed.

Lemma st_uninit σ0 X0 σ ql A cnt F :
  st σ0 X0 σ ql A cnt F → uninit σ = uninit σ0.
Proof. intros [_ _ _ _ _ []]. done. Qed.

Lemma quicklistSaver_st σ0 X0 σ ql A1 a zl c A2 cnt i sz :
  st σ0 X0 σ ql (A1 ++ (a, (zl, c)) :: A2) cnt None →
  wp (_quicklistSaver a i sz) σ (λ r σ',
    r = Some (uninit σ0 (Z.to_nat sz)) ∧
    st σ0 X0 σ' ql
       (A1 ++ (a, (<[i := ZStr (uninit σ0 (Z.to_nat sz))]> zl, c)) :: A2)
       cnt None).
Proof.
  intros Hst. unfold _quicklistSaver.
  apply wp_bind, wp_getUninit. rewrite (st_uninit _ _ _ _ _ _ _ Hst).
  st_get Hst A1. st_set Hst A1. apply wp_ret. done.
Qed.

Lemma ziplistIndex_0 e (zl : ziplist) : ziplistIndex (e :: zl) 0 = Some 0%nat.
Proof.
  unfold ziplistIndex. cbn [length Z.ltb Z.compare].
  by replace (0 <? Z.of_nat (S (length zl))) with true
    by (symmetry; apply Z.ltb_lt; lia).
Qed.

Lemma ziplistGet_str (zl : ziplist) i s out :
  zl !! i = Some (ZStr s) →
  ziplistGet zl (Some i) out = (true, (Some s, slen s, out.2)).
Proof. intros H. unfold ziplistGet. destruct out as [[? ?] ?]. by rewrite H. Qed.

Lemma ziplistGet_int (zl : ziplist) i v out :
  zl !! i = Some (ZInt v) →
  ziplistGet zl (Some i) out = (true, (None, out.1.2, v)).
Proof. intros H. unfold ziplistGet. destruct out as [[? ?] ?]. by rewrite H. Qed.

Ltac wp_red := cbn beta iota zeta; mem_simpl.

Lemma quicklistPop_empty σ ql l out :
  lists σ !! ql = Some l → q_count l = 0 →
  quicklistPop ql QUICKLIST_HEAD out σ = Done ((0, out), σ) ∧
  quicklistPop ql QUICKLIST_TAIL out σ = Done ((0, out), σ).
Proof.
  intros Hl Hc. unfold quicklistPop, mbind, M_bind, getList.
  rewrite Hl, Hc. done.
Qed.

Lemma quicklistPop_head_st σ0 X0 σ ql a e zl c A2 cnt out :
  st σ0 X0 σ ql ((a, (e :: zl, c)) :: A2) cnt None → cnt ≠ 0 →
  wp (quicklistPop ql QUICKLIST_HEAD out) σ (λ r σ',
    r = (1, pop_out (uninit σ0) e) ∧
    st σ0 X0 σ' ql
       (if wrap32 (c - 1) =? 0 then A2 else (a, (zl, wrap32 (c - 1))) :: A2)
       (del_index_cnt c cnt) None).
Proof.
  intros Hst Hcnt. unfold quicklistPop, quicklistPopCustom.
  st_getList Hst. rewrite (proj2 (Z.eqb_neq _ _) Hcnt).
  st_getList Hst. rewrite (proj2 (Z.eqb_neq _ _) Hcnt).
  cbn [fmap list_fmap head fst QUICKLIST_HEAD Z.eqb andb].
  rewrite bool_decide_true by done. wp_red.
  st_get Hst (@nil (addr * (ziplist * Z))).
  rewrite ziplistIndex_0.
  destruct e as [s|v].
  - rewrite (ziplistGet_str _ _ s) by done. wp_red.
    wp_apply (quicklistSaver_st _ _ _ _ (@nil (addr * (ziplist * Z)))); [exact Hst|].
    intros r σ1 [-> Hst1]. apply wp_ret. cbn [app] in Hst1.
    wp_apply (quicklistDelIndex_st _ _ _ _ (@nil (addr * (ziplist * Z)))); [exact Hst1|].
    intros r σ2 [-> Hst2]. wp_steps. split; [done|].
    unfold del_index_abs in Hst2. cbn in Hst2. exact Hst2.
  - rewrite (ziplistGet_int _ _ v) by done. wp_red. wp_steps.
    wp_apply (quicklistDelIndex_st _ _ _ _ (@nil (addr * (ziplist * Z)))); [exact Hst|].
    intros r σ2 [-> Hst2]. wp_steps. split; [done|].
    unfold del_index_abs in Hst2. cbn in Hst2. exact Hst2.
Qed.

Lemma ziplistIndex_last (zl : ziplist) e :
  ziplistIndex (zl ++ [e]) (-1) = Some (length zl).
Proof.
  unfold ziplistIndex. cbn [Z.ltb Z.compare Z.opp].
  rewrite length_app. cbn [length].
  replace (- (-1) <=? Z.of_nat (length zl + 1)%nat) with true
    by (symmetry; apply Z.leb_le; lia).
  f_equal. lia.
Qed.

Lemma lookup_snoc_last (l : ziplist) x : (l ++ [x]) !! length l = Some x.
Proof. by rewrite lookup_app_r, Nat.sub_diag. Qed.

Lemma delete_snoc_last (l : ziplist) x : delete (length l) (l ++ [x]) = l.
Proof.
  induction l as [|y l IH]; [done|]. cbn. f_equal. exact IH.
Qed.

Lemma delete_insert_same (l : ziplist) i x :
  delete i (<[i := x]> l) = delete i l.
Proof.
  revert i. induction l as [|y l IH]; intros [|i]; cbn; try done.
  f_equal. apply IH.
Qed.

Lemma quicklistPop_tail_st σ0 X0 σ ql A1 a e zl c cnt out :
  st σ0 X0 σ ql (A1 ++ [(a, (zl ++ [e], c))]) cnt None → cnt ≠ 0 →
  wp (quicklistPop ql QUICKLIST_TAIL out) σ (λ r σ',
    r = (1, pop_out (uninit σ0) e) ∧
    st σ0 X0 σ' ql
       (if wrap32 (c - 1) =? 0 then A1 else A1 ++ [(a, (zl, wrap32 (c - 1)))])
       (del_index_cnt c cnt) None).
Proof.
  intros Hst Hcnt. unfold quicklistPop, quicklistPopCustom.
  st_getList Hst. rewrite (proj2 (Z.eqb_neq _ _) Hcnt).
  st_getList Hst. rewrite (proj2 (Z.eqb_neq _ _) Hcnt).
  rewrite fmap_fst_snoc, last_snoc.
  cbn [QUICKLIST_HEAD QUICKLIST_TAIL Z.eqb Pos.eqb andb].
  rewrite bool_decide_true by done. wp_red.
  st_get Hst A1.
  rewrite ziplistIndex_last.
  destruct e as [s|v].
  - rewrite (ziplistGet_str _ _ s) by apply lookup_snoc_last. wp_red.
    wp_apply (quicklistSaver_st _ _ _ _ A1); [exact Hst|].
    intros r σ1 [-> Hst1]. apply wp_ret.
    wp_apply (quicklistDelIndex_st _ _ _ _ A1); [exact Hst1|].
    intros r σ2 [-> Hst2]. wp_steps. split; [done|].
    unfold del_index_abs in Hst2.
    rewrite delete_insert_same, delete_snoc_last in Hst2.
    destruct (wrap32 (c - 1) =? 0); [by rewrite app_nil_r in Hst2|done].
  - rewrite (ziplistGet_int _ _ v) by apply lookup_snoc_last. wp_red. wp_steps.
    wp_apply (quicklistDelIndex_st _ _ _ _ A1); [exact Hst|].
    intros r σ2 [-> Hst2]. wp_steps. split; [done|].
    unfold del_index_abs in Hst2. rewrite delete_snoc_last in Hst2.
    destruct (wrap32 (c - 1) =? 0); [by rewrite app_nil_r in Hst2|done].
Qed.

Lemma quicklistPop_other σ ql l out where_ :
  lists σ !! ql = Some l → q_count l ≠ 0 →
  where_ ≠ QUICKLIST_HEAD → where_ ≠ QUICKLIST_TAIL →
  quicklistPop ql where_ out σ = Done ((0, (None, 0, -123456789)), σ).
Proof.
  intros Hl Hc Hh Ht. unfold quicklistPop, quicklistPopCustom.
  unfold mbind, M_bind, getList. rewrite Hl.
  rewrite (proj2 (Z.eqb_neq _ _) Hc). rewrite Hl.
  rewrite (proj2 (Z.eqb_neq _ _) Hc).
  rewrite (proj2 (Z.eqb_neq _ _) Hh), (proj2 (Z.eqb_neq _ _) Ht). done.
Qed.

(** ** Walking the chain *)

Lemma st_size σ0 X0 σ ql A cnt F :
  st σ0 X0 σ ql A cnt F → (length A ≤ size (nodes σ))%nat.
Proof.
  intros Hst. assert (Hnd := st_nodup _ _ _ _ _ _ _ Hst).
  rewrite <- (length_fmap fst A).
  rewrite <- (size_list_to_set (C := gset addr) A.*1) by done.
  rewrite <- (size_dom (D := gset addr) (nodes σ)).
  apply subseteq_size. intros a Ha. apply elem_of_list_to_set in Ha.
  apply elem_of_dom.
  apply list_elem_of_fmap_1 in Ha as ([a' p] & -> & Ha). cbn.
  destruct Hst as [_ _ Hpay _ _ _]. specialize (Hpay _ _ Ha).
  unfold payload in Hpay. by destruct (nodes σ !! a').
Qed.

Lemma seek_elem index accum A e acc :
  seek index accum A = (Some e, acc) → e ∈ A.
Proof.
  revert accum. induction A as [|[a [zl c]] A IH]; intros accum; cbn; [done|].
  destruct (wrap64 (accum + c) >? index).
  - intros [= <- <-]. left.
  - intros H. right. by eapply IH.
Qed.

Lemma index_walk_fwd σ0 X0 σ ql A1 A2 cnt F fuel index accum :
  st σ0 X0 σ ql (A1 ++ A2) cnt F → (length A2 < fuel)%nat →
  index_walk fuel true index accum (head A2.*1) σ =
  Done ((fst <$> (seek index accum A2).1, (seek index accum A2).2), σ).
Proof.
  revert A1 fuel accum.
  induction A2 as [|[a [zl c]] A2 IH]; intros A1 fuel accum Hst Hfuel.
  - by destruct fuel.
  - destruct fuel as [|fuel]; [cbn in Hfuel; lia|].
    cbn [fmap list_fmap head fst index_walk seek].
    unfold mbind, M_bind, getNode.
    rewrite (st_node _ _ _ _ _ _ _ _ _ _ _ Hst). mem_simpl.
    destruct (wrap64 (accum + c) >? index); [done|].
    replace (A1 ++ (a, (zl, c)) :: A2) with ((A1 ++ [(a, (zl, c))]) ++ A2) in Hst
      by by rewrite <- app_assoc.
    apply (IH _ fuel (wrap64 (accum + c))) in Hst; [exact Hst|].
    cbn in Hfuel. lia.
Qed.

Lemma index_walk_bwd σ0 X0 σ ql A1 A2 cnt F fuel index accum :
  st σ0 X0 σ ql (A1 ++ A2) cnt F → (length A1 < fuel)%nat →
  index_walk fuel false index accum (last A1.*1) σ =
  Done ((fst <$> (seek index accum (rev A1)).1,
         (seek index accum (rev A1)).2), σ).
Proof.
  revert A2 fuel accum.
  induction A1 as [|[a [zl c]] A1 IH] using rev_ind; intros A2 fuel accum Hst Hfuel.
  - by destruct fuel.
  - destruct fuel as [|fuel]; [rewrite length_app in Hfuel; cbn in Hfuel; lia|].
    rewrite fmap_fst_snoc, last_snoc, rev_app_distr.
    cbn [rev app index_walk seek].
    rewrite <- app_assoc in Hst. cbn [app] in Hst.
    unfold mbind, M_bind, getNode.
    rewrite (st_node _ _ _ _ _ _ _ _ _ _ _ Hst). mem_simpl.
    destruct (wrap64 (accum + c) >? index); [done|].
    apply (IH _ fuel (wrap64 (accum + c))) in Hst; [exact Hst|].
    rewrite length_app in Hfuel. cbn in Hfuel. lia.
Qed.

Lemma quicklistIndex_st σ0 X0 σ ql A cnt F idx e0 :
  st σ0 X0 σ ql A cnt F →
  quicklistIndex ql idx e0 σ = Done (index_abs ql idx A cnt, σ).
Proof.
  intros Hst. unfold quicklistIndex, index_abs.
  unfold mbind at 1, M_bind at 1, getList.
  rewrite (st_header _ _ _ _ _ _ _ Hst). mem_simpl.
  cbn [initEntry e_node e_zi e_value e_sz e_longval e_offset e_quicklist].
  set (index := if negb (idx <? 0) then wrap64 idx else wrap64 (- idx - 1)).
  destruct (index >=? cnt); [done|].
  unfold mbind at 1, M_bind at 1, chainFuel.
  assert (Hsz := st_size _ _ _ _ _ _ _ Hst).
  assert (Hwalk : index_walk (S (size (nodes σ))) (negb (idx <? 0)) index 0
            (if negb (idx <? 0) then head A.*1 else last A.*1) σ =
          Done ((fst <$> (seek index 0 (if negb (idx <? 0) then A else rev A)).1,
                 (seek index 0 (if negb (idx <? 0) then A else rev A)).2), σ)).
  { destruct (negb (idx <? 0)).
    - apply (index_walk_fwd σ0 X0 σ ql [] A cnt F); [done|lia].
    - rewrite <- (app_nil_r A) in Hst.
      apply (index_walk_bwd σ0 X0 σ ql A [] cnt F); [done|lia]. }
  unfold mbind at 1, M_bind at 1. rewrite Hwalk.
  destruct (seek index 0 (if negb (idx <? 0) then A else rev A))
    as [[[a [zl c]]|] accum] eqn:Hseek; [|done].
  cbn [fmap option_fmap option_map fst snd].
  assert (Ha : (a, (zl, c)) ∈ A).
  { apply seek_elem in Hseek. destruct (negb (idx <? 0)); [done|].
    apply list_elem_of_In. apply in_rev. by apply list_elem_of_In. }
  apply list_elem_of_split in Ha as (A1 & A2 & ->).
  unfold mbind, M_bind, getNode.
  rewrite (st_node _ _ _ _ _ _ _ _ _ _ _ Hst). mem_simpl.
  destruct (ziplistGet zl _ _) as [b [[value sz] longval]]. done.
Qed.

(** ** Arithmetic of the walk *)

Lemma csum_nonneg A : Forall entry_ok A → 0 ≤ csum A.
Proof.
  induction 1 as [|[a [zl c]] A [_ Hc] _ IH]; [done|].
  rewrite csum_cons. cbn [snd] in *. lia.
Qed.

Lemma csum_rev A : csum (rev A) = csum A.
Proof.
  induction A as [|e A IH]; [done|]. cbn [rev].
  rewrite csum_app, IH, !csum_cons. change (csum []) with 0. lia.
Qed.

Lemma Forall_rev_ok A : Forall entry_ok A → Forall entry_ok (rev A).
Proof.
  intros H. apply Forall_forall. intros x Hx.
  rewrite Forall_forall in H. apply H.
  apply list_elem_of_In. apply in_rev. by apply list_elem_of_In.
Qed.

Lemma seek_found index accum A :
  Forall entry_ok A → 0 ≤ accum → accum + csum A < 2 ^ 64 →
  accum ≤ index < accum + csum A →
  ∃ B1 a zl c B2, A = B1 ++ (a, (zl, c)) :: B2 ∧
    seek index accum A = (Some (a, (zl, c)), accum + csum B1) ∧
    accum + csum B1 ≤ index < accum + csum B1 + c.
Proof.
  revert accum. induction A as [|[a [zl c]] A IH]; intros accum Hok Hacc Hcap Hidx.
  - cbn in Hidx. lia.
  - apply Forall_cons in Hok as [[_ Hc] Hok]. cbn in Hc.
    assert (HA := csum_nonneg _ Hok).
    rewrite csum_cons in Hcap, Hidx. cbn [snd] in Hcap, Hidx.
    cbn [seek]. rewrite wrap64_small by lia.
    destruct (accum + c >? index) eqn:E.
    + exists [], a, zl, c, A. cbn. split; [done|]. split; [f_equal; lia|].
      apply Z.gtb_lt in E. lia.
    + rewrite Z.gtb_ltb in E. apply Z.ltb_ge in E.
      destruct (IH (accum + c)) as (B1 & a' & zl' & c' & B2 & -> & Hs & Hr);
        [done|lia|lia|lia|].
      exists ((a, (zl, c)) :: B1), a', zl', c', B2.
      split; [done|]. rewrite Hs, csum_cons. cbn [snd].
      split; [f_equal; lia|lia].
Qed.

Lemma cast_int_small z : - 2 ^ 31 ≤ z < 2 ^ 31 → cast_int (wrap64 z) = z.
Proof.
  intros Hz. unfold cast_int, wrap64.
  destruct (decide (0 ≤ z)).
  - rewrite (Z.mod_small z) by lia. rewrite Z.mod_small; lia.
  - replace (z mod 2 ^ 64) with (z + 2 ^ 64).
    + replace (z + 2 ^ 64 + 2 ^ 31) with (z + 2 ^ 31 + 2 ^ 32 * 2 ^ 32) by lia.
      rewrite Z_mod_plus_full. rewrite Z.mod_small; lia.
    + rewrite <- (Z_mod_plus_full z 1 (2 ^ 64)). rewrite Z.mod_small; lia.
Qed.

Lemma split_unique (A1 A2 B1 B2 : chain) e e' i :
  Forall entry_ok (A1 ++ e :: A2) →
  A1 ++ e :: A2 = B1 ++ e' :: B2 →
  csum A1 ≤ i < csum A1 + e.2.2 → csum B1 ≤ i < csum B1 + e'.2.2 →
  A1 = B1 ∧ e = e' ∧ A2 = B2.
Proof.
  intros Hok Heq Hi Hi'.
  assert (Hok' : Forall entry_ok (B1 ++ e' :: B2)) by by rewrite <- Heq.
  apply app_eq_inv in Heq as [(K & -> & HK)|(K & -> & HK)].
  - destruct K as [|k K].
    + rewrite app_nil_r. cbn in HK. by injection HK as -> ->.
    + cbn in HK. injection HK as -> ->. exfalso.
      rewrite csum_app, csum_cons in Hi.
      rewrite <- app_assoc in Hok. apply Forall_app in Hok as [_ Hok].
      cbn in Hok. apply Forall_cons in Hok as [_ Hok].
      apply Forall_app in Hok as [HK _]. apply csum_nonneg in HK. lia.
  - destruct K as [|k K].
    + rewrite app_nil_r. cbn in HK. by injection HK as -> ->.
    + cbn in HK. injection HK as -> ->. exfalso.
      rewrite csum_app, csum_cons in Hi'.
      rewrite <- app_assoc in Hok'. apply Forall_app in Hok' as [_ Hok'].
      cbn in Hok'. apply Forall_cons in Hok' as [_ Hok'].
      apply Forall_app in Hok' as [HK _]. apply csum_nonneg in HK. lia.
Qed.

Lemma ziplistIndex_nonneg (zl : ziplist) i :
  0 ≤ i < Z.of_nat (length zl) → ziplistIndex zl i = Some (Z.to_nat i).
Proof.
  intros Hi. unfold ziplistIndex.
  replace (i <? 0) with false by (symmetry; apply Z.ltb_ge; lia).
  by replace (i <? Z.of_nat (length zl)) with true
    by (symmetry; apply Z.ltb_lt; lia).
Qed.

Lemma ziplistIndex_neg (zl : ziplist) i :
  - Z.of_nat (length zl) ≤ i < 0 →
  ziplistIndex zl i = Some (Z.to_nat (Z.of_nat (length zl) + i)).
Proof.
  intros Hi. unfold ziplistIndex.
  replace (i <? 0) with true by (symmetry; apply Z.ltb_lt; lia).
  by replace (- i <=? Z.of_nat (length zl)) with true
    by (symmetry; apply Z.leb_le; lia).
Qed.

Lemma index_abs_forward ql idx A :
  Forall entry_ok A → csum A < 2 ^ 64 → 0 ≤ idx < csum A →
  ∃ A1 a zl c A2, A = A1 ++ (a, (zl, c)) :: A2 ∧
    csum A1 ≤ idx < csum A1 + c ∧
    index_abs ql idx A (csum A) =
      (true, entry_at ql a zl (Z.to_nat (idx - csum A1)) (idx - csum A1)).
Proof.
  intros Hok Hcap Hidx. unfold index_abs.
  replace (idx <? 0) with false by (symmetry; apply Z.ltb_ge; lia).
  cbn [negb]. rewrite wrap64_small by lia.
  replace (idx >=? csum A) with false
    by (symmetry; rewrite Z.geb_leb; apply Z.leb_gt; lia).
  destruct (seek_found idx 0 A) as (A1 & a & zl & c & A2 & -> & Hs & Hr);
    [done|lia|lia|lia|].
  exists A1, a, zl, c, A2. split; [done|]. split; [lia|].
  rewrite Hs. cbn [fst snd]. rewrite Z.add_0_l.
  assert (Hc : c = Z.of_nat (length zl) ∧ 0 < c ≤ INT_MAX).
  { rewrite Forall_forall in Hok. apply (Hok (a, (zl, c))). in_list. }
  unfold INT_MAX in Hc.
  rewrite cast_int_small by lia.
  rewrite ziplistIndex_nonneg by lia. unfold entry_at.
  by destruct (ziplistGet _ _ _) as [? [[? ?] ?]].
Qed.

Lemma index_abs_backward ql i A :
  Forall entry_ok A → csum A < 2 ^ 64 → 0 ≤ i < csum A →
  ∃ A1 a zl c A2, A = A1 ++ (a, (zl, c)) :: A2 ∧
    csum A1 ≤ i < csum A1 + c ∧
    index_abs ql (- (csum A - i)) A (csum A) =
      (true, entry_at ql a zl (Z.to_nat (i - csum A1)) (i - csum A1 - c)).
Proof.
  intros Hok Hcap Hidx. unfold index_abs.
  replace (- (csum A - i) <? 0) with true by (symmetry; apply Z.ltb_lt; lia).
  cbn [negb]. rewrite wrap64_small by lia.
  replace (- - (csum A - i) - 1 >=? csum A) with false
    by (symmetry; rewrite Z.geb_leb; apply Z.leb_gt; lia).
  destruct (seek_found (- - (csum A - i) - 1) 0 (rev A))
    as (B1 & a & zl & c & B2 & HB & Hs & Hr);
    [by apply Forall_rev_ok|lia|rewrite csum_rev; lia|rewrite csum_rev; lia|].
  assert (HA : A = rev B2 ++ (a, (zl, c)) :: rev B1).
  { rewrite <- (rev_involutive A), HB, rev_app_distr. cbn [rev].
    by rewrite <- app_assoc. }
  exists (rev B2), a, zl, c, (rev B1). split; [done|].
  assert (Hsum : csum A = csum B2 + c + csum B1).
  { rewrite HA, csum_app, csum_cons, !csum_rev. cbn [snd]. lia. }
  rewrite csum_rev. split; [lia|].
  rewrite Hs. cbn [fst snd].
  assert (Hc : c = Z.of_nat (length zl) ∧ 0 < c ≤ INT_MAX).
  { rewrite Forall_forall in Hok. apply (Hok (a, (zl, c))). rewrite HA. in_list. }
  unfold INT_MAX in Hc.
  replace (- (- - (csum A - i) - 1) - 1 + (0 + csum B1))
    with (i - csum B2 - c) by lia.
  rewrite cast_int_small by lia.
  rewrite ziplistIndex_neg by lia.
  replace (Z.to_nat (Z.of_nat (length zl) + (i - csum B2 - c)))
    with (Z.to_nat (i - csum B2)) by lia.
  unfold entry_at. by destruct (ziplistGet _ _ _) as [? [[? ?] ?]].
Qed.

Lemma wp_eq {A} (m : M A) σ a σ' (Q : A → mem → Prop) :
  m σ = Done (a, σ') → Q a σ' → wp m σ Q.
Proof. intros E HQ. unfold wp. by rewrite E. Qed.

Lemma wrap64_id z : 0 ≤ z < 2 ^ 64 → wrap64 z = z.
Proof. intros. unfold wrap64. by apply Z.mod_small. Qed.

Lemma index_abs_miss ql idx A cnt :
  0 ≤ cnt → LLONG_MIN ≤ idx ≤ LLONG_MAX →
  ¬ (0 ≤ abs_pos idx cnt < cnt) →
  index_abs ql idx A cnt = (false, none_entry ql).
Proof.
  unfold LLONG_MIN, LLONG_MAX, abs_pos, index_abs. intros Hc Hr Hk.
  destruct (idx <? 0) eqn:E; cbn [negb].
  - apply Z.ltb_lt in E. rewrite wrap64_id by lia.
    rewrite Z.geb_leb. rewrite (proj2 (Z.leb_le _ _)) by lia. done.
  - apply Z.ltb_ge in E. rewrite wrap64_id by lia.
    rewrite Z.geb_leb. rewrite (proj2 (Z.leb_le _ _)) by lia. done.
Qed.

Lemma index_abs_hit ql idx A :
  Forall entry_ok A → csum A < 2 ^ 64 →
  0 ≤ abs_pos idx (csum A) < csum A →
  ∃ A1 a zl c A2, A = A1 ++ (a, (zl, c)) :: A2 ∧
    csum A1 ≤ abs_pos idx (csum A) < csum A1 + c ∧
    index_abs ql idx A (csum A) =
      (true, entry_at ql a zl (Z.to_nat (abs_pos idx (csum A) - csum A1))
               (if idx <? 0 then abs_pos idx (csum A) - csum A1 - c
                else abs_pos idx (csum A) - csum A1)).
Proof.
  intros Hok Hcap Hk. unfold abs_pos in *.
  destruct (idx <? 0) eqn:E.
  - destruct (index_abs_backward ql (csum A + idx) A Hok Hcap Hk)
      as (A1 & a & zl & c & A2 & -> & Hr & Hi).
    exists A1, a, zl, c, A2. split; [done|]. split; [done|].
    rewrite <- Hi. f_equal. lia.
  - destruct (index_abs_forward ql idx A Hok Hcap Hk)
      as (A1 & a & zl & c & A2 & -> & Hr & Hi).
    by exists A1, a, zl, c, A2.
Qed.

Lemma entry_at_node ql a zl i off :
  e_node (entry_at ql a zl i off) = Some a ∧
  e_zi (entry_at ql a zl i off) = Some i ∧
  e_offset (entry_at ql a zl i off) = off ∧
  e_quicklist (entry_at ql a zl i off) = Some ql.
Proof.
  unfold entry_at. destruct (ziplistGet _ _ _) as [? [[? ?] ?]]. done.
Qed.

(** ** Replacing an entry *)

Lemma quicklistReplaceAtIndex_st σ0 X0 σ ql A1 a zl c A2 cnt F idx data i off :
  st σ0 X0 σ ql (A1 ++ (a, (zl, c)) :: A2) cnt F →
  index_abs ql idx (A1 ++ (a, (zl, c)) :: A2) cnt =
    (true, entry_at ql a zl i off) →
  wp (quicklistReplaceAtIndex ql idx data) σ (λ r σ',
    r = 1 ∧
    st σ0 X0 σ' ql (A1 ++ (a, (ziplistInsert (delete i zl) i data, c)) :: A2)
       cnt F).
Proof.
  intros Hst Hi. unfold quicklistReplaceAtIndex.
  wp_bind_syn. eapply wp_eq; [by eapply quicklistIndex_st|]. rewrite Hi.
  destruct (entry_at_node ql a zl i off) as (-> & -> & _ & _).
  wp_red. wp_steps. st_get Hst A1. wp_steps. unfold ziplistDelete.
  st_set Hst A1. st_get Hst A1. st_set Hst A1. wp_steps. done.
Qed.

Lemma quicklistReplaceAtIndex_miss σ0 X0 σ ql A cnt F idx data e :
  st σ0 X0 σ ql A cnt F →
  index_abs ql idx A cnt = (false, e) →
  quicklistReplaceAtIndex ql idx data σ = Done (0, σ).
Proof.
  intros Hst Hi. unfold quicklistReplaceAtIndex.
  unfold mbind, M_bind. rewrite (quicklistIndex_st _ _ _ _ _ _ _ _ _ Hst).
  by rewrite Hi.
Qed.

Lemma ziplistInsert_length (zl : ziplist) i s :
  length (ziplistInsert zl i s) = S (length zl).
Proof.
  unfold ziplistInsert. rewrite length_app. cbn [length].
  rewrite Nat.add_succ_r, <- length_app, take_drop. done.
Qed.

Lemma delete_length_lt (zl : ziplist) i :
  (i < length zl)%nat → S (length (delete i zl)) = length zl.
Proof.
  revert i. induction zl as [|e zl IH]; intros [|i] Hi; cbn in *; try lia.
  rewrite IH; [done|lia].
Qed.

(** ** Rotation *)

Lemma push_head_abs_last fill v new A1 t zl c :
  ∃ B1 zl' c',
    push_head_abs fill v new (A1 ++ [(t, (zl, c))]) = B1 ++ [(t, (zl', c'))].
Proof.
  destruct A1 as [|[h [hz hc]] A1]; cbn [push_head_abs app].
  - destruct (c <? fill).
    + by exists [], (zipEntry v :: zl), (wrap32 (c + 1)).
    + by exists [(new, ([zipEntry v], wrap32 (0 + 1)))], zl, c.
  - destruct (hc <? fill).
    + by exists ((h, (zipEntry v :: hz, wrap32 (hc + 1))) :: A1), zl, c.
    + by exists ((new, ([zipEntry v], wrap32 (0 + 1))) :: (h, (hz, hc)) :: A1),
        zl, c.
Qed.

Lemma st_stray σ0 X0 σ ql A cnt F :
  st σ0 X0 σ ql A cnt F → stray σ = stray σ0.
Proof. intros Hst. apply (fr_stray _ _ _ _ _ (st_frame _ _ _ _ _ _ _ Hst)). Qed.

Lemma quicklistRotate_small σ0 X0 σ ql A cnt F fill :
  st σ0 X0 σ ql A cnt F → cnt ≤ 1 →
  quicklistRotate ql fill σ = Done (tt, σ).
Proof.
  intros Hst Hc. unfold quicklistRotate, mbind, M_bind, getList.
  rewrite (st_header _ _ _ _ _ _ _ Hst). cbn [q_count].
  by rewrite (proj2 (Z.leb_le _ _)) by lia.
Qed.

Lemma head_snoc_tail (X : list addr) t :
  NoDup (X ++ [t]) → head (X ++ [t]) = Some t ↔ X = [].
Proof.
  intros Hnd. destruct X as [|x X]; [done|]. cbn [app head]. split; [|done].
  intros [= ->]. cbn in Hnd. apply NoDup_cons in Hnd as [Hn _].
  exfalso. apply Hn. apply elem_of_app. right. left.
Qed.

Lemma rotate_value_run σ (X : list addr) t len cnt pr nx (zl : ziplist) s c
    fill (A1 : chain) :
  (head (X ++ [t]) = Some t ↔ A1 = []) →
  rotate_value (mkList (head (X ++ [t])) (Some t) len cnt)
               (mkNode pr nx (zl ++ [ZStr s]) c) fill (Some (length zl)) s σ =
    match rotate_bytes σ A1 zl (ZStr s) c fill with
    | Some b => Done (b, σ)
    | None => Fault
    end.
Proof.
  intros Hh. unfold rotate_value, rotate_bytes, in_place.
  cbv beta iota delta [q_head q_tail n_count n_zl].
  destruct (decide (A1 = [])) as [HA|HA].
  - rewrite bool_decide_eq_true_2 by (by apply Hh).
    rewrite (bool_decide_eq_true_2 (A1 = [])) by done. cbn [andb].
    destruct (c <? fill); [|done].
    destruct zl as [|x zl _] using rev_ind; [done|].
    rewrite length_app. cbn [length]. rewrite Nat.add_1_r.
    rewrite last_snoc.
    replace (((zl ++ [x]) ++ [ZStr s]) !! length zl) with (Some x)
      by (symmetry; rewrite <- app_assoc; by apply list_lookup_middle).
    destruct x as [s'|v]; [|done].
    by destruct ((String.length s' =? String.length s)%nat
                 && kept_as_string s && kept_as_string s').
  - rewrite bool_decide_eq_false_2 by (intros E; by apply HA, Hh).
    by rewrite (bool_decide_eq_false_2 (A1 = [])) by done.
Qed.

Lemma rotate_nodes_one (A1 : chain) t :
  NoDup (A1.*1 ++ [t]) → head (A1.*1 ++ [t]) = Some t ↔ A1 = [].
Proof.
  intros Hnd. rewrite (head_snoc_tail _ _ Hnd). by destruct A1.
Qed.

Lemma quicklistRotate_st σ0 X0 σ ql A1 t zl e c cnt fill bytes :
  st σ0 X0 σ ql (A1 ++ [(t, (zl ++ [e], c))]) cnt None → 1 < cnt →
  Z.of_nat (length A1) + 2 < 2 ^ 64 →
  rotate_bytes σ A1 zl e c fill = Some bytes →
  wp (quicklistRotate ql fill) σ (λ _ σ',
    ∃ B1 zl' c',
      push_head_abs fill bytes (brk σ) (A1 ++ [(t, (zl ++ [e], c))]) =
        B1 ++ [(t, (zl', c'))] ∧
      st σ0 X0 σ' ql (del_index_abs B1 t zl' c' [] (length zl))
         (del_index_cnt c' (wrap64 (cnt + 1))) None).
Proof.
  intros Hst Hcnt Hlen Hb. unfold quicklistRotate.
  pose proof (st_nodup _ _ _ _ _ _ _ Hst) as Hnd.
  rewrite fmap_fst_snoc in Hnd.
  st_getList Hst. rewrite (proj2 (Z.leb_gt _ _)) by lia.
  rewrite fmap_fst_snoc, last_snoc. wp_steps.
  st_get Hst A1. rewrite ziplistIndex_last.
  assert (wp (match e with
              | ZStr s =>
                  rotate_value
                    (mkList (head (A1.*1 ++ [t])) (Some t)
                            (Z.of_nat (length (A1 ++ [(t, (zl ++ [e], c))])))
                            cnt)
                    (mkNode (last A1.*1) None (zl ++ [e]) c) fill
                    (Some (length zl)) s
              | ZInt v => readStray v (String.length (lld v))
              end) σ (λ r σ', r = bytes ∧ σ' = σ)) as Hbytes.
  { destruct e as [s|v].
    - unfold wp.
      rewrite (rotate_value_run σ A1.*1 t _ cnt _ _ zl s c fill A1).
      + by rewrite Hb.
      + by apply rotate_nodes_one.
    - cbn in Hb. unfold wp, readStray. by rewrite Hb. }
  destruct e as [s|v].
  - rewrite (ziplistGet_str _ _ s) by apply lookup_snoc_last. wp_red.
    wp_bind_syn. eapply wp_mono; [exact Hbytes|]. intros r σ1 [-> ->].
    wp_apply quicklistPushHead_st; [exact Hst|rewrite length_app; cbn; lia|].
    intros r σ1 [-> Hst1].
    destruct (push_head_abs_last fill bytes (brk σ) A1 t (zl ++ [ZStr s]) c)
      as (B1 & zl' & c' & EB).
    assert (st σ0 X0 σ1 ql (B1 ++ [(t, (zl', c'))]) (wrap64 (cnt + 1)) None)
      as Hst1' by (rewrite <- EB; exact Hst1).
    clear Hst1; rename Hst1' into Hst1.
    wp_apply (quicklistDelIndex_st _ _ _ _ B1); [exact Hst1|].
    intros r σ2 [-> Hst2]. wp_steps. by exists B1, zl', c'.
  - rewrite (ziplistGet_int _ _ v) by apply lookup_snoc_last. wp_red.
    wp_bind_syn. eapply wp_mono; [exact Hbytes|]. intros r σ1 [-> ->].
    wp_apply quicklistPushHead_st; [exact Hst|rewrite length_app; cbn; lia|].
    intros r σ1 [-> Hst1].
    destruct (push_head_abs_last fill bytes (brk σ) A1 t (zl ++ [ZInt v]) c)
      as (B1 & zl' & c' & EB).
    assert (st σ0 X0 σ1 ql (B1 ++ [(t, (zl', c'))]) (wrap64 (cnt + 1)) None)
      as Hst1' by (rewrite <- EB; exact Hst1).
    clear Hst1; rename Hst1' into Hst1.
    wp_apply (quicklistDelIndex_st _ _ _ _ B1); [exact Hst1|].
    intros r σ2 [-> Hst2]. wp_steps. by exists B1, zl', c'.
Qed.

Lemma quicklistRotate_fault σ0 X0 σ ql A1 t zl e c cnt fill :
  st σ0 X0 σ ql (A1 ++ [(t, (zl ++ [e], c))]) cnt None → 1 < cnt →
  rotate_bytes σ A1 zl e c fill = None →
  quicklistRotate ql fill σ = Fault.
Proof.
  intros Hst Hcnt Hb. unfold quicklistRotate, mbind, M_bind, getList.
  pose proof (st_nodup _ _ _ _ _ _ _ Hst) as Hnd.
  rewrite fmap_fst_snoc in Hnd.
  rewrite (st_header _ _ _ _ _ _ _ Hst). cbn [q_count q_tail].
  rewrite (proj2 (Z.leb_gt _ _)) by lia.
  rewrite fmap_fst_snoc, last_snoc. unfold deref, mret, M_ret, getNode.
  rewrite (st_node _ _ _ _ A1 _ _ _ [] _ _ Hst). cbn [n_zl].
  rewrite ziplistIndex_last. destruct e as [s|v].
  - rewrite (ziplistGet_str _ _ s) by apply lookup_snoc_last.
    cbn [fmap list_fmap head].
    rewrite (rotate_value_run σ A1.*1 t _ cnt _ _ zl s c fill A1).
    + by rewrite Hb.
    + by apply rotate_nodes_one.
  - rewrite (ziplistGet_int _ _ v) by apply lookup_snoc_last.
    cbn in Hb. unfold readStray. by rewrite Hb.
Qed.

Lemma quicklistSplitNode_st σ0 X0 σ ql A1 a zl c A2 cnt offset after :
  st σ0 X0 σ ql (A1 ++ (a, (zl, c)) :: A2) cnt None →
  wp (_quicklistSplitNode a offset after) σ (λ r σ',
    r = brk σ ∧
    st σ0 X0 σ' ql
       (A1 ++ (a, (split_orig zl offset after,
                   ziplistLen (split_orig zl offset after))) :: A2) cnt
       (Some (brk σ, mkNode None None (split_new zl offset after)
                            (ziplistLen (split_new zl offset after))))).
Proof.
  intros Hst. unfold _quicklistSplitNode.
  st_get Hst A1. st_new Hst. st_getL Hst. st_setL Hst.
  st_get Hst A1. st_set Hst A1. st_get Hst A1. st_set Hst A1.
  st_getL Hst. st_setL Hst. st_getL Hst. st_setL Hst.
  wp_steps. done.
Qed.

(** ** Merging two neighbours *)

Lemma entry_bytes_zipEntry s : entry_bytes (zipEntry s) = s.
Proof.
  unfold zipEntry, zipTryEncoding.
  destruct ((0 <? slen s) && (slen s <? 32)); [|done].
  destruct (NilZero.int_of_string s) as [d|]; [|done]. cbn zeta.
  destruct (String.eqb (lld (Z.of_int d)) s) eqn:E; [|done].
  apply String.eqb_eq in E. cbn [andb].
  by destruct ((LLONG_MIN <=? Z.of_int d) && (Z.of_int d <=? LLONG_MAX)).
Qed.

Lemma entry_bytes_reenc e : entry_bytes (reenc e) = entry_bytes e.
Proof. apply entry_bytes_zipEntry. Qed.

Lemma fmap_bytes_reenc (zl : ziplist) :
  entry_bytes <$> (reenc <$> zl) = entry_bytes <$> zl.
Proof.
  induction zl as [|e zl IH]; [done|]. cbn.
  by rewrite entry_bytes_reenc, IH.
Qed.

Lemma bytes_app A1 A2 : bytes (A1 ++ A2) = bytes A1 ++ bytes A2.
Proof. unfold bytes. by rewrite !fmap_app, concat_app, fmap_app. Qed.

Lemma bytes_cons a (zl : ziplist) c A :
  bytes ((a, (zl, c)) :: A) = (entry_bytes <$> zl) ++ bytes A.
Proof. unfold bytes. cbn. by rewrite fmap_app. Qed.

Lemma bytes_nil : bytes [] = [].
Proof. done. Qed.

Lemma st_fwd σ0 X0 σ ql (A1 : chain) x y A2 cnt F :
  st σ0 X0 σ ql (A1 ++ x :: y :: A2) cnt F →
  st σ0 X0 σ ql ((A1 ++ [x]) ++ y :: A2) cnt F.
Proof. by rewrite <- app_assoc. Qed.

Lemma st_bwd σ0 X0 σ ql (A1 : chain) x y A2 cnt F :
  st σ0 X0 σ ql ((A1 ++ [x]) ++ y :: A2) cnt F →
  st σ0 X0 σ ql (A1 ++ x :: y :: A2) cnt F.
Proof. by rewrite <- app_assoc. Qed.

Lemma ziplistGet_at (zl : ziplist) i e out :
  zl !! i = Some e →
  ∃ val sz lv, ziplistGet zl (Some i) out = (true, (val, sz, lv)) ∧
    match val with Some s => s | None => lld lv end = entry_bytes e.
Proof.
  intros Hi. destruct out as [[o1 o2] o3]. unfold ziplistGet. rewrite Hi.
  destruct e as [s|v]; eauto.
Qed.

Lemma ziplistGet_end (zl : ziplist) i out :
  (length zl ≤ i)%nat → ziplistGet zl (Some i) out = (false, out).
Proof.
  intros Hi. destruct out as [[o1 o2] o3]. unfold ziplistGet.
  destruct (zl !! i) as [e|] eqn:E; [|done].
  apply lookup_lt_Some in E. lia.
Qed.

Lemma wrap32_plus_l a b : wrap32 (wrap32 a + b) = wrap32 (a + b).
Proof. unfold wrap32. by rewrite Zplus_mod_idemp_l. Qed.

Lemma wrap32_minus_l a b : wrap32 (wrap32 a - b) = wrap32 (a - b).
Proof. unfold wrap32. by rewrite Zminus_mod_idemp_l. Qed.

Lemma wrap64_plus_l a b : wrap64 (wrap64 a + b) = wrap64 (a + b).
Proof. unfold wrap64. by rewrite Zplus_mod_idemp_l. Qed.

Lemma wrap64_minus_l a b : wrap64 (wrap64 a - b) = wrap64 (a - b).
Proof. unfold wrap64. by rewrite Zminus_mod_idemp_l. Qed.

Lemma take_S_snoc (zl : ziplist) k e :
  zl !! k = Some e → take (S k) zl = take k zl ++ [e].
Proof. intros. by apply take_S_r. Qed.

(** Target [a]: the entries of [b] are appended to [a] from the head of [b]. *)
Lemma merge_loop_a σ0 X0 σ ql A1 a za ca b zb cb A2 cnt F fuel (k : nat) :
  st σ0 X0 σ ql
     (A1 ++ (a, (za ++ (reenc <$> take k zb), wrap32 (ca + Z.of_nat k)))
         :: (b, (zb, wrap32 (cb - Z.of_nat k))) :: A2) cnt F →
  (k ≤ length zb)%nat → (length zb - k < fuel)%nat → a ≠ b →
  wp (merge_loop fuel a b a ZIPLIST_TAIL
        (if (k <? length zb)%nat then Some k else None)) σ (λ _ σ',
    st σ0 X0 σ' ql
       (A1 ++ (a, (za ++ (reenc <$> zb),
                   wrap32 (ca + Z.of_nat (length zb))))
           :: (b, (zb, wrap32 (cb - Z.of_nat (length zb)))) :: A2) cnt F).
Proof.
  revert σ k. induction fuel as [|fuel IH]; intros σ k Hst Hk Hf Hab; [lia|].
  cbn [merge_loop]. rewrite decide_True by done.
  apply st_fwd in Hst. st_get Hst (A1 ++ [(a, (za ++ (reenc <$> take k zb),
                                       wrap32 (ca + Z.of_nat k)))]).
  destruct (k <? length zb)%nat eqn:E.
  - apply Nat.ltb_lt in E.
    destruct (lookup_lt_is_Some_2 zb k E) as [e He].
    destruct (ziplistGet_at zb k e (None, 0, 0) He) as (val & sz & lv & -> & Hb).
    wp_red. rewrite Hb. apply st_bwd in Hst.
    st_get Hst A1. st_set Hst A1. wp_steps. rewrite decide_True by done.
    apply st_fwd in Hst.
    st_get Hst (A1 ++ [(a, (ziplistPush (za ++ (reenc <$> take k zb))
                               (entry_bytes e) ZIPLIST_TAIL,
                            wrap32 (ca + Z.of_nat k)))]).
    st_set Hst (A1 ++ [(a, (ziplistPush (za ++ (reenc <$> take k zb))
                               (entry_bytes e) ZIPLIST_TAIL,
                            wrap32 (ca + Z.of_nat k)))]).
    apply st_bwd in Hst. st_get Hst A1. st_set Hst A1. wp_steps.
    assert (ziplistNext zb k =
            if (S k <? length zb)%nat then Some (S k) else None) as -> by done.
    apply (IH _ (S k)); [|lia|lia|done].
    unfold ziplistPush in Hst. cbn [ZIPLIST_TAIL ZIPLIST_HEAD Z.eqb] in Hst.
    rewrite (take_S_snoc zb k e He), fmap_app, app_assoc.
    rewrite wrap32_plus_l, wrap32_minus_l in Hst.
    replace (ca + Z.of_nat (S k)) with (ca + Z.of_nat k + 1) by lia.
    replace (cb - Z.of_nat (S k)) with (cb - Z.of_nat k - 1) by lia.
    exact Hst.
  - apply Nat.ltb_ge in E. assert (k = length zb) as -> by lia.
    cbn [ziplistGet]. wp_red. apply wp_ret. apply st_bwd in Hst.
    by rewrite firstn_all in Hst.
Qed.

Lemma drop_S_cons (zl : ziplist) i e :
  zl !! i = Some e → drop i zl = e :: drop (S i) zl.
Proof. intros. by apply drop_S. Qed.

(** Target [b]: the entries of [a] are prepended to [b] from the tail of
    [a]. *)
Lemma merge_loop_b σ0 X0 σ ql A1 a za ca b zb cb A2 cnt F fuel (k : nat) :
  st σ0 X0 σ ql
     (A1 ++ (a, (za, wrap32 (ca - Z.of_nat k)))
         :: (b, ((reenc <$> drop (length za - k) za) ++ zb,
                 wrap32 (cb + Z.of_nat k))) :: A2) cnt F →
  (k ≤ length za)%nat → (length za - k < fuel)%nat → a ≠ b →
  wp (merge_loop fuel a b b ZIPLIST_HEAD
        (if (k <? length za)%nat then Some (length za - 1 - k)%nat else None))
     σ (λ _ σ',
    st σ0 X0 σ' ql
       (A1 ++ (a, (za, wrap32 (ca - Z.of_nat (length za))))
           :: (b, ((reenc <$> za) ++ zb,
                   wrap32 (cb + Z.of_nat (length za)))) :: A2) cnt F).
Proof.
  revert σ k. induction fuel as [|fuel IH]; intros σ k Hst Hk Hf Hab; [lia|].
  cbn [merge_loop]. rewrite decide_False by done.
  st_get Hst A1.
  destruct (k <? length za)%nat eqn:E.
  - apply Nat.ltb_lt in E.
    assert (length za - 1 - k < length za)%nat as Hlt by lia.
    destruct (lookup_lt_is_Some_2 za _ Hlt) as [e He].
    destruct (ziplistGet_at za _ e (None, 0, 0) He) as (val & sz & lv & -> & Hb).
    wp_red. rewrite Hb. apply st_fwd in Hst.
    st_get Hst (A1 ++ [(a, (za, wrap32 (ca - Z.of_nat k)))]).
    st_set Hst (A1 ++ [(a, (za, wrap32 (ca - Z.of_nat k)))]).
    wp_steps. rewrite decide_False by done.
    apply st_bwd in Hst. st_get Hst A1. st_set Hst A1.
    apply st_fwd in Hst.
    st_get Hst (A1 ++ [(a, (za, wrap32 (wrap32 (ca - Z.of_nat k) - 1)))]).
    st_set Hst (A1 ++ [(a, (za, wrap32 (wrap32 (ca - Z.of_nat k) - 1)))]).
    apply st_bwd in Hst. wp_steps.
    assert (ziplistPrev za (length za - 1 - k) =
            if (S k <? length za)%nat then Some (length za - 1 - S k)%nat
            else None) as ->.
    { unfold ziplistPrev. rewrite (proj2 (Nat.leb_gt _ _)) by lia.
      destruct (S k <? length za)%nat eqn:E2.
      - apply Nat.ltb_lt in E2.
        destruct (length za - 1 - k)%nat as [|j] eqn:Ej; [lia|]. f_equal. lia.
      - apply Nat.ltb_ge in E2.
        destruct (length za - 1 - k)%nat as [|j] eqn:Ej; [done|lia]. }
    apply (IH _ (S k)); [|lia|lia|done].
    unfold ziplistPush in Hst. cbn [ZIPLIST_TAIL ZIPLIST_HEAD Z.eqb] in Hst.
    replace (length za - S k)%nat with (length za - 1 - k)%nat by lia.
    rewrite (drop_S_cons za _ e He).
    replace (S (length za - 1 - k)) with (length za - k)%nat by lia.
    rewrite wrap32_plus_l, wrap32_minus_l in Hst.
    replace (ca - Z.of_nat (S k)) with (ca - Z.of_nat k - 1) by lia.
    replace (cb + Z.of_nat (S k)) with (cb + Z.of_nat k + 1) by lia.
    exact Hst.
  - apply Nat.ltb_ge in E. assert (k = length za) as -> by lia.
    cbn [ziplistGet]. wp_red. apply wp_ret.
    by rewrite Nat.sub_diag, drop_0 in Hst.
Qed.

Lemma st_adjacent_ne σ0 X0 σ ql (A1 : chain) a pa b pb A2 cnt F :
  st σ0 X0 σ ql (A1 ++ (a, pa) :: (b, pb) :: A2) cnt F → a ≠ b.
Proof.
  intros Hst. apply st_nodup in Hst. rewrite fmap_fst_app_cons in Hst.
  apply NoDup_app in Hst as (_ & _ & Hnd). cbn in Hnd.
  apply NoDup_cons in Hnd as [Hnd _]. intros ->. apply Hnd. left.
Qed.

Lemma ziplistIndex_first (zl : ziplist) :
  ziplistIndex zl 0 = if (0 <? length zl)%nat then Some 0%nat else None.
Proof. unfold ziplistIndex. by destruct zl. Qed.

Lemma ziplistIndex_tail (zl : ziplist) :
  ziplistIndex zl (-1) =
  if (0 <? length zl)%nat then Some (length zl - 1 - 0)%nat else None.
Proof.
  unfold ziplistIndex. cbn [Z.ltb Z.compare Z.opp].
  destruct zl as [|e zl]; [done|].
  rewrite (proj2 (Z.leb_le _ _)) by (cbn [length]; lia).
  cbn [length Nat.ltb Nat.leb]. f_equal. lia.
Qed.

Lemma quicklistZiplistMerge_st σ0 X0 σ ql A1 a za ca b zb cb A2 cnt F :
  st σ0 X0 σ ql (A1 ++ (a, (za, ca)) :: (b, (zb, cb)) :: A2) cnt F →
  0 ≤ ca < 2 ^ 32 → 0 ≤ cb < 2 ^ 32 →
  wp (_quicklistZiplistMerge ql a b) σ (λ r σ',
    r = (merge_abs A1 a za ca b zb cb A2 cnt).1.1 ∧
    st σ0 X0 σ' ql (merge_abs A1 a za ca b zb cb A2 cnt).1.2
       (merge_abs A1 a za ca b zb cb A2 cnt).2 F).
Proof.
  intros Hst Hca Hcb.
  pose proof (st_adjacent_ne _ _ _ _ _ _ _ _ _ _ _ _ Hst) as Hab.
  unfold _quicklistZiplistMerge, merge_abs.
  st_get Hst A1. apply st_fwd in Hst.
  st_get Hst (A1 ++ [(a, (za, ca))]). apply st_bwd in Hst.
  destruct ((ca =? 0) || (cb =? 0)); [by apply wp_ret|].
  destruct (ca >? cb) eqn:E.
  - rewrite !decide_True by done.
    rewrite ziplistIndex_first.
    wp_apply (merge_loop_a _ _ _ _ A1 a za ca b zb cb A2 _ _ _ 0%nat);
      [|lia|lia|done|].
    { rewrite take_0, fmap_nil, app_nil_r, Z.add_0_r, Z.sub_0_r.
      by rewrite !wrap32_small. }
    intros [] σ1 Hst1. apply st_fwd in Hst1.
    st_del Hst1 (A1 ++ [(a, (za ++ (reenc <$> zb),
                            wrap32 (ca + Z.of_nat (length zb))))]).
    wp_steps. split; [done|]. by rewrite <- app_assoc in Hst1.
  - rewrite !decide_False by done.
    rewrite ziplistIndex_tail.
    wp_apply (merge_loop_b _ _ _ _ A1 a za ca b zb cb A2 _ _ _ 0%nat);
      [|lia|lia|done|].
    { rewrite Nat.sub_0_r, drop_all, fmap_nil, Z.add_0_r, Z.sub_0_r.
      by rewrite !wrap32_small. }
    intros [] σ1 Hst1.
    st_del Hst1 A1. wp_steps. done.
Qed.

Lemma entry_ok_range a zl c : entry_ok (a, (zl, c)) → 0 ≤ c < 2 ^ 32.
Proof. unfold entry_ok, INT_MAX. cbn. lia. Qed.

Lemma merge_abs_good A1 a za ca b zb cb A2 cnt :
  entry_ok (a, (za, ca)) → entry_ok (b, (zb, cb)) → ca + cb ≤ INT_MAX →
  0 ≤ cnt < 2 ^ 64 →
  ∃ t zt, (t = a ∨ t = b) ∧ entry_ok (t, (zt, ca + cb)) ∧
    merge_abs A1 a za ca b zb cb A2 cnt =
      (Some t, A1 ++ (t, (zt, ca + cb)) :: A2, cnt) ∧
    entry_bytes <$> zt = (entry_bytes <$> za) ++ (entry_bytes <$> zb).
Proof.
  unfold entry_ok, INT_MAX. cbn [fst snd]. intros [Ha Ha'] [Hb Hb'] Hs Hc.
  unfold merge_abs.
  rewrite (proj2 (Z.eqb_neq ca 0)) by lia.
  rewrite (proj2 (Z.eqb_neq cb 0)) by lia. cbn [orb].
  destruct (ca >? cb).
  - exists a, (za ++ (reenc <$> zb)). split; [by left|].
    rewrite length_app, length_fmap. split; [lia|].
    rewrite <- Hb. rewrite Z.sub_diag. rewrite (wrap32_small 0) by lia.
    rewrite Z.sub_0_r, wrap64_id by lia.
    rewrite wrap32_small by lia. split; [done|].
    by rewrite fmap_app, fmap_bytes_reenc.
  - exists b, ((reenc <$> za) ++ zb). split; [by right|].
    rewrite length_app, length_fmap. split; [lia|].
    rewrite <- Ha. rewrite Z.sub_diag. rewrite (wrap32_small 0) by lia.
    rewrite Z.sub_0_r, wrap64_id by lia.
    rewrite wrap32_small by lia. rewrite (Z.add_comm cb ca).
    split; [done|]. by rewrite fmap_app, fmap_bytes_reenc.
Qed.

(** A merge of two neighbours that fit, on a chain of well-formed nodes. *)
Lemma merge_fit_st σ0 X0 σ ql A1 a za ca b zb cb A2 cnt F fill :
  st σ0 X0 σ ql (A1 ++ (a, (za, ca)) :: (b, (zb, cb)) :: A2) cnt F →
  entry_ok (a, (za, ca)) → entry_ok (b, (zb, cb)) →
  0 ≤ cnt < 2 ^ 64 → fill ≤ INT_MAX → wrap32 (ca + cb) ≤ fill →
  wp (_quicklistZiplistMerge ql a b) σ (λ r σ',
    ∃ t zt, r = Some t ∧ (t = a ∨ t = b) ∧ entry_ok (t, (zt, ca + cb)) ∧
      st σ0 X0 σ' ql (A1 ++ (t, (zt, ca + cb)) :: A2) cnt F ∧
      entry_bytes <$> zt = (entry_bytes <$> za) ++ (entry_bytes <$> zb)).
Proof.
  intros Hst Ha Hb Hc Hf Hfit.
  pose proof (entry_ok_range _ _ _ Ha) as Hra.
  pose proof (entry_ok_range _ _ _ Hb) as Hrb.
  assert (ca + cb ≤ INT_MAX) as Hs.
  { destruct Ha as [_ Ha], Hb as [_ Hb]. cbn in Ha, Hb.
    unfold INT_MAX in *. rewrite wrap32_small in Hfit by lia. lia. }
  destruct (merge_abs_good A1 a za ca b zb cb A2 cnt Ha Hb Hs Hc)
    as (t & zt & Ht & Hok & Em & Hbt).
  eapply wp_mono; [by eapply quicklistZiplistMerge_st|].
  intros r σ' [-> Hst']. rewrite Em in Hst' |- *. by exists t, zt.
Qed.

Lemma Forall_app_ok (A1 A2 : chain) :
  Forall entry_ok (A1 ++ A2) ↔ Forall entry_ok A1 ∧ Forall entry_ok A2.
Proof. apply Forall_app. Qed.

Lemma Forall_cons_ok e (A : chain) :
  Forall entry_ok (e :: A) ↔ entry_ok e ∧ Forall entry_ok A.
Proof. apply Forall_cons. Qed.

(** Reading [prev->prev] and [next->next] around the centre. *)
Lemma read_prev_prev σ0 X0 σ ql A1 c pc A2 cnt F :
  st σ0 X0 σ ql (A1 ++ (c, pc) :: A2) cnt F →
  wp (match last A1.*1 with
      | Some p => np ← getNode p; mret (n_prev np)
      | None => mret None
      end) σ (λ r σ', r = last (removelast A1).*1 ∧ σ' = σ).
Proof.
  intros Hst. destruct A1 as [|[p [zp cp]] A1 _] using rev_ind.
  - by apply wp_ret.
  - rewrite fmap_fst_snoc, last_snoc, removelast_snoc.
    rewrite <- app_assoc in Hst. st_get Hst A1. by apply wp_ret.
Qed.

Lemma read_next_next σ0 X0 σ ql A1 c pc A2 cnt F :
  st σ0 X0 σ ql (A1 ++ (c, pc) :: A2) cnt F →
  wp (match head A2.*1 with
      | Some x => nx ← getNode x; mret (n_next nx)
      | None => mret None
      end) σ (λ r σ', r = head (tail A2).*1 ∧ σ' = σ).
Proof.
  intros Hst. destruct A2 as [|[x [zx cx]] A2].
  - by apply wp_ret.
  - cbn [fmap list_fmap head fst tail].
    destruct pc as [zc cc]. apply st_fwd in Hst.
    st_get Hst (A1 ++ [(c, (zc, cc))]). by apply wp_ret.
Qed.

Lemma merge_left_st σ0 X0 σ ql A1 c pc A2 cnt F fill :
  st σ0 X0 σ ql (A1 ++ (c, pc) :: A2) cnt F →
  Forall entry_ok A1 → 0 ≤ cnt < 2 ^ 64 → fill ≤ INT_MAX →
  wp (match last A1.*1, last (removelast A1).*1 with
      | Some p, Some pp =>
          np ← getNode p;
          npp ← getNode pp;
          if wrap32 (n_count np + n_count npp) <=? fill
          then _quicklistZiplistMerge ql pp p;; mret tt
          else mret tt
      | _, _ => mret tt
      end) σ (λ _ σ',
    ∃ L, st σ0 X0 σ' ql (L ++ (c, pc) :: A2) cnt F ∧ Forall entry_ok L ∧
         csum L = csum A1 ∧ (length L ≤ length A1)%nat ∧
         bytes L = bytes A1).
Proof.
  intros Hst Hok Hc Hf.
  destruct A1 as [|[p [zp cp]] A1 _] using rev_ind.
  { apply wp_ret. by exists []. }
  rewrite fmap_fst_snoc, last_snoc, removelast_snoc.
  destruct A1 as [|[pp [zpp cpp]] A1 _] using rev_ind.
  { apply wp_ret. by exists [(p, (zp, cp))]. }
  rewrite fmap_fst_snoc, last_snoc.
  apply Forall_app_ok in Hok as [Hok Hp].
  apply Forall_app_ok in Hok as [Hok Hpp].
  apply Forall_cons_ok in Hp as [Hp _]. apply Forall_cons_ok in Hpp as [Hpp _].
  assert (st σ0 X0 σ ql (A1 ++ (pp, (zpp, cpp)) :: (p, (zp, cp)) :: (c, pc) :: A2)
             cnt F) as Hst' by (by rewrite <- !app_assoc in Hst).
  clear Hst. rename Hst' into Hst.
  apply st_fwd in Hst. st_get Hst (A1 ++ [(pp, (zpp, cpp))]).
  apply st_bwd in Hst. st_get Hst A1.
  destruct (wrap32 (cp + cpp) <=? fill) eqn:E.
  - apply Z.leb_le in E. rewrite Z.add_comm in E.
    wp_apply merge_fit_st; [exact Hst|done..|].
    intros r σ' (t & zt & -> & Ht & Hok' & Hst' & Hbt). wp_steps.
    exists (A1 ++ [(t, (zt, cpp + cp))]). split; [by rewrite <- app_assoc|].
    split; [|split; [|split]].
    + apply Forall_app_ok. split; [done|]. by apply Forall_cons_ok.
    + rewrite !csum_app. cbn. lia.
    + rewrite !length_app. cbn. lia.
    + rewrite !bytes_app, !bytes_cons, !bytes_nil, Hbt.
      by rewrite !app_nil_r, <- !app_assoc.
  - apply wp_ret. exists ((A1 ++ [(pp, (zpp, cpp))]) ++ [(p, (zp, cp))]).
    split; [by rewrite <- !app_assoc|]. split; [|done].
    apply Forall_app_ok. split; [|by apply Forall_cons_ok].
    apply Forall_app_ok. split; [done|]. by apply Forall_cons_ok.
Qed.

Lemma merge_right_st σ0 X0 σ ql A1 c pc A2 cnt F fill :
  st σ0 X0 σ ql (A1 ++ (c, pc) :: A2) cnt F →
  Forall entry_ok A2 → 0 ≤ cnt < 2 ^ 64 → fill ≤ INT_MAX →
  wp (match head A2.*1, head (tail A2).*1 with
      | Some x, Some xx =>
          nx ← getNode x;
          nxx ← getNode xx;
          if wrap32 (n_count nx + n_count nxx) <=? fill
          then _quicklistZiplistMerge ql x xx;; mret tt
          else mret tt
      | _, _ => mret tt
      end) σ (λ _ σ',
    ∃ R, st σ0 X0 σ' ql (A1 ++ (c, pc) :: R) cnt F ∧ Forall entry_ok R ∧
         csum R = csum A2 ∧ (length R ≤ length A2)%nat ∧
         bytes R = bytes A2).
Proof.
  intros Hst Hok Hc Hf.
  destruct A2 as [|[x [zx cx]] A2].
  { apply wp_ret. by exists []. }
  destruct A2 as [|[xx [zxx cxx]] A2].
  { apply wp_ret. by exists [(x, (zx, cx))]. }
  cbn [fmap list_fmap head fst tail].
  apply Forall_cons_ok in Hok as [Hx Hok].
  apply Forall_cons_ok in Hok as [Hxx Hok].
  destruct pc as [zc cc].
  apply st_fwd in Hst. st_get Hst (A1 ++ [(c, (zc, cc))]).
  apply st_fwd in Hst.
  st_get Hst ((A1 ++ [(c, (zc, cc))]) ++ [(x, (zx, cx))]).
  apply st_bwd in Hst.
  destruct (wrap32 (cx + cxx) <=? fill) eqn:E.
  - apply Z.leb_le in E.
    wp_apply (merge_fit_st _ _ _ _ (A1 ++ [(c, (zc, cc))]));
      [exact Hst|done..|].
    intros r σ' (t & zt & -> & Ht & Hok' & Hst' & Hbt). wp_steps.
    exists ((t, (zt, cx + cxx)) :: A2). split; [by apply st_bwd|].
    split; [|split; [|split]].
    + by apply Forall_cons_ok.
    + cbn. lia.
    + cbn. lia.
    + rewrite !bytes_cons, Hbt. by rewrite <- !app_assoc.
  - apply wp_ret. exists ((x, (zx, cx)) :: (xx, (zxx, cxx)) :: A2).
    split; [by apply st_bwd|]. split; [|done].
    apply Forall_cons_ok. split; [done|]. by apply Forall_cons_ok.
Qed.

Lemma merge_centre_st σ0 X0 σ ql L c zc cc R cnt F fill :
  st σ0 X0 σ ql (L ++ (c, (zc, cc)) :: R) cnt F →
  Forall entry_ok L → entry_ok (c, (zc, cc)) →
  0 ≤ cnt < 2 ^ 64 → fill ≤ INT_MAX →
  wp (match last L.*1 with
      | Some p =>
          np ← getNode p;
          if wrap32 (cc + n_count np) <=? fill
          then _quicklistZiplistMerge ql p c
          else mret None
      | None => mret None
      end) σ (λ r σ',
    ∃ L' t zt ct, st σ0 X0 σ' ql (L' ++ (t, (zt, ct)) :: R) cnt F ∧
      Forall entry_ok L' ∧ entry_ok (t, (zt, ct)) ∧
      csum L' + ct = csum L + cc ∧ (length L' ≤ length L)%nat ∧
      (r = None ∨ r = Some t) ∧
      bytes L' ++ (entry_bytes <$> zt) = bytes L ++ (entry_bytes <$> zc)).
Proof.
  intros Hst Hok Hc Hcnt Hf.
  destruct L as [|[p [zp cp]] L _] using rev_ind.
  { apply wp_ret. exists [], c, zc, cc. eauto 10. }
  rewrite fmap_fst_snoc, last_snoc.
  apply Forall_app_ok in Hok as [Hok Hp].
  apply Forall_cons_ok in Hp as [Hp _].
  apply st_bwd in Hst. st_get Hst L.
  destruct (wrap32 (cc + cp) <=? fill) eqn:E.
  - apply Z.leb_le in E. rewrite Z.add_comm in E.
    wp_apply merge_fit_st; [exact Hst|done..|].
    intros r σ' (t & zt & -> & Ht & Hok' & Hst' & Hbt).
    exists L, t, zt, (cp + cc). rewrite csum_app, length_app. cbn.
    split; [done|]. split; [done|]. split; [done|]. split; [lia|].
    split; [lia|]. split; [by right|].
    rewrite bytes_app, bytes_cons, bytes_nil, Hbt.
    by rewrite !app_nil_r, <- !app_assoc.
  - apply wp_ret. exists (L ++ [(p, (zp, cp))]), c, zc, cc.
    split; [by apply st_fwd|]. split.
    { apply Forall_app_ok. split; [done|]. by apply Forall_cons_ok. }
    eauto 10.
Qed.

Lemma merge_target_st σ0 X0 σ ql L t zt ct R cnt F fill :
  st σ0 X0 σ ql (L ++ (t, (zt, ct)) :: R) cnt F →
  entry_ok (t, (zt, ct)) → Forall entry_ok R →
  0 ≤ cnt < 2 ^ 64 → fill ≤ INT_MAX →
  wp (nt ← getNode t;
      match n_next nt with
      | Some x =>
          nx ← getNode x;
          if wrap32 (n_count nt + n_count nx) <=? fill
          then _quicklistZiplistMerge ql t x;; mret tt
          else mret tt
      | None => mret tt
      end) σ (λ _ σ',
    ∃ B, st σ0 X0 σ' ql (L ++ B) cnt F ∧ Forall entry_ok B ∧
         csum B = ct + csum R ∧ (length B ≤ S (length R))%nat ∧
         bytes B = (entry_bytes <$> zt) ++ bytes R).
Proof.
  intros Hst Ht Hok Hcnt Hf. st_get Hst L.
  destruct R as [|[x [zx cx]] R]; cbn [fmap list_fmap head fst].
  { apply wp_ret. exists [(t, (zt, ct))]. split; [done|].
    split; [by apply Forall_cons_ok|]. split; [done|]. split; [done|].
    by rewrite bytes_cons. }
  apply Forall_cons_ok in Hok as [Hx Hok].
  apply st_fwd in Hst. st_get Hst (L ++ [(t, (zt, ct))]). apply st_bwd in Hst.
  destruct (wrap32 (ct + cx) <=? fill) eqn:E.
  - apply Z.leb_le in E.
    wp_apply merge_fit_st; [exact Hst|done..|].
    intros r σ' (u & zu & -> & Hu & Hok' & Hst' & Hbt). wp_steps.
    exists ((u, (zu, ct + cx)) :: R). split; [done|].
    split; [by apply Forall_cons_ok|]. split; [cbn; lia|].
    split; [cbn; lia|]. rewrite !bytes_cons, Hbt. by rewrite <- !app_assoc.
  - apply wp_ret. exists ((t, (zt, ct)) :: (x, (zx, cx)) :: R).
    split; [done|]. split; [|by rewrite !bytes_cons].
    apply Forall_cons_ok. split; [done|]. by apply Forall_cons_ok.
Qed.

Lemma quicklistMergeNodes_st σ0 X0 σ ql A1 c zc cc A2 cnt F fill :
  st σ0 X0 σ ql (A1 ++ (c, (zc, cc)) :: A2) cnt F →
  Forall entry_ok (A1 ++ (c, (zc, cc)) :: A2) →
  0 ≤ cnt < 2 ^ 64 → fill ≤ INT_MAX →
  wp (_quicklistMergeNodes ql fill c) σ (λ _ σ',
    ∃ B, st σ0 X0 σ' ql B cnt F ∧ Forall entry_ok B ∧
         csum B = csum (A1 ++ (c, (zc, cc)) :: A2) ∧
         (length B ≤ length (A1 ++ (c, (zc, cc)) :: A2))%nat ∧
         bytes B = bytes (A1 ++ (c, (zc, cc)) :: A2)).
Proof.
  intros Hst Hok Hcnt Hf. unfold _quicklistMergeNodes.
  apply Forall_app_ok in Hok as [Hok1 Hok2].
  apply Forall_cons_ok in Hok2 as [Hc Hok2].
  st_get Hst A1.
  wp_apply read_prev_prev; [exact Hst|]. intros r σ1 [-> ->].
  wp_apply read_next_next; [exact Hst|]. intros r σ1 [-> ->].
  wp_apply merge_left_st; [exact Hst|done..|].
  intros [] σ1 (L & Hst1 & HokL & HsL & HlL & HbL).
  wp_apply merge_right_st; [exact Hst1|done..|].
  intros [] σ2 (R & Hst2 & HokR & HsR & HlR & HbR).
  st_get Hst2 L.
  wp_apply merge_centre_st; [exact Hst2|done..|].
  intros r σ3 (L' & t & zt & ct & Hst3 & HokL' & Ht & Hs3 & Hl3 & Hr & Hb3).
  assert (bytes (L' ++ (t, (zt, ct)) :: R) =
          bytes (A1 ++ (c, (zc, cc)) :: A2)) as Hbytes.
  { rewrite !bytes_app, !bytes_cons, HbR, <- HbL.
    by rewrite !app_assoc, Hb3. }
  destruct Hr as [-> | ->].
  - apply wp_ret. exists (L' ++ (t, (zt, ct)) :: R). split; [done|].
    split.
    { apply Forall_app_ok. split; [done|]. by apply Forall_cons_ok. }
    split; [|split; [|done]];
      rewrite ?csum_app, ?csum_cons, ?length_app; cbn [fst snd length]; lia.
  - eapply wp_mono; [by eapply merge_target_st|].
    intros [] σ4 (B & Hst4 & HokB & HsB & HlB & HbB).
    exists (L' ++ B). split; [done|]. split.
    { by apply Forall_app_ok. }
    split; [|split];
      [rewrite ?csum_app, ?csum_cons; cbn [fst snd]; lia
      |rewrite ?length_app; cbn [length]; lia|].
    rewrite <- Hbytes. by rewrite !bytes_app, HbB, bytes_cons.
Qed.

(** ** Insertion next to an entry *)

Lemma length_le_csum A : Forall entry_ok A → Z.of_nat (length A) ≤ csum A.
Proof.
  induction 1 as [|[a [zl c]] A [_ Hc] _ IH]; [done|].
  rewrite csum_cons. cbn [length fst snd] in *. lia.
Qed.

Lemma split_after (zl : ziplist) (i : nat) :
  (i < length zl)%nat → Z.of_nat (length zl) ≤ INT_MAX →
  split_orig zl (Z.of_nat i) true = take (S i) zl ∧
  split_new zl (Z.of_nat i) true = drop (S i) zl.
Proof.
  unfold INT_MAX. intros Hi Hlen. unfold split_orig, split_new.
  assert (cast_int (Z.of_nat i + 1) = Z.of_nat (S i)) as ->.
  { unfold cast_int. rewrite Z.mod_small by lia. lia. }
  unfold ziplistDeleteRange. split.
  - unfold ziplistIndex.
    rewrite (proj2 (Z.ltb_ge _ _)) by lia.
    destruct (Z.of_nat (S i) <? Z.of_nat (length zl)) eqn:E.
    + cbn [Z.ltb Z.compare]. by rewrite Nat2Z.id.
    + apply Z.ltb_ge in E. rewrite take_ge; [done|lia].
  - rewrite ziplistIndex_first. rewrite (proj2 (Nat.ltb_lt _ _)) by lia.
    rewrite (proj2 (Z.ltb_ge _ _)) by lia.
    rewrite take_0, Nat2Z.id. done.
Qed.

Lemma split_before (zl : ziplist) (i : nat) :
  (i < length zl)%nat →
  split_orig zl (Z.of_nat i) false = drop i zl ∧
  split_new zl (Z.of_nat i) false = take i zl.
Proof.
  intros Hi. unfold split_orig, split_new, ziplistDeleteRange. split.
  - rewrite ziplistIndex_first. rewrite (proj2 (Nat.ltb_lt _ _)) by lia.
    rewrite (proj2 (Z.ltb_ge _ _)) by lia.
    rewrite take_0, Nat2Z.id. done.
  - rewrite ziplistIndex_nonneg by lia. rewrite Nat2Z.id. done.
Qed.

Lemma ziplistLen_small (zl : ziplist) :
  Z.of_nat (length zl) ≤ INT_MAX → ziplistLen zl = Z.of_nat (length zl).
Proof.
  unfold INT_MAX, ziplistLen. intros. rewrite wrap32_small; lia.
Qed.

Lemma ziplistPush_length (zl : ziplist) s w :
  length (ziplistPush zl s w) = S (length zl).
Proof.
  unfold ziplistPush. destruct (w =? ZIPLIST_HEAD); [done|].
  rewrite length_app. cbn. lia.
Qed.

Lemma entry_ok_intro a (zl : ziplist) c :
  c = Z.of_nat (length zl) → 0 < c ≤ INT_MAX → entry_ok (a, (zl, c)).
Proof. by split. Qed.

Lemma bump_count σ0 X0 σ ql B cnt F :
  st σ0 X0 σ ql B cnt F → 0 ≤ cnt → cnt + 1 < 2 ^ 64 →
  wp (l ← getList ql; setList ql (set_qcount l (wrap64 (q_count l + 1)))) σ
     (λ _ σ', st σ0 X0 σ' ql B (cnt + 1) F).
Proof.
  intros Hst H0 H1. st_getList Hst. st_setCount Hst.
  by rewrite wrap64_id in Hst by lia.
Qed.

Lemma grow_ok (A1 : chain) a (zl zl' : ziplist) c (A2 : chain) fill :
  Forall entry_ok A1 → entry_ok (a, (zl, c)) → Forall entry_ok A2 →
  c < fill → fill ≤ INT_MAX → length zl' = S (length zl) →
  Forall entry_ok (A1 ++ (a, (zl', wrap32 (c + 1))) :: A2) ∧
  csum (A1 ++ (a, (zl', wrap32 (c + 1))) :: A2) =
    csum (A1 ++ (a, (zl, c)) :: A2) + 1.
Proof.
  intros H1 [Hc Hr] H2 Hlt Hf Hl. cbn [fst snd] in Hc, Hr.
  rewrite wrap32_small by (unfold INT_MAX in *; lia). split.
  - apply Forall_app_ok. split; [done|]. apply Forall_cons_ok. split; [|done].
    apply entry_ok_intro; [rewrite Hl; lia|lia].
  - rewrite !csum_app, !csum_cons. cbn [fst snd]. lia.
Qed.

Lemma bytes_insert_mid A1 a (zl : ziplist) c A2 k v :
  bytes (A1 ++ (a, (take k zl ++ zipEntry v :: drop k zl, c)) :: A2) =
    insert_bytes A1 zl A2 k v.
Proof.
  unfold insert_bytes. rewrite bytes_app, bytes_cons, fmap_app. cbn.
  by rewrite entry_bytes_zipEntry, <- !app_assoc.
Qed.

Lemma insert_bytes_end A1 (zl : ziplist) A2 k v :
  (length zl ≤ k)%nat →
  insert_bytes A1 zl A2 k v = bytes A1 ++ (entry_bytes <$> zl) ++ v :: bytes A2.
Proof.
  intros Hk. unfold insert_bytes. by rewrite take_ge, drop_ge by done.
Qed.

Lemma insert_bytes_start A1 (zl : ziplist) A2 v :
  insert_bytes A1 zl A2 0 v = bytes A1 ++ v :: (entry_bytes <$> zl) ++ bytes A2.
Proof. unfold insert_bytes. by rewrite take_0, drop_0. Qed.

Lemma insert_split_st σ0 X0 σ ql A1 a zl c A2 cnt fill v (after : bool) i :
  st σ0 X0 σ ql (A1 ++ (a, (zl, c)) :: A2) cnt None →
  Forall entry_ok (A1 ++ (a, (zl, c)) :: A2) →
  cnt = csum (A1 ++ (a, (zl, c)) :: A2) → cnt + 1 < 2 ^ 64 →
  fill ≤ INT_MAX → (i < length zl)%nat →
  wp (new_node ← _quicklistSplitNode a (Z.of_nat i) after;
      nn ← getNode new_node;
      setNode new_node
        (set_zl nn (ziplistPush (n_zl nn) v
                      (if after then ZIPLIST_HEAD else ZIPLIST_TAIL)));;
      nn ← getNode new_node;
      setNode new_node (set_count nn (wrap32 (n_count nn + 1)));;
      __quicklistInsertNode ql (Some a) new_node after;;
      _quicklistMergeNodes ql fill a) σ (λ _ σ',
    ∃ B, st σ0 X0 σ' ql B cnt None ∧
         (Forall entry_ok B ∧ csum B = cnt + 1) ∧
         bytes B = insert_bytes A1 zl A2 (if after then S i else i) v).
Proof.
  intros Hst Hok Hcnt Hcap Hf Hi.
  pose proof (length_le_csum _ Hok) as Hlen.
  pose proof (csum_nonneg _ Hok) as Hnn.
  pose proof Hok as Hok'.
  apply Forall_app_ok in Hok' as [Hok1 Hok2].
  apply Forall_cons_ok in Hok2 as [Ha Hok2].
  pose proof Ha as [Hac Har]. cbn [fst snd] in Hac, Har.
  wp_apply quicklistSplitNode_st; [exact Hst|].
  intros r σ1 [-> Hst1].
  destruct after.
  - destruct (split_after zl i Hi ltac:(lia)) as [Eo Enw].
    rewrite Eo, Enw in Hst1. clear Eo Enw.
    assert (length (take (S i) zl) = S i) as Ht by (rewrite length_take; lia).
    assert (length (drop (S i) zl) = (length zl - S i)%nat) as Hd
      by (by rewrite length_drop).
    rewrite !ziplistLen_small in Hst1 by (unfold INT_MAX in *; lia).
    rewrite Ht, Hd in Hst1.
    st_getL Hst1. st_setL Hst1. st_getL Hst1. st_setL Hst1.
    mem_simpl_in Hst1.
    rewrite wrap32_small in Hst1 by (unfold INT_MAX in *; lia).
    rewrite cons_middle, app_assoc in Hst1.
    st_insert Hst1 (A1 ++ [(a, (take (S i) zl, Z.of_nat (S i)))]) A2.
    + rewrite !length_app in *. cbn [length] in *. lia.
    + rewrite fmap_fst_snoc, last_snoc. split; [done|].
      intros H. by apply app_eq_nil in H as [_ [=]].
    + apply st_bwd in Hst1.
      eapply wp_mono; [eapply quicklistMergeNodes_st; [exact Hst1|..]|].
      * apply Forall_app_ok. split; [done|].
        apply Forall_cons_ok. split.
        { apply entry_ok_intro; [by rewrite Ht|unfold INT_MAX in *; lia]. }
        apply Forall_cons_ok. split; [|done].
        apply entry_ok_intro; [|unfold INT_MAX in *; lia].
        rewrite ziplistPush_length, Hd. lia.
      * lia.
      * done.
      * intros [] σ' (B & HB & HokB & HsB & _ & HbB). exists B.
        split; [done|]. split.
        { split; [done|]. rewrite HsB, Hcnt.
          rewrite !csum_app, !csum_cons. cbn [fst snd]. lia. }
        rewrite HbB. unfold insert_bytes, ziplistPush. cbn [ZIPLIST_HEAD Z.eqb].
        rewrite !bytes_app, !bytes_cons. cbn [fmap list_fmap].
        by rewrite entry_bytes_zipEntry.
  - destruct (split_before zl i Hi) as [Eo Enw].
    rewrite Eo, Enw in Hst1. clear Eo Enw.
    assert (length (take i zl) = i) as Ht by (rewrite length_take; lia).
    assert (length (drop i zl) = (length zl - i)%nat) as Hd
      by (by rewrite length_drop).
    rewrite !ziplistLen_small in Hst1 by (unfold INT_MAX in *; lia).
    rewrite Ht, Hd in Hst1.
    st_getL Hst1. st_setL Hst1. st_getL Hst1. st_setL Hst1.
    mem_simpl_in Hst1.
    rewrite wrap32_small in Hst1 by (unfold INT_MAX in *; lia).
    st_insert Hst1 A1 ((a, (drop i zl, Z.of_nat (length zl - i))) :: A2).
    + rewrite !length_app in *. cbn [length] in *. lia.
    + apply st_fwd in Hst1.
      eapply wp_mono; [eapply quicklistMergeNodes_st; [exact Hst1|..]|].
      * rewrite <- app_assoc. apply Forall_app_ok. split; [done|].
        apply Forall_cons_ok. split.
        { apply entry_ok_intro; [|unfold INT_MAX in *; lia].
          rewrite ziplistPush_length, Ht. lia. }
        apply Forall_cons_ok. split; [|done].
        apply entry_ok_intro; [by rewrite Hd|unfold INT_MAX in *; lia].
      * lia.
      * done.
      * intros [] σ' (B & HB & HokB & HsB & _ & HbB). exists B.
        split; [done|]. split.
        { split; [done|]. rewrite HsB, Hcnt.
          rewrite !csum_app, !csum_cons. cbn [fst snd csum foldr]. lia. }
        rewrite HbB. unfold insert_bytes, ziplistPush.
        change (ZIPLIST_TAIL =? ZIPLIST_HEAD) with false. cbn iota.
        rewrite !bytes_app, !bytes_cons, !fmap_app. cbn [fmap list_fmap].
        by rewrite entry_bytes_zipEntry, <- !app_assoc.
Qed.

Lemma insert_new_st σ0 X0 σ ql A1 a zl c A2 cnt v (after : bool) :
  st σ0 X0 σ ql (A1 ++ (a, (zl, c)) :: A2) cnt None →
  Forall entry_ok (A1 ++ (a, (zl, c)) :: A2) →
  cnt = csum (A1 ++ (a, (zl, c)) :: A2) → cnt + 1 < 2 ^ 64 →
  wp (new_node ← quicklistCreateNode;
      nn ← getNode new_node;
      setNode new_node (set_zl nn (ziplistPush ziplistNew v ZIPLIST_HEAD));;
      nn ← getNode new_node;
      setNode new_node (set_count nn (wrap32 (n_count nn + 1)));;
      __quicklistInsertNode ql (Some a) new_node after) σ (λ _ σ',
    ∃ B, st σ0 X0 σ' ql B cnt None ∧
         (Forall entry_ok B ∧ csum B = cnt + 1) ∧
         bytes B = if after
                   then bytes A1 ++ (entry_bytes <$> zl) ++ v :: bytes A2
                   else bytes A1 ++ v :: (entry_bytes <$> zl) ++ bytes A2).
Proof.
  intros Hst Hok Hcnt Hcap.
  pose proof (length_le_csum _ Hok) as Hlen.
  pose proof Hok as Hok'.
  apply Forall_app_ok in Hok' as [Hok1 Hok2].
  apply Forall_cons_ok in Hok2 as [Ha Hok2].
  assert (entry_ok (brk σ, ([zipEntry v], 1))) as Hnew.
  { apply entry_ok_intro; [done|unfold INT_MAX; lia]. }
  st_new Hst. st_getL Hst. st_setL Hst. st_getL Hst. st_setL Hst.
  mem_simpl_in Hst. unfold ziplistPush, ziplistNew in Hst.
  cbn [ZIPLIST_HEAD Z.eqb] in Hst.
  change (wrap32 (0 + 1)) with 1 in Hst.
  destruct after.
  - rewrite cons_middle, app_assoc in Hst.
    st_insert Hst (A1 ++ [(a, (zl, c))]) A2.
    + rewrite !length_app in *. cbn [length] in *. lia.
    + rewrite fmap_fst_snoc, last_snoc. split; [done|].
      intros H. by apply app_eq_nil in H as [_ [=]].
    + eexists. split; [exact Hst|]. split; [split|].
      * apply Forall_app_ok. split.
        { apply Forall_app_ok. split; [done|]. by apply Forall_cons_ok. }
        by apply Forall_cons_ok.
      * rewrite Hcnt, !csum_app, !csum_cons. cbn [fst snd csum foldr]. lia.
      * rewrite !bytes_app, !bytes_cons, bytes_nil. cbn [fmap list_fmap].
        by rewrite entry_bytes_zipEntry, app_nil_r, <- !app_assoc.
  - st_insert Hst A1 ((a, (zl, c)) :: A2).
    + rewrite !length_app in *. cbn [length] in *. lia.
    + eexists. split; [exact Hst|]. split; [split|].
      * apply Forall_app_ok. split; [done|].
        apply Forall_cons_ok. split; [done|]. by apply Forall_cons_ok.
      * rewrite Hcnt, !csum_app, !csum_cons. cbn [fst snd csum foldr]. lia.
      * rewrite !bytes_app, !bytes_cons. cbn [fmap list_fmap].
        by rewrite entry_bytes_zipEntry.
Qed.

Lemma quicklistInsert_any_st σ0 X0 σ ql A1 a zl c A2 cnt fill e v after i :
  st σ0 X0 σ ql (A1 ++ (a, (zl, c)) :: A2) cnt None →
  Forall entry_ok (A1 ++ (a, (zl, c)) :: A2) →
  cnt = csum (A1 ++ (a, (zl, c)) :: A2) → cnt + 1 < 2 ^ 64 →
  fill ≤ INT_MAX →
  e_node e = Some a → e_zi e = Some i → (i < length zl)%nat →
  e_offset e = Z.of_nat i ∨ ¬ split_at A1 zl c A2 fill i after →
  wp (_quicklistInsert ql fill e v after) σ (λ _ σ',
    ∃ B, st σ0 X0 σ' ql B (cnt + 1) None ∧
         (Forall entry_ok B ∧ csum B = cnt + 1) ∧
         bytes B = insert_bytes A1 zl A2 (if after then S i else i) v).
Proof.
  intros Hst Hok Hcnt Hcap Hf Hn Hz Hi Hoff.
  pose proof (length_le_csum _ Hok) as Hlen.
  pose proof (csum_nonneg _ Hok) as Hnn.
  apply Forall_app_ok in Hok as [Hok1 Hok2].
  apply Forall_cons_ok in Hok2 as [Ha Hok2].
  pose proof Ha as [Hac Har]. cbn [fst snd] in Hac, Har.
  unfold _quicklistInsert. rewrite Hn, Hz. cbn [cur].
  st_get Hst A1.
  assert (Hfin : ∀ T σ1 (u : unit),
    (∃ B, st σ0 X0 σ1 ql B cnt None ∧
          (Forall entry_ok B ∧ csum B = cnt + 1) ∧ bytes B = T) →
    wp (l ← getList ql;
        setList ql (set_qcount l (wrap64 (q_count l + 1)))) σ1
       (λ _ σ', ∃ B, st σ0 X0 σ' ql B (cnt + 1) None ∧
                     (Forall entry_ok B ∧ csum B = cnt + 1) ∧
                     bytes B = T)).
  { intros T σ1 _ (B & HB & HokB & HsB).
    eapply wp_mono; [by eapply bump_count; [exact HB|lia..]|].
    intros [] σ3 HB'. by exists B. }
  assert (Hsplit : ∀ aft : bool, e_offset e = Z.of_nat i →
    wp (new_node ← _quicklistSplitNode a (e_offset e) aft;
        nn ← getNode new_node;
        setNode new_node
          (set_zl nn (ziplistPush (n_zl nn) v
                        (if aft then ZIPLIST_HEAD else ZIPLIST_TAIL)));;
        nn ← getNode new_node;
        setNode new_node (set_count nn (wrap32 (n_count nn + 1)));;
        __quicklistInsertNode ql (Some a) new_node aft;;
        _quicklistMergeNodes ql fill a) σ (λ _ σ',
      wp (l ← getList ql;
          setList ql (set_qcount l (wrap64 (q_count l + 1)))) σ'
         (λ _ σ', ∃ B, st σ0 X0 σ' ql B (cnt + 1) None ∧
                       (Forall entry_ok B ∧ csum B = cnt + 1) ∧
                       bytes B =
                         insert_bytes A1 zl A2 (if aft then S i else i) v))).
  { intros aft ->. eapply wp_mono.
    - eapply (insert_split_st _ _ _ _ A1 a zl c A2); try done.
      apply Forall_app_ok. split; [done|]. by apply Forall_cons_ok.
    - intros [] σ1 HB. by apply (Hfin _ _ tt). }
  assert (Hnew : ∀ aft : bool,
    wp (new_node ← quicklistCreateNode;
        nn ← getNode new_node;
        setNode new_node (set_zl nn (ziplistPush ziplistNew v ZIPLIST_HEAD));;
        nn ← getNode new_node;
        setNode new_node (set_count nn (wrap32 (n_count nn + 1)));;
        __quicklistInsertNode ql (Some a) new_node aft) σ (λ _ σ',
      wp (l ← getList ql;
          setList ql (set_qcount l (wrap64 (q_count l + 1)))) σ'
         (λ _ σ', ∃ B, st σ0 X0 σ' ql B (cnt + 1) None ∧
                       (Forall entry_ok B ∧ csum B = cnt + 1) ∧
                       bytes B =
                         if aft
                         then bytes A1 ++ (entry_bytes <$> zl) ++
                              v :: bytes A2
                         else bytes A1 ++
                              v :: (entry_bytes <$> zl) ++ bytes A2))).
  { intros aft. eapply wp_mono.
    - eapply (insert_new_st _ _ _ _ A1 a zl c A2); try done.
      apply Forall_app_ok. split; [done|]. by apply Forall_cons_ok.
    - intros [] σ1 HB. by apply (Hfin _ _ tt). }
  destruct after; cbn [negb andb orb].
  - wp_steps. destruct (ziplistNext zl i) as [j|] eqn:En.
    + assert (j = S i) as Hj.
      { unfold ziplistNext in En. destruct (S i <? length zl)%nat; [|done].
        by injection En. }
      wp_steps. wp_red. destruct (c >=? fill) eqn:Ef; cbn [negb andb orb].
      * apply (Hsplit true). destruct Hoff as [Ho|Hns]; [done|].
        exfalso. apply Hns. rewrite Z.geb_leb in Ef. apply Z.leb_le in Ef.
        split; [done|]. left. unfold ziplistNext in En.
        destruct (S i <? length zl)%nat eqn:E; [|done].
        by apply Nat.ltb_lt in E.
      * rewrite Z.geb_leb in Ef. apply Z.leb_gt in Ef.
        wp_steps. rewrite En.
        st_set Hst A1. st_get Hst A1. st_set Hst A1.
        apply (Hfin _ _ tt). eexists. split; [exact Hst|]. split.
        { rewrite Hcnt. apply (grow_ok _ _ zl _ _ _ fill); try done.
          apply ziplistInsert_length. }
        subst j. apply bytes_insert_mid.
    + assert (length zl ≤ S i)%nat as Hlast.
      { unfold ziplistNext in En.
        destruct (S i <? length zl)%nat eqn:E; [done|].
        by apply Nat.ltb_ge in E. }
      destruct (c >=? fill) eqn:Ef.
      * destruct A2 as [|[x [zx cx]] A2]; cbn [fmap list_fmap head fst].
        -- wp_steps. wp_red. cbn [negb andb orb].
           rewrite bool_decide_false by (by intros H; apply H).
           cbn [negb andb orb]. apply (Hsplit true).
           destruct Hoff as [Ho|Hns]; [done|].
           exfalso. apply Hns. rewrite Z.geb_leb in Ef. apply Z.leb_le in Ef.
           split; [done|]. by right.
        -- apply Forall_cons_ok in Hok2 as [Hx Hok2].
           apply st_fwd in Hst. st_get Hst (A1 ++ [(a, (zl, c))]).
           wp_steps. wp_red. cbn [negb andb orb].
           rewrite bool_decide_true by done.
           rewrite (insert_bytes_end A1 zl _ (S i) v Hlast).
           destruct (cx >=? fill) eqn:Efx; cbn [negb andb orb].
           ++ exact (Hnew true).
           ++ rewrite Z.geb_leb in Efx. apply Z.leb_gt in Efx.
              wp_steps.
              st_get Hst (A1 ++ [(a, (zl, c))]).
              st_set Hst (A1 ++ [(a, (zl, c))]).
              st_get Hst (A1 ++ [(a, (zl, c))]).
              st_set Hst (A1 ++ [(a, (zl, c))]).
              apply (Hfin _ _ tt). eexists. split; [exact Hst|]. split.
              { rewrite Hcnt.
                replace (A1 ++ (a, (zl, c)) :: (x, (zx, cx)) :: A2)
                  with ((A1 ++ [(a, (zl, c))]) ++ (x, (zx, cx)) :: A2)
                  by (by rewrite <- app_assoc).
                apply (grow_ok _ _ zx _ _ _ fill); try done.
                apply Forall_app_ok. split; [done|]. by apply Forall_cons_ok. }
              unfold ziplistPush. cbn [ZIPLIST_HEAD Z.eqb].
              rewrite !bytes_app, !bytes_cons, bytes_nil.
              cbn [fmap list_fmap].
              by rewrite entry_bytes_zipEntry, app_nil_r, <- !app_assoc.
      * rewrite Z.geb_leb in Ef. apply Z.leb_gt in Ef.
        assert (wp (match head A2.*1 with
                    | Some x => nx ← getNode x; mret (true, n_count nx >=? fill)
                    | None => mret (true, false)
                    end) σ (λ r σ', r.1 = true ∧ σ' = σ)) as Hrd.
        { destruct A2 as [|[x [zx cx]] A2]; cbn [fmap list_fmap head fst].
          - by apply wp_ret.
          - apply st_fwd in Hst. st_get Hst (A1 ++ [(a, (zl, c))]).
            by apply wp_ret. }
        wp_bind_syn. eapply wp_mono; [exact Hrd|].
        intros [at_tail full_next] σ1 [Hr ->]. cbn in Hr. subst at_tail.
        wp_red. wp_steps. wp_red. cbn [negb andb orb]. wp_steps. rewrite En.
        st_set Hst A1. st_get Hst A1. st_set Hst A1.
        apply (Hfin _ _ tt). eexists. split; [exact Hst|]. split.
        { rewrite Hcnt. apply (grow_ok _ _ zl _ _ _ fill); try done.
          apply ziplistPush_length. }
        rewrite (insert_bytes_end A1 zl _ (S i) v Hlast).
        unfold ziplistPush. change (ZIPLIST_TAIL =? ZIPLIST_HEAD) with false.
        cbn iota. rewrite !bytes_app, !bytes_cons, fmap_app.
        cbn [fmap list_fmap].
        by rewrite entry_bytes_zipEntry, <- !app_assoc.
  - wp_steps. wp_red. wp_steps. destruct (ziplistPrev zl i) as [j|] eqn:Ep.
    + wp_steps. wp_red. destruct (c >=? fill) eqn:Ef; cbn [negb andb orb].
      * apply (Hsplit false). destruct Hoff as [Ho|Hns]; [done|].
        exfalso. apply Hns. rewrite Z.geb_leb in Ef. apply Z.leb_le in Ef.
        split; [done|]. left. unfold ziplistPrev in Ep.
        rewrite (proj2 (Nat.leb_gt _ _) Hi) in Ep. destruct i; [done|lia].
      * rewrite Z.geb_leb in Ef. apply Z.leb_gt in Ef.
        wp_steps.
        st_set Hst A1. st_get Hst A1. st_set Hst A1.
        apply (Hfin _ _ tt). eexists. split; [exact Hst|]. split.
        { rewrite Hcnt. apply (grow_ok _ _ zl _ _ _ fill); try done.
          apply ziplistInsert_length. }
        apply bytes_insert_mid.
    + assert (i = 0%nat) as Hi0.
      { unfold ziplistPrev in Ep.
        rewrite (proj2 (Nat.leb_gt _ _) Hi) in Ep. by destruct i. }
      destruct (c >=? fill) eqn:Ef.
      * destruct A1 as [|[x [zx cx]] A1 _] using rev_ind.
        -- cbn [fmap list_fmap last]. wp_steps. wp_red. cbn [negb andb orb].
           rewrite bool_decide_false by (by intros H; apply H).
           cbn [negb andb orb]. apply (Hsplit false).
           destruct Hoff as [Ho|Hns]; [done|].
           exfalso. apply Hns. rewrite Z.geb_leb in Ef. apply Z.leb_le in Ef.
           split; [done|]. by right.
        -- apply Forall_app_ok in Hok1 as [Hok1 Hx].
           apply Forall_cons_ok in Hx as [Hx _].
           rewrite fmap_fst_snoc, last_snoc.
           apply st_bwd in Hst. st_get Hst A1.
           wp_steps. wp_red. cbn [negb andb orb].
           rewrite bool_decide_true by done.
           rewrite Hi0, insert_bytes_start.
           destruct (cx >=? fill) eqn:Efx; cbn [negb andb orb].
           ++ exact (Hnew false).
           ++ rewrite Z.geb_leb in Efx. apply Z.leb_gt in Efx.
              wp_steps.
              st_get Hst A1. st_set Hst A1. st_get Hst A1. st_set Hst A1.
              apply (Hfin _ _ tt). eexists. split; [exact Hst|]. split.
              { rewrite Hcnt.
                replace ((A1 ++ [(x, (zx, cx))]) ++ (a, (zl, c)) :: A2)
                  with (A1 ++ (x, (zx, cx)) :: (a, (zl, c)) :: A2)
                  by (by rewrite <- app_assoc).
                apply (grow_ok _ _ zx _ _ _ fill); try done.
                { by apply Forall_cons_ok. }
                apply ziplistPush_length. }
              unfold ziplistPush.
              change (ZIPLIST_TAIL =? ZIPLIST_HEAD) with false. cbn iota.
              rewrite !bytes_app, !bytes_cons, bytes_nil, fmap_app.
              cbn [fmap list_fmap].
              by rewrite entry_bytes_zipEntry, app_nil_r, <- !app_assoc.
      * rewrite Z.geb_leb in Ef. apply Z.leb_gt in Ef.
        assert (wp (match last A1.*1 with
                    | Some x => px ← getNode x; mret (true, n_count px >=? fill)
                    | None => mret (true, false)
                    end) σ (λ r σ', r.1 = true ∧ σ' = σ)) as Hrd.
        { destruct A1 as [|[x [zx cx]] A1 _] using rev_ind.
          - by apply wp_ret.
          - rewrite fmap_fst_snoc, last_snoc.
            apply st_bwd in Hst. st_get Hst A1. by apply wp_ret. }
        wp_bind_syn. eapply wp_mono; [exact Hrd|].
        intros [at_head full_prev] σ1 [Hr ->]. cbn in Hr. subst at_head.
        wp_red. cbn [negb andb orb]. wp_steps.
        st_set Hst A1. st_get Hst A1. st_set Hst A1.
        apply (Hfin _ _ tt). eexists. split; [exact Hst|]. split.
        { rewrite Hcnt. apply (grow_ok _ _ zl _ _ _ fill); try done.
          apply ziplistInsert_length. }
        apply bytes_insert_mid.
Qed.

Lemma quicklistInsert_st σ0 X0 σ ql A1 a zl c A2 cnt fill e v after i :
  st σ0 X0 σ ql (A1 ++ (a, (zl, c)) :: A2) cnt None →
  Forall entry_ok (A1 ++ (a, (zl, c)) :: A2) →
  cnt = csum (A1 ++ (a, (zl, c)) :: A2) → cnt + 1 < 2 ^ 64 →
  fill ≤ INT_MAX →
  e_node e = Some a → e_zi e = Some i → (i < length zl)%nat →
  e_offset e = Z.of_nat i →
  wp (_quicklistInsert ql fill e v after) σ (λ _ σ',
    ∃ B, st σ0 X0 σ' ql B (cnt + 1) None ∧
         (Forall entry_ok B ∧ csum B = cnt + 1) ∧
         bytes B = insert_bytes A1 zl A2 (if after then S i else i) v).
Proof.
  intros Hst Hok Hcnt Hcap Hf Hn Hz Hi Ho.
  eapply quicklistInsert_any_st; try done. by left.
Qed.

Lemma quicklistInsert_empty σ0 X0 σ ql cnt fill e v after :
  st σ0 X0 σ ql [] cnt None → 0 ≤ cnt → cnt + 1 < 2 ^ 64 →
  e_node e = None →
  wp (_quicklistInsert ql fill e v after) σ (λ _ σ',
    st σ0 X0 σ' ql [(brk σ, ([zipEntry v], 1))] (cnt + 1) None).
Proof.
  intros Hst H0 Hcap Hn. unfold _quicklistInsert. rewrite Hn.
  st_new Hst. st_getL Hst. st_setL Hst. mem_simpl_in Hst.
  change (@nil (addr * (ziplist * Z)))
    with ((@nil (addr * (ziplist * Z))) ++ (@nil (addr * (ziplist * Z))))
    in Hst.
  st_insert Hst (@nil (addr * (ziplist * Z))) (@nil (addr * (ziplist * Z))).
  { by destruct after. }
  st_get Hst (@nil (addr * (ziplist * Z))).
  st_set Hst (@nil (addr * (ziplist * Z))).
  cbn [app] in Hst.
  eapply wp_mono; [by eapply bump_count; [exact Hst|lia..]|].
  intros [] σ' Hst'. exact Hst'.
Qed.

(** ** Deleting a range *)

(** A predicate on the outcome of a computation, for loops that can trap. *)
Lemma wp_bind_out {A B} (m : M A) (k : A → M B) σ
    (R : outcome (B * mem) → Prop) :
  wp m σ (λ a σ', R (k a σ')) → R ((m ≫= k) σ).
Proof.
  unfold wp, mbind, M_bind. by destruct (m σ) as [[a σ']| |].
Qed.

Lemma delrange_loop_st σ0 X0 ql F A2 : ∀ σ A1 cnt fuel extent offset,
  st σ0 X0 σ ql (A1 ++ A2) cnt F → (length A2 < fuel)%nat →
  delrange_post σ0 X0 ql F (delrange_abs A1 A2 extent offset cnt)
    (delrange_loop fuel ql extent (head A2.*1) offset σ).
Proof.
  induction A2 as [|[a [zl c]] A2 IH]; intros σ A1 cnt fuel extent offset
    Hst Hf; (destruct fuel as [|fuel]; [cbn in Hf; lia|]);
    cbn [delrange_loop delrange_abs]; destruct (extent =? 0) eqn:E0.
  - cbn. eauto.
  - done.
  - cbn. eauto.
  - cbn [fmap list_fmap head fst].
    apply (wp_bind_out (deref (Some a))). wp_steps.
    apply (wp_bind_out (getNode a)). st_get Hst A1.
    fold (range_del c extent offset).
    destruct (range_del c extent offset) as [entire del].
    destruct entire.
    + apply (wp_bind_out (__quicklistDelNode ql a)). st_del Hst A1.
      apply IH; [done|cbn in Hf; lia].
    + apply wp_bind_out.
      st_set Hst A1. st_get Hst A1. st_set Hst A1.
      st_getList Hst. st_setCount Hst.
      eapply wp_mono; [by eapply (quicklistDeleteIfEmpty_st _ _ _ _ A1)|].
      intros [] σ' Hst'. cbn beta in Hst' |- *.
      destruct (wrap32 (c - del) =? 0).
      * apply IH; [done|cbn in Hf; lia].
      * apply IH; [by rewrite <- app_assoc|cbn in Hf; lia].
Qed.

Lemma delrange_abs_0 A1 A2 offset cnt :
  delrange_abs A1 A2 0 offset cnt = Some (A1 ++ A2, cnt).
Proof. by destruct A2. Qed.

Lemma zdr_length (zl : ziplist) index num :
  - Z.of_nat (length zl) ≤ index < Z.of_nat (length zl) → 0 ≤ num →
  (if index <? 0 then Z.of_nat (length zl) + index else index) + num
    ≤ Z.of_nat (length zl) →
  Z.of_nat (length (ziplistDeleteRange zl index num)) =
    Z.of_nat (length zl) - num.
Proof.
  intros Hi Hn Hb. unfold ziplistDeleteRange.
  destruct (index <? 0) eqn:E.
  - apply Z.ltb_lt in E. rewrite ziplistIndex_neg by lia.
    rewrite (proj2 (Z.ltb_ge num 0)) by lia.
    rewrite length_app, length_take, length_drop. lia.
  - apply Z.ltb_ge in E. rewrite ziplistIndex_nonneg by lia.
    rewrite (proj2 (Z.ltb_ge num 0)) by lia.
    rewrite length_app, length_take, length_drop. lia.
Qed.

Ltac bool_simpl :=
  repeat first
    [ rewrite (proj2 (Z.eqb_eq _ _)) by lia
    | rewrite (proj2 (Z.eqb_neq _ _)) by lia
    | rewrite (proj2 (Z.ltb_lt _ _)) by lia
    | rewrite (proj2 (Z.ltb_ge _ _)) by lia
    | rewrite (proj2 (Z.leb_le _ _)) by lia
    | rewrite (proj2 (Z.leb_gt _ _)) by lia
    | rewrite Z.geb_leb
    | rewrite Z.gtb_ltb ];
  cbn [andb orb negb].

Lemma delrange_abs_rest A2 : ∀ A1 extent cnt B cnt',
  Forall entry_ok A1 → Forall entry_ok A2 →
  cnt = csum A1 + csum A2 → cnt < 2 ^ 64 → 0 ≤ extent < 2 ^ 64 →
  delrange_abs A1 A2 extent 0 cnt = Some (B, cnt') →
  Forall entry_ok B ∧ cnt' = csum B ∧ csum B < 2 ^ 64.
Proof.
  induction A2 as [|[a [zl c]] A2 IH]; intros A1 extent cnt B cnt' H1 H2 Hc
    Hcap He; cbn [delrange_abs]; destruct (extent =? 0) eqn:E0;
    try apply Z.eqb_neq in E0.
  - intros [= <- <-]. rewrite app_nil_r. cbn in Hc. split; [done|]. lia.
  - done.
  - intros [= <- <-]. split; [by apply Forall_app_ok|].
    rewrite csum_app. lia.
  - apply Forall_cons_ok in H2 as [Ha H2].
    pose proof (csum_nonneg _ H1) as Hn1. pose proof (csum_nonneg _ H2) as Hn2.
    pose proof Ha as [Hac Har]. cbn [fst snd] in Hac, Har.
    rewrite csum_cons in Hc. cbn [fst snd] in Hc. unfold INT_MAX in *.
    unfold range_del. destruct (Z_le_gt_dec c extent) as [Hle|Hgt].
    + bool_simpl. rewrite !wrap64_id by lia.
      apply IH; try done; lia.
    + bool_simpl. rewrite wrap32_small by lia.
      bool_simpl. rewrite Z.sub_diag. change (wrap64 0) with 0.
      rewrite delrange_abs_0. intros [= <- <-].
      rewrite wrap64_id by lia. split.
      * apply Forall_app_ok. split; [|done]. apply Forall_app_ok.
        split; [done|]. apply Forall_cons_ok. split; [|done].
        apply entry_ok_intro; [|unfold INT_MAX; lia].
        rewrite zdr_length; bool_simpl; lia.
      * rewrite !csum_app, csum_cons. cbn [fst snd csum foldr]. lia.
Qed.

Lemma delrange_abs_good A1 a zl c A2 extent offset cnt B cnt' :
  Forall entry_ok A1 → entry_ok (a, (zl, c)) → Forall entry_ok A2 →
  cnt = csum (A1 ++ (a, (zl, c)) :: A2) → cnt < 2 ^ 64 →
  0 < extent < 2 ^ 64 → - c ≤ offset < c → ¬ crossing c offset extent →
  delrange_abs A1 ((a, (zl, c)) :: A2) extent offset cnt = Some (B, cnt') →
  Forall entry_ok B ∧ cnt' = csum B ∧ csum B < 2 ^ 64.
Proof.
  intros H1 Ha H2 Hc Hcap He Ho Hx. unfold crossing in Hx.
  pose proof (csum_nonneg _ H1) as Hn1. pose proof (csum_nonneg _ H2) as Hn2.
  pose proof Ha as [Hac Har]. cbn [fst snd] in Hac, Har.
  rewrite csum_app, csum_cons in Hc. cbn [fst snd] in Hc. unfold INT_MAX in *.
  cbn [delrange_abs]. bool_simpl. unfold range_del.
  assert (Hkeep : ∀ del,
    0 < del → del < c → del ≤ extent →
    (if offset <? 0 then Z.of_nat (length zl) + offset else offset) + del
      ≤ Z.of_nat (length zl) →
    delrange_abs
      (A1 ++ [(a, (ziplistDeleteRange zl offset del, c - del))]) A2
      (wrap64 (extent - del)) 0 (wrap64 (cnt - del)) = Some (B, cnt') →
    Forall entry_ok B ∧ cnt' = csum B ∧ csum B < 2 ^ 64).
  { intros del Hd0 Hd1 Hd2 Hd3. rewrite !wrap64_id by lia.
    apply delrange_abs_rest; try done; try lia.
    - apply Forall_app_ok. split; [done|]. apply Forall_cons_ok. split; [|done].
      apply entry_ok_intro; [|unfold INT_MAX; lia].
      rewrite zdr_length; lia.
    - rewrite csum_app, csum_cons. cbn [fst snd csum foldr]. lia. }
  assert (Hdrop : ∀ extent',
    0 ≤ extent' < 2 ^ 64 →
    delrange_abs A1 A2 extent' 0 (cnt - c) = Some (B, cnt') →
    Forall entry_ok B ∧ cnt' = csum B ∧ csum B < 2 ^ 64).
  { intros extent' He'. apply delrange_abs_rest; try done; lia. }
  destruct (Z.eq_dec offset 0) as [->|Hne].
  - destruct (Z_le_gt_dec c extent) as [Hle|Hgt]; bool_simpl.
    + rewrite !wrap64_id by lia. by apply Hdrop; lia.
    + rewrite (wrap32_small (c - extent)) by lia. bool_simpl.
      apply Hkeep; cbn [Z.ltb Z.compare]; lia.
  - bool_simpl. destruct (Z_lt_le_dec offset 0) as [Hneg|Hpos].
    + bool_simpl. rewrite (wrap64_id (- offset)) by lia.
      destruct (Z_lt_le_dec extent (- offset)) as [Hlt|Hge]; bool_simpl.
      * rewrite (wrap32_small (c - extent)) by lia. bool_simpl.
        apply Hkeep; bool_simpl; lia.
      * destruct (Z.eq_dec offset (- c)) as [->|Hne'].
        -- replace (c - - - c) with 0 by lia. change (wrap32 0) with 0.
           cbn [Z.eqb]. rewrite Z.sub_0_r.
           rewrite (wrap64_id (cnt - _)) by lia.
           rewrite (wrap64_id (cnt - _)) by lia.
           rewrite (wrap64_id (extent - _)) by lia.
           replace (cnt - - - c) with (cnt - c) by lia.
           apply Hdrop; lia.
        -- rewrite (wrap32_small (c - - offset)) by lia. bool_simpl.
           apply Hkeep; bool_simpl; lia.
    + destruct (Z_lt_le_dec c extent) as [Hbig|Hsm]; bool_simpl.
      * rewrite (wrap32_small (c - offset)) by lia.
        rewrite (wrap32_small (c - (c - offset))) by lia. bool_simpl.
        apply Hkeep; bool_simpl; lia.
      * destruct (Z.eq_dec extent c) as [->|Hne'].
        -- rewrite Z.sub_diag. change (wrap32 0) with 0. cbn [Z.eqb].
           change (wrap64 0) with 0. rewrite Z.sub_0_r.
           rewrite (wrap64_id (cnt - _)) by lia.
           rewrite (wrap64_id (cnt - _)) by lia.
           apply Hdrop; lia.
        -- rewrite (wrap32_small (c - extent)) by lia. bool_simpl.
           apply Hkeep; bool_simpl; lia.
Qed.

Lemma quicklistDelRange_miss σ0 X0 σ ql A cnt F start count e :
  st σ0 X0 σ ql A cnt F →
  count ≤ 0 ∨ index_abs ql start A cnt = (false, e) →
  quicklistDelRange ql start count σ = Done (0, σ).
Proof.
  intros Hst Hm. unfold quicklistDelRange.
  destruct (count <=? 0) eqn:Ec; [done|]. apply Z.leb_gt in Ec.
  destruct Hm as [?|Hi]; [lia|].
  unfold mbind, M_bind, getList.
  rewrite (st_header _ _ _ _ _ _ _ Hst).
  rewrite (quicklistIndex_st _ _ _ _ _ _ _ _ _ Hst), Hi. done.
Qed.

Lemma quicklistDelRange_hit σ0 X0 σ ql A1 a zl c A2 cnt F start count i off :
  st σ0 X0 σ ql (A1 ++ (a, (zl, c)) :: A2) cnt F → 0 < count →
  index_abs ql start (A1 ++ (a, (zl, c)) :: A2) cnt =
    (true, entry_at ql a zl i off) →
  match delrange_abs A1 ((a, (zl, c)) :: A2)
          (delrange_extent cnt start count) off cnt with
  | Some (B, cnt') =>
      ∃ σ', quicklistDelRange ql start count σ = Done (1, σ') ∧
            st σ0 X0 σ' ql B cnt' F
  | None => quicklistDelRange ql start count σ = Fault
  end.
Proof.
  intros Hst Hc Hi.
  assert (quicklistDelRange ql start count σ =
          match delrange_loop (S (size (nodes σ))) ql
                  (delrange_extent cnt start count) (Some a) off σ with
          | Done (_, σ') => Done (1, σ')
          | Fault => Fault
          | Spin => Spin
          end) as ->.
  { unfold quicklistDelRange.
    rewrite (proj2 (Z.leb_gt _ _)) by lia.
    unfold mbind at 1, M_bind at 1, getList.
    rewrite (st_header _ _ _ _ _ _ _ Hst). cbn [q_count].
    fold (delrange_extent cnt start count).
    unfold mbind at 1, M_bind at 1.
    rewrite (quicklistIndex_st _ _ _ _ _ _ _ _ _ Hst), Hi. cbn [negb].
    destruct (entry_at_node ql a zl i off) as (-> & _ & -> & _).
    unfold mbind, M_bind, chainFuel.
    by destruct (delrange_loop _ _ _ _ _ _) as [[[] ?]| |]. }
  assert (length ((a, (zl, c)) :: A2) < S (size (nodes σ)))%nat as Hfuel.
  { pose proof (st_size _ _ _ _ _ _ _ Hst) as Hs.
    rewrite length_app in Hs. cbn [length] in *. lia. }
  pose proof (delrange_loop_st σ0 X0 ql F ((a, (zl, c)) :: A2) σ A1 cnt
                (S (size (nodes σ))) (delrange_extent cnt start count) off
                Hst Hfuel) as Hl.
  cbn [fmap list_fmap head fst] in Hl. unfold delrange_post in Hl.
  destruct (delrange_abs _ _ _ _ _) as [[B cnt']|].
  - destruct Hl as (σ' & Hl & Hst'). rewrite Hl. eauto.
  - by rewrite Hl.
Qed.

(** ** Iterators *)

Lemma wp_elim {A} (m : M A) σ (Q : A → mem → Prop) a σ' :
  wp m σ Q → m σ = Done (a, σ') → Q a σ'.
Proof. unfold wp. intros H E. by rewrite E in H. Qed.

Lemma quicklistDeleteIfEmpty_gone σ0 X0 σ ql A1 a zl c A2 cnt F :
  st σ0 X0 σ ql (A1 ++ (a, (zl, c)) :: A2) cnt F →
  wp (quicklistDeleteIfEmpty ql a) σ (λ _ σ',
    st σ0 X0 σ' ql (if c =? 0 then A1 ++ A2 else A1 ++ (a, (zl, c)) :: A2)
       (if c =? 0 then wrap64 (cnt - c) else cnt) F ∧
    (c = 0 → nodes σ' !! a = None)).
Proof.
  intros Hst. unfold quicklistDeleteIfEmpty.
  st_get Hst A1. destruct (c =? 0) eqn:E.
  - st_del Hst A1. done.
  - apply wp_ret. split; [done|]. apply Z.eqb_neq in E. done.
Qed.

Lemma quicklistDelIndex_gone σ0 X0 σ ql A1 a zl c A2 cnt F i :
  st σ0 X0 σ ql (A1 ++ (a, (zl, c)) :: A2) cnt F →
  wp (quicklistDelIndex ql a (Some i)) σ (λ r σ',
    r = (wrap32 (c - 1) =? 0, Some i) ∧
    st σ0 X0 σ' ql (del_index_abs A1 a zl c A2 i) (del_index_cnt c cnt) F ∧
    (wrap32 (c - 1) = 0 → nodes σ' !! a = None)).
Proof.
  intros Hst. unfold quicklistDelIndex.
  st_get Hst A1. wp_steps. unfold ziplistDelete.
  st_set Hst A1. st_get Hst A1. st_set Hst A1. st_get Hst A1.
  st_getList Hst. st_setCount Hst.
  wp_apply quicklistDeleteIfEmpty_gone; [exact Hst|].
  intros [] σ' [Hst' Hg]. apply wp_ret. split; [done|]. split; [|done].
  unfold del_index_abs, del_index_cnt. by destruct (wrap32 (c - 1) =? 0).
Qed.

Lemma ziplistIndex_valid (zl : ziplist) o i :
  ziplistIndex zl o = Some i → (i < length zl)%nat.
Proof.
  unfold ziplistIndex. destruct (o <? 0) eqn:E.
  - destruct (- o <=? Z.of_nat (length zl)) eqn:E2; [|done].
    apply Z.ltb_lt in E. apply Z.leb_le in E2. intros [= <-]. lia.
  - destruct (o <? Z.of_nat (length zl)) eqn:E2; [|done].
    apply Z.ltb_ge in E. apply Z.ltb_lt in E2. intros [= <-]. lia.
Qed.

Lemma ziplistNext_valid (zl : ziplist) p i :
  ziplistNext zl p = Some i → (i < length zl)%nat.
Proof.
  unfold ziplistNext. destruct (S p <? length zl)%nat eqn:E; [|done].
  apply Nat.ltb_lt in E. by intros [= <-].
Qed.

Lemma ziplistPrev_valid (zl : ziplist) p i :
  ziplistPrev zl p = Some i → (i < length zl)%nat.
Proof.
  unfold ziplistPrev. destruct (length zl <=? p)%nat eqn:E.
  - destruct (length zl); [done|]. intros [= <-]. lia.
  - apply Nat.leb_gt in E. destruct p; [done|]. intros [= <-]. lia.
Qed.

Lemma elem_chain_split (A : chain) a :
  a ∈ A.*1 → ∃ A1 zl c A2, A = A1 ++ (a, (zl, c)) :: A2.
Proof.
  intros H. apply list_elem_of_fmap in H as ([a' [zl c]] & -> & H).
  apply list_elem_of_split in H as (A1 & A2 & ->). by exists A1, zl, c, A2.
Qed.

Lemma head_in_chain (A1 A2 : chain) x e :
  head A2.*1 = Some x → x ∈ (A1 ++ e :: A2).*1.
Proof.
  destruct A2 as [|[y p] A2]; [done|]. intros [= <-].
  rewrite fmap_app, !fmap_cons. cbn. rewrite elem_of_app, !elem_of_cons. auto.
Qed.

Lemma last_in_chain (A1 A2 : chain) x e :
  last A1.*1 = Some x → x ∈ (A1 ++ e :: A2).*1.
Proof.
  intros H. apply last_snoc_split in H as [l' H].
  rewrite fmap_app, H, elem_of_app, elem_of_app, elem_of_cons. auto.
Qed.

Lemma quicklistNext_rec_ok σ0 X0 σ ql A cnt F fuel : ∀ it b it' e σ',
  st σ0 X0 σ ql A cnt F → iter_ok σ ql A it →
  quicklistNext_rec fuel it σ = Done ((b, it', e), σ') →
  σ' = σ ∧ iter_ok σ ql A it' ∧ i_direction it' = i_direction it ∧
  (b = true → entry_in ql A e ∧ i_current it' = e_node e).
Proof.
  induction fuel as [|fuel IH]; intros it b it' e σ' Hst [Hq Hc];
    cbn [quicklistNext_rec]; destruct (i_current it) as [c|] eqn:Ec.
  2,4: intros [= <- <- <- <-]; split; [done|]; split; [|done];
       split; [done|]; by rewrite Ec.
  all: destruct Hc as [Hc|Hc];
    [|unfold mbind, M_bind, getNode; by rewrite Hc].
  all: pose proof Hc as Hin;
    apply elem_chain_split in Hc as (A1 & zl & cc & A2 & ->).
  all: unfold mbind at 1, M_bind at 1, getNode;
    rewrite (st_node _ _ _ _ _ _ _ _ _ _ _ Hst); cbn [n_zl n_next n_prev].
  all: match goal with
       | |- (?m ≫= _) ?s = _ → _ =>
           assert (m s = Fault ∨
                   ∃ z off, m s = Done (mkIter (i_quicklist it) (Some c) z off
                                              (i_direction it), s) ∧
                            ∀ i, z = Some i → (i < length zl)%nat) as Hm
       end.
  1,3: destruct (i_zi it) as [zi|];
    [destruct (i_direction it =? AL_START_HEAD);
       [right; eexists _, _; split; [done|]; apply ziplistNext_valid|
        destruct (i_direction it =? AL_START_TAIL);
          [right; eexists _, _; split; [done|]; apply ziplistPrev_valid|
           by left]]|
     right; eexists _, _; split; [done|]; apply ziplistIndex_valid].
  all: unfold mbind at 1, M_bind at 1;
    destruct Hm as [->|(z & off & -> & Hz)]; [done|];
    cbn [i_zi i_quicklist i_current i_offset i_direction
         e_quicklist e_node e_zi e_value e_sz e_longval e_offset];
    destruct z as [i|].
  1,3: destruct (ziplistGet zl (Some i) _) as [? [[? ?] ?]];
    intros [= <- <- <- <-]; split; [done|];
    split; [split; [done|]; cbn; by left|]; split; [done|];
    intros _; split; [|done]; split; [done|];
    exists A1, c, zl, cc, A2, i; split; [done|]; split; [done|];
    split; [done|]; by apply Hz.
  - done.
  - intros H. apply IH in H as (-> & Hok' & Hd & Hb); [|done|].
    + split; [done|]. split; [done|]. split; [|done]. rewrite Hd.
      by destruct (i_direction it =? AL_START_HEAD),
                  (i_direction it =? AL_START_TAIL).
    + split.
      * by destruct (i_direction it =? AL_START_HEAD),
                    (i_direction it =? AL_START_TAIL).
      * destruct (i_direction it =? AL_START_HEAD);
          [|destruct (i_direction it =? AL_START_TAIL)];
          cbn [i_current].
        -- destruct (head A2.*1) as [x|] eqn:Ex; [|done]. left.
           by eapply head_in_chain.
        -- destruct (last A1.*1) as [x|] eqn:Ex; [|done]. left.
           by eapply last_in_chain.
        -- by left.
Qed.

Lemma head_in (A : chain) x : head A.*1 = Some x → x ∈ A.*1.
Proof. destruct A as [|[y p] A]; [done|]. intros [= <-]. cbn. left. Qed.

Lemma last_in (A : chain) x : last A.*1 = Some x → x ∈ A.*1.
Proof.
  intros H. apply last_snoc_split in H as [l' ->].
  rewrite elem_of_app, elem_of_cons. auto.
Qed.

Lemma quicklistGetIterator_ok σ0 X0 σ ql A cnt F dir :
  st σ0 X0 σ ql A cnt F →
  ∃ it, quicklistGetIterator ql dir σ = Done (it, σ) ∧ iter_ok σ ql A it ∧
        i_direction it = dir.
Proof.
  intros Hst. unfold quicklistGetIterator, mbind, M_bind, getList.
  rewrite (st_header _ _ _ _ _ _ _ Hst). cbn [q_head q_tail].
  destruct (dir =? AL_START_HEAD); [|destruct (dir =? AL_START_TAIL)];
    eexists; (split; [done|]); (split; [|done]); (split; [done|]);
    cbn [i_current].
  - destruct (head A.*1) as [x|] eqn:E; [|done]. left. by apply head_in.
  - destruct (last A.*1) as [x|] eqn:E; [|done]. left. by apply last_in.
  - done.
Qed.

Lemma index_abs_node ql idx A cnt e :
  index_abs ql idx A cnt = (true, e) →
  e_quicklist e = Some ql ∧ ∃ a, e_node e = Some a ∧ a ∈ A.*1.
Proof.
  unfold index_abs. destruct (_ >=? cnt); [done|].
  destruct (seek _ 0 _) as [[[a [zl c]]|] acc] eqn:Es; [|done].
  apply seek_elem in Es.
  destruct (ziplistGet zl _ _) as [? [[? ?] ?]]. intros [= <-].
  split; [done|]. exists a. split; [done|].
  assert ((a, (zl, c)) ∈ A) as Hin.
  { destruct (negb (idx <? 0)); [done|].
    apply list_elem_of_In, in_rev, list_elem_of_In in Es. done. }
  by apply (list_elem_of_fmap_2 fst) in Hin.
Qed.

Lemma quicklistGetIteratorAtIdx_ok σ0 X0 σ ql A cnt F dir idx r σ' :
  st σ0 X0 σ ql A cnt F →
  quicklistGetIteratorAtIdx ql dir idx σ = Done (r, σ') →
  σ' = σ ∧ ∀ it, r = Some it → iter_ok σ ql A it ∧ i_direction it = dir.
Proof.
  intros Hst. unfold quicklistGetIteratorAtIdx.
  unfold mbind at 1, M_bind at 1.
  rewrite (quicklistIndex_st _ _ _ _ _ _ _ _ _ Hst).
  destruct (index_abs ql idx A cnt) as [[] e] eqn:Ei.
  - destruct (quicklistGetIterator_ok _ _ _ _ _ _ _ dir Hst)
      as (it0 & E0 & [Hq _] & Hd).
    unfold mbind, M_bind. rewrite E0. intros [= <- <-]. split; [done|].
    intros it [= <-]. split; [|done]. split; [done|]. cbn [i_current].
    apply index_abs_node in Ei as (_ & a & -> & Ha). by left.
  - intros [= <- <-]. done.
Qed.

Lemma del_index_good A1 a zl c A2 cnt i :
  Forall entry_ok (A1 ++ (a, (zl, c)) :: A2) →
  cnt = csum (A1 ++ (a, (zl, c)) :: A2) → cnt < 2 ^ 64 →
  (i < length zl)%nat →
  Forall entry_ok (del_index_abs A1 a zl c A2 i) ∧
  del_index_cnt c cnt = cnt - 1 ∧
  csum (del_index_abs A1 a zl c A2 i) = cnt - 1.
Proof.
  intros Hok Hc Hcap Hi.
  apply Forall_app_ok in Hok as [H1 H2].
  apply Forall_cons_ok in H2 as [Ha H2].
  pose proof (csum_nonneg _ H1) as Hn1. pose proof (csum_nonneg _ H2) as Hn2.
  pose proof Ha as [Hac Har]. cbn [fst snd] in Hac, Har.
  rewrite csum_app, csum_cons in Hc. cbn [fst snd] in Hc.
  unfold INT_MAX in *. unfold del_index_abs, del_index_cnt.
  rewrite (wrap32_small (c - 1)) by lia.
  destruct (c - 1 =? 0) eqn:E.
  - apply Z.eqb_eq in E. rewrite !wrap64_id by (rewrite ?wrap64_id; lia).
    split; [by apply Forall_app_ok|]. split; [lia|]. rewrite csum_app. lia.
  - apply Z.eqb_neq in E. rewrite wrap64_id by lia. split; [|split; [done|]].
    + apply Forall_app_ok. split; [done|]. apply Forall_cons_ok. split; [|done].
      apply entry_ok_intro; [|unfold INT_MAX; lia].
      pose proof (delete_length_lt zl i Hi). lia.
    + rewrite csum_app, csum_cons. cbn [fst snd]. lia.
Qed.

Lemma quicklistDelEntry_st σ0 X0 σ ql A1 a zl c A2 cnt F it e i :
  st σ0 X0 σ ql (A1 ++ (a, (zl, c)) :: A2) cnt F →
  e_quicklist e = Some ql → e_node e = Some a → e_zi e = Some i →
  i_quicklist it = Some ql → i_current it = Some a →
  wp (quicklistDelEntry it e) σ (λ r σ',
    st σ0 X0 σ' ql (del_index_abs A1 a zl c A2 i) (del_index_cnt c cnt) F ∧
    iter_ok σ' ql (del_index_abs A1 a zl c A2 i) r.1 ∧
    i_direction r.1 = i_direction it).
Proof.
  intros Hst Hq Hn Hz Hiq Hic. unfold quicklistDelEntry.
  rewrite Hq, Hn, Hz. wp_steps. st_get Hst A1. wp_steps.
  wp_apply quicklistDelIndex_gone; [exact Hst|].
  intros r σ' (-> & Hst' & Hg). wp_red.
  cbn [i_direction i_quicklist i_current i_zi i_offset e_zi].
  unfold del_index_abs in *.
  destruct (wrap32 (c - 1) =? 0) eqn:E.
  - apply Z.eqb_eq in E. specialize (Hg E).
    destruct (i_direction it =? AL_START_HEAD);
      [|destruct (i_direction it =? AL_START_TAIL)];
      cbn beta iota; apply wp_ret; (split; [done|]); (split; [|done]);
      (split; [done|]); cbn [fst i_current].
    + destruct (head A2.*1) as [x|] eqn:Ex; [|done]. left.
      rewrite fmap_app, elem_of_app. right. by apply head_in.
    + destruct (last A1.*1) as [x|] eqn:Ex; [|done]. left.
      rewrite fmap_app, elem_of_app. left. by apply last_in.
    + rewrite Hic. by right.
  - destruct (i_direction it =? AL_START_HEAD);
      [|destruct (i_direction it =? AL_START_TAIL)];
      cbn beta iota; apply wp_ret; (split; [done|]); (split; [|done]);
      (split; [done|]); cbn [fst i_current]; rewrite ?Hic; left;
      rewrite fmap_fst_app_cons, elem_of_app, elem_of_cons; auto.
Qed.

Lemma quicklistCreate_run σ : quicklistCreate σ = Done (brk σ, created σ).
Proof. done. Qed.

Lemma st_created σ :
  heap_ok σ → st (created σ) [] (created σ) (brk σ) [] 0 None.
Proof.
  intros Hh. split.
  - by apply heap_ok_alloc_list.
  - split.
    + constructor.
    + intros l1 a l2 H. by destruct l1.
    + eexists. split; [apply lookup_insert_eq|done].
    + cbn. lia.
  - intros a p H. inversion H.
  - cbn. by rewrite lookup_insert_eq.
  - done.
  - apply frame_refl.
Qed.

Lemma st_linked σ0 X0 σ ql A cnt F : st σ0 X0 σ ql A cnt F → linked σ A.
Proof. intros Hst A1 a zl c A2 ->. by eapply st_node. Qed.

Lemma st_getOther σ0 X0 σ ql A cnt F c n (Q : quicklistNode → mem → Prop) :
  st σ0 X0 σ ql A cnt F → c ∉ X0 → nodes σ0 !! c = Some n → heap_ok σ0 →
  Q n σ → wp (getNode c) σ Q.
Proof.
  intros Hst Hc Hn Hh HQ. eapply wp_getNode; [|exact HQ].
  rewrite (fr_nodes _ _ _ _ _ (st_frame _ _ _ _ _ _ _ Hst)); [done|done|].
  by eapply (proj1 Hh).
Qed.

Lemma dup_loop_st σ1 copy O :
  heap_ok σ1 → linked σ1 O → Forall entry_ok O → csum O < 2 ^ 64 →
  ∀ O2 O1 B σ fuel,
    O = O1 ++ O2 → st σ1 [] σ copy B (csum O1) None → B.*2 = O1.*2 →
    (length O2 < fuel)%nat →
    wp (dup_loop fuel copy (head O2.*1)) σ (λ _ σ',
      ∃ B', B'.*2 = O.*2 ∧ st σ1 [] σ' copy B' (csum O) None).
Proof.
  intros Hh Hlk Hok Hcap.
  induction O2 as [|[c [zl cc]] O2 IH]; intros O1 B σ fuel HO Hst HB Hf;
    (destruct fuel as [|fuel]; [cbn in Hf; lia|]); cbn [dup_loop].
  - cbn [fmap list_fmap head]. apply wp_ret. exists B.
    rewrite app_nil_r in HO. by subst O1.
  - cbn [fmap list_fmap head fst].
    pose proof (Hlk O1 c zl cc O2 HO) as Hc.
    pose proof (length_le_csum _ Hok) as Hlen.
    assert (Forall entry_ok O1 ∧ entry_ok (c, (zl, cc)) ∧ Forall entry_ok O2)
      as (Hok1 & Hc_ok & Hok2).
    { rewrite HO in Hok. apply Forall_app_ok in Hok as [? Hok].
      by apply Forall_cons_ok in Hok as [? ?]. }
    pose proof (csum_nonneg _ Hok1) as Hn1.
    pose proof (csum_nonneg _ Hok2) as Hn2.
    pose proof Hc_ok as [_ Hcr]. cbn [fst snd] in Hcr.
    assert (csum O = csum O1 + cc + csum O2) as HsO.
    { rewrite HO, csum_app, csum_cons. cbn [fst snd]. lia. }
    assert (length B = length O1) as HlB.
    { by rewrite <- (length_fmap snd B), HB, length_fmap. }
    st_new Hst.
    wp_bind_syn. eapply st_getOther; [exact Hst|by apply not_elem_of_nil|
                                     exact Hc|done|]. mem_simpl.
    st_getL Hst. st_setL Hst. st_getL Hst. st_setL Hst. st_getL Hst.
    st_getList Hst. st_setCount Hst. st_getList Hst.
    unfold _quicklistInsertNodeAfter.
    rewrite <- (app_nil_r B) in Hst.
    st_insert Hst B (@nil (addr * (ziplist * Z))).
    { assert (length O = length O1 + S (length O2))%nat as HlO
        by (by rewrite HO, length_app).
      rewrite app_nil_r, HlB. lia. }
    wp_bind_syn. eapply st_getOther; [exact Hst|by apply not_elem_of_nil|
                                     exact Hc|done|]. mem_simpl.
    eapply (IH (O1 ++ [(c, (zl, cc))])).
    + by rewrite <- app_assoc.
    + rewrite csum_app. cbn [csum foldr fst snd].
      rewrite wrap64_id in Hst by lia.
      replace (csum O1 + (cc + 0)) with (csum O1 + cc) by lia. exact Hst.
    + rewrite !fmap_app, HB. done.
    + cbn in Hf. lia.
Qed.

Lemma linked_length σ A : linked σ A → NoDup A.*1 → (length A ≤ size (nodes σ))%nat.
Proof.
  intros Hlk Hnd. rewrite <- (length_fmap fst A).
  rewrite <- (size_list_to_set (C := gset addr) A.*1) by done.
  rewrite <- (size_dom (D := gset addr) (nodes σ)).
  apply subseteq_size. intros a Ha. apply elem_of_list_to_set in Ha.
  apply elem_of_dom. apply elem_chain_split in Ha as (A1 & zl & c & A2 & ->).
  by rewrite (Hlk A1 a zl c A2 eq_refl).
Qed.

Lemma quicklistDup_st σ0 X0 σ orig O :
  st σ0 X0 σ orig O (csum O) None → Forall entry_ok O → csum O < 2 ^ 64 →
  wp (quicklistDup orig) σ (λ r σ',
    r = Some (brk σ) ∧ kept σ σ' ∧
    ∃ B, B.*2 = O.*2 ∧ st (created σ) [] σ' (brk σ) B (csum O) None).
Proof.
  intros Hst Hok Hcap. unfold quicklistDup.
  apply wp_bind. eapply wp_eq; [apply quicklistCreate_run|].
  pose proof (st_heap _ _ _ _ _ _ _ Hst) as Hh.
  pose proof (st_created σ Hh) as Hc.
  assert (lists (created σ) !! orig = lists σ !! orig) as Hlo.
  { cbn. rewrite lookup_insert_ne; [done|].
    intros E. pose proof (heap_ok_fresh_list σ Hh) as Hf. rewrite E in Hf.
    pose proof (st_header _ _ _ _ _ _ _ Hst) as H1.
    pose proof (eq_trans (eq_sym H1) Hf) as H2. discriminate H2. }
  apply wp_bind. eapply wp_getList.
  { rewrite Hlo. apply (st_header _ _ _ _ _ _ _ Hst). }
  cbn [q_head]. wp_steps.
  wp_bind_syn. eapply wp_mono.
  - assert (linked (created σ) O) as Hlk.
    { intros A1 a zl c A2 ->. cbn. by eapply st_node. }
    assert (length O < S (size (nodes (created σ))))%nat as Hfuel.
    { cbn. pose proof (st_size _ _ _ _ _ _ _ Hst). lia. }
    exact (dup_loop_st (created σ) (brk σ) O
             (heap_ok_alloc_list σ _ Hh) Hlk Hok Hcap O [] [] (created σ) _
             eq_refl Hc eq_refl Hfuel).
  - intros [] σ' (B & HB & HstB). apply wp_ret. split; [done|].
    split; [|by exists B].
    pose proof (st_frame _ _ _ _ _ _ _ HstB) as Hfr.
    split; [|split; [|split; [|split]]].
    + intros a Ha. rewrite (fr_nodes _ _ _ _ _ Hfr); [done| |cbn; lia].
      apply not_elem_of_nil.
    + intros q Hq. rewrite (fr_lists _ _ _ _ _ Hfr); [|lia|cbn; lia].
      cbn. rewrite lookup_insert_ne; [done|lia].
    + pose proof (fr_brk _ _ _ _ _ Hfr) as Hb. cbn in Hb. lia.
    + by rewrite (fr_uninit _ _ _ _ _ Hfr).
    + by rewrite (fr_stray _ _ _ _ _ Hfr).
Qed.

Lemma recs_fst prev A : (recs prev A).*1 = A.*1.
Proof.
  revert prev. induction A as [|[a [zl c]] A IH]; intros prev; [done|].
  cbn. by rewrite IH.
Qed.

Lemma recs_payload prev A :
  (λ an, (n_zl an.2, n_count an.2)) <$> recs prev A = A.*2.
Proof.
  revert prev. induction A as [|[a [zl c]] A IH]; intros prev; [done|].
  cbn. by rewrite IH.
Qed.

Lemma recs_counts prev A :
  sumZ ((λ an, n_count an.2) <$> recs prev A) = csum A.
Proof.
  revert prev. induction A as [|[a [zl c]] A IH]; intros prev; [done|].
  cbn. by rewrite IH.
Qed.

Lemma recs_entries prev A :
  concat (map (λ an, n_zl an.2) (recs prev A)) = concat (A.*2.*1).
Proof.
  revert prev. induction A as [|[a [zl c]] A IH]; intros prev; [done|].
  cbn. by rewrite IH.
Qed.

Lemma chain_from_linked σ A : linked σ A →
  ∀ A2 A1 fuel, A = A1 ++ A2 → (length A2 < fuel)%nat →
    chain_from fuel σ (head A2.*1) = Some (recs (last A1.*1) A2).
Proof.
  intros Hlk. induction A2 as [|[a [zl c]] A2 IH]; intros A1 fuel HA Hf.
  - by destruct fuel.
  - destruct fuel as [|fuel]; [cbn in Hf; lia|].
    cbn [fmap list_fmap head fst chain_from recs].
    rewrite (Hlk A1 a zl c A2 HA). cbn [n_next].
    rewrite (IH (A1 ++ [(a, (zl, c))])); [|by rewrite <- app_assoc|cbn in Hf; lia].
    by rewrite fmap_fst_snoc, last_snoc.
Qed.

Lemma quicklistNodes_linked σ ql A l :
  linked σ A → NoDup A.*1 → lists σ !! ql = Some l → q_head l = head A.*1 →
  quicklistNodes σ ql = Some (recs None A).
Proof.
  intros Hlk Hnd Hl Hh. unfold quicklistNodes. rewrite Hl, Hh.
  apply (chain_from_linked σ A Hlk A []); [done|].
  pose proof (linked_length σ A Hlk Hnd). lia.
Qed.

Lemma st_nodes σ0 X0 σ ql A cnt F :
  st σ0 X0 σ ql A cnt F → quicklistNodes σ ql = Some (recs None A).
Proof.
  intros Hst. eapply quicklistNodes_linked.
  - by eapply st_linked.
  - by eapply st_nodup.
  - by eapply st_header.
  - done.
Qed.

Lemma recs_nonzero prev A :
  Forall entry_ok A →
  forallb (λ an : addr * quicklistNode, negb (n_count an.2 =? 0))
          (recs prev A) = true.
Proof.
  intros Hok. revert prev.
  induction Hok as [|[a [zl c]] A [_ Hr] _ IH]; intros prev; [done|].
  cbn in *. rewrite IH, andb_true_r. apply negb_true_iff, Z.eqb_neq. lia.
Qed.

Lemma st_invariants σ0 X0 σ ql A :
  st σ0 X0 σ ql A (csum A) None → Forall entry_ok A →
  ql_invariants σ ql = true.
Proof.
  intros Hst Hok. unfold ql_invariants.
  rewrite (st_header _ _ _ _ _ _ _ Hst), (st_nodes _ _ _ _ _ _ _ Hst).
  cbn [q_head q_tail q_len q_count].
  rewrite recs_counts, Z.eqb_refl. cbn [andb].
  apply andb_true_iff. split.
  - by apply recs_nonzero.
  - apply bool_decide_eq_true.
    pose proof (length_le_csum _ Hok) as Hlen.
    destruct A as [|e A]; [done|].
    assert (last (e :: A).*1 ≠ None) as Hl.
    { rewrite <- head_reverse. by destruct (reverse (e :: A).*1) eqn:E;
        [apply (f_equal length) in E; rewrite length_reverse in E|]. }
    cbn [length] in *. cbn [fmap list_fmap head]. split; [|split]; split;
      try done; try (intros; lia).
Qed.

(** ** Well-formed chains are closed under the abstract operations *)

Lemma push_head_abs_good fill v new A :
  Forall entry_ok A → fill ≤ INT_MAX →
  Forall entry_ok (push_head_abs fill v new A) ∧
  csum (push_head_abs fill v new A) = csum A + 1.
Proof.
  intros Hok Hf. unfold push_head_abs. change (wrap32 (0 + 1)) with 1.
  assert (entry_ok (new, ([zipEntry v], 1))) as Hnew.
  { apply entry_ok_intro; [done|]. unfold INT_MAX. lia. }
  destruct A as [|[h [zl c]] A].
  - split; [by apply Forall_cons_ok|done].
  - destruct (c <? fill) eqn:E.
    + apply Z.ltb_lt in E. apply Forall_cons_ok in Hok as [Hh Hok].
      apply (grow_ok [] h zl (zipEntry v :: zl) c A fill); done.
    + split; [by apply Forall_cons_ok|]. rewrite !csum_cons.
      cbn [fst snd]. lia.
Qed.

Lemma push_tail_abs_good fill v new A :
  Forall entry_ok A → fill ≤ INT_MAX →
  Forall entry_ok (push_tail_abs fill v new A) ∧
  csum (push_tail_abs fill v new A) = csum A + 1.
Proof.
  intros Hok Hf. unfold push_tail_abs. change (wrap32 (0 + 1)) with 1.
  assert (entry_ok (new, ([zipEntry v], 1))) as Hnew.
  { apply entry_ok_intro; [done|]. unfold INT_MAX. lia. }
  destruct A as [|[t [zl c]] A _] using rev_ind.
  - split; [by apply Forall_cons_ok|done].
  - rewrite last_snoc, removelast_snoc. destruct (c <? fill) eqn:E.
    + apply Z.ltb_lt in E. apply Forall_app_ok in Hok as [Hok Ht].
      apply Forall_cons_ok in Ht as [Ht _].
      apply (grow_ok A t zl (zl ++ [zipEntry v]) c [] fill); try done.
      rewrite length_app. cbn. lia.
    + split.
      * apply Forall_app_ok. split; [done|]. by apply Forall_cons_ok.
      * rewrite !csum_app. cbn [csum foldr fst snd]. lia.
Qed.

Lemma push_head_abs_tail fill v new A1 t zl c :
  ∃ B1 zl' c',
    push_head_abs fill v new (A1 ++ [(t, (zl, c))]) = B1 ++ [(t, (zl', c'))] ∧
    (length zl ≤ length zl')%nat.
Proof.
  destruct A1 as [|[h [hz hc]] A1]; cbn [push_head_abs app].
  - destruct (c <? fill).
    + exists [], (zipEntry v :: zl), (wrap32 (c + 1)). split; [done|]. cbn. lia.
    + by exists [(new, ([zipEntry v], wrap32 (0 + 1)))], zl, c.
  - destruct (hc <? fill).
    + by exists ((h, (zipEntry v :: hz, wrap32 (hc + 1))) :: A1), zl, c.
    + by exists ((new, ([zipEntry v], wrap32 (0 + 1))) :: (h, (hz, hc)) :: A1),
        zl, c.
Qed.

Lemma replace_good A1 a (zl : ziplist) c A2 i data :
  Forall entry_ok (A1 ++ (a, (zl, c)) :: A2) → (i < length zl)%nat →
  Forall entry_ok (A1 ++ (a, (ziplistInsert (delete i zl) i data, c)) :: A2) ∧
  csum (A1 ++ (a, (ziplistInsert (delete i zl) i data, c)) :: A2) =
    csum (A1 ++ (a, (zl, c)) :: A2).
Proof.
  intros Hok Hi. apply Forall_app_ok in Hok as [H1 H2].
  apply Forall_cons_ok in H2 as [[Hc Hr] H2]. cbn [fst snd] in *. split.
  - apply Forall_app_ok. split; [done|]. apply Forall_cons_ok. split; [|done].
    apply entry_ok_intro; [|done].
    rewrite ziplistInsert_length, (delete_length_lt zl i Hi). done.
  - by rewrite !csum_app, !csum_cons.
Qed.

Lemma ingest_good A new (zl : ziplist) :
  Forall entry_ok A → (0 < length zl)%nat → Z.of_nat (length zl) ≤ INT_MAX →
  Forall entry_ok (A ++ [(new, (zl, ziplistLen zl))]) ∧
  csum (A ++ [(new, (zl, ziplistLen zl))]) = csum A + Z.of_nat (length zl) ∧
  ziplistLen zl = Z.of_nat (length zl).
Proof.
  intros Hok H0 Hmax. rewrite ziplistLen_small by done. split; [|split; [|done]].
  - apply Forall_app_ok. split; [done|]. apply Forall_cons_ok. split; [|done].
    apply entry_ok_intro; [done|lia].
  - rewrite csum_app. cbn. lia.
Qed.

(** Rebasing the frame of a chain state on the current store. *)
Lemma st_rebase σ0 X0 σ ql A cnt :
  st σ0 X0 σ ql A cnt None → st σ A.*1 σ ql A cnt None.
Proof.
  intros [H1 H2 H3 H4 H5 H6]. split; try done.
  cbn. rewrite app_nil_r. apply frame_refl.
Qed.

Lemma st_frame_chain σ0 X0 σ ql A cnt :
  st σ0 X0 σ ql A cnt None → frame ql X0 A.*1 σ0 σ.
Proof.
  intros Hst. pose proof (st_frame _ _ _ _ _ _ _ Hst) as Hf.
  by rewrite app_nil_r in Hf.
Qed.

(** ** Histories of public operations *)

Lemma good_intro σ0 X0 σ ql B cnt :
  st σ0 X0 σ ql B cnt None → Forall entry_ok B → cnt = csum B →
  csum B < 2 ^ 64 → good σ ql B.
Proof. intros Hst Hok -> Hcap. split; [by eapply st_rebase|done]. Qed.

Lemma good_created σ : heap_ok σ → good (created σ) (brk σ) [].
Proof. intros Hh. split; [by apply st_created|]. split; [done|]. cbn. lia. Qed.

Lemma good_count σ ql A l :
  good σ ql A → lists σ !! ql = Some l →
  q_count l = csum A ∧ q_len l = Z.of_nat (length A).
Proof.
  intros (Hst & _ & _) Hl. pose proof (st_header _ _ _ _ _ _ _ Hst) as Hh.
  pose proof (eq_trans (eq_sym Hl) Hh) as E. by injection E as ->.
Qed.

Lemma good_length σ ql A : good σ ql A → Z.of_nat (length A) ≤ csum A.
Proof. intros (_ & Hok & _). by apply length_le_csum. Qed.

Lemma frame_kept ql X σ σ' : kept σ σ' → frame ql X X σ σ'.
Proof.
  intros (Hn & Hl & Hb & Hu & Hs). split; try done.
  - intros a _ Ha. by apply Hn.
  - intros q _ Hq. by apply Hl.
  - auto.
Qed.

Lemma delrange_extent_range cnt start count :
  0 < cnt < 2 ^ 64 → 0 < count ≤ LLONG_MAX → LLONG_MIN ≤ start ≤ LLONG_MAX →
  0 < delrange_extent cnt start count < 2 ^ 64.
Proof.
  unfold LLONG_MIN, LLONG_MAX, delrange_extent. intros Hc Hn Hs.
  rewrite (wrap64_id count) by lia.
  destruct ((start >=? 0) && _); [lia|].
  destruct (start <? 0) eqn:E; cbn [andb]; [|lia].
  apply Z.ltb_lt in E. rewrite (wrap64_id (- start)) by lia.
  destruct (_ >? _); lia.
Qed.

Ltac run_wp Hwp Hrun :=
  eapply wp_elim in Hwp; [|exact Hrun]; cbn beta in Hwp.

Lemma quicklistPop_none σ ql l where_ out :
  lists σ !! ql = Some l → q_count l = 0 →
  quicklistPop ql where_ out σ = Done ((0, out), σ).
Proof.
  intros Hl Hc. unfold quicklistPop, mbind, M_bind, getList.
  by rewrite Hl, Hc.
Qed.

Lemma chain_head_split (A : chain) :
  Forall entry_ok A → A ≠ [] →
  ∃ a e zl c A2, A = (a, (e :: zl, c)) :: A2.
Proof.
  intros Hok Hne. destruct A as [|[a [zl c]] A2]; [done|].
  apply Forall_cons_ok in Hok as [[Hc Hr] _]. cbn in *.
  destruct zl as [|e zl]; [cbn in *; lia|]. by exists a, e, zl, c, A2.
Qed.

Lemma chain_tail_split (A : chain) :
  Forall entry_ok A → A ≠ [] →
  ∃ A1 a zl e c, A = A1 ++ [(a, (zl ++ [e], c))].
Proof.
  intros Hok Hne. destruct A as [|[a [zl c]] A1 _] using rev_ind; [done|].
  apply Forall_app_ok in Hok as [_ Hok].
  apply Forall_cons_ok in Hok as [[Hc Hr] _]. cbn in *.
  destruct zl as [|e zl _] using rev_ind; [cbn in *; lia|].
  by exists A1, a, zl, e, c.
Qed.

Lemma st_transport σ0 X0 σ σ' ql A cnt :
  st σ0 X0 σ ql A cnt None → heap_ok σ' →
  (∀ a, a ∈ A.*1 → nodes σ' !! a = nodes σ !! a) →
  lists σ' !! ql = lists σ !! ql →
  st σ' A.*1 σ' ql A cnt None.
Proof.
  intros [Hh Hdll Hpay Hcnt _ _] Hh' Hn Hl. split; try done.
  - eapply dll_transport; [exact Hdll| |].
    + unfold hdr_of. by rewrite Hl.
    + intros a Ha. unfold link_of. by rewrite Hn.
  - intros a p Ha. rewrite <- (Hpay a p Ha). unfold payload.
    rewrite Hn; [done|]. by apply (list_elem_of_fmap_2 fst) in Ha.
  - by rewrite Hl.
  - cbn. rewrite app_nil_r. apply frame_refl.
Qed.

Lemma st_below σ0 X0 σ ql A cnt F a :
  st σ0 X0 σ ql A cnt F → a ∈ A.*1 → (a < brk σ)%positive.
Proof.
  intros Hst Ha. apply elem_chain_split in Ha as (A1 & zl & c & A2 & ->).
  eapply (proj1 (st_heap _ _ _ _ _ _ _ Hst)). by eapply st_node.
Qed.

Lemma st_list_below σ0 X0 σ ql A cnt F :
  st σ0 X0 σ ql A cnt F → (ql < brk σ)%positive.
Proof.
  intros Hst. eapply (proj2 (st_heap _ _ _ _ _ _ _ Hst)).
  by eapply st_header.
Qed.

Lemma good_kept σ σ' ql A :
  good σ ql A → kept σ σ' → heap_ok σ' → good σ' ql A.
Proof.
  intros (Hst & Hok & Hcap) (Hn & Hl & _) Hh'. split; [|done].
  eapply st_transport; [exact Hst|done| |].
  - intros a Ha. apply Hn. by eapply st_below.
  - apply Hl. by eapply st_list_below.
Qed.

Lemma step_good ql σ σ' A :
  good σ ql A → step ql σ σ' →
  ∃ B, good σ' ql B ∧ frame ql A.*1 B.*1 σ σ'.
Proof.
  intros Hg Hstep. pose proof Hg as (Hst & Hok & Hcap).
  pose proof (good_length _ _ _ Hg) as Hlen.
  pose proof (csum_nonneg _ Hok) as Hnn.
  destruct Hstep as
    [fill v l r Hf Hl Hc Hrun | fill v l r Hf Hl Hc Hrun
    |fill v w l r Hf Hl Hc Hrun | zl l r Hz0 Hz1 Hl Hc Hrun
    |w out r Hrun | fill l r Hf Hl Hc Hrun | idx data r Hi Hrun
    |fill idx v after l found e r Hf Hi Hl Hc Hidx Hfound Hneg Hrun
    |start count r Hs Hn Hx Hrun | r Hrun];
    try (destruct (good_count _ _ _ _ Hg Hl) as [Hqc Hql]; rewrite Hqc in Hc).
  - (* pushHead *)
    pose proof (quicklistPushHead_st _ _ _ _ _ _ fill v Hst ltac:(lia)) as Hwp.
    run_wp Hwp Hrun. destruct Hwp as [_ Hst'].
    destruct (push_head_abs_good fill v (brk σ) A Hok ltac:(lia)) as [Hok' Hs'].
    eexists. split; [|by eapply st_frame_chain].
    eapply good_intro; [exact Hst'|done| |lia].
    rewrite Hs', wrap64_id; lia.
  - (* pushTail *)
    pose proof (quicklistPushTail_st _ _ _ _ _ _ fill v Hst ltac:(lia)) as Hwp.
    run_wp Hwp Hrun. destruct Hwp as [_ Hst'].
    destruct (push_tail_abs_good fill v (brk σ) A Hok ltac:(lia)) as [Hok' Hs'].
    eexists. split; [|by eapply st_frame_chain].
    eapply good_intro; [exact Hst'|done| |lia].
    rewrite Hs', wrap64_id; lia.
  - (* push *)
    pose proof (quicklistPush_st _ _ _ _ _ _ fill v w Hst ltac:(lia)) as Hwp.
    run_wp Hwp Hrun. unfold push_abs in Hwp.
    destruct (w =? QUICKLIST_HEAD); [|destruct (w =? QUICKLIST_TAIL)];
      cbn [orb] in Hwp.
    + destruct (push_head_abs_good fill v (brk σ) A Hok ltac:(lia))
        as [Hok' Hs'].
      eexists. split; [|by eapply st_frame_chain].
      eapply good_intro; [exact Hwp|done| |lia].
      rewrite Hs', wrap64_id; lia.
    + destruct (push_tail_abs_good fill v (brk σ) A Hok ltac:(lia))
        as [Hok' Hs'].
      eexists. split; [|by eapply st_frame_chain].
      eapply good_intro; [exact Hwp|done| |lia].
      rewrite Hs', wrap64_id; lia.
    + exists A. split; [|by eapply st_frame_chain].
      by eapply good_intro.
  - (* ingest *)
    pose proof (quicklistPushTailZiplist_st _ _ _ _ _ _ zl Hst ltac:(lia))
      as Hwp.
    run_wp Hwp Hrun.
    destruct (ingest_good A (brk σ) zl Hok Hz0 Hz1) as (Hok' & Hs' & Hzl).
    eexists. split; [|by eapply st_frame_chain].
    eapply good_intro; [exact Hwp|done| |].
    + transitivity (csum A + Z.of_nat (length zl)); [|symmetry; exact Hs'].
      rewrite Hzl, wrap64_id; lia.
    + eapply Z.le_lt_trans; [apply Z.eq_le_incl; exact Hs'|lia].
  - (* pop *)
    assert (frame ql A.*1 A.*1 σ σ) as Hrefl by apply frame_refl.
    destruct (Z.eq_dec (csum A) 0) as [E0|Hne].
    { rewrite (quicklistPop_none σ ql _ w out (st_header _ _ _ _ _ _ _ Hst) E0)
        in Hrun. injection Hrun as <- <-. by exists A. }
    assert (A ≠ []) as HA by (by intros ->).
    destruct (Z.eq_dec w QUICKLIST_HEAD) as [->|Hh];
      [|destruct (Z.eq_dec w QUICKLIST_TAIL) as [->|Ht]].
    + destruct (chain_head_split A Hok HA) as (a & e & zl & c & A2 & ->).
      pose proof (quicklistPop_head_st _ _ _ _ _ _ _ _ _ _ out Hst Hne) as Hwp.
      run_wp Hwp Hrun. destruct Hwp as [_ Hst'].
      destruct (del_index_good [] a (e :: zl) c A2 _ 0%nat Hok eq_refl Hcap
                  ltac:(cbn; lia)) as (Hok' & Hc' & Hs').
      unfold del_index_abs in Hok', Hs'. cbn [app] in Hok', Hs', Hc'.
      eexists. split; [|by eapply st_frame_chain].
      eapply good_intro; [exact Hst'|exact Hok'| |].
      * etransitivity; [exact Hc'|]. symmetry. exact Hs'.
      * eapply Z.le_lt_trans; [apply Z.eq_le_incl; exact Hs'|].
        eapply Z.lt_trans; [apply Z.lt_pred_l|exact Hcap].
    + destruct (chain_tail_split A Hok HA) as (A1 & a & zl & e & c & ->).
      pose proof (quicklistPop_tail_st _ _ _ _ _ _ _ _ _ _ out Hst Hne) as Hwp.
      run_wp Hwp Hrun. destruct Hwp as [_ Hst'].
      destruct (del_index_good A1 a (zl ++ [e]) c [] _ (length zl) Hok eq_refl
                  Hcap ltac:(rewrite length_app; cbn; lia))
        as (Hok' & Hc' & Hs').
      unfold del_index_abs in Hok', Hs'.
      rewrite delete_snoc_last, app_nil_r in Hok', Hs'.
      eexists. split; [|by eapply st_frame_chain].
      eapply good_intro; [exact Hst'|exact Hok'| |].
      * etransitivity; [exact Hc'|]. symmetry. exact Hs'.
      * eapply Z.le_lt_trans; [apply Z.eq_le_incl; exact Hs'|].
        eapply Z.lt_trans; [apply Z.lt_pred_l|exact Hcap].
    + rewrite (quicklistPop_other σ ql _ out w (st_header _ _ _ _ _ _ _ Hst))
        in Hrun by done.
      injection Hrun as <- <-. by exists A.
  - (* rotate *)
    destruct (Z_le_gt_dec (csum A) 1) as [Hle|Hgt].
    { rewrite (quicklistRotate_small _ _ _ _ _ _ _ fill Hst Hle) in Hrun.
      injection Hrun as <- <-. exists A. split; [done|apply frame_refl]. }
    assert (A ≠ []) as HA by (intros ->; cbn in Hgt; lia).
    destruct (chain_tail_split A Hok HA) as (A1 & t & zl & e & c & ->).
    rewrite length_app in Hlen. cbn [length] in Hlen.
    destruct (rotate_bytes σ A1 zl e c fill) as [bytes|] eqn:Eb.
    + pose proof (quicklistRotate_st _ _ _ _ _ _ _ _ _ _ fill bytes Hst
                    ltac:(lia) ltac:(lia) Eb) as Hwp.
      run_wp Hwp Hrun. destruct Hwp as (B1 & zl' & c' & EB & Hst').
      destruct (push_head_abs_good fill bytes (brk σ) _ Hok ltac:(lia))
        as [HokP HsP].
      destruct (push_head_abs_tail fill bytes (brk σ) A1 t (zl ++ [e]) c)
        as (B1' & zl'' & c'' & EB' & Hl').
      pose proof (eq_trans (eq_sym EB) EB') as EE.
      apply app_inj_tail in EE as [<- EE]. injection EE as <- <-.
      assert (Forall entry_ok (B1 ++ (t, (zl', c')) :: [])) as HokB.
      { eapply eq_ind; [exact HokP|exact EB]. }
      assert (csum (B1 ++ (t, (zl', c')) :: []) = csum (A1 ++ [(t, (zl ++ [e], c))]) + 1)
        as HsB.
      { etransitivity; [|exact HsP]. f_equal. symmetry. exact EB. }
      rewrite length_app in Hl'. cbn [length] in Hl'.
      destruct (del_index_good B1 t zl' c' [] _ (length zl) HokB eq_refl
                  ltac:(lia) ltac:(lia)) as (Hok' & Hc' & Hs').
      eexists. split; [|by eapply st_frame_chain].
      eapply good_intro; [exact Hst'|exact Hok'| |].
      * rewrite wrap64_id by lia. rewrite <- HsB. rewrite Hc'. symmetry.
        exact Hs'.
      * rewrite Hs'. lia.
    + by rewrite (quicklistRotate_fault _ _ _ _ _ _ _ _ _ _ fill Hst
                    ltac:(lia) Eb) in Hrun.
  - (* replace *)
    destruct (decide (0 ≤ abs_pos idx (csum A) < csum A)) as [Hin|Hout].
    + destruct (index_abs_hit ql idx A Hok Hcap Hin)
        as (A1 & a & zl & c & A2 & -> & Hr & Hi').
      pose proof (quicklistReplaceAtIndex_st _ _ _ _ _ _ _ _ _ _ _ _ data _ _
                    Hst Hi') as Hwp.
      run_wp Hwp Hrun. destruct Hwp as [_ Hst'].
      assert (Z.to_nat (abs_pos idx (csum (A1 ++ (a, (zl, c)) :: A2))
                        - csum A1) < length zl)%nat as Hlt.
      { apply Forall_app_ok in Hok as [_ Hok].
        apply Forall_cons_ok in Hok as [[Hc _] _]. cbn in Hc. lia. }
      destruct (replace_good A1 a zl c A2 _ data Hok Hlt) as [Hok' Hs'].
      eexists. split; [|by eapply st_frame_chain].
      eapply good_intro; [exact Hst'|exact Hok'|by rewrite Hs'|].
      rewrite Hs'. lia.
    + rewrite (quicklistReplaceAtIndex_miss _ _ _ _ _ _ _ idx data _ Hst
                 (index_abs_miss ql idx A (csum A) Hnn Hi Hout)) in Hrun.
      injection Hrun as <- <-. exists A. split; [done|apply frame_refl].
  - (* insert *)
    assert (_quicklistInsert ql fill e v after σ = Done (r, σ')) as Hrun'.
    { by destruct after. }
    rewrite (quicklistIndex_st _ _ _ _ _ _ _ idx initEntry Hst) in Hidx.
    injection Hidx as Hidx.
    destruct (decide (0 ≤ abs_pos idx (csum A) < csum A)) as [Hin|Hout].
    + destruct (index_abs_hit ql idx A Hok Hcap Hin)
        as (A1 & a & zl & c & A2 & -> & Hr & Hi').
      set (i := Z.to_nat (abs_pos idx (csum (A1 ++ (a, (zl, c)) :: A2))
                          - csum A1)) in *.
      rewrite Hi' in Hidx. injection Hidx as <- <-.
      destruct (entry_at_node ql a zl i
                  (if idx <? 0
                   then abs_pos idx (csum (A1 ++ (a, (zl, c)) :: A2))
                        - csum A1 - c
                   else abs_pos idx (csum (A1 ++ (a, (zl, c)) :: A2))
                        - csum A1)) as (Hen & Hez & Heo & _).
      assert (i < length zl)%nat as Hlt.
      { pose proof Hok as Hok2. apply Forall_app_ok in Hok2 as [_ Hok2].
        apply Forall_cons_ok in Hok2 as [[Hcc _] _]. cbn in Hcc.
        subst i. lia. }
      pose proof (st_node _ _ _ _ A1 _ _ _ A2 _ _ Hst) as Hnode.
      pose proof (quicklistInsert_any_st _ _ _ _ _ _ _ _ _ _ fill _ v after i
                    Hst Hok eq_refl Hc ltac:(lia) Hen Hez Hlt) as Hwp.
      assert (e_offset (entry_at ql a zl i
                (if idx <? 0
                 then abs_pos idx (csum (A1 ++ (a, (zl, c)) :: A2))
                      - csum A1 - c
                 else abs_pos idx (csum (A1 ++ (a, (zl, c)) :: A2))
                      - csum A1)) = Z.of_nat i ∨
              ¬ split_at A1 zl c A2 fill i after) as Hoff.
      { destruct (Z_lt_ge_dec idx 0) as [Hn|Hp].
        - right. intros [Hfull Hside]. apply (Hneg Hn).
          exists a, (mkNode (last A1.*1) (head A2.*1) zl c), i.
          split; [done|]. split; [done|]. split; [done|].
          split; [done|]. cbn [n_zl n_next n_prev].
          destruct after.
          + destruct Hside as [Hs| ->]; [left|by right].
            unfold ziplistNext. by rewrite (proj2 (Nat.ltb_lt _ _) Hs).
          + destruct Hside as [Hs| ->]; [left|by right].
            unfold ziplistPrev. rewrite (proj2 (Nat.leb_gt _ _) Hlt).
            by destruct i; [lia|].
        - left. rewrite Heo. rewrite (proj2 (Z.ltb_ge idx 0)) by lia.
          subst i. lia. }
      specialize (Hwp Hoff).
      run_wp Hwp Hrun'. destruct Hwp as (B & Hst' & [Hok' Hs'] & _).
      exists B. split; [|by eapply st_frame_chain].
      eapply good_intro; [exact Hst'|done|done|lia].
    + rewrite (index_abs_miss ql idx A (csum A) Hnn Hi Hout) in Hidx.
      injection Hidx as <- <-.
      destruct Hfound as [?|Hl0]; [done|].
      assert (A = []) as -> by (destruct A; [done|cbn in *; lia]).
      pose proof (quicklistInsert_empty _ _ _ _ _ fill (none_entry ql) v after
                    Hst ltac:(cbn; lia) Hc eq_refl) as Hwp.
      run_wp Hwp Hrun'.
      eexists. split; [|by eapply st_frame_chain].
      eapply good_intro; [exact Hwp| |done|cbn; lia].
      apply Forall_cons_ok. split; [|done].
      apply entry_ok_intro; [done|unfold INT_MAX; lia].
  - (* delRange *)
    assert (frame ql A.*1 A.*1 σ σ) as Hrefl by apply frame_refl.
    destruct (Z_le_gt_dec count 0) as [Hle|Hgt].
    { rewrite (quicklistDelRange_miss _ _ _ _ _ _ _ start count initEntry Hst
                 (or_introl Hle)) in Hrun.
      injection Hrun as <- <-. by exists A. }
    destruct (decide (0 ≤ abs_pos start (csum A) < csum A)) as [Hin|Hout].
    2:{ rewrite (quicklistDelRange_miss _ _ _ _ _ _ _ start count _ Hst
                   (or_intror (index_abs_miss ql start A (csum A) Hnn Hs Hout)))
          in Hrun.
        injection Hrun as <- <-. by exists A. }
    destruct (index_abs_hit ql start A Hok Hcap Hin)
      as (A1 & a & zl & c & A2 & -> & Hr & Hi').
    pose proof (quicklistDelRange_hit _ _ _ _ _ _ _ _ _ _ _ start count _ _
                  Hst ltac:(lia) Hi') as Hd.
    pose proof (delrange_extent_range (csum (A1 ++ (a, (zl, c)) :: A2))
                  start count ltac:(lia) ltac:(lia) Hs) as He.
    pose proof Hok as Hok2. apply Forall_app_ok in Hok2 as [Hok1 Hok2].
    apply Forall_cons_ok in Hok2 as [Ha Hok2].
    pose proof Ha as [Hac Har]. cbn [fst snd] in Hac, Har.
    destruct (delrange_abs _ _ _ _ _) as [[B cnt']|] eqn:Eabs.
    2:{ by rewrite Hd in Hrun. }
    destruct Hd as (σ'' & Hd & Hst'). rewrite Hd in Hrun.
    injection Hrun as <- <-.
    apply delrange_abs_good in Eabs as (Hok' & -> & Hcap'); try done.
    + exists B. split; [|by eapply st_frame_chain]. by eapply good_intro.
    + destruct (start <? 0); lia.
    + intros Hcross. apply Hx.
      eexists _, _, a, _. split; [by eapply st_header|]. split.
      { rewrite (quicklistIndex_st _ _ _ _ _ _ _ start initEntry Hst).
        by rewrite Hi'. }
      destruct (entry_at_node ql a zl
                  (Z.to_nat (abs_pos start (csum (A1 ++ (a, (zl, c)) :: A2))
                             - csum A1))
                  (if start <? 0
                   then abs_pos start (csum (A1 ++ (a, (zl, c)) :: A2))
                        - csum A1 - c
                   else abs_pos start (csum (A1 ++ (a, (zl, c)) :: A2))
                        - csum A1)) as (Hen & _ & Heo & _).
      split; [exact Hen|]. split; [by eapply st_node|].
      cbn [n_count q_count]. rewrite Heo. exact Hcross.
  - (* dup *)
    pose proof (quicklistDup_st _ _ _ _ _ Hst Hok Hcap) as Hwp.
    run_wp Hwp Hrun. destruct Hwp as (_ & Hk & B & _ & HstB).
    exists A. split; [|by apply frame_kept].
    eapply good_kept; [exact Hg|exact Hk|]. by eapply st_heap.
Qed.

Lemma quicklistNext_ok σ0 X0 σ ql A cnt F it b it' e σ' :
  st σ0 X0 σ ql A cnt F → iter_ok σ ql A it →
  quicklistNext it σ = Done ((b, it', e), σ') →
  σ' = σ ∧ iter_ok σ ql A it' ∧ i_direction it' = i_direction it ∧
  (b = true → entry_in ql A e ∧ i_current it' = e_node e).
Proof.
  intros Hst Hit. unfold quicklistNext, mbind, M_bind, chainFuel.
  by eapply quicklistNext_rec_ok.
Qed.

Lemma act_good ql σ oit σ' oit' A :
  good σ ql A → oiter_ok σ ql A oit → act ql (σ, oit) (σ', oit') →
  ∃ B, good σ' ql B ∧ oiter_ok σ' ql B oit' ∧ frame ql A.*1 B.*1 σ σ'.
Proof.
  intros Hg Hit Hact. pose proof Hg as (Hst & Hok & Hcap).
  inversion Hact as
    [s o s' Hstep | s o dir it s' Hrun | s o dir idx it s' Hrun
    |s it b it' e s' Hrun | s it it' e s1 it'' e' s' Hnext Hdel]; subst.
  - destruct (step_good _ _ _ _ Hg Hstep) as (B & HB & Hfr). by exists B.
  - destruct (quicklistGetIterator_ok _ _ _ _ _ _ _ dir Hst)
      as (it0 & E0 & Hok0 & _).
    rewrite E0 in Hrun. injection Hrun as <- <-.
    exists A. split; [done|]. split; [done|apply frame_refl].
  - destruct (quicklistGetIteratorAtIdx_ok _ _ _ _ _ _ _ _ _ _ _ Hst Hrun)
      as [-> Hok0].
    exists A. split; [done|]. split; [by apply Hok0|apply frame_refl].
  - destruct (quicklistNext_ok _ _ _ _ _ _ _ _ _ _ _ _ Hst Hit Hrun)
      as (-> & Hit' & _ & _).
    exists A. split; [done|]. split; [done|apply frame_refl].
  - destruct (quicklistNext_ok _ _ _ _ _ _ _ _ _ _ _ _ Hst Hit Hnext)
      as (-> & [Hq' _] & _ & He).
    destruct (He eq_refl) as [[Hq (A1 & a & zl & c & A2 & i & -> & Hn & Hz & Hi)]
                                Hc'].
    rewrite Hn in Hc'.
    pose proof (quicklistDelEntry_st _ _ _ _ _ _ _ _ _ _ _ it' e i Hst Hq Hn Hz
                  Hq' Hc') as Hwp.
    run_wp Hwp Hdel. destruct Hwp as (Hst' & Hit'' & _). cbn [fst] in Hit''.
    destruct (del_index_good A1 a zl c A2 _ i Hok eq_refl Hcap Hi)
      as (Hok' & Hcnt' & Hs').
    eexists. split; [|split; [|by eapply st_frame_chain]].
    + eapply good_intro; [exact Hst'|exact Hok'| |].
      * etransitivity; [exact Hcnt'|]. symmetry. exact Hs'.
      * eapply Z.le_lt_trans; [apply Z.eq_le_incl; exact Hs'|].
        eapply Z.lt_trans; [apply Z.lt_pred_l|exact Hcap].
    + exact Hit''.
Qed.

Lemma acts_good ql s s' :
  acts ql s s' → ∀ A, good s.1 ql A → oiter_ok s.1 ql A s.2 →
  ∃ B, good s'.1 ql B ∧ oiter_ok s'.1 ql B s'.2.
Proof.
  induction 1 as [s|s s' s'' _ IH Hact]; intros A Hg Hit.
  - by exists A.
  - destruct (IH A Hg Hit) as (B & HB & HitB).
    destruct s' as [σ' oit'], s'' as [σ'' oit''].
    destruct (act_good _ _ _ _ _ _ HB HitB Hact) as (C & HC & HitC & _).
    by exists C.
Qed.

Lemma live_good ql σ oit :
  live ql σ oit → ∃ A, good σ ql A ∧ oiter_ok σ ql A oit.
Proof.
  intros (σ0 & σ1 & Hh & Hc & Hacts).
  rewrite quicklistCreate_run in Hc. injection Hc as <- <-.
  apply (acts_good _ _ _ Hacts []); [by apply good_created|done].
Qed.


(** ** From the store back to the chain *)

Lemma chain_of_recs prev A : chain_of (recs prev A) = A.
Proof.
  revert prev. induction A as [|[a [zl c]] A IH]; intros prev; [done|].
  cbn. by rewrite IH.
Qed.

Lemma good_nodes σ ql A ns :
  good σ ql A → quicklistNodes σ ql = Some ns → A = chain_of ns.
Proof.
  intros (Hst & _) Hns. rewrite (st_nodes _ _ _ _ _ _ _ Hst) in Hns.
  injection Hns as <-. by rewrite chain_of_recs.
Qed.

Lemma live_chain ql σ oit ns :
  live ql σ oit → quicklistNodes σ ql = Some ns → good σ ql (chain_of ns).
Proof.
  intros Hl Hns. destruct (live_good _ _ _ Hl) as (A & Hg & _).
  by rewrite <- (good_nodes _ _ _ _ Hg Hns).
Qed.

Lemma heap_ok_empty : heap_ok emptyMem.
Proof.
  split; intros a n H; unfold emptyMem in H; cbn [nodes lists] in H;
    by rewrite lookup_empty in H.
Qed.

Lemma live_created : live 1%positive (created emptyMem) None.
Proof.
  exists emptyMem, (created emptyMem). split; [apply heap_ok_empty|].
  split; [done|]. apply acts_nil.
Qed.

Lemma live_step ql σ oit σ' :
  live ql σ oit → step ql σ σ' → live ql σ' None.
Proof.
  intros (σ0 & σ1 & Hh & Hc & Ha) Hs. exists σ0, σ1. split; [done|].
  split; [done|]. eapply acts_snoc; [exact Ha|]. by apply act_step.
Qed.

Lemma live_demo : live 1%positive demo None.
Proof.
  eapply live_step; [eapply live_step; [eapply live_step;
    [apply live_created|]|]|].
  - eapply (step_pushTail _ _ _ 2 "a" _ 1%positive);
      [unfold INT_MAX; lia|vm_compute; reflexivity|vm_compute; reflexivity|].
    vm_compute. reflexivity.
  - eapply (step_pushTail _ _ _ 2 "b" _ 1%positive);
      [unfold INT_MAX; lia|vm_compute; reflexivity|vm_compute; reflexivity|].
    vm_compute. reflexivity.
  - eapply (step_pushTail _ _ _ 2 "c" _ 1%positive);
      [unfold INT_MAX; lia|vm_compute; reflexivity|vm_compute; reflexivity|].
    vm_compute. reflexivity.
Qed.

Lemma live_abc : live 1%positive abc None.
Proof.
  eapply live_step; [eapply live_step; [eapply live_step;
    [apply live_created|]|]|].
  - eapply (step_pushTail _ _ _ 4 "a" _ 1%positive);
      [unfold INT_MAX; lia|vm_compute; reflexivity|vm_compute; reflexivity|].
    vm_compute. reflexivity.
  - eapply (step_pushTail _ _ _ 4 "b" _ 1%positive);
      [unfold INT_MAX; lia|vm_compute; reflexivity|vm_compute; reflexivity|].
    vm_compute. reflexivity.
  - eapply (step_pushTail _ _ _ 4 "c" _ 1%positive);
      [unfold INT_MAX; lia|vm_compute; reflexivity|vm_compute; reflexivity|].
    vm_compute. reflexivity.
Qed.

(** The rotation of [abc]: the bytes pushed are read after "a", "b" and "c"
    have moved up, where "b" stands in the place of the tail, and the cursor
    then deletes the entry in that place. *)
Lemma rotated_entries :
  quicklistRotate 1%positive 4 abc = Done (tt, rotated) ∧
  quicklistEntries abc 1%positive = Some [ZStr "a"; ZStr "b"; ZStr "c"] ∧
  quicklistEntries rotated 1%positive = Some [ZStr "b"; ZStr "a"; ZStr "c"].
Proof. vm_compute. done. Qed.


(** An insertion next to an entry found by a negative index belongs to
    the histories when it does not split the node: "x" after the entry -1
    of [abc], whose node has room. *)
Lemma live_reverse_insert :
  ∃ σ, ('(_, e) ← quicklistIndex 1%positive (-1) initEntry;
        quicklistInsertAfter 1%positive 4 e "x") abc = Done (tt, σ) ∧
       live 1%positive σ None ∧
       quicklistEntries σ 1%positive =
         Some [ZStr "a"; ZStr "b"; ZStr "c"; ZStr "x"].
Proof.
  eexists. split; [vm_compute; reflexivity|]. split; [|vm_compute; reflexivity].
  eapply live_step; [apply live_abc|].
  eapply (step_insert _ _ _ 4 (-1) "x" true _ true _ tt).
  - unfold INT_MAX. lia.
  - unfold LLONG_MIN, LLONG_MAX. lia.
  - vm_compute. reflexivity.
  - vm_compute. reflexivity.
  - vm_compute. reflexivity.
  - by left.
  - intros _ (a & n & i & Ha & Hn & _ & Hfull & _).
    vm_compute in Ha. injection Ha as <-.
    vm_compute in Hn. injection Hn as <-. cbn in Hfull. lia.
  - vm_compute. reflexivity.
Qed.

(** ** C1: the invariants along every history *)


(** The two slips of the source that histories leave out.  An insertion
    that splits a node next to an entry found through a negative index
    loses an entry of the split node and leaves the total one above the sum
    of the node counts.  A range deletion that starts inside the first node
    and ends inside the second leaves the first node with a count below the
    number of its entries, and the next insertion that splits that node
    breaks the sum. *)
Lemma invariants_fail_after_reverse_insert :
  match (ql ← quicklistCreate;
         quicklistPushTail ql 3 "a";; quicklistPushTail ql 3 "b";;
         quicklistPushTail ql 3 "c";;
         '(_, e) ← quicklistIndex ql (-2) initEntry;
         quicklistInsertAfter ql 3 e "x";;
         mret ql) emptyMem with
  | Done (ql, σ) => ql_invariants σ ql = false
  | _ => False
  end.
Proof. vm_compute. reflexivity. Qed.

Lemma invariants_fail_after_crossing_delRange :
  match (ql ← quicklistCreate;
         push_all ql 5 [(false, "a"); (false, "b"); (false, "c"); (false, "d");
                        (false, "e"); (false, "f"); (false, "g"); (false, "h");
                        (false, "i"); (false, "j")]%string;;
         quicklistDelRange ql 3 4;;
         '(_, e) ← quicklistIndex ql 0 initEntry;
         quicklistInsertAfter ql 1 e "x";;
         mret ql) emptyMem with
  | Done (ql, σ) => ql_invariants σ ql = false
  | _ => False
  end.
Proof. vm_compute. reflexivity. Qed.



(** ** C2: the extent of a range deletion *)

(** C2, what the code does instead: on a single node holding "a" .. "e",
    deleting from index 2 with count 100 caps the extent to the whole list
    (5) instead of the 3 entries that remain from index 2; the node count
    drops to 0 and the node is freed with "a" and "b" still in it. *)
Lemma delRange_cap_removes_all :
  match (ql ← quicklistCreate;
         push_all ql 32 [(false, "a"); (false, "b"); (false, "c");
                         (false, "d"); (false, "e")]%string;;
         r ← quicklistDelRange ql 2 100;
         mret (ql, r)) emptyMem with
  | Done ((ql, r), σ) =>
      r = 1 ∧ quicklistEntries σ ql = Some [] ∧
      q_count <$> lists σ !! ql = Some 0
  | _ => False
  end.
Proof. vm_compute. done. Qed.

(** The same call on the same five entries spread over three nodes (fill
    factor 2) walks off the end of the chain and dereferences [NULL]. *)
Lemma delRange_cap_traps :
  (ql ← quicklistCreate;
   push_all ql 2 [(false, "a"); (false, "b"); (false, "c");
                  (false, "d"); (false, "e")]%string;;
   quicklistDelRange ql 2 100) emptyMem = Fault.
Proof. vm_compute. reflexivity. Qed.

(** ** C3: an index out of range *)

(** C3, counterexample: an out-of-range lookup overwrites the caller's
    record. *)
Lemma index_miss_overwrites_entry :
  match (ql ← quicklistCreate;
         quicklistIndex ql 3 (mkEntry None None None (Some "old") 3 42 1))
        emptyMem with
  | Done ((found, e), _) =>
      found = false ∧ e ≠ mkEntry None None None (Some "old") 3 42 1
  | _ => False
  end.
Proof. vm_compute. split; [reflexivity|discriminate]. Qed.

(** C3, amended: for an index out of range the lookup reports not-found and
    leaves the store as it is, and the caller's record is reset: its list
    field names the list and every other field has its initial value. *)
Theorem quicklistIndex_out_of_range σ ql l idx e0 :
  lists σ !! ql = Some l → LLONG_MIN ≤ idx ≤ LLONG_MAX →
  (0 ≤ idx ∧ q_count l ≤ idx) ∨ (idx < 0 ∧ q_count l < - idx) →
  quicklistIndex ql idx e0 σ =
    Done ((false, mkEntry (Some ql) None None None 0 (-123456789) 123456789),
          σ).
Proof.
  unfold LLONG_MIN, LLONG_MAX. intros Hl Hr Ho.
  unfold quicklistIndex, mbind, M_bind, getList. rewrite Hl.
  destruct Ho as [[H0 Hc]|[H0 Hc]].
  - rewrite (proj2 (Z.ltb_ge idx 0)) by lia. cbn [negb].
    rewrite wrap64_id by lia. rewrite Z.geb_leb.
    by rewrite (proj2 (Z.leb_le _ _)) by lia.
  - rewrite (proj2 (Z.ltb_lt idx 0)) by lia. cbn [negb].
    rewrite wrap64_id by lia. rewrite Z.geb_leb.
    by rewrite (proj2 (Z.leb_le _ _)) by lia.
Qed.

Lemma quicklistIndex_out_of_range_witness :
  quicklistIndex 1%positive 3 (mkEntry None None None (Some "old") 3 42 1)
                 demo =
    Done ((false, mkEntry (Some 1%positive) None None None 0 (-123456789)
                          123456789), demo).
Proof.
  apply (quicklistIndex_out_of_range demo 1%positive
           (mkList (Some 2%positive) (Some 3%positive) 2 3) 3).
  - vm_compute. reflexivity.
  - unfold LLONG_MIN, LLONG_MAX. lia.
  - left. cbn. lia.
Defined.

(** ** C4: what pop hands back *)

(** C4, what the code does instead: popping the byte string "abc" returns
    the three bytes of the fresh allocation (zero bytes in [emptyMem]), not
    a copy of the entry. *)
Lemma pop_returns_fresh_allocation :
  match (ql ← quicklistCreate;
         quicklistPushHead ql 4 "abc";;
         quicklistPop ql QUICKLIST_HEAD (None, 0, 0)) emptyMem with
  | Done ((r, (data, sz, sval)), _) =>
      r = 1 ∧ data = Some (zeros 3) ∧ data ≠ Some "abc"%string ∧ sz = 3
  | _ => False
  end.
Proof. vm_compute. repeat split; discriminate. Qed.

(** ** C5: rotation of an integer tail *)

(** C5, what the code does instead: with the integer 7 at the tail, the
    bytes pushed at the head are read from the address 7; in a store where
    that address is not readable the call traps. *)
Lemma rotate_integer_tail_traps :
  (ql ← quicklistCreate;
   quicklistPushTail ql 1 "a";; quicklistPushTail ql 1 "7";;
   quicklistRotate ql 1) emptyMem = Fault.
Proof. vm_compute. reflexivity. Qed.

(** ** C9: a push with an invalid end *)

(** C9: [quicklistPush] with a [where] that is neither [QUICKLIST_HEAD] nor
    [QUICKLIST_TAIL] returns normally and leaves the whole store, hence the
    list, its length, its total and every node, as it was. *)
Theorem quicklistPush_invalid_where ql fill v where_ σ :
  where_ ≠ QUICKLIST_HEAD → where_ ≠ QUICKLIST_TAIL →
  quicklistPush ql fill v where_ σ = Done (tt, σ).
Proof.
  intros Hh Ht. unfold quicklistPush.
  by rewrite (proj2 (Z.eqb_neq _ _) Hh), (proj2 (Z.eqb_neq _ _) Ht).
Qed.

Lemma quicklistPush_invalid_where_witness :
  quicklistPush 1%positive 4 "x" 5 demo = Done (tt, demo).
Proof.
  apply (quicklistPush_invalid_where 1%positive 4 "x" 5 demo).
  - unfold QUICKLIST_HEAD. lia.
  - unfold QUICKLIST_TAIL. lia.
Defined.

(** ** C7: an index and its mirror *)

Lemma entry_at_fields ql a zl i off off' :
  e_node (entry_at ql a zl i off) = e_node (entry_at ql a zl i off') ∧
  e_node (entry_at ql a zl i off) ≠ None ∧
  e_zi (entry_at ql a zl i off) = e_zi (entry_at ql a zl i off') ∧
  e_value (entry_at ql a zl i off) = e_value (entry_at ql a zl i off') ∧
  e_sz (entry_at ql a zl i off) = e_sz (entry_at ql a zl i off') ∧
  e_longval (entry_at ql a zl i off) = e_longval (entry_at ql a zl i off').
Proof.
  unfold entry_at. by destruct (ziplistGet _ _ _) as [? [[? ?] ?]].
Qed.

(** The indexing law on live lists: for every [i] below the total, the
    lookups of [i] and of [-(total - i)] both succeed and find the same
    node, the same position in it and the same decoded value. *)
Theorem quicklistIndex_mirror ql σ oit l i e0 e0' :
  live ql σ oit → lists σ !! ql = Some l → 0 ≤ i < q_count l →
  ∃ e1 e2,
    quicklistIndex ql i e0 σ = Done ((true, e1), σ) ∧
    quicklistIndex ql (- (q_count l - i)) e0' σ = Done ((true, e2), σ) ∧
    e_node e1 = e_node e2 ∧ e_node e1 ≠ None ∧ e_zi e1 = e_zi e2 ∧
    e_value e1 = e_value e2 ∧ e_sz e1 = e_sz e2 ∧
    e_longval e1 = e_longval e2.
Proof.
  intros Hlive Hl Hi. destruct (live_good _ _ _ Hlive) as (A & Hg & _).
  destruct (good_count _ _ _ _ Hg Hl) as [Hc _]. rewrite Hc in *.
  destruct Hg as (Hst & Hok & Hcap).
  destruct (index_abs_forward ql i A Hok Hcap Hi)
    as (A1 & a & zl & c & A2 & HA & Hr & Hf).
  destruct (index_abs_backward ql i A Hok Hcap Hi)
    as (B1 & b & zl' & c' & B2 & HB & Hr' & Hb).
  assert (A1 = B1 ∧ (a, (zl, c)) = (b, (zl', c')) ∧ A2 = B2)
    as (<- & E & <-).
  { eapply (split_unique A1 A2 B1 B2 _ _ i); [by rewrite <- HA| |done|done].
    by rewrite <- HA, <- HB. }
  injection E as <- <- <-.
  eexists _, _. split; [|split].
  - rewrite (quicklistIndex_st _ _ _ _ _ _ _ i e0 Hst). by rewrite Hf.
  - rewrite (quicklistIndex_st _ _ _ _ _ _ _ _ e0' Hst). by rewrite Hb.
  - apply entry_at_fields.
Qed.

Lemma quicklistIndex_mirror_witness :
  ∃ e1 e2,
    quicklistIndex 1%positive 1 initEntry demo = Done ((true, e1), demo) ∧
    quicklistIndex 1%positive (- (3 - 1)) initEntry demo =
      Done ((true, e2), demo) ∧
    e_node e1 = e_node e2 ∧ e_node e1 ≠ None ∧ e_zi e1 = e_zi e2 ∧
    e_value e1 = e_value e2 ∧ e_sz e1 = e_sz e2 ∧
    e_longval e1 = e_longval e2.
Proof.
  apply (quicklistIndex_mirror 1%positive demo None
           (mkList (Some 2%positive) (Some 3%positive) 2 3) 1
           initEntry initEntry).
  - apply live_demo.
  - vm_compute. reflexivity.
  - cbn. lia.
Defined.

(** C7, what the code does instead: ten entries in two nodes of five;
    [quicklistDelRange ql 3 4] takes 4 off the count of the first node and
    off the total, but only the entries "d" and "e" out of its block.  The
    list then has a total of 6 and the first node a count of 1 with three
    entries in its block; the lookup of 0 finds "a", the first entry of that
    block, and the lookup of -6 finds "c", its last. *)
Lemma index_mirror_differs_after_delRange :
  match (ql ← quicklistCreate;
         push_all ql 5 [(false, "a"); (false, "b"); (false, "c"); (false, "d");
                        (false, "e"); (false, "f"); (false, "g"); (false, "h");
                        (false, "i"); (false, "j")]%string;;
         quicklistDelRange ql 3 4;;
         l ← getList ql;
         '(found1, e1) ← quicklistIndex ql 0 initEntry;
         '(found2, e2) ← quicklistIndex ql (- (q_count l - 0)) initEntry;
         mret (ql, q_count l, found1, e1, found2, e2)) emptyMem with
  | Done ((ql, total, found1, e1, found2, e2), σ) =>
      total = 6 ∧ found1 = true ∧ found2 = true ∧
      e_value e1 = Some "a"%string ∧ e_value e2 = Some "c"%string ∧
      e_zi e1 = Some 0%nat ∧ e_zi e2 = Some 2%nat ∧
      chain_of <$> quicklistNodes σ ql =
        Some [(2%positive, ([ZStr "a"; ZStr "b"; ZStr "c"], 1));
              (3%positive,
               ([ZStr "f"; ZStr "g"; ZStr "h"; ZStr "i"; ZStr "j"], 5))]
  | _ => False
  end.
Proof. vm_compute. done. Qed.

Lemma csum_single A : Forall single A → csum A = Z.of_nat (length A).
Proof.
  induction 1 as [|[a [zl c]] A [Hc _] _ IH]; [done|].
  rewrite csum_cons. cbn [fst snd length] in *. lia.
Qed.

Lemma push_head_abs_zero v new A :
  Forall single A →
  push_head_abs 0 v new A = (new, ([zipEntry v], 1)) :: A.
Proof.
  intros HA. unfold push_head_abs. change (wrap32 (0 + 1)) with 1.
  destruct A as [|[h [zl c]] A]; [done|].
  apply Forall_cons in HA as [[Hc _] _]. cbn in Hc. by rewrite Hc.
Qed.

Lemma push_tail_abs_zero v new A :
  Forall single A →
  push_tail_abs 0 v new A = A ++ [(new, ([zipEntry v], 1))].
Proof.
  intros HA. unfold push_tail_abs. change (wrap32 (0 + 1)) with 1.
  destruct A as [|[t [zl c]] A _] using rev_ind; [done|].
  rewrite last_snoc. apply Forall_app in HA as [_ HA].
  apply Forall_cons in HA as [[Hc _] _]. cbn in Hc. by rewrite Hc.
Qed.

Lemma push_all_zero_st σ0 X0 ql ops : ∀ σ A,
  st σ0 X0 σ ql A (Z.of_nat (length A)) None → Forall single A →
  Z.of_nat (length A) + Z.of_nat (length ops) < 2 ^ 64 →
  wp (push_all ql 0 ops) σ (λ _ σ',
    ∃ B, st σ0 X0 σ' ql B (Z.of_nat (length B)) None ∧ Forall single B ∧
         length B = (length A + length ops)%nat).
Proof.
  induction ops as [|[hd v] ops IH]; intros σ A Hst HA Hlen;
    cbn [push_all length] in *.
  - apply wp_ret. exists A. split; [done|]. split; [done|lia].
  - assert (single (brk σ, ([zipEntry v], 1))) as Hnew by done.
    destruct hd.
    + wp_apply quicklistPushHead_st; [exact Hst|lia|].
      intros r σ1 [_ Hst1]. rewrite push_head_abs_zero in Hst1 by done.
      rewrite wrap64_id in Hst1 by lia.
      eapply wp_mono; [eapply (IH _ ((brk σ, ([zipEntry v], 1)) :: A))|].
      * cbn [length]. by rewrite Nat2Z.inj_succ, <- Z.add_1_r.
      * by apply Forall_cons.
      * cbn [length]. lia.
      * intros [] σ2 (B & HB & HsB & HlB). exists B. split; [done|].
        split; [done|]. cbn [length] in HlB. lia.
    + wp_apply quicklistPushTail_st; [exact Hst|lia|].
      intros r σ1 [_ Hst1]. rewrite push_tail_abs_zero in Hst1 by done.
      rewrite wrap64_id in Hst1 by lia.
      eapply wp_mono; [eapply (IH _ (A ++ [(brk σ, ([zipEntry v], 1))]))|].
      * rewrite length_app. cbn [length].
        by rewrite Nat2Z.inj_add.
      * apply Forall_app. split; [done|]. by apply Forall_cons.
      * rewrite length_app. cbn [length]. lia.
      * intros [] σ2 (B & HB & HsB & HlB). exists B. split; [done|].
        split; [done|]. rewrite length_app in HlB. cbn [length] in HlB. lia.
Qed.

(** C10: after [n] pushes with fill factor 0, at either end in any order,
    into a list just created, the list has [n] nodes, its length and its
    total are [n], and every node holds exactly one entry. *)
Theorem push_all_fill_zero σ0 ql σ1 ops :
  heap_ok σ0 → quicklistCreate σ0 = Done (ql, σ1) →
  Z.of_nat (length ops) < 2 ^ 64 →
  ∃ σ l ns,
    push_all ql 0 ops σ1 = Done (tt, σ) ∧
    lists σ !! ql = Some l ∧ quicklistNodes σ ql = Some ns ∧
    q_len l = Z.of_nat (length ops) ∧ q_count l = Z.of_nat (length ops) ∧
    length ns = length ops ∧
    Forall (λ an, n_count an.2 = 1 ∧ length (n_zl an.2) = 1%nat) ns.
Proof.
  intros Hh Hc Hn. rewrite quicklistCreate_run in Hc. injection Hc as <- <-.
  pose proof (push_all_zero_st _ _ _ ops _ [] (st_created σ0 Hh)
                ltac:(done) ltac:(cbn; lia)) as Hwp.
  apply wp_done in Hwp as ([] & σ & Hrun & B & HB & HsB & HlB).
  cbn [length] in HlB. rewrite Nat.add_0_l in HlB.
  exists σ, (mkList (head B.*1) (last B.*1) (Z.of_nat (length B))
                    (Z.of_nat (length B))), (recs None B).
  split; [done|]. split; [by eapply st_header|].
  split; [by eapply st_nodes|]. cbn [q_len q_count]. rewrite HlB.
  split; [done|]. split; [done|]. split.
  - by rewrite <- (length_fmap fst), recs_fst, length_fmap.
  - clear -HsB. generalize (@None addr).
    induction HsB as [|[a [zl c]] B [Hc Hl] _ IH]; intros prev; [done|].
    cbn. constructor; [done|]. apply IH.
Qed.

Lemma push_all_fill_zero_witness :
  ∃ σ l ns,
    push_all 1%positive 0 [(true, "a"); (false, "b")]%string
             (created emptyMem) = Done (tt, σ) ∧
    lists σ !! 1%positive = Some l ∧
    quicklistNodes σ 1%positive = Some ns ∧
    q_len l = 2 ∧ q_count l = 2 ∧ length ns = 2%nat ∧
    Forall (λ an, n_count an.2 = 1 ∧ length (n_zl an.2) = 1%nat) ns.
Proof.
  apply (push_all_fill_zero emptyMem 1%positive (created emptyMem)
           [(true, "a"); (false, "b")]%string).
  - apply heap_ok_empty.
  - reflexivity.
  - cbn. lia.
Defined.

(** ** The list in the middle of an insertion *)

Lemma live_well_linked ql σ oit : live ql σ oit → well_linked σ ql.
Proof.
  intros Hl. destruct (live_good _ _ _ Hl) as (A & (Hst & _) & _).
  by exists A, (csum A).
Qed.

Lemma live_five : live 1%positive five None.
Proof.
  assert (∀ n v c,
            live 1%positive (pushed n) None →
            q_count <$> lists (pushed n) !! 1%positive = Some c →
            c + 1 < 2 ^ 64 →
            quicklistPushTail 1%positive 4 v (pushed n) =
              Done (1%positive, pushed (S n)) →
            live 1%positive (pushed (S n)) None) as Hpush.
  { intros n v c Hl Hc Hcap Hrun.
    destruct (lists (pushed n) !! 1%positive) as [l|] eqn:El; [|done].
    injection Hc as Hc. eapply live_step; [exact Hl|].
    eapply (step_pushTail _ _ _ 4 v l 1%positive);
      [unfold INT_MAX; lia|done|lia|done]. }
  change five with (pushed 5).
  apply (Hpush 4%nat "e"%string 4); [|vm_compute; reflexivity|lia
                                     |vm_compute; reflexivity].
  apply (Hpush 3%nat "d"%string 3); [|vm_compute; reflexivity|lia
                                     |vm_compute; reflexivity].
  apply (Hpush 2%nat "c"%string 2); [|vm_compute; reflexivity|lia
                                     |vm_compute; reflexivity].
  apply (Hpush 1%nat "b"%string 1); [|vm_compute; reflexivity|lia
                                     |vm_compute; reflexivity].
  apply (Hpush 0%nat "a"%string 0); [|vm_compute; reflexivity|lia
                                     |vm_compute; reflexivity].
  apply live_created.
Qed.

Lemma insert_until_merge_after_st σ0 X0 σ ql A1 a zl c A2 cnt v i :
  st σ0 X0 σ ql (A1 ++ (a, (zl, c)) :: A2) cnt None →
  Forall entry_ok (A1 ++ (a, (zl, c)) :: A2) →
  csum (A1 ++ (a, (zl, c)) :: A2) + 1 < 2 ^ 64 → (i < length zl)%nat →
  wp (insert_until_merge ql a (Z.of_nat i) v true) σ (λ _ σ',
    st σ0 X0 σ' ql
       (A1 ++ (a, (take (S i) zl, Z.of_nat (S i)))
           :: (brk σ, (zipEntry v :: drop (S i) zl,
                       Z.of_nat (length zl - S i) + 1)) :: A2) cnt None ∧
    Forall entry_ok
       (A1 ++ (a, (take (S i) zl, Z.of_nat (S i)))
           :: (brk σ, (zipEntry v :: drop (S i) zl,
                       Z.of_nat (length zl - S i) + 1)) :: A2)).
Proof.
  intros Hst Hok Hcap Hi. unfold insert_until_merge.
  pose proof (length_le_csum _ Hok) as Hlen.
  pose proof Hok as Hok'.
  apply Forall_app_ok in Hok' as [Hok1 Hok2].
  apply Forall_cons_ok in Hok2 as [Ha Hok2].
  pose proof Ha as [Hac Har]. cbn [fst snd] in Hac, Har.
  wp_apply quicklistSplitNode_st; [exact Hst|].
  intros r σ1 [-> Hst1].
  destruct (split_after zl i Hi ltac:(lia)) as [Eo Enw].
  rewrite Eo, Enw in Hst1. clear Eo Enw.
  assert (length (take (S i) zl) = S i) as Ht by (rewrite length_take; lia).
  assert (length (drop (S i) zl) = (length zl - S i)%nat) as Hd
    by (by rewrite length_drop).
  rewrite !ziplistLen_small in Hst1 by (unfold INT_MAX in *; lia).
  rewrite Ht, Hd in Hst1.
  st_getL Hst1. st_setL Hst1. st_getL Hst1. st_setL Hst1.
  mem_simpl_in Hst1.
  rewrite wrap32_small in Hst1 by (unfold INT_MAX in *; lia).
  rewrite cons_middle, app_assoc in Hst1.
  st_insert Hst1 (A1 ++ [(a, (take (S i) zl, Z.of_nat (S i)))]) A2.
  - rewrite !length_app in *. cbn [length] in *. lia.
  - rewrite fmap_fst_snoc, last_snoc. split; [done|].
    intros H. by apply app_eq_nil in H as [_ [=]].
  - apply st_bwd in Hst1. split; [exact Hst1|].
    apply Forall_app_ok. split; [done|].
    apply Forall_cons_ok. split.
    { apply entry_ok_intro; [by rewrite Ht|unfold INT_MAX in *; lia]. }
    apply Forall_cons_ok. split; [|done].
    apply entry_ok_intro; [|unfold INT_MAX in *; lia].
    cbn [length]. rewrite Hd. lia.
Qed.

Lemma insert_until_merge_before_st σ0 X0 σ ql A1 a zl c A2 cnt v i :
  st σ0 X0 σ ql (A1 ++ (a, (zl, c)) :: A2) cnt None →
  Forall entry_ok (A1 ++ (a, (zl, c)) :: A2) →
  csum (A1 ++ (a, (zl, c)) :: A2) + 1 < 2 ^ 64 → (i < length zl)%nat →
  wp (insert_until_merge ql a (Z.of_nat i) v false) σ (λ _ σ',
    st σ0 X0 σ' ql
       (A1 ++ (brk σ, (take i zl ++ [zipEntry v], Z.of_nat i + 1))
           :: (a, (drop i zl, Z.of_nat (length zl - i))) :: A2) cnt None ∧
    Forall entry_ok
       (A1 ++ (brk σ, (take i zl ++ [zipEntry v], Z.of_nat i + 1))
           :: (a, (drop i zl, Z.of_nat (length zl - i))) :: A2)).
Proof.
  intros Hst Hok Hcap Hi. unfold insert_until_merge.
  pose proof (length_le_csum _ Hok) as Hlen.
  pose proof Hok as Hok'.
  apply Forall_app_ok in Hok' as [Hok1 Hok2].
  apply Forall_cons_ok in Hok2 as [Ha Hok2].
  pose proof Ha as [Hac Har]. cbn [fst snd] in Hac, Har.
  wp_apply quicklistSplitNode_st; [exact Hst|].
  intros r σ1 [-> Hst1].
  destruct (split_before zl i Hi) as [Eo Enw].
  rewrite Eo, Enw in Hst1. clear Eo Enw.
  assert (length (take i zl) = i) as Ht by (rewrite length_take; lia).
  assert (length (drop i zl) = (length zl - i)%nat) as Hd
    by (by rewrite length_drop).
  rewrite !ziplistLen_small in Hst1 by (unfold INT_MAX in *; lia).
  rewrite Ht, Hd in Hst1.
  st_getL Hst1. st_setL Hst1. st_getL Hst1. st_setL Hst1.
  mem_simpl_in Hst1.
  rewrite wrap32_small in Hst1 by (unfold INT_MAX in *; lia).
  st_insert Hst1 A1 ((a, (drop i zl, Z.of_nat (length zl - i))) :: A2).
  - rewrite !length_app in *. cbn [length] in *. lia.
  - split; [exact Hst1|].
    apply Forall_app_ok. split; [done|].
    apply Forall_cons_ok. split.
    { apply entry_ok_intro; [|unfold INT_MAX in *; lia].
      rewrite length_app, Ht. cbn [length]. lia. }
    apply Forall_cons_ok. split; [|done].
    apply entry_ok_intro; [by rewrite Hd|unfold INT_MAX in *; lia].
Qed.

Lemma chain_of_ok ns :
  Forall (λ an : addr * quicklistNode, node_ok an.2) ns ↔
  Forall entry_ok (chain_of ns).
Proof.
  unfold chain_of. rewrite Forall_fmap. apply Forall_proper; [|done].
  by intros [a n].
Qed.

Lemma recs_ok prev B :
  Forall entry_ok B →
  Forall (λ an : addr * quicklistNode, node_ok an.2) (recs prev B).
Proof.
  intros HB. apply chain_of_ok. by rewrite chain_of_recs.
Qed.

(** Wherever an insertion into a live list splits the node of the entry a
    lookup by a non-negative index has found, the store the merge pass
    starts in is well linked, every node in it holds as many entries as it
    counts, and none is empty. *)
Lemma merge_pass_starts_well_linked ql σ oit l idx e a v after σ1 :
  live ql σ oit → lists σ !! ql = Some l → q_count l + 1 < 2 ^ 64 →
  0 ≤ idx ≤ LLONG_MAX →
  quicklistIndex ql idx initEntry σ = Done ((true, e), σ) →
  e_node e = Some a →
  insert_until_merge ql a (e_offset e) v after σ = Done (tt, σ1) →
  well_linked σ1 ql ∧
  ∃ ns, quicklistNodes σ1 ql = Some ns ∧
        Forall (λ an, node_ok an.2) ns.
Proof.
  intros Hl Hlk Hcap Hidx Hrun Ha Hins.
  destruct (live_good _ _ _ Hl) as (A & Hg & _).
  destruct (good_count _ _ _ _ Hg Hlk) as [Hqc _]. rewrite Hqc in Hcap.
  pose proof Hg as (Hst & Hok & HcapA).
  rewrite (quicklistIndex_st _ _ _ _ _ _ _ idx initEntry Hst) in Hrun.
  injection Hrun as Hrun.
  destruct (decide (0 ≤ abs_pos idx (csum A) < csum A)) as [Hin|Hout].
  2:{ pose proof (csum_nonneg _ Hok) as Hnn.
      by rewrite (index_abs_miss ql idx A (csum A) Hnn
                    ltac:(unfold LLONG_MIN; lia) Hout) in Hrun. }
  destruct (index_abs_hit ql idx A Hok HcapA Hin)
    as (A1 & b & zl & c & A2 & -> & Hr & Hi').
  unfold abs_pos in Hr, Hi'.
  rewrite (proj2 (Z.ltb_ge idx 0)) in Hr, Hi' by lia.
  rewrite Hi' in Hrun. injection Hrun as <-.
  destruct (entry_at_node ql b zl (Z.to_nat (idx - csum A1))
              (idx - csum A1)) as (Hen & _ & Heo & _).
  rewrite Hen in Ha. injection Ha as <-. rewrite Heo in Hins.
  assert (Z.to_nat (idx - csum A1) < length zl)%nat as Hlt.
  { pose proof Hok as Hok2. apply Forall_app_ok in Hok2 as [_ Hok2].
    apply Forall_cons_ok in Hok2 as [[Hcc _] _]. cbn in Hcc. lia. }
  replace (idx - csum A1) with (Z.of_nat (Z.to_nat (idx - csum A1))) in Hins
    by lia.
  destruct after.
  - pose proof (insert_until_merge_after_st _ _ _ _ _ _ _ _ _ _ v _ Hst Hok
                  Hcap Hlt) as Hwp.
    apply wp_done in Hwp as ([] & σ' & Hrun' & Hst' & Hok').
    rewrite Hrun' in Hins. injection Hins as <-. split.
    + eexists _, _. eapply st_rebase. exact Hst'.
    + eexists. split; [exact (st_nodes _ _ _ _ _ _ _ Hst')|].
      by apply recs_ok.
  - pose proof (insert_until_merge_before_st _ _ _ _ _ _ _ _ _ _ v _ Hst Hok
                  Hcap Hlt) as Hwp.
    apply wp_done in Hwp as ([] & σ' & Hrun' & Hst' & Hok').
    rewrite Hrun' in Hins. injection Hins as <-. split.
    + eexists _, _. eapply st_rebase. exact Hst'.
    + eexists. split; [exact (st_nodes _ _ _ _ _ _ _ Hst')|].
      by apply recs_ok.
Qed.

Lemma mid_insert_run :
  insert_until_merge 1%positive 2%positive 1 "x" true five =
    Done (tt, mid_insert).
Proof. vm_compute. reflexivity. Qed.

Lemma well_linked_mid_insert : well_linked mid_insert 1%positive.
Proof.
  destruct (live_good _ _ _ live_five) as (A & Hg & _).
  pose proof Hg as (Hst & Hok & Hcap).
  assert (A = [(2%positive, ([ZStr "a"; ZStr "b"; ZStr "c"; ZStr "d"], 4));
               (3%positive, ([ZStr "e"], 1))]) as ->.
  { apply (good_nodes _ _ _
             [(2%positive, mkNode None (Some 3%positive)
                             [ZStr "a"; ZStr "b"; ZStr "c"; ZStr "d"] 4);
              (3%positive, mkNode (Some 2%positive) None [ZStr "e"] 1)] Hg).
    vm_compute. reflexivity. }
  pose proof (insert_until_merge_after_st _ _ _ _ [] _ _ _ _ _ "x" 1 Hst Hok
                ltac:(cbn; lia) ltac:(cbn; lia)) as Hwp.
  apply wp_done in Hwp as ([] & σ' & Hrun & Hst' & _).
  change (Z.of_nat 1) with 1 in Hrun. rewrite mid_insert_run in Hrun.
  injection Hrun as <-. eexists _, _. eapply st_rebase. exact Hst'.
Qed.

(** [mid_insert] is where the insertion calls the merge pass: the call
    [quicklistInsertAfter] on [five] is the merge pass around node 2 and the
    increment of the total, run from [mid_insert].  The total there is 5
    while the nodes hold 6 entries, so the store is not one a client sees
    between two calls. *)
Lemma mid_insert_call_site :
  match quicklistIndex 1%positive 1 initEntry five with
  | Done ((found, e), σ) =>
      found = true ∧ σ = five ∧
      quicklistInsertAfter 1%positive 4 e "x" five =
        (_quicklistMergeNodes 1%positive 4 2%positive;;
         l ← getList 1%positive;
         setList 1%positive (set_qcount l (wrap64 (q_count l + 1))))
          mid_insert
  | _ => False
  end ∧
  chain_of <$> quicklistNodes mid_insert 1%positive =
    Some [(2%positive, ([ZStr "a"; ZStr "b"], 2));
          (4%positive, ([ZStr "x"; ZStr "c"; ZStr "d"], 3));
          (3%positive, ([ZStr "e"], 1))] ∧
  q_count <$> lists mid_insert !! 1%positive = Some 5 ∧
  ql_invariants mid_insert 1%positive = false.
Proof. vm_compute. done. Qed.

(** ** C6: the target of a merge *)

(** C6, counterexample: two neighbours with one entry each; the merge
    returns the right node, which now holds both entries. *)
Lemma merge_tie_keeps_right :
  match (ql ← quicklistCreate;
         quicklistPushTail ql 1 "a";; quicklistPushTail ql 1 "b";;
         t ← _quicklistZiplistMerge ql 2%positive 3%positive;
         mret (ql, t)) emptyMem with
  | Done ((ql, t), σ) =>
      t = Some 3%positive ∧ t ≠ Some 2%positive ∧
      chain_of <$> quicklistNodes σ ql =
        Some [(3%positive, ([ZStr "a"; ZStr "b"], 2))]
  | _ => False
  end.
Proof. vm_compute. split; [done|]. split; [discriminate|done]. Qed.

Lemma merge_abs_exact A1 a za ca b zb cb A2 cnt :
  entry_ok (a, (za, ca)) → entry_ok (b, (zb, cb)) → ca + cb ≤ INT_MAX →
  0 ≤ cnt < 2 ^ 64 →
  merge_abs A1 a za ca b zb cb A2 cnt =
    (Some (if ca >? cb then a else b),
     A1 ++ (if ca >? cb then (a, (za ++ (reenc <$> zb), ca + cb))
            else (b, ((reenc <$> za) ++ zb, ca + cb))) :: A2,
     cnt).
Proof.
  unfold entry_ok, INT_MAX. cbn [fst snd]. intros [Ha Ha'] [Hb Hb'] Hs Hc.
  unfold merge_abs.
  rewrite (proj2 (Z.eqb_neq ca 0)) by lia.
  rewrite (proj2 (Z.eqb_neq cb 0)) by lia. cbn [orb].
  destruct (ca >? cb).
  - rewrite <- Hb. rewrite Z.sub_diag. rewrite (wrap32_small 0) by lia.
    rewrite Z.sub_0_r, wrap64_id by lia. by rewrite wrap32_small by lia.
  - rewrite <- Ha. rewrite Z.sub_diag. rewrite (wrap32_small 0) by lia.
    rewrite Z.sub_0_r, wrap64_id by lia. rewrite wrap32_small by lia.
    by rewrite (Z.add_comm cb ca).
Qed.

Lemma chain_of_app N1 N2 : chain_of (N1 ++ N2) = chain_of N1 ++ chain_of N2.
Proof. apply fmap_app. Qed.

Lemma well_linked_chain σ ql ns :
  well_linked σ ql → quicklistNodes σ ql = Some ns →
  ∃ cnt, st σ (chain_of ns).*1 σ ql (chain_of ns) cnt None.
Proof.
  intros (A & cnt & Hst) Hns. exists cnt.
  rewrite (st_nodes _ _ _ _ _ _ _ Hst) in Hns. injection Hns as <-.
  by rewrite chain_of_recs.
Qed.

(** C6, amended: wherever list [ql] is a well-linked chain - between two
    calls as well as inside the insertion that runs the merge pass -
    merging the neighbours [a] (left) and [b] (right), both with a count
    other than 0, keeps the node with the larger count, and the right node
    [b] when the counts are equal; the kept node receives the entries of
    the other one, re-encoded by the codec, on the side the other one was,
    its count grows by one for each of them, and the other node leaves the
    chain. *)
Theorem quicklistZiplistMerge_target ql σ N1 a na b nb N2 :
  well_linked σ ql →
  quicklistNodes σ ql = Some (N1 ++ (a, na) :: (b, nb) :: N2) →
  0 < n_count na < 2 ^ 32 → 0 < n_count nb < 2 ^ 32 →
  ∃ σ',
    _quicklistZiplistMerge ql a b σ =
      Done (Some (if n_count na >? n_count nb then a else b), σ') ∧
    chain_of <$> quicklistNodes σ' ql =
      Some (chain_of N1 ++
            (if n_count na >? n_count nb
             then (a, (n_zl na ++ (reenc <$> n_zl nb),
                       wrap32 (n_count na + Z.of_nat (length (n_zl nb)))))
             else (b, ((reenc <$> n_zl na) ++ n_zl nb,
                       wrap32 (n_count nb + Z.of_nat (length (n_zl na))))))
            :: chain_of N2).
Proof.
  intros Hwl Hns Ha Hb.
  destruct (well_linked_chain _ _ _ Hwl Hns) as (cnt & Hst).
  rewrite chain_of_app in Hst. cbn [chain_of fmap list_fmap fst snd] in Hst.
  fold (chain_of N2) in Hst.
  pose proof (quicklistZiplistMerge_st _ _ _ _ _ _ _ _ _ _ _ _ _ _ Hst
                ltac:(lia) ltac:(lia)) as Hwp.
  unfold merge_abs in Hwp.
  rewrite (proj2 (Z.eqb_neq (n_count na) 0)) in Hwp by lia.
  rewrite (proj2 (Z.eqb_neq (n_count nb) 0)) in Hwp by lia.
  cbn [orb] in Hwp.
  apply wp_done in Hwp as (r & σ' & Hrun & Hr & Hst').
  exists σ'. destruct (n_count na >? n_count nb); cbn [fst snd] in Hr, Hst';
    subst r; (split; [done|]);
    rewrite (st_nodes _ _ _ _ _ _ _ Hst'); cbn; by rewrite chain_of_recs.
Qed.

Lemma quicklistZiplistMerge_target_witness :
  ∃ σ',
    _quicklistZiplistMerge 1%positive 4%positive 3%positive mid_insert =
      Done (Some 4%positive, σ') ∧
    chain_of <$> quicklistNodes σ' 1%positive =
      Some [(2%positive, ([ZStr "a"; ZStr "b"], 2));
            (4%positive, ([ZStr "x"; ZStr "c"; ZStr "d"; ZStr "e"], 4))].
Proof.
  apply (quicklistZiplistMerge_target 1%positive mid_insert
           [(2%positive, mkNode None (Some 4%positive) [ZStr "a"; ZStr "b"] 2)]
           4%positive
           (mkNode (Some 2%positive) (Some 3%positive)
                   [ZStr "x"; ZStr "c"; ZStr "d"] 3)
           3%positive (mkNode (Some 4%positive) None [ZStr "e"] 1) []).
  - apply well_linked_mid_insert.
  - vm_compute. reflexivity.
  - cbn. lia.
  - cbn. lia.
Defined.

(** ** C8: duplication *)

Lemma good_header σ ql A :
  good σ ql A →
  lists σ !! ql = Some (mkList (head A.*1) (last A.*1) (Z.of_nat (length A))
                               (csum A)) ∧
  quicklistNodes σ ql = Some (recs None A).
Proof.
  intros (Hst & _). split; [by eapply st_header|by eapply st_nodes].
Qed.

Lemma good_entries σ ql A :
  good σ ql A → quicklistEntries σ ql = Some (concat (A.*2.*1)).
Proof.
  intros Hg. unfold quicklistEntries.
  rewrite (proj2 (good_header _ _ _ Hg)). cbn. by rewrite recs_entries.
Qed.

Lemma csum_snd (A B : chain) : A.*2 = B.*2 → csum A = csum B.
Proof.
  revert B. induction A as [|[a p] A IH]; intros [|[b p'] B] H; try done.
  cbn in H. injection H as -> H. rewrite !csum_cons. cbn. by rewrite (IH B).
Qed.

Lemma good_other q ql σ σ' A B B' :
  good σ ql A → good σ q B → good σ' q B' → ql ≠ q →
  (∀ a, a ∈ A.*1 → a ∉ B.*1) → frame q B.*1 B'.*1 σ σ' →
  good σ' ql A ∧ (∀ a, a ∈ A.*1 → a ∉ B'.*1).
Proof.
  intros HA HB HB' Hne Hdisj Hfr. pose proof HA as (Hst & Hok & Hcap).
  split.
  - split; [|done]. eapply st_transport; [exact Hst| | |].
    + destruct HB' as (HstB' & _). by eapply st_heap.
    + intros a Ha. apply (fr_nodes _ _ _ _ _ Hfr); [by apply Hdisj|].
      by eapply st_below.
    + apply (fr_lists _ _ _ _ _ Hfr); [done|]. by eapply st_list_below.
  - intros a Ha Hb'. destruct (fr_chain _ _ _ _ _ Hfr a Hb') as [Hb|Hb].
    + by apply (Hdisj a).
    + pose proof (st_below _ _ _ _ _ _ _ a Hst Ha). lia.
Qed.

Lemma acts_other q ql s s' :
  acts q s s' → ∀ A B,
    good s.1 ql A → good s.1 q B → oiter_ok s.1 q B s.2 → ql ≠ q →
    (∀ a, a ∈ A.*1 → a ∉ B.*1) →
    ∃ B', good s'.1 ql A ∧ good s'.1 q B' ∧ oiter_ok s'.1 q B' s'.2 ∧
          (∀ a, a ∈ A.*1 → a ∉ B'.*1).
Proof.
  induction 1 as [s|s s' s'' _ IH Hact]; intros A B HA HB Hit Hne Hd.
  - by exists B.
  - destruct (IH A B HA HB Hit Hne Hd) as (B' & HA' & HB' & Hit' & Hd').
    destruct s' as [σ' oit'], s'' as [σ'' oit'']. cbn [fst snd] in *.
    destruct (act_good _ _ _ _ _ _ HB' Hit' Hact) as (C & HC & HitC & Hfr).
    destruct (good_other _ _ _ _ _ _ _ HA' HB' HC Hne Hd' Hfr) as [HA'' Hd''].
    by exists C.
Qed.

(** Duplication of a live list: the call returns a new list with the same
    entries in the same order, the same total and the same length; the
    original list and its nodes are as they were, and they stay so whatever
    the client then does to the copy. *)
Theorem quicklistDup_independent ql σ oit :
  live ql σ oit →
  ∃ copy σ',
    quicklistDup ql σ = Done (Some copy, σ') ∧ copy ≠ ql ∧
    quicklistEntries σ' copy = quicklistEntries σ ql ∧
    q_count <$> lists σ' !! copy = q_count <$> lists σ !! ql ∧
    q_len <$> lists σ' !! copy = q_len <$> lists σ !! ql ∧
    lists σ' !! ql = lists σ !! ql ∧
    quicklistNodes σ' ql = quicklistNodes σ ql ∧
    ∀ s, acts copy (σ', None) s →
         lists s.1 !! ql = lists σ !! ql ∧
         quicklistNodes s.1 ql = quicklistNodes σ ql.
Proof.
  intros Hlive. destruct (live_good _ _ _ Hlive) as (A & Hg & _).
  pose proof Hg as (Hst & Hok & Hcap).
  pose proof (quicklistDup_st _ _ _ _ _ Hst Hok Hcap) as Hwp.
  apply wp_done in Hwp as (r & σ' & Hrun & -> & Hk & B & HB & HstB).
  assert (csum B = csum A) as HsB.
  { by apply csum_snd. }
  assert (Forall entry_ok B) as HokB.
  { clear -HB Hok. revert A HB Hok.
    induction B as [|[b p] B IH]; intros [|[a p'] A] HB Hok; try done.
    cbn in HB. injection HB as -> HB. apply Forall_cons in Hok as [Ha Hok].
    constructor; [done|]. by eapply IH. }
  assert (good σ' (brk σ) B) as HgB.
  { eapply good_intro; [exact HstB|done|done|lia]. }
  assert (good σ' ql A) as HgA.
  { eapply good_kept; [exact Hg|exact Hk|]. by eapply st_heap. }
  assert (brk σ ≠ ql) as Hne.
  { intros E. pose proof (st_list_below _ _ _ _ _ _ _ Hst). lia. }
  assert (∀ a, a ∈ A.*1 → a ∉ B.*1) as Hdisj.
  { intros a Ha Hb.
    destruct (fr_chain _ _ _ _ _ (st_frame_chain _ _ _ _ _ _ HstB) a Hb)
      as [Hn|Hn]; [by apply elem_of_nil in Hn|].
    pose proof (st_below _ _ _ _ _ _ _ a Hst Ha). cbn in Hn. lia. }
  destruct (good_header _ _ _ Hg) as [HlA HnA].
  destruct (good_header _ _ _ HgA) as [HlA' HnA'].
  destruct (good_header _ _ _ HgB) as [HlB _].
  exists (brk σ), σ'. split; [done|]. split; [done|].
  split; [|split; [|split; [|split; [|split]]]].
  - rewrite (good_entries _ _ _ HgB), (good_entries _ _ _ Hg). by rewrite HB.
  - rewrite HlB, HlA. cbn. by rewrite HsB.
  - rewrite HlB, HlA. cbn.
    by rewrite <- (length_fmap snd B), HB, length_fmap.
  - by rewrite HlA', HlA.
  - by rewrite HnA', HnA.
  - intros s Hacts.
    destruct (acts_other _ ql _ _ Hacts A B HgA HgB I (not_eq_sym Hne) Hdisj)
      as (B' & HA' & _).
    destruct (good_header _ _ _ HA') as [Hl' Hn']. by rewrite Hl', Hn', HlA, HnA.
Qed.

Lemma quicklistDup_independent_witness :
  ∃ copy σ',
    quicklistDup 1%positive demo = Done (Some copy, σ') ∧
    copy ≠ 1%positive ∧
    quicklistEntries σ' copy = quicklistEntries demo 1%positive ∧
    q_count <$> lists σ' !! copy = q_count <$> lists demo !! 1%positive ∧
    q_len <$> lists σ' !! copy = q_len <$> lists demo !! 1%positive ∧
    lists σ' !! 1%positive = lists demo !! 1%positive ∧
    quicklistNodes σ' 1%positive = quicklistNodes demo 1%positive ∧
    ∀ s, acts copy (σ', None) s →
         lists s.1 !! 1%positive = lists demo !! 1%positive ∧
         quicklistNodes s.1 1%positive = quicklistNodes demo 1%positive.
Proof.
  apply (quicklistDup_independent 1%positive demo None). apply live_demo.
Defined.

(** C8, what the code does instead: "a", "b", "c" in one full node (fill
    factor 3); the insertion of "x" after the entry found by the index -2
    splits the node, loses "c" and leaves the list with a total of 4 over
    two nodes with counts 2 and 1.  [quicklistDup] adds up the node counts:
    the copy has the same three entries and a total of 3, not 4. *)
Lemma dup_total_differs_after_reverse_insert :
  match (ql ← quicklistCreate;
         quicklistPushTail ql 3 "a";; quicklistPushTail ql 3 "b";;
         quicklistPushTail ql 3 "c";;
         '(_, e) ← quicklistIndex ql (-2) initEntry;
         quicklistInsertAfter ql 3 e "x";;
         copy ← quicklistDup ql;
         mret (ql, copy)) emptyMem with
  | Done ((ql, Some copy), σ) =>
      q_count <$> lists σ !! ql = Some 4 ∧
      q_count <$> lists σ !! copy = Some 3 ∧
      quicklistEntries σ ql = Some [ZStr "a"; ZStr "b"; ZStr "x"] ∧
      quicklistEntries σ copy = Some [ZStr "a"; ZStr "b"; ZStr "x"] ∧
      chain_of <$> quicklistNodes σ ql =
        Some [(2%positive, ([ZStr "a"; ZStr "b"], 2));
              (3%positive, ([ZStr "x"], 1))]
  | _ => False
  end.
Proof. vm_compute. done. Qed.

(** ** The entry sequence of a live list *)

Lemma st_obs_entries σ0 X0 σ ql A cnt F :
  st σ0 X0 σ ql A cnt F → quicklistEntries σ ql = Some (concat (A.*2.*1)).
Proof.
  intros Hst. unfold quicklistEntries.
  rewrite (st_nodes _ _ _ _ _ _ _ Hst). cbn. by rewrite recs_entries.
Qed.

Lemma csum_entries A :
  Forall entry_ok A → csum A = Z.of_nat (length (concat (A.*2.*1))).
Proof.
  induction A as [|[a [zl c]] A IH]; intros Hok; [done|].
  apply Forall_cons in Hok as [[Hc _] Hok]. cbn [fst snd] in Hc.
  rewrite csum_cons. cbn [fmap list_fmap fst snd concat].
  rewrite length_app, IH by done. lia.
Qed.

Lemma live_view ql σ oit es :
  live ql σ oit → quicklistEntries σ ql = Some es →
  ∃ A, good σ ql A ∧ oiter_ok σ ql A oit ∧ es = concat (A.*2.*1) ∧
       csum A = Z.of_nat (length es).
Proof.
  intros Hl Hes. destruct (live_good _ _ _ Hl) as (A & Hg & Hit).
  exists A. pose proof Hg as (Hst & Hok & _).
  rewrite (st_obs_entries _ _ _ _ _ _ _ Hst) in Hes. injection Hes as <-.
  split; [done|]. split; [done|]. split; [done|]. by apply csum_entries.
Qed.

Lemma live_entries_demo :
  live 1%positive demo None ∧
  quicklistEntries demo 1%positive = Some [ZStr "a"; ZStr "b"; ZStr "c"].
Proof. split; [apply live_demo|]. vm_compute. reflexivity. Qed.

(** X1: On a live list the cached total is the number of entries held in the
    nodes, the cached length is the number of nodes, and the count of every
    node is the number of entries of its block, between 1 and [INT_MAX]. *)
Theorem live_counts ql σ oit :
  live ql σ oit →
  ∃ l ns es,
    lists σ !! ql = Some l ∧ quicklistNodes σ ql = Some ns ∧
    quicklistEntries σ ql = Some es ∧
    q_count l = Z.of_nat (length es) ∧ q_len l = Z.of_nat (length ns) ∧
    Forall (λ an, n_count an.2 = Z.of_nat (length (n_zl an.2)) ∧
                  0 < n_count an.2 ≤ INT_MAX) ns.
Proof.
  intros Hl. destruct (live_good _ _ _ Hl) as (A & Hg & _).
  pose proof Hg as (Hst & Hok & _).
  exists (mkList (head A.*1) (last A.*1) (Z.of_nat (length A)) (csum A)),
         (recs None A), (concat (A.*2.*1)).
  split; [by eapply st_header|]. split; [by eapply st_nodes|].
  split; [by eapply st_obs_entries|]. cbn [q_count q_len].
  split; [by apply csum_entries|].
  split.
  { f_equal. rewrite <- (length_fmap fst (recs None A)), recs_fst.
    by rewrite length_fmap. }
  clear -Hok. generalize (@None addr).
  induction A as [|[a [zl c]] A IH]; intros prev; [by constructor|].
  apply Forall_cons in Hok as [Ha Hok]. cbn [recs]. constructor; [|by apply IH].
  exact Ha.
Qed.

Lemma live_counts_witness :
  ∃ l ns es,
    lists demo !! 1%positive = Some l ∧
    quicklistNodes demo 1%positive = Some ns ∧
    quicklistEntries demo 1%positive = Some es ∧
    q_count l = Z.of_nat (length es) ∧ q_len l = Z.of_nat (length ns) ∧
    Forall (λ an, n_count an.2 = Z.of_nat (length (n_zl an.2)) ∧
                  0 < n_count an.2 ≤ INT_MAX) ns.
Proof. apply (live_counts 1%positive demo None). apply live_demo. Defined.

(** X2: [quicklistCount] on a live list with fewer than 2^32 entries returns
    the number of entries held in the nodes and changes nothing. *)
Theorem quicklistCount_entries ql σ oit es :
  live ql σ oit → quicklistEntries σ ql = Some es →
  Z.of_nat (length es) < 2 ^ 32 →
  quicklistCount ql σ = Done (Z.of_nat (length es), σ).
Proof.
  intros Hl Hes Hsmall.
  destruct (live_view _ _ _ _ Hl Hes) as (A & (Hst & _) & _ & _ & Hc).
  unfold quicklistCount, mbind, M_bind, getList.
  rewrite (st_header _ _ _ _ _ _ _ Hst). cbn [q_count].
  unfold mret, M_ret. rewrite Hc. by rewrite wrap32_small by lia.
Qed.

Lemma quicklistCount_entries_witness :
  quicklistCount 1%positive demo = Done (3, demo).
Proof.
  apply (quicklistCount_entries 1%positive demo None
           [ZStr "a"; ZStr "b"; ZStr "c"]).
  - apply live_demo.
  - vm_compute. reflexivity.
  - cbn. lia.
Defined.

(** ** Pushes and ingestion, on the entry sequence *)

Lemma push_head_abs_entries fill v new A :
  concat ((push_head_abs fill v new A).*2.*1) = zipEntry v :: concat (A.*2.*1).
Proof.
  destruct A as [|[h [zl c]] rest]; [done|]. cbn [push_head_abs].
  by destruct (c <? fill).
Qed.

Lemma concat_snoc {T} (L : list (list T)) (x : list T) :
  concat (L ++ [x]) = concat L ++ x.
Proof. by rewrite concat_app; cbn; rewrite app_nil_r. Qed.

Lemma chain_snoc_entries (A : chain) a zl c :
  concat ((A ++ [(a, (zl, c))]).*2.*1) = concat (A.*2.*1) ++ zl.
Proof. rewrite !fmap_app. cbn [fmap list_fmap fst snd]. apply concat_snoc. Qed.

Lemma push_tail_abs_entries fill v new A :
  concat ((push_tail_abs fill v new A).*2.*1) =
    concat (A.*2.*1) ++ [zipEntry v].
Proof.
  unfold push_tail_abs. destruct (last A) as [[t [zl c]]|] eqn:El.
  - apply last_Some in El as [A' ->].
    rewrite removelast_last. destruct (c <? fill).
    + rewrite !chain_snoc_entries. by rewrite app_assoc.
    + by rewrite !chain_snoc_entries.
  - apply last_None in El as ->. done.
Qed.

(** X3: [quicklistPushHead] on a live list completes, returns the list, puts
    the encoded value in front of the entry sequence and adds one to the
    total. *)
Theorem quicklistPushHead_entries ql σ oit es fill v :
  live ql σ oit → quicklistEntries σ ql = Some es →
  Z.of_nat (length es) + 1 < 2 ^ 64 →
  ∃ σ', quicklistPushHead ql fill v σ = Done (ql, σ') ∧
        quicklistEntries σ' ql = Some (zipEntry v :: es) ∧
        q_count <$> lists σ' !! ql = Some (Z.of_nat (length es) + 1).
Proof.
  intros Hl Hes Hcap.
  destruct (live_view _ _ _ _ Hl Hes) as (A & Hg & _ & -> & Hc).
  pose proof Hg as (Hst & Hok & _).
  pose proof (length_le_csum _ Hok) as Hlen.
  pose proof (quicklistPushHead_st _ _ _ _ _ _ fill v Hst ltac:(lia)) as Hwp.
  apply wp_done in Hwp as (r & σ' & Hrun & -> & Hst').
  exists σ'. split; [done|].
  rewrite (st_obs_entries _ _ _ _ _ _ _ Hst'), push_head_abs_entries.
  split; [done|]. rewrite (st_header _ _ _ _ _ _ _ Hst'). cbn.
  rewrite Hc. by rewrite wrap64_id by lia.
Qed.

Lemma quicklistPushHead_entries_witness :
  ∃ σ', quicklistPushHead 1%positive 2 "12" demo = Done (1%positive, σ') ∧
        quicklistEntries σ' 1%positive =
          Some (zipEntry "12" :: [ZStr "a"; ZStr "b"; ZStr "c"]) ∧
        q_count <$> lists σ' !! 1%positive = Some (Z.of_nat 3 + 1).
Proof.
  apply (quicklistPushHead_entries 1%positive demo None
           [ZStr "a"; ZStr "b"; ZStr "c"] 2 "12").
  - apply live_demo.
  - vm_compute. reflexivity.
  - cbn. lia.
Defined.

(** X4: [quicklistPushTail] on a live list completes, returns the list, puts
    the encoded value behind the entry sequence and adds one to the total. *)
Theorem quicklistPushTail_entries ql σ oit es fill v :
  live ql σ oit → quicklistEntries σ ql = Some es →
  Z.of_nat (length es) + 1 < 2 ^ 64 →
  ∃ σ', quicklistPushTail ql fill v σ = Done (ql, σ') ∧
        quicklistEntries σ' ql = Some (es ++ [zipEntry v]) ∧
        q_count <$> lists σ' !! ql = Some (Z.of_nat (length es) + 1).
Proof.
  intros Hl Hes Hcap.
  destruct (live_view _ _ _ _ Hl Hes) as (A & Hg & _ & -> & Hc).
  pose proof Hg as (Hst & Hok & _).
  pose proof (length_le_csum _ Hok) as Hlen.
  pose proof (quicklistPushTail_st _ _ _ _ _ _ fill v Hst ltac:(lia)) as Hwp.
  apply wp_done in Hwp as (r & σ' & Hrun & -> & Hst').
  exists σ'. split; [done|].
  rewrite (st_obs_entries _ _ _ _ _ _ _ Hst'), push_tail_abs_entries.
  split; [done|]. rewrite (st_header _ _ _ _ _ _ _ Hst'). cbn.
  rewrite Hc. by rewrite wrap64_id by lia.
Qed.

Lemma quicklistPushTail_entries_witness :
  ∃ σ', quicklistPushTail 1%positive 2 "d" demo = Done (1%positive, σ') ∧
        quicklistEntries σ' 1%positive =
          Some ([ZStr "a"; ZStr "b"; ZStr "c"] ++ [zipEntry "d"]) ∧
        q_count <$> lists σ' !! 1%positive = Some (Z.of_nat 3 + 1).
Proof.
  apply (quicklistPushTail_entries 1%positive demo None
           [ZStr "a"; ZStr "b"; ZStr "c"] 2 "d").
  - apply live_demo.
  - vm_compute. reflexivity.
  - cbn. lia.
Defined.

Lemma recs_last prev (B : chain) a z c :
  ∃ p, last (recs prev (B ++ [(a, (z, c))])) = Some (a, mkNode p None z c).
Proof.
  revert prev. induction B as [|[b [zb cb]] B IH]; intros prev.
  - by exists prev.
  - destruct (IH (Some b)) as [p Hp]. exists p. cbn [app recs].
    rewrite last_cons. by rewrite Hp.
Qed.

(** X5: [quicklistPushTailZiplist] on a live list completes and links one new
    node at the tail that holds the block as it is: the entries of the block
    follow the entry sequence, the total grows by their number and the length
    by one, also when the block is empty. *)
Theorem quicklistPushTailZiplist_entries ql σ oit l es (zl : ziplist) :
  live ql σ oit → lists σ !! ql = Some l →
  quicklistEntries σ ql = Some es →
  Z.of_nat (length zl) < 2 ^ 32 → q_len l + 1 < 2 ^ 64 →
  q_count l + Z.of_nat (length zl) < 2 ^ 64 →
  ∃ σ' ns,
    quicklistPushTailZiplist ql zl σ = Done (tt, σ') ∧
    quicklistEntries σ' ql = Some (es ++ zl) ∧
    quicklistNodes σ' ql = Some ns ∧
    n_zl <$> (snd <$> last ns) = Some zl ∧
    lists σ' !! ql =
      Some (mkList (fst <$> head ns) (fst <$> last ns) (q_len l + 1)
                   (q_count l + Z.of_nat (length zl))).
Proof.
  intros Hl Hlk Hes Hz Hcl Hcap.
  destruct (live_view _ _ _ _ Hl Hes) as (A & Hg & _ & -> & Hc).
  pose proof Hg as (Hst & Hok & Hcap').
  pose proof (csum_nonneg _ Hok) as Hnn.
  pose proof (eq_trans (eq_sym Hlk) (st_header _ _ _ _ _ _ _ Hst)) as El.
  injection El as ->. cbn [q_len q_count] in Hcl, Hcap.
  pose proof (quicklistPushTailZiplist_st _ _ _ _ _ _ zl Hst ltac:(lia)) as Hwp.
  apply wp_done in Hwp as ([] & σ' & Hrun & Hst').
  exists σ', (recs None (A ++ [(brk σ, (zl, ziplistLen zl))])).
  split; [done|].
  rewrite (st_obs_entries _ _ _ _ _ _ _ Hst'), chain_snoc_entries.
  split; [done|]. split; [by eapply st_nodes|].
  rewrite (st_header _ _ _ _ _ _ _ Hst'). cbn [q_len q_count].
  destruct (recs_last None A (brk σ) zl (ziplistLen zl)) as [p Hlast].
  split.
  { etransitivity; [exact (f_equal (λ o, n_zl <$> (snd <$> o)) Hlast)|done]. }
  f_equal. unfold ziplistLen. rewrite wrap32_small by lia.
  rewrite length_app. cbn [length]. rewrite wrap64_id by lia.
  rewrite <- (recs_fst None (A ++ [(brk σ, (zl, Z.of_nat (length zl)))])).
  rewrite fmap_last. f_equal; try lia.
  by destruct (recs None (A ++ [(brk σ, (zl, Z.of_nat (length zl)))])).
Qed.

Lemma quicklistPushTailZiplist_entries_witness :
  ∃ σ' ns,
    quicklistPushTailZiplist 1%positive [ZStr "x"; ZInt 5] demo =
      Done (tt, σ') ∧
    quicklistEntries σ' 1%positive =
      Some ([ZStr "a"; ZStr "b"; ZStr "c"] ++ [ZStr "x"; ZInt 5]) ∧
    quicklistNodes σ' 1%positive = Some ns ∧
    n_zl <$> (snd <$> last ns) = Some [ZStr "x"; ZInt 5] ∧
    lists σ' !! 1%positive =
      Some (mkList (fst <$> head ns) (fst <$> last ns) (2 + 1)
                   (3 + Z.of_nat 2)).
Proof.
  apply (quicklistPushTailZiplist_entries 1%positive demo None
           (mkList (Some 2%positive) (Some 3%positive) 2 3)
           [ZStr "a"; ZStr "b"; ZStr "c"] [ZStr "x"; ZInt 5]).
  - apply live_demo.
  - vm_compute. reflexivity.
  - vm_compute. reflexivity.
  - cbn. lia.
  - cbn. lia.
  - cbn. lia.
Defined.

(** ** Pops, on the entry sequence *)

Lemma entries_head_split (A : chain) e es :
  Forall entry_ok A → concat (A.*2.*1) = e :: es →
  ∃ a zl c A2, A = (a, (e :: zl, c)) :: A2 ∧ es = zl ++ concat (A2.*2.*1).
Proof.
  intros Hok Hes. destruct A as [|[a [zl c]] A2]; [done|].
  apply Forall_cons in Hok as [[Hc Hr] _]. cbn [fst snd] in Hc, Hr.
  destruct zl as [|e' zl]; [cbn in Hc; lia|].
  cbn in Hes. injection Hes as -> <-. by exists a, zl, c, A2.
Qed.

Lemma entries_tail_split (A : chain) e es :
  Forall entry_ok A → concat (A.*2.*1) = es ++ [e] →
  ∃ A1 a zl c, A = A1 ++ [(a, (zl ++ [e], c))] ∧
               es = concat (A1.*2.*1) ++ zl.
Proof.
  intros Hok Hes. destruct (decide (A = [])) as [->|HA].
  { by destruct es. }
  destruct (chain_tail_split A Hok HA) as (A1 & a & zl & e' & c & ->).
  rewrite chain_snoc_entries, app_assoc in Hes.
  apply app_inj_tail in Hes as [<- ->]. by exists A1, a, zl, c.
Qed.

(** X6: [quicklistPop] at the head of a non-empty live list returns 1, removes
    exactly the first entry and takes one off the total. An integer entry
    comes back in [sval] with [data] null; for a byte string [sz] is its
    length and [data] is a fresh allocation of that size, holding what the
    allocator left there. *)
Theorem quicklistPop_head_entries ql σ oit e es out :
  live ql σ oit → quicklistEntries σ ql = Some (e :: es) →
  ∃ σ', quicklistPop ql QUICKLIST_HEAD out σ =
          Done ((1, pop_out (uninit σ) e), σ') ∧
        quicklistEntries σ' ql = Some es ∧
        q_count <$> lists σ' !! ql = Some (Z.of_nat (length es)).
Proof.
  intros Hl Hes.
  destruct (live_view _ _ _ _ Hl Hes) as (A & Hg & _ & HA & Hc).
  pose proof Hg as (Hst & Hok & Hcap).
  destruct (entries_head_split A e es Hok (eq_sym HA))
    as (a & zl & c & A2 & -> & ->).
  assert (csum ((a, (e :: zl, c)) :: A2) ≠ 0) as Hne.
  { rewrite Hc. cbn [length]. lia. }
  pose proof (quicklistPop_head_st _ _ _ _ _ _ _ _ _ _ out Hst Hne) as Hwp.
  apply wp_done in Hwp as (r & σ' & Hrun & -> & Hst').
  destruct (del_index_good [] a (e :: zl) c A2 _ 0%nat Hok eq_refl Hcap
              ltac:(cbn; lia)) as (Hok' & Hc' & Hs').
  exists σ'. split; [done|].
  rewrite (st_obs_entries _ _ _ _ _ _ _ Hst').
  rewrite (st_header _ _ _ _ _ _ _ Hst'). cbn [fmap option_fmap option_map q_count].
  apply Forall_cons in Hok as [[Hca Hra] _]. cbn [fst snd length] in Hca, Hra.
  split.
  - f_equal. destruct (wrap32 (c - 1) =? 0) eqn:E; [|done].
    apply Z.eqb_eq in E. rewrite wrap32_small in E by (unfold INT_MAX in Hra; lia).
    destruct zl; [done|]. cbn [length] in Hca. lia.
  - f_equal. etransitivity; [exact Hc'|].
    etransitivity; [exact (f_equal (λ z, z - 1) Hc)|]. cbn [length]. lia.
Qed.

Lemma quicklistPop_head_entries_witness :
  ∃ σ', quicklistPop 1%positive QUICKLIST_HEAD (None, 0, 0) demo =
          Done ((1, pop_out (uninit demo) (ZStr "a")), σ') ∧
        quicklistEntries σ' 1%positive = Some [ZStr "b"; ZStr "c"] ∧
        q_count <$> lists σ' !! 1%positive = Some (Z.of_nat 2).
Proof.
  apply (quicklistPop_head_entries 1%positive demo None (ZStr "a")
           [ZStr "b"; ZStr "c"] (None, 0, 0)).
  - apply live_demo.
  - vm_compute. reflexivity.
Defined.

(** X7: [quicklistPop] at the tail of a non-empty live list returns 1, removes
    exactly the last entry and takes one off the total; the entry comes back
    as it does from the head. *)
Theorem quicklistPop_tail_entries ql σ oit e es out :
  live ql σ oit → quicklistEntries σ ql = Some (es ++ [e]) →
  ∃ σ', quicklistPop ql QUICKLIST_TAIL out σ =
          Done ((1, pop_out (uninit σ) e), σ') ∧
        quicklistEntries σ' ql = Some es ∧
        q_count <$> lists σ' !! ql = Some (Z.of_nat (length es)).
Proof.
  intros Hl Hes.
  destruct (live_view _ _ _ _ Hl Hes) as (A & Hg & _ & HA & Hc).
  pose proof Hg as (Hst & Hok & Hcap).
  destruct (entries_tail_split A e es Hok (eq_sym HA))
    as (A1 & a & zl & c & -> & ->).
  assert (csum (A1 ++ [(a, (zl ++ [e], c))]) ≠ 0) as Hne.
  { rewrite Hc. rewrite length_app. cbn [length]. lia. }
  pose proof (quicklistPop_tail_st _ _ _ _ _ _ _ _ _ _ out Hst Hne) as Hwp.
  apply wp_done in Hwp as (r & σ' & Hrun & -> & Hst').
  destruct (del_index_good A1 a (zl ++ [e]) c [] _ (length zl) Hok eq_refl
              Hcap ltac:(rewrite length_app; cbn; lia)) as (Hok' & Hc' & Hs').
  exists σ'. split; [done|].
  rewrite (st_obs_entries _ _ _ _ _ _ _ Hst').
  rewrite (st_header _ _ _ _ _ _ _ Hst').
  cbn [fmap option_fmap option_map q_count].
  apply Forall_app_ok in Hok as [_ Hok].
  apply Forall_cons_ok in Hok as [[Hca Hra] _].
  cbn [fst snd] in Hca, Hra. rewrite length_app in Hca. cbn [length] in Hca.
  split.
  - f_equal. destruct (wrap32 (c - 1) =? 0) eqn:E.
    + apply Z.eqb_eq in E.
      rewrite wrap32_small in E by (unfold INT_MAX in Hra; lia).
      destruct zl; [by rewrite app_nil_r|]. cbn [length] in Hca. lia.
    + by rewrite chain_snoc_entries.
  - f_equal. etransitivity; [exact Hc'|].
    etransitivity; [exact (f_equal (λ z, z - 1) Hc)|].
    rewrite length_app. cbn [length]. lia.
Qed.

Lemma quicklistPop_tail_entries_witness :
  ∃ σ', quicklistPop 1%positive QUICKLIST_TAIL (None, 0, 0) demo =
          Done ((1, pop_out (uninit demo) (ZStr "c")), σ') ∧
        quicklistEntries σ' 1%positive = Some [ZStr "a"; ZStr "b"] ∧
        q_count <$> lists σ' !! 1%positive = Some (Z.of_nat 2).
Proof.
  apply (quicklistPop_tail_entries 1%positive demo None (ZStr "c")
           [ZStr "a"; ZStr "b"] (None, 0, 0)).
  - apply live_demo.
  - vm_compute. reflexivity.
Defined.

(** X8: [quicklistPop] returns 0 and leaves the store as it is when the list
    is empty, whatever [where] is, and when [where] names neither end; in the
    first case the caller's three results are not written, in the second they
    are reset. *)
Theorem quicklistPop_nothing ql σ l where_ out :
  lists σ !! ql = Some l →
  q_count l = 0 ∨ (where_ ≠ QUICKLIST_HEAD ∧ where_ ≠ QUICKLIST_TAIL) →
  quicklistPop ql where_ out σ =
    Done ((0, if q_count l =? 0 then out else (None, 0, -123456789)), σ).
Proof.
  intros Hl [H0|[Hh Ht]].
  - rewrite H0. cbn. by eapply quicklistPop_none.
  - destruct (q_count l =? 0) eqn:E.
    + apply Z.eqb_eq in E. by eapply quicklistPop_none.
    + apply Z.eqb_neq in E. by eapply quicklistPop_other.
Qed.

Lemma quicklistPop_nothing_witness :
  quicklistPop 1%positive 7 (Some "x"%string, 1, 2) demo =
    Done ((0, (None, 0, -123456789)), demo).
Proof.
  apply (quicklistPop_nothing 1%positive demo
           (mkList (Some 2%positive) (Some 3%positive) 2 3) 7
           (Some "x"%string, 1, 2)).
  - vm_compute. reflexivity.
  - right. unfold QUICKLIST_HEAD, QUICKLIST_TAIL. lia.
Defined.

(** ** Lookups and replacement, on the entry sequence *)

Lemma entries_lookup (A1 : chain) a (zl : ziplist) c (A2 : chain) p :
  Forall entry_ok (A1 ++ (a, (zl, c)) :: A2) →
  csum A1 ≤ p < csum A1 + c →
  concat ((A1 ++ (a, (zl, c)) :: A2).*2.*1) !! Z.to_nat p =
    zl !! Z.to_nat (p - csum A1) ∧
  (Z.to_nat (p - csum A1) < length zl)%nat.
Proof.
  intros Hok Hp. apply Forall_app_ok in Hok as [Hok1 Hok].
  apply Forall_cons_ok in Hok as [[Hc Hr] _]. cbn [fst snd] in Hc, Hr.
  pose proof (csum_entries A1 Hok1) as H1.
  pose proof (csum_nonneg A1 Hok1) as Hnn.
  rewrite !fmap_app, concat_app. cbn [fmap list_fmap fst snd concat].
  split; [|lia].
  rewrite lookup_app_r by lia. rewrite lookup_app_l by lia.
  f_equal. lia.
Qed.

Lemma entry_at_holds ql a (zl : ziplist) i off x :
  zl !! i = Some x → entry_holds (entry_at ql a zl i off) x.
Proof.
  intros Hx. unfold entry_at, ziplistGet. rewrite Hx. by destruct x.
Qed.

(** X9: [quicklistIndex] on a live list with an index in range, counted from
    the head when non-negative and from the tail when negative, reports found,
    changes nothing, and hands back the entry at that position of the entry
    sequence: its bytes and their length, or its integer. *)
Theorem quicklistIndex_entry ql σ oit es idx e0 :
  live ql σ oit → quicklistEntries σ ql = Some es →
  - Z.of_nat (length es) ≤ idx < Z.of_nat (length es) →
  ∃ e x, quicklistIndex ql idx e0 σ = Done ((true, e), σ) ∧
         es !! Z.to_nat (abs_pos idx (Z.of_nat (length es))) = Some x ∧
         entry_holds e x.
Proof.
  intros Hl Hes Hidx.
  destruct (live_view _ _ _ _ Hl Hes) as (A & Hg & _ & -> & Hc).
  pose proof Hg as (Hst & Hok & Hcap).
  rewrite <- Hc in *.
  assert (0 ≤ abs_pos idx (csum A) < csum A) as Hp.
  { unfold abs_pos. destruct (idx <? 0) eqn:E;
      [apply Z.ltb_lt in E|apply Z.ltb_ge in E]; lia. }
  destruct (index_abs_hit ql idx A Hok Hcap Hp)
    as (A1 & a & zl & c & A2 & -> & Hin & Habs).
  destruct (entries_lookup A1 a zl c A2 _ Hok Hin) as [Hlk Hlt].
  destruct (lookup_lt_is_Some_2 zl _ Hlt) as [x Hx].
  eexists _, x. split; [|split].
  - rewrite (quicklistIndex_st _ _ _ _ _ _ _ idx e0 Hst). by rewrite Habs.
  - etransitivity; [exact Hlk|exact Hx].
  - by apply entry_at_holds.
Qed.

Lemma quicklistIndex_entry_witness :
  ∃ e x, quicklistIndex 1%positive (-1) initEntry demo = Done ((true, e), demo) ∧
         [ZStr "a"; ZStr "b"; ZStr "c"] !! Z.to_nat (abs_pos (-1) (Z.of_nat 3))
           = Some x ∧
         entry_holds e x.
Proof.
  apply (quicklistIndex_entry 1%positive demo None
           [ZStr "a"; ZStr "b"; ZStr "c"] (-1) initEntry).
  - apply live_demo.
  - vm_compute. reflexivity.
  - cbn. lia.
Defined.

Lemma ziplistInsert_delete (zl : ziplist) i data :
  (i < length zl)%nat →
  ziplistInsert (delete i zl) i data = <[i := zipEntry data]> zl.
Proof.
  unfold ziplistInsert. revert i.
  induction zl as [|x zl IH]; intros [|i] Hi; cbn in Hi; try lia.
  - cbn. by rewrite drop_0.
  - cbn. f_equal. apply IH. lia.
Qed.

Lemma entries_insert (A1 : chain) a (zl : ziplist) c (A2 : chain) p x :
  Forall entry_ok (A1 ++ (a, (zl, c)) :: A2) →
  csum A1 ≤ p < csum A1 + c →
  concat ((A1 ++ (a, (<[Z.to_nat (p - csum A1) := x]> zl, c)) :: A2).*2.*1) =
    <[Z.to_nat p := x]> (concat ((A1 ++ (a, (zl, c)) :: A2).*2.*1)).
Proof.
  intros Hok Hp. apply Forall_app_ok in Hok as [Hok1 Hok].
  apply Forall_cons_ok in Hok as [[Hc Hr] _]. cbn [fst snd] in Hc, Hr.
  pose proof (csum_entries A1 Hok1) as H1.
  pose proof (csum_nonneg A1 Hok1) as Hnn.
  rewrite !fmap_app, !concat_app. cbn [fmap list_fmap fst snd concat].
  rewrite insert_app_r_alt by lia. f_equal.
  rewrite insert_app_l by lia. f_equal. f_equal. lia.
Qed.

(** X10: [quicklistReplaceAtIndex] on a live list with an index in range
    returns 1 and puts the encoded value in the place of the entry at that
    position; every other entry, the total and the length stay. *)
Theorem quicklistReplaceAtIndex_entries ql σ oit es idx data :
  live ql σ oit → quicklistEntries σ ql = Some es →
  - Z.of_nat (length es) ≤ idx < Z.of_nat (length es) →
  ∃ σ', quicklistReplaceAtIndex ql idx data σ = Done (1, σ') ∧
        quicklistEntries σ' ql =
          Some (<[Z.to_nat (abs_pos idx (Z.of_nat (length es))) :=
                    zipEntry data]> es) ∧
        lists σ' !! ql = lists σ !! ql.
Proof.
  intros Hl Hes Hidx.
  destruct (live_view _ _ _ _ Hl Hes) as (A & Hg & _ & -> & Hc).
  pose proof Hg as (Hst & Hok & Hcap).
  rewrite <- Hc in *.
  assert (0 ≤ abs_pos idx (csum A) < csum A) as Hp.
  { unfold abs_pos. destruct (idx <? 0) eqn:E;
      [apply Z.ltb_lt in E|apply Z.ltb_ge in E]; lia. }
  destruct (index_abs_hit ql idx A Hok Hcap Hp)
    as (A1 & a & zl & c & A2 & -> & Hin & Habs).
  destruct (entries_lookup A1 a zl c A2 _ Hok Hin) as [_ Hlt].
  pose proof (quicklistReplaceAtIndex_st _ _ _ _ _ _ _ _ _ _ _ idx data _ _
                Hst Habs) as Hwp.
  apply wp_done in Hwp as (r & σ' & Hrun & -> & Hst').
  exists σ'. split; [done|].
  rewrite (st_obs_entries _ _ _ _ _ _ _ Hst').
  rewrite ziplistInsert_delete by done.
  rewrite entries_insert by done. split; [done|].
  rewrite (st_header _ _ _ _ _ _ _ Hst'), (st_header _ _ _ _ _ _ _ Hst).
  f_equal. f_equal; by rewrite ?length_app, ?fmap_app.
Qed.

Lemma quicklistReplaceAtIndex_entries_witness :
  ∃ σ', quicklistReplaceAtIndex 1%positive (-3) "42" demo = Done (1, σ') ∧
        quicklistEntries σ' 1%positive =
          Some (<[Z.to_nat (abs_pos (-3) (Z.of_nat 3)) := zipEntry "42"]>
                  [ZStr "a"; ZStr "b"; ZStr "c"]) ∧
        lists σ' !! 1%positive = lists demo !! 1%positive.
Proof.
  apply (quicklistReplaceAtIndex_entries 1%positive demo None
           [ZStr "a"; ZStr "b"; ZStr "c"] (-3) "42").
  - apply live_demo.
  - vm_compute. reflexivity.
  - cbn. lia.
Defined.

(** X11: [quicklistReplaceAtIndex] on a live list with an index out of range
    returns 0 and changes nothing. *)
Theorem quicklistReplaceAtIndex_out_of_range ql σ oit es idx data :
  live ql σ oit → quicklistEntries σ ql = Some es →
  LLONG_MIN ≤ idx ≤ LLONG_MAX →
  Z.of_nat (length es) ≤ idx ∨ idx < - Z.of_nat (length es) →
  quicklistReplaceAtIndex ql idx data σ = Done (0, σ).
Proof.
  intros Hl Hes Hr Hout.
  destruct (live_view _ _ _ _ Hl Hes) as (A & Hg & _ & -> & Hc).
  pose proof Hg as (Hst & Hok & Hcap). rewrite <- Hc in *.
  pose proof (csum_nonneg _ Hok) as Hnn.
  eapply quicklistReplaceAtIndex_miss; [exact Hst|].
  apply index_abs_miss; [done|done|].
  unfold abs_pos. destruct (idx <? 0) eqn:E;
    [apply Z.ltb_lt in E|apply Z.ltb_ge in E]; lia.
Qed.

Lemma quicklistReplaceAtIndex_out_of_range_witness :
  quicklistReplaceAtIndex 1%positive 3 "x" demo = Done (0, demo).
Proof.
  apply (quicklistReplaceAtIndex_out_of_range 1%positive demo None
           [ZStr "a"; ZStr "b"; ZStr "c"] 3 "x").
  - apply live_demo.
  - vm_compute. reflexivity.
  - unfold LLONG_MIN, LLONG_MAX. lia.
  - left. cbn. lia.
Defined.

(** ** Rotation, on the entry sequence *)

Lemma live_demo7 : live 1%positive demo7 None.
Proof.
  eapply live_step; [eapply live_step; [apply live_created|]|].
  - eapply (step_pushTail _ _ _ 1 "a" _ 1%positive);
      [unfold INT_MAX; lia|vm_compute; reflexivity|vm_compute; reflexivity|].
    vm_compute. reflexivity.
  - eapply (step_pushTail _ _ _ 1 "7" _ 1%positive);
      [unfold INT_MAX; lia|vm_compute; reflexivity|vm_compute; reflexivity|].
    vm_compute. reflexivity.
Qed.

Lemma push_head_abs_keeps_tail fill v new (A1 : chain) t (zl : ziplist) c :
  A1 ≠ [] ∨ ¬ c < fill →
  ∃ B1, push_head_abs fill v new (A1 ++ [(t, (zl, c))]) =
          B1 ++ [(t, (zl, c))] ∧
        concat (B1.*2.*1) = zipEntry v :: concat (A1.*2.*1).
Proof.
  intros Hnp. destruct A1 as [|[h [zh ch]] A1].
  - destruct Hnp as [|Hc]; [done|]. cbn [app push_head_abs].
    rewrite (proj2 (Z.ltb_ge c fill)) by lia.
    by exists [(new, ([zipEntry v], wrap32 (0 + 1)))].
  - cbn [app push_head_abs]. destruct (ch <? fill).
    + by exists ((h, (zipEntry v :: zh, wrap32 (ch + 1))) :: A1).
    + by exists ((new, ([zipEntry v], wrap32 (0 + 1))) :: (h, (zh, ch)) :: A1).
Qed.

(** X12: [quicklistRotate] on a live list of at least two entries whose last
    entry is a byte string, when the head push does not go into the block the
    tail cursor points into, moves the last entry to the front, encoded anew,
    and keeps the total. *)
Theorem quicklistRotate_entries ql σ oit l es s fill :
  live ql σ oit → lists σ !! ql = Some l →
  quicklistEntries σ ql = Some (es ++ [ZStr s]) → es ≠ [] →
  q_count l + 1 < 2 ^ 64 → ¬ rotates_in_place σ ql fill →
  ∃ σ', quicklistRotate ql fill σ = Done (tt, σ') ∧
        quicklistEntries σ' ql = Some (zipEntry s :: es) ∧
        q_count <$> lists σ' !! ql = Some (q_count l).
Proof.
  intros Hl Hlk Hes Hne Hcap Hnp.
  destruct (live_view _ _ _ _ Hl Hes) as (A & Hg & _ & HA & Hc).
  pose proof Hg as (Hst & Hok & _).
  destruct (entries_tail_split A _ es Hok (eq_sym HA))
    as (A1 & t & zl & c & -> & ->).
  pose proof (eq_trans (eq_sym Hlk) (st_header _ _ _ _ _ _ _ Hst)) as El.
  injection El as ->. cbn [q_count] in *.
  pose proof (length_le_csum _ Hok) as Hlen.
  rewrite length_app in Hlen, Hc. cbn [length] in Hlen, Hc.
  assert (length (concat (A1.*2.*1) ++ zl) ≠ 0%nat) as Hpos.
  { by destruct (concat (A1.*2.*1) ++ zl). }
  assert (A1 ≠ [] ∨ ¬ c < fill) as Hout.
  { destruct A1 as [|x A1]; [right|by left]. intros Hlt. apply Hnp.
    exists (mkList (Some t) (Some t) (Z.of_nat 1) (csum [(t, (zl ++ [ZStr s], c))])), t,
           (mkNode None None (zl ++ [ZStr s]) c).
    split; [exact (st_header _ _ _ _ _ _ _ Hst)|].
    split; [cbn; cbn in Hc, Hpos; lia|]. split; [done|]. split; [done|].
    split; [|done]. exact (st_node _ _ _ _ [] _ _ _ [] _ _ Hst). }
  assert (rotate_bytes σ A1 zl (ZStr s) c fill = Some s) as Hbytes.
  { unfold rotate_bytes, in_place. destruct Hout as [HA1|Hc'].
    - by rewrite bool_decide_eq_false_2.
    - by rewrite (proj2 (Z.ltb_ge c fill)), andb_false_r by lia. }
  pose proof (quicklistRotate_st _ _ _ _ _ _ _ (ZStr s) _ _ fill s Hst
                ltac:(lia) ltac:(lia) Hbytes) as Hwp.
  apply wp_done in Hwp as ([] & σ' & Hrun & B1 & zl' & c' & HB & Hst').
  pose proof Hok as Hok'. apply Forall_app_ok in Hok' as [_ Hok'].
  apply Forall_cons_ok in Hok' as [[Hct Hrt] _]. cbn [fst snd] in Hct, Hrt.
  rewrite length_app in Hct. cbn [length] in Hct.
  destruct (push_head_abs_keeps_tail fill s (brk σ) A1 t (zl ++ [ZStr s]) c
              Hout) as (B & HB' & HBe).
  pose proof (eq_trans (eq_sym HB) HB') as E.
  apply app_inj_tail in E as [-> E]. injection E as -> ->.
  exists σ'. split; [done|].
  rewrite (st_obs_entries _ _ _ _ _ _ _ Hst').
  rewrite (st_header _ _ _ _ _ _ _ Hst').
  cbn [fmap option_fmap option_map q_count].
  unfold del_index_abs, del_index_cnt.
  destruct (wrap32 (c - 1) =? 0) eqn:E.
  - apply Z.eqb_eq in E. rewrite E.
    rewrite wrap32_small in E by (unfold INT_MAX in Hrt; lia).
    destruct zl; [|cbn [length] in Hct; lia].
    rewrite !app_nil_r, HBe. split; [done|]. f_equal.
    rewrite (wrap64_id (_ + 1)) by lia. rewrite (wrap64_id (_ - 1)) by lia.
    rewrite wrap64_id by lia. lia.
  - rewrite chain_snoc_entries, delete_snoc_last, HBe. split; [done|].
    f_equal. rewrite (wrap64_id (_ + 1)) by lia. rewrite wrap64_id by lia. lia.
Qed.

Lemma quicklistRotate_entries_witness :
  ∃ σ', quicklistRotate 1%positive 2 demo = Done (tt, σ') ∧
        quicklistEntries σ' 1%positive =
          Some (zipEntry "c" :: [ZStr "a"; ZStr "b"]) ∧
        q_count <$> lists σ' !! 1%positive = Some 3.
Proof.
  apply (quicklistRotate_entries 1%positive demo None
           (mkList (Some 2%positive) (Some 3%positive) 2 3)
           [ZStr "a"; ZStr "b"] "c" 2).
  - apply live_demo.
  - vm_compute. reflexivity.
  - vm_compute. reflexivity.
  - discriminate.
  - cbn. lia.
  - intros (l & h & n & Hl & _ & Hh & Ht & _).
    vm_compute in Hl. injection Hl as <-. cbn in Hh, Ht.
    injection Hh as <-. discriminate.
Defined.

(** X13: [quicklistRotate] on a live list of at most one entry does nothing. *)
Theorem quicklistRotate_short ql σ oit es fill :
  live ql σ oit → quicklistEntries σ ql = Some es → (length es ≤ 1)%nat →
  quicklistRotate ql fill σ = Done (tt, σ).
Proof.
  intros Hl Hes Hle.
  destruct (live_view _ _ _ _ Hl Hes) as (A & (Hst & _) & _ & _ & Hc).
  eapply quicklistRotate_small; [exact Hst|]. lia.
Qed.

Lemma quicklistRotate_short_witness :
  quicklistRotate 1%positive 4 (created emptyMem) =
    Done (tt, created emptyMem).
Proof.
  apply (quicklistRotate_short 1%positive (created emptyMem) None [] 4).
  - apply live_created.
  - vm_compute. reflexivity.
  - cbn. lia.
Defined.

(** X14: [quicklistRotate] on a live list of at least two entries whose last
    entry is an integer reads the bytes to push from the address that is the
    integer; where nothing is readable at that address, the call traps. *)
Theorem quicklistRotate_integer_tail ql σ oit es v fill :
  live ql σ oit → quicklistEntries σ ql = Some (es ++ [ZInt v]) → es ≠ [] →
  stray σ v (String.length (lld v)) = None →
  quicklistRotate ql fill σ = Fault.
Proof.
  intros Hl Hes Hne Hs.
  destruct (live_view _ _ _ _ Hl Hes) as (A & Hg & _ & HA & Hc).
  pose proof Hg as (Hst & Hok & _).
  destruct (entries_tail_split A _ es Hok (eq_sym HA))
    as (A1 & t & zl & c & -> & ->).
  rewrite length_app in Hc. cbn [length] in Hc.
  assert (length (concat (A1.*2.*1) ++ zl) ≠ 0%nat) as Hpos.
  { by destruct (concat (A1.*2.*1) ++ zl). }
  eapply (quicklistRotate_fault _ _ _ _ _ _ _ (ZInt v)); [exact Hst| |exact Hs].
  lia.
Qed.

Lemma quicklistRotate_integer_tail_witness :
  quicklistRotate 1%positive 1 demo7 = Fault.
Proof.
  apply (quicklistRotate_integer_tail 1%positive demo7 None [ZStr "a"] 7 1).
  - apply live_demo7.
  - vm_compute. reflexivity.
  - discriminate.
  - vm_compute. reflexivity.
Defined.

(** ** Iteration *)

Lemma next_rec_null fuel q zi o dir σ :
  ∃ e, quicklistNext_rec fuel (mkIter q None zi o dir) σ =
         Done ((false, mkIter q None zi o dir, e), σ).
Proof. eexists. by destruct fuel. Qed.

Ltac next_run Hn :=
  cbn; unfold mbind, M_bind, getNode, mret, M_ret; rewrite Hn; cbn.

Ltac next_get Hx x :=
  match goal with
  | |- context [?l !! ?i] =>
      replace (l !! i) with (Some x) by (symmetry; exact Hx)
  end.

Lemma next_rec_fresh_fwd fuel q a n x (zl' : ziplist) σ :
  nodes σ !! a = Some n → n_zl n = x :: zl' →
  ∃ e, quicklistNext_rec fuel (mkIter q (Some a) None 0 AL_START_HEAD) σ =
         Done ((true, mkIter q (Some a) (Some 0%nat) 0 AL_START_HEAD, e), σ) ∧
       entry_holds e x.
Proof.
  intros Hn Hz.
  destruct fuel; next_run Hn; change (cast_int 0) with 0;
    rewrite Hz, ziplistIndex_0; cbn; destruct x; eexists;
    (split; [reflexivity|done]).
Qed.

Lemma next_rec_step_fwd fuel q a n i o x σ :
  nodes σ !! a = Some n → n_zl n !! S i = Some x →
  ∃ e, quicklistNext_rec fuel
         (mkIter q (Some a) (Some i) o AL_START_HEAD) σ =
         Done ((true, mkIter q (Some a) (Some (S i)) (o + 1) AL_START_HEAD, e),
               σ) ∧
       entry_holds e x.
Proof.
  intros Hn Hx. pose proof (lookup_lt_Some _ _ _ Hx) as Hlt.
  assert (ziplistNext (n_zl n) i = Some (S i)) as Hnext.
  { unfold ziplistNext. by rewrite (proj2 (Nat.ltb_lt _ _) Hlt). }
  destruct fuel; next_run Hn; rewrite Hnext; cbn; next_get Hx x;
    destruct x; eexists; (split; [reflexivity|done]).
Qed.

Lemma next_rec_end_fwd fuel q a n i o σ :
  nodes σ !! a = Some n → (length (n_zl n) ≤ S i)%nat →
  quicklistNext_rec (S fuel) (mkIter q (Some a) (Some i) o AL_START_HEAD) σ =
    quicklistNext_rec fuel (mkIter q (n_next n) None 0 AL_START_HEAD) σ.
Proof.
  intros Hn Hle.
  assert (ziplistNext (n_zl n) i = None) as Hnext.
  { unfold ziplistNext. by rewrite (proj2 (Nat.ltb_ge _ _) Hle). }
  next_run Hn. by rewrite Hnext.
Qed.

Lemma next_rec_fresh_bwd fuel q a n x (zl' : ziplist) σ :
  nodes σ !! a = Some n → n_zl n = zl' ++ [x] →
  ∃ e, quicklistNext_rec fuel (mkIter q (Some a) None (-1) AL_START_TAIL) σ =
         Done ((true, mkIter q (Some a) (Some (length zl')) (-1) AL_START_TAIL,
                e), σ) ∧
       entry_holds e x.
Proof.
  intros Hn Hz.
  assert ((zl' ++ [x]) !! length zl' = Some x) as Hx.
  { by rewrite lookup_app_r, Nat.sub_diag by lia. }
  destruct fuel; next_run Hn; change (cast_int (-1)) with (-1);
    rewrite Hz, ziplistIndex_last; cbn; next_get Hx x; destruct x; eexists;
    (split; [reflexivity|done]).
Qed.

Lemma next_rec_step_bwd fuel q a n i o x σ :
  nodes σ !! a = Some n → (S i < length (n_zl n))%nat →
  n_zl n !! i = Some x →
  ∃ e, quicklistNext_rec fuel
         (mkIter q (Some a) (Some (S i)) o AL_START_TAIL) σ =
         Done ((true, mkIter q (Some a) (Some i) (o - 1) AL_START_TAIL, e),
               σ) ∧
       entry_holds e x.
Proof.
  intros Hn Hlt Hx.
  assert (ziplistPrev (n_zl n) (S i) = Some i) as Hprev.
  { unfold ziplistPrev. by rewrite (proj2 (Nat.leb_gt _ _) Hlt). }
  destruct fuel; next_run Hn; rewrite Hprev; cbn; next_get Hx x;
    destruct x; eexists; (split; [reflexivity|done]).
Qed.

Lemma next_rec_end_bwd fuel q a n o σ :
  nodes σ !! a = Some n → (0 < length (n_zl n))%nat →
  quicklistNext_rec (S fuel) (mkIter q (Some a) (Some 0%nat) o AL_START_TAIL) σ =
    quicklistNext_rec fuel (mkIter q (n_prev n) None (-1) AL_START_TAIL) σ.
Proof.
  intros Hn Hlt.
  assert (ziplistPrev (n_zl n) 0 = None) as Hprev.
  { unfold ziplistPrev. by rewrite (proj2 (Nat.leb_gt _ _) Hlt). }
  next_run Hn. by rewrite Hprev.
Qed.

Lemma quicklistNext_fuel it σ :
  quicklistNext it σ = quicklistNext_rec (S (size (nodes σ))) it σ.
Proof. done. Qed.

Lemma iterate_found n it it' e σ :
  quicklistNext it σ = Done ((true, it', e), σ) →
  iterate (S n) it σ =
    match iterate n it' σ with
    | Done (es, σ') => Done (e :: es, σ')
    | Fault => Fault
    | Spin => Spin
    end.
Proof.
  intros H. cbn [iterate]. unfold mbind, M_bind. rewrite H.
  by destruct (iterate n it' σ) as [[es σ']| |].
Qed.

Lemma iterate_end n it it' e σ :
  quicklistNext it σ = Done ((false, it', e), σ) →
  iterate (S n) it σ = Done ([], σ).
Proof. intros H. cbn [iterate]. unfold mbind, M_bind. by rewrite H. Qed.

Lemma iterate_fwd σ0 X0 σ ql cnt F n : ∀ A1 a (zl : ziplist) c A2 i o,
  st σ0 X0 σ ql (A1 ++ (a, (zl, c)) :: A2) cnt F →
  Forall entry_ok A2 → (i < length zl)%nat →
  (length (drop (S i) zl ++ concat (A2.*2.*1)) < n)%nat →
  ∃ E, iterate n (mkIter (Some ql) (Some a) (Some i) o AL_START_HEAD) σ =
         Done (E, σ) ∧
       Forall2 entry_holds E (drop (S i) zl ++ concat (A2.*2.*1)).
Proof.
  induction n as [|n IH]; intros A1 a zl c A2 i o Hst Hok Hi Hn; [lia|].
  pose proof (st_node _ _ _ _ _ _ _ _ _ _ _ Hst) as Hnode.
  destruct (zl !! S i) as [x|] eqn:Hx.
  - destruct (next_rec_step_fwd (S (size (nodes σ))) (Some ql) a _ i o x σ
                Hnode Hx) as (e & Hrun & He).
    rewrite (iterate_found n _ _ e σ Hrun).
    rewrite (drop_S _ _ _ Hx) in Hn |- *. cbn [app length] in Hn.
    destruct (IH A1 a zl c A2 (S i) (o + 1) Hst Hok
                (lookup_lt_Some _ _ _ Hx) ltac:(lia)) as (E & -> & HE).
    exists (e :: E). split; [done|]. by constructor.
  - apply lookup_ge_None in Hx.
    rewrite (drop_ge zl (S i)) in Hn |- * by lia. cbn [app] in Hn |- *.
    pose proof (next_rec_end_fwd (size (nodes σ)) (Some ql) a _ i o σ Hnode
                  ltac:(cbn; lia)) as Hend.
    cbn [n_next] in Hend.
    destruct A2 as [|[b [zb cb]] A2].
    + destruct (next_rec_null (size (nodes σ)) (Some ql) None 0
                  AL_START_HEAD σ) as [e He].
      exists []. split; [|constructor].
      eapply iterate_end. rewrite quicklistNext_fuel.
      etransitivity; [exact Hend|exact He].
    + apply Forall_cons_ok in Hok as [[Hcb Hrb] Hok]. cbn [fst snd] in Hcb, Hrb.
      destruct zb as [|x zb]; [cbn in Hcb; lia|].
      assert (st σ0 X0 σ ql ((A1 ++ [(a, (zl, c))]) ++ (b, (x :: zb, cb)) :: A2)
                 cnt F) as Hst'.
      { by rewrite <- app_assoc. }
      pose proof (st_node _ _ _ _ _ _ _ _ _ _ _ Hst') as Hnb.
      destruct (next_rec_fresh_fwd (size (nodes σ)) (Some ql) b _ x zb σ Hnb
                  eq_refl) as (e & Hrun & He).
      cbn [fmap list_fmap fst snd concat head] in Hend, Hn |- *.
      rewrite <- Hend in Hrun. rewrite <- quicklistNext_fuel in Hrun.
      rewrite (iterate_found n _ _ e σ Hrun).
      destruct (IH (A1 ++ [(a, (zl, c))]) b (x :: zb) cb A2 0%nat 0 Hst' Hok
                  ltac:(cbn; lia)) as (E & -> & HE).
      { cbn [drop]. rewrite drop_0. cbn [app length] in Hn. lia. }
      exists (e :: E). split; [done|]. constructor; [done|].
      cbn [drop] in HE. by rewrite drop_0 in HE.
Qed.

Lemma iterate_bwd σ0 X0 σ ql cnt F n : ∀ A1 a (zl : ziplist) c A2 i o,
  st σ0 X0 σ ql (A1 ++ (a, (zl, c)) :: A2) cnt F →
  Forall entry_ok A1 → (i < length zl)%nat →
  (length (concat (A1.*2.*1) ++ take i zl) < n)%nat →
  ∃ E, iterate n (mkIter (Some ql) (Some a) (Some i) o AL_START_TAIL) σ =
         Done (E, σ) ∧
       Forall2 entry_holds E (reverse (concat (A1.*2.*1) ++ take i zl)).
Proof.
  induction n as [|n IH]; intros A1 a zl c A2 i o Hst Hok Hi Hn; [lia|].
  pose proof (st_node _ _ _ _ _ _ _ _ _ _ _ Hst) as Hnode.
  destruct i as [|i].
  - cbn [take] in Hn |- *. rewrite app_nil_r in Hn |- *.
    pose proof (next_rec_end_bwd (size (nodes σ)) (Some ql) a _ o σ Hnode
                  ltac:(cbn; lia)) as Hend.
    cbn [n_prev] in Hend.
    destruct (decide (A1 = [])) as [->|HA1].
    + destruct (next_rec_null (size (nodes σ)) (Some ql) None (-1)
                  AL_START_TAIL σ) as [e He].
      exists []. split; [|constructor].
      eapply iterate_end. rewrite quicklistNext_fuel.
      etransitivity; [exact Hend|exact He].
    + destruct (chain_tail_split A1 Hok HA1) as (A0 & b & zb & x & cb & ->).
      assert (st σ0 X0 σ ql (A0 ++ (b, (zb ++ [x], cb)) :: (a, (zl, c)) :: A2)
                 cnt F) as Hst'.
      { by rewrite <- app_assoc in Hst. }
      pose proof (st_node _ _ _ _ _ _ _ _ _ _ _ Hst') as Hnb.
      destruct (next_rec_fresh_bwd (size (nodes σ)) (Some ql) b _ x zb σ Hnb
                  eq_refl) as (e & Hrun & He).
      rewrite fmap_fst_snoc, last_snoc in Hend.
      rewrite <- Hend in Hrun. rewrite <- quicklistNext_fuel in Hrun.
      rewrite (iterate_found n _ _ e σ Hrun).
      rewrite chain_snoc_entries, app_assoc in Hn |- *.
      rewrite length_app in Hn. cbn [length] in Hn.
      apply Forall_app_ok in Hok as [Hok _].
      destruct (IH A0 b (zb ++ [x]) cb ((a, (zl, c)) :: A2) (length zb) (-1)
                  Hst' Hok ltac:(rewrite length_app; cbn; lia))
        as (E & -> & HE).
      { rewrite take_app_length. lia. }
      exists (e :: E). split; [done|]. rewrite reverse_snoc.
      constructor; [done|]. by rewrite take_app_length in HE.
  - assert (i < length zl)%nat as Hi' by lia.
    destruct (lookup_lt_is_Some_2 zl i Hi') as [x Hx].
    destruct (next_rec_step_bwd (S (size (nodes σ))) (Some ql) a _ i o x σ
                Hnode Hi Hx) as (e & Hrun & He).
    rewrite (iterate_found n _ _ e σ Hrun).
    rewrite (take_S_r _ _ _ Hx), app_assoc in Hn |- *.
    rewrite length_app in Hn. cbn [length] in Hn.
    destruct (IH A1 a zl c A2 i (o - 1) Hst Hok Hi' ltac:(lia))
      as (E & -> & HE).
    exists (e :: E). split; [done|]. rewrite reverse_snoc. by constructor.
Qed.

Lemma quicklistGetIterator_head σ ql l :
  lists σ !! ql = Some l →
  quicklistGetIterator ql AL_START_HEAD σ =
    Done (mkIter (Some ql) (q_head l) None 0 AL_START_HEAD, σ).
Proof.
  intros H. unfold quicklistGetIterator, mbind, M_bind, getList.
  by rewrite H.
Qed.

Lemma quicklistGetIterator_tail σ ql l :
  lists σ !! ql = Some l →
  quicklistGetIterator ql AL_START_TAIL σ =
    Done (mkIter (Some ql) (q_tail l) None (-1) AL_START_TAIL, σ).
Proof.
  intros H. unfold quicklistGetIterator, mbind, M_bind, getList.
  by rewrite H.
Qed.

(** X15: Taking an iterator at the head of a live list and calling
    [quicklistNext] until it reports the end produces every entry of the list
    once, in order, and changes nothing; more rounds than the list has entries
    are enough. *)
Theorem iterate_forward ql σ oit es n :
  live ql σ oit → quicklistEntries σ ql = Some es → (length es < n)%nat →
  ∃ E, (it ← quicklistGetIterator ql AL_START_HEAD; iterate n it) σ =
         Done (E, σ) ∧
       Forall2 entry_holds E es.
Proof.
  intros Hl Hes Hn.
  destruct (live_view _ _ _ _ Hl Hes) as (A & Hg & _ & -> & _).
  pose proof Hg as (Hst & Hok & _).
  unfold mbind at 1. unfold M_bind at 1.
  rewrite (quicklistGetIterator_head _ _ _ (st_header _ _ _ _ _ _ _ Hst)).
  cbn [q_head]. destruct n as [|n]; [lia|].
  destruct A as [|[a [zl c]] A2].
  - destruct (next_rec_null (S (size (nodes σ))) (Some ql) None 0
                AL_START_HEAD σ) as [e He].
    exists []. split; [|constructor]. by eapply iterate_end.
  - apply Forall_cons_ok in Hok as [[Hc Hr] Hok]. cbn [fst snd] in Hc, Hr.
    destruct zl as [|x zl]; [cbn in Hc; lia|].
    pose proof (st_node _ _ _ _ [] _ _ _ _ _ _ Hst) as Hnode.
    destruct (next_rec_fresh_fwd (S (size (nodes σ))) (Some ql) a _ x zl σ
                Hnode eq_refl) as (e & Hrun & He).
    cbn [fmap list_fmap fst snd concat head app length] in Hn |- *.
    rewrite (iterate_found n _ _ e σ Hrun).
    destruct (iterate_fwd _ _ _ _ _ _ n [] a (x :: zl) c A2 0%nat 0 Hst Hok
                ltac:(cbn; lia)) as (E & -> & HE).
    { cbn [drop]. rewrite drop_0. lia. }
    exists (e :: E). split; [done|]. constructor; [done|].
    cbn [drop] in HE. by rewrite drop_0 in HE.
Qed.

Lemma iterate_forward_witness :
  ∃ E, (it ← quicklistGetIterator 1%positive AL_START_HEAD; iterate 4 it)
         demo = Done (E, demo) ∧
       Forall2 entry_holds E [ZStr "a"; ZStr "b"; ZStr "c"].
Proof.
  apply (iterate_forward 1%positive demo None [ZStr "a"; ZStr "b"; ZStr "c"]
           4%nat).
  - apply live_demo.
  - vm_compute. reflexivity.
  - cbn. lia.
Defined.

(** X16: Taking an iterator at the tail of a live list and calling
    [quicklistNext] until it reports the end produces every entry of the list
    once, in reverse order, and changes nothing. *)
Theorem iterate_backward ql σ oit es n :
  live ql σ oit → quicklistEntries σ ql = Some es → (length es < n)%nat →
  ∃ E, (it ← quicklistGetIterator ql AL_START_TAIL; iterate n it) σ =
         Done (E, σ) ∧
       Forall2 entry_holds E (reverse es).
Proof.
  intros Hl Hes Hn.
  destruct (live_view _ _ _ _ Hl Hes) as (A & Hg & _ & -> & _).
  pose proof Hg as (Hst & Hok & _).
  unfold mbind at 1. unfold M_bind at 1.
  rewrite (quicklistGetIterator_tail _ _ _ (st_header _ _ _ _ _ _ _ Hst)).
  cbn [q_tail]. destruct n as [|n]; [lia|].
  destruct (decide (A = [])) as [->|HA].
  - destruct (next_rec_null (S (size (nodes σ))) (Some ql) None (-1)
                AL_START_TAIL σ) as [e He].
    exists []. split; [|constructor]. by eapply iterate_end.
  - destruct (chain_tail_split A Hok HA) as (A1 & a & zl & x & c & ->).
    pose proof (st_node _ _ _ _ _ _ _ _ _ _ _ Hst) as Hnode.
    destruct (next_rec_fresh_bwd (S (size (nodes σ))) (Some ql) a _ x zl σ
                Hnode eq_refl) as (e & Hrun & He).
    rewrite fmap_fst_snoc, last_snoc.
    rewrite (iterate_found n _ _ e σ Hrun).
    rewrite chain_snoc_entries, app_assoc in Hn |- *.
    rewrite length_app in Hn. cbn [length] in Hn.
    apply Forall_app_ok in Hok as [Hok _].
    destruct (iterate_bwd _ _ _ _ _ _ n A1 a (zl ++ [x]) c [] (length zl) (-1)
                Hst Hok ltac:(rewrite length_app; cbn; lia))
      as (E & -> & HE).
    { rewrite take_app_length. lia. }
    exists (e :: E). split; [done|]. rewrite reverse_snoc.
    constructor; [done|]. by rewrite take_app_length in HE.
Qed.

Lemma iterate_backward_witness :
  ∃ E, (it ← quicklistGetIterator 1%positive AL_START_TAIL; iterate 4 it)
         demo = Done (E, demo) ∧
       Forall2 entry_holds E (reverse [ZStr "a"; ZStr "b"; ZStr "c"]).
Proof.
  apply (iterate_backward 1%positive demo None [ZStr "a"; ZStr "b"; ZStr "c"]
           4%nat).
  - apply live_demo.
  - vm_compute. reflexivity.
  - cbn. lia.
Defined.

(** ** Deleting through an iterator *)

Lemma live_demo_it : live 1%positive demo (Some demo_it).
Proof.
  destruct live_demo as (σ0 & σ1 & Hh & Hc & Ha). exists σ0, σ1.
  split; [done|]. split; [done|]. eapply acts_snoc; [exact Ha|].
  eapply (act_iter _ _ _ AL_START_HEAD). vm_compute. reflexivity.
Qed.

Lemma quicklistNext_rec_holds σ0 X0 σ ql A cnt F fuel : ∀ it it' e σ',
  st σ0 X0 σ ql A cnt F → iter_ok σ ql A it →
  quicklistNext_rec fuel it σ = Done ((true, it', e), σ') →
  ∃ A1 a zl c A2 i x,
    A = A1 ++ (a, (zl, c)) :: A2 ∧ e_quicklist e = Some ql ∧
    e_node e = Some a ∧ e_zi e = Some i ∧ i_quicklist it' = Some ql ∧
    i_current it' = Some a ∧ zl !! i = Some x ∧ entry_holds e x.
Proof.
  induction fuel as [|fuel IH]; intros it it' e σ' Hst [Hq Hc];
    cbn [quicklistNext_rec]; destruct (i_current it) as [c|] eqn:Ec.
  2,4: intros H; discriminate H.
  all: destruct Hc as [Hc|Hc];
    [|unfold mbind, M_bind, getNode; by rewrite Hc].
  all: pose proof Hc as Hin;
    apply elem_chain_split in Hc as (A1 & zl & cc & A2 & ->).
  all: unfold mbind at 1, M_bind at 1, getNode;
    rewrite (st_node _ _ _ _ _ _ _ _ _ _ _ Hst); cbn [n_zl n_next n_prev].
  all: match goal with
       | |- (?m ≫= _) ?s = _ → _ =>
           assert (m s = Fault ∨
                   ∃ z off, m s = Done (mkIter (i_quicklist it) (Some c) z off
                                              (i_direction it), s) ∧
                            ∀ i, z = Some i → (i < length zl)%nat) as Hm
       end.
  1,3: destruct (i_zi it) as [zi|];
    [destruct (i_direction it =? AL_START_HEAD);
       [right; eexists _, _; split; [done|]; apply ziplistNext_valid|
        destruct (i_direction it =? AL_START_TAIL);
          [right; eexists _, _; split; [done|]; apply ziplistPrev_valid|
           by left]]|
     right; eexists _, _; split; [done|]; apply ziplistIndex_valid].
  all: unfold mbind at 1, M_bind at 1;
    destruct Hm as [->|(z & off & -> & Hz)]; [done|];
    cbn [i_zi i_quicklist i_current i_offset i_direction
         e_quicklist e_node e_zi e_value e_sz e_longval e_offset];
    destruct z as [i|].
  1,3: destruct (lookup_lt_is_Some_2 zl i (Hz i eq_refl)) as [x Hx];
    unfold ziplistGet; next_get Hx x; destruct x;
    intros [= <- <- <-]; exists A1, c, zl, cc, A2, i; eexists;
    (split; [done|]); (split; [done|]); (split; [done|]);
    (split; [done|]); (split; [done|]); (split; [done|]);
    (split; [exact Hx|done]).
  - done.
  - intros H. apply IH in H; [done|done|]. split.
    + by destruct (i_direction it =? AL_START_HEAD),
                  (i_direction it =? AL_START_TAIL).
    + destruct (i_direction it =? AL_START_HEAD);
        [|destruct (i_direction it =? AL_START_TAIL)];
        cbn [i_current].
      * destruct (head A2.*1) as [x|] eqn:Ex; [|done]. left.
        by eapply head_in_chain.
      * destruct (last A1.*1) as [x|] eqn:Ex; [|done]. left.
        by eapply last_in_chain.
      * by left.
Qed.

Lemma delete_app_r {T} (l1 l2 : list T) i :
  delete (length l1 + i)%nat (l1 ++ l2) = l1 ++ delete i l2.
Proof. induction l1 as [|x l1 IH]; [done|]. cbn. f_equal. exact IH. Qed.

Lemma delete_app_l {T} (l1 l2 : list T) i :
  (i < length l1)%nat → delete i (l1 ++ l2) = delete i l1 ++ l2.
Proof.
  revert i. induction l1 as [|x l1 IH]; intros [|i] Hi; cbn in Hi; try lia.
  - done.
  - cbn. f_equal. apply IH. lia.
Qed.

Lemma del_index_abs_entries (A1 : chain) a (zl : ziplist) c (A2 : chain) i :
  Forall entry_ok (A1 ++ (a, (zl, c)) :: A2) → (i < length zl)%nat →
  concat ((del_index_abs A1 a zl c A2 i).*2.*1) =
    delete (length (concat (A1.*2.*1)) + i)%nat
           (concat ((A1 ++ (a, (zl, c)) :: A2).*2.*1)).
Proof.
  intros Hok Hi. apply Forall_app_ok in Hok as [_ Hok].
  apply Forall_cons_ok in Hok as [[Hc Hr] _]. cbn [fst snd] in Hc, Hr.
  unfold INT_MAX in Hr.
  rewrite (fmap_app _ A1), (fmap_app _ (A1.*2)), concat_app.
  cbn [fmap list_fmap fst snd concat].
  rewrite delete_app_r, delete_app_l by done.
  unfold del_index_abs. destruct (wrap32 (c - 1) =? 0) eqn:E.
  - apply Z.eqb_eq in E. rewrite wrap32_small in E by lia.
    destruct zl as [|x [|y zl]]; cbn [length] in Hc, Hi; try lia.
    destruct i; [|lia]. cbn [delete list_delete app].
    by rewrite !fmap_app, concat_app.
  - rewrite !fmap_app, concat_app. by cbn [fmap list_fmap fst snd concat].
Qed.

(** X17: Deleting, through [quicklistDelEntry], the entry that [quicklistNext]
    has just produced on a live list completes, removes from the entry
    sequence exactly one entry, which is the one the record holds, and takes
    one off the total. *)
Theorem quicklistDelEntry_entries ql σ it es it' e σ1 :
  live ql σ (Some it) → quicklistEntries σ ql = Some es →
  quicklistNext it σ = Done ((true, it', e), σ1) →
  ∃ p x r σ',
    es !! p = Some x ∧ entry_holds e x ∧
    quicklistDelEntry it' e σ1 = Done (r, σ') ∧
    quicklistEntries σ' ql = Some (delete p es) ∧
    q_count <$> lists σ' !! ql = Some (Z.of_nat (length es) - 1).
Proof.
  intros Hl Hes Hnext.
  destruct (live_view _ _ _ _ Hl Hes) as (A & Hg & Hit & -> & Hc).
  pose proof Hg as (Hst & Hok & Hcap). cbn [oiter_ok] in Hit.
  destruct (quicklistNext_ok _ _ _ _ _ _ _ _ _ _ _ _ Hst Hit Hnext)
    as (-> & _ & _ & _).
  destruct (quicklistNext_rec_holds _ _ _ _ _ _ _ _ _ _ _ _ Hst Hit Hnext)
    as (A1 & a & zl & c & A2 & i & x & -> & Heq & Hen & Hez & Hiq & Hic
        & Hx & Hh).
  pose proof (lookup_lt_Some _ _ _ Hx) as Hi.
  pose proof (quicklistDelEntry_st _ _ _ _ _ _ _ _ _ _ _ _ _ i Hst Heq Hen
                Hez Hiq Hic) as Hwp.
  apply wp_done in Hwp as (r & σ' & Hrun & Hst' & _).
  destruct (del_index_good A1 a zl c A2 _ i Hok eq_refl Hcap Hi)
    as (_ & Hc' & _).
  exists (length (concat (A1.*2.*1)) + i)%nat, x, r, σ'.
  split.
  { rewrite (fmap_app _ A1), (fmap_app _ (A1.*2)), concat_app.
    cbn [fmap list_fmap fst snd concat].
    rewrite lookup_app_r by lia. rewrite lookup_app_l.
    - rewrite <- Hx. f_equal. lia.
    - lia. }
  split; [done|]. split; [done|].
  rewrite (st_obs_entries _ _ _ _ _ _ _ Hst').
  rewrite del_index_abs_entries by done. split; [done|].
  rewrite (st_header _ _ _ _ _ _ _ Hst').
  cbn [fmap option_fmap option_map q_count]. f_equal.
  etransitivity; [exact Hc'|]. exact (f_equal (λ z, z - 1) Hc).
Qed.

Lemma quicklistDelEntry_entries_witness :
  ∃ p x r σ',
    [ZStr "a"; ZStr "b"; ZStr "c"] !! p = Some x ∧
    entry_holds (mkEntry (Some 1%positive) (Some 2%positive) (Some 0%nat)
                         (Some "a"%string) 1 (-123456789) 0) x ∧
    quicklistDelEntry
      (mkIter (Some 1%positive) (Some 2%positive) (Some 0%nat) 0 AL_START_HEAD)
      (mkEntry (Some 1%positive) (Some 2%positive) (Some 0%nat)
               (Some "a"%string) 1 (-123456789) 0) demo = Done (r, σ') ∧
    quicklistEntries σ' 1%positive =
      Some (delete p [ZStr "a"; ZStr "b"; ZStr "c"]) ∧
    q_count <$> lists σ' !! 1%positive = Some (Z.of_nat 3 - 1).
Proof.
  apply (quicklistDelEntry_entries 1%positive demo demo_it
           [ZStr "a"; ZStr "b"; ZStr "c"]).
  - apply live_demo_it.
  - vm_compute. reflexivity.
  - vm_compute. reflexivity.
Defined.

(** ** Iterators taken at an index *)

Lemma next_rec_fresh_at fuel q a n off i x dir σ :
  nodes σ !! a = Some n → ziplistIndex (n_zl n) (cast_int off) = Some i →
  n_zl n !! i = Some x →
  ∃ e, quicklistNext_rec fuel (mkIter q (Some a) None off dir) σ =
         Done ((true, mkIter q (Some a) (Some i) off dir, e), σ) ∧
       entry_holds e x.
Proof.
  intros Hn Hi Hx.
  destruct fuel; next_run Hn; rewrite Hi; cbn; next_get Hx x;
    destruct x; eexists; (split; [reflexivity|done]).
Qed.

Lemma cast_int_id z : - 2 ^ 31 ≤ z < 2 ^ 31 → cast_int z = z.
Proof. intros H. unfold cast_int. rewrite Z.mod_small; lia. Qed.

(** X18: An iterator taken by [quicklistGetIteratorAtIdx] at an index in range
    of a live list, in either direction, first produces the entry at that
    index, and neither call changes anything. *)
Theorem quicklistGetIteratorAtIdx_entry ql σ oit es dir idx :
  live ql σ oit → quicklistEntries σ ql = Some es →
  - Z.of_nat (length es) ≤ idx < Z.of_nat (length es) →
  ∃ it it' e x,
    quicklistGetIteratorAtIdx ql dir idx σ = Done (Some it, σ) ∧
    quicklistNext it σ = Done ((true, it', e), σ) ∧
    es !! Z.to_nat (abs_pos idx (Z.of_nat (length es))) = Some x ∧
    entry_holds e x.
Proof.
  intros Hl Hes Hidx.
  destruct (live_view _ _ _ _ Hl Hes) as (A & Hg & _ & -> & Hc).
  pose proof Hg as (Hst & Hok & Hcap).
  rewrite <- Hc in *.
  assert (0 ≤ abs_pos idx (csum A) < csum A) as Hp.
  { unfold abs_pos. destruct (idx <? 0) eqn:E;
      [apply Z.ltb_lt in E|apply Z.ltb_ge in E]; lia. }
  destruct (index_abs_hit ql idx A Hok Hcap Hp)
    as (A1 & a & zl & c & A2 & -> & Hin & Habs).
  destruct (entries_lookup A1 a zl c A2 _ Hok Hin) as [Hlk Hlt].
  destruct (lookup_lt_is_Some_2 zl _ Hlt) as [x Hx].
  destruct (quicklistGetIterator_ok _ _ _ _ _ _ _ dir Hst)
    as (it0 & E0 & [Hq _] & Hd).
  pose proof (st_node _ _ _ _ _ _ _ _ _ _ _ Hst) as Hnode.
  pose proof Hok as Hok'. apply Forall_app_ok in Hok' as [_ Hok'].
  apply Forall_cons_ok in Hok' as [[Hca Hra] _]. cbn [fst snd] in Hca, Hra.
  unfold INT_MAX in Hra.
  set (p := abs_pos idx (csum (A1 ++ (a, (zl, c)) :: A2))) in *.
  set (off := if idx <? 0 then p - csum A1 - c else p - csum A1) in *.
  assert (ziplistIndex zl (cast_int off) = Some (Z.to_nat (p - csum A1)))
    as Hzi.
  { rewrite cast_int_id by (unfold off; destruct (idx <? 0); lia).
    unfold off. destruct (idx <? 0).
    - rewrite ziplistIndex_neg by lia. f_equal. lia.
    - by rewrite ziplistIndex_nonneg by lia. }
  destruct (next_rec_fresh_at (S (size (nodes σ))) (Some ql) a _ off _ x dir σ
              Hnode Hzi Hx) as (e & Hrun & He).
  eexists (mkIter (Some ql) (Some a) None off dir), _, e, x.
  split; [|split; [exact Hrun|split; [|done]]].
  - unfold quicklistGetIteratorAtIdx. unfold mbind at 1, M_bind at 1.
    rewrite (quicklistIndex_st _ _ _ _ _ _ _ idx initEntry Hst), Habs.
    unfold mbind, M_bind. rewrite E0. unfold mret, M_ret.
    destruct (entry_at_node ql a zl (Z.to_nat (p - csum A1)) off)
      as (-> & _ & -> & _). by rewrite Hq, Hd.
  - etransitivity; [exact Hlk|exact Hx].
Qed.

Lemma quicklistGetIteratorAtIdx_entry_witness :
  ∃ it it' e x,
    quicklistGetIteratorAtIdx 1%positive AL_START_TAIL (-2) demo =
      Done (Some it, demo) ∧
    quicklistNext it demo = Done ((true, it', e), demo) ∧
    [ZStr "a"; ZStr "b"; ZStr "c"] !! Z.to_nat (abs_pos (-2) (Z.of_nat 3)) =
      Some x ∧
    entry_holds e x.
Proof.
  apply (quicklistGetIteratorAtIdx_entry 1%positive demo None
           [ZStr "a"; ZStr "b"; ZStr "c"] AL_START_TAIL (-2)).
  - apply live_demo.
  - vm_compute. reflexivity.
  - cbn. lia.
Defined.

(** X19: [quicklistGetIteratorAtIdx] at an index out of range of a live list
    returns no iterator and changes nothing. *)
Theorem quicklistGetIteratorAtIdx_out_of_range ql σ oit es dir idx :
  live ql σ oit → quicklistEntries σ ql = Some es →
  LLONG_MIN ≤ idx ≤ LLONG_MAX →
  Z.of_nat (length es) ≤ idx ∨ idx < - Z.of_nat (length es) →
  quicklistGetIteratorAtIdx ql dir idx σ = Done (None, σ).
Proof.
  intros Hl Hes Hr Hout.
  destruct (live_view _ _ _ _ Hl Hes) as (A & Hg & _ & -> & Hc).
  pose proof Hg as (Hst & Hok & Hcap). rewrite <- Hc in *.
  pose proof (csum_nonneg _ Hok) as Hnn.
  unfold quicklistGetIteratorAtIdx. unfold mbind at 1, M_bind at 1.
  rewrite (quicklistIndex_st _ _ _ _ _ _ _ idx initEntry Hst).
  rewrite index_abs_miss; [done|done|done|].
  unfold abs_pos. destruct (idx <? 0) eqn:E;
    [apply Z.ltb_lt in E|apply Z.ltb_ge in E]; lia.
Qed.

Lemma quicklistGetIteratorAtIdx_out_of_range_witness :
  quicklistGetIteratorAtIdx 1%positive AL_START_HEAD (-4) demo =
    Done (None, demo).
Proof.
  apply (quicklistGetIteratorAtIdx_out_of_range 1%positive demo None
           [ZStr "a"; ZStr "b"; ZStr "c"] AL_START_HEAD (-4)).
  - apply live_demo.
  - vm_compute. reflexivity.
  - unfold LLONG_MIN, LLONG_MAX. lia.
  - right. cbn. lia.
Defined.

(** ** Range deletion, on the entry sequence *)

Lemma zdr_nonneg (zl : ziplist) i num :
  0 ≤ i < Z.of_nat (length zl) → 0 ≤ num →
  ziplistDeleteRange zl i num =
    take (Z.to_nat i) zl ++ drop (Z.to_nat i + Z.to_nat num) zl.
Proof.
  intros Hi Hn. unfold ziplistDeleteRange.
  rewrite ziplistIndex_nonneg by done.
  by rewrite (proj2 (Z.ltb_ge num 0)) by lia.
Qed.

Lemma zdr_neg (zl : ziplist) i num :
  - Z.of_nat (length zl) ≤ i < 0 → 0 ≤ num →
  ziplistDeleteRange zl i num =
    take (Z.to_nat (Z.of_nat (length zl) + i)) zl ++
    drop (Z.to_nat (Z.of_nat (length zl) + i) + Z.to_nat num) zl.
Proof.
  intros Hi Hn. unfold ziplistDeleteRange.
  rewrite ziplistIndex_neg by done.
  by rewrite (proj2 (Z.ltb_ge num 0)) by lia.
Qed.

Lemma delrange_abs_rest_entries A2 : ∀ A1 extent cnt,
  Forall entry_ok A2 → csum A2 ≤ cnt → cnt < 2 ^ 64 →
  0 ≤ extent ≤ csum A2 →
  ∃ B, delrange_abs A1 A2 extent 0 cnt = Some (B, cnt - extent) ∧
       concat (B.*2.*1) =
         concat (A1.*2.*1) ++ drop (Z.to_nat extent) (concat (A2.*2.*1)).
Proof.
  induction A2 as [|[a [zl c]] A2 IH]; intros A1 extent cnt H2 Hc Hcap He;
    cbn [delrange_abs]; destruct (extent =? 0) eqn:E0;
    [apply Z.eqb_eq in E0|apply Z.eqb_neq in E0
    |apply Z.eqb_eq in E0|apply Z.eqb_neq in E0].
  - subst extent. exists (A1 ++ []). split; [by rewrite Z.sub_0_r|].
    by rewrite app_nil_r, app_nil_r.
  - cbn in He. lia.
  - subst extent. eexists. split; [by rewrite Z.sub_0_r|].
    by rewrite !fmap_app, concat_app.
  - apply Forall_cons_ok in H2 as [Ha H2].
    pose proof (csum_nonneg _ H2) as Hn2.
    pose proof Ha as [Hac Har]. cbn [fst snd] in Hac, Har.
    rewrite csum_cons in Hc, He. cbn [fst snd] in Hc, He. unfold INT_MAX in *.
    cbn [fmap list_fmap fst snd concat].
    unfold range_del. destruct (Z_le_gt_dec c extent) as [Hle|Hgt].
    + bool_simpl. rewrite !wrap64_id by lia.
      destruct (IH A1 (extent - c) (cnt - c) H2 ltac:(lia) ltac:(lia)
                  ltac:(lia)) as (B & -> & HB).
      exists B. split; [do 2 f_equal; lia|]. rewrite HB. f_equal.
      rewrite drop_app_ge by lia. f_equal. lia.
    + bool_simpl. rewrite wrap32_small by lia.
      bool_simpl. rewrite Z.sub_diag. change (wrap64 0) with 0.
      rewrite delrange_abs_0. rewrite wrap64_id by lia.
      eexists. split; [done|].
      rewrite zdr_nonneg by lia. change (Z.to_nat 0) with 0%nat.
      cbn [take app Nat.add].
      rewrite !fmap_app, !concat_app. cbn [fmap list_fmap fst snd concat].
      rewrite app_nil_r, <- app_assoc. f_equal.
      by rewrite drop_app_le by lia.
Qed.

Lemma delrange_abs_first_entries A1 a (zl : ziplist) c A2 extent off cnt :
  entry_ok (a, (zl, c)) → Forall entry_ok A2 →
  c + csum A2 ≤ cnt → cnt < 2 ^ 64 → 0 ≤ off < c → 0 < extent →
  off + extent ≤ c + csum A2 →
  off = 0 ∨ extent ≤ c - off ∨ c < extent →
  ∃ B, delrange_abs A1 ((a, (zl, c)) :: A2) extent off cnt =
         Some (B, cnt - extent) ∧
       concat (B.*2.*1) =
         concat (A1.*2.*1) ++ take (Z.to_nat off) zl ++
         drop (Z.to_nat extent) (drop (Z.to_nat off) zl ++ concat (A2.*2.*1)).
Proof.
  intros Ha H2 Hc Hcap Ho He Hin Hcase.
  pose proof (csum_nonneg _ H2) as Hn2.
  pose proof Ha as [Hac Har]. cbn [fst snd] in Hac, Har. unfold INT_MAX in *.
  destruct (Z.eq_dec off 0) as [->|Hoff].
  { destruct (delrange_abs_rest_entries ((a, (zl, c)) :: A2) A1 extent cnt)
      as (B & HB & HBe).
    - by apply Forall_cons_ok.
    - rewrite csum_cons. cbn [fst snd]. lia.
    - done.
    - rewrite csum_cons. cbn [fst snd]. lia.
    - exists B. split; [done|]. rewrite HBe.
      change (Z.to_nat 0) with 0%nat. by rewrite take_0, drop_0. }
  destruct Hcase as [?|[Hfit|Hlong]]; [done| |].
  - cbn [delrange_abs]. bool_simpl. unfold range_del. bool_simpl.
    rewrite wrap32_small by lia. bool_simpl.
    rewrite Z.sub_diag. change (wrap64 0) with 0.
    rewrite delrange_abs_0. rewrite wrap64_id by lia.
    eexists. split; [done|].
    rewrite zdr_nonneg by lia.
    rewrite !fmap_app, !concat_app. cbn [fmap list_fmap fst snd concat].
    rewrite app_nil_r, <- !app_assoc. f_equal. f_equal.
    rewrite drop_app_le by (rewrite length_drop; lia).
    by rewrite drop_drop.
  - cbn [delrange_abs]. bool_simpl. unfold range_del. bool_simpl.
    rewrite (wrap32_small (c - off)) by lia.
    replace (c - (c - off)) with off by lia.
    rewrite (wrap32_small off) by lia. bool_simpl.
    rewrite !wrap64_id by lia.
    destruct (delrange_abs_rest_entries A2
                (A1 ++ [(a, (ziplistDeleteRange zl off (c - off), off))])
                (extent - (c - off)) (cnt - (c - off)) H2 ltac:(lia)
                ltac:(lia) ltac:(lia)) as (B & -> & HB).
    exists B. split; [do 2 f_equal; lia|]. rewrite HB.
    rewrite chain_snoc_entries, <- app_assoc. f_equal.
    rewrite zdr_nonneg by lia.
    rewrite (drop_ge zl) by lia. rewrite app_nil_r. f_equal.
    rewrite drop_app_ge by (rewrite length_drop; lia).
    f_equal. rewrite length_drop. lia.
Qed.

Lemma delrange_abs_tail_entries A1 a (zl : ziplist) c A2 off cnt :
  entry_ok (a, (zl, c)) → Forall entry_ok A2 →
  c + csum A2 ≤ cnt → cnt < 2 ^ 64 → - c ≤ off < 0 →
  ∃ B, delrange_abs A1 ((a, (zl, c)) :: A2) (- off + csum A2) off cnt =
         Some (B, cnt - (- off + csum A2)) ∧
       concat (B.*2.*1) =
         concat (A1.*2.*1) ++ take (Z.to_nat (c + off)) zl.
Proof.
  intros Ha H2 Hc Hcap Ho.
  pose proof (csum_nonneg _ H2) as Hn2.
  pose proof Ha as [Hac Har]. cbn [fst snd] in Hac, Har. unfold INT_MAX in *.
  cbn [delrange_abs]. rewrite (proj2 (Z.eqb_neq (- off + csum A2) 0)) by lia.
  unfold range_del. rewrite (proj2 (Z.eqb_neq off 0)) by lia. cbn [andb].
  rewrite Z.geb_leb, (proj2 (Z.leb_gt 0 off)) by lia. cbn [andb].
  rewrite (proj2 (Z.ltb_lt off 0)) by lia.
  rewrite (wrap64_id (- off)) by lia.
  rewrite Z.gtb_ltb, (proj2 (Z.ltb_ge (- off + csum A2) (- off))) by lia.
  replace (c - - off) with (c + off) by lia.
  rewrite (wrap32_small (c + off)) by lia.
  rewrite zdr_neg by lia. rewrite <- Hac.
  rewrite (drop_ge zl) by lia. rewrite app_nil_r.
  replace (- off + csum A2 - - off) with (csum A2) by lia.
  rewrite (wrap64_id (cnt - - off)) by lia.
  rewrite (wrap64_id (csum A2)) by lia.
  destruct (c + off =? 0) eqn:E0;
    [apply Z.eqb_eq in E0|apply Z.eqb_neq in E0].
  - rewrite wrap64_id by lia.
    destruct (delrange_abs_rest_entries A2 A1 (csum A2)
                (cnt - - off - (c + off)) H2 ltac:(lia) ltac:(lia)
                ltac:(lia)) as (B & HB1 & HB).
    exists B. split; [etransitivity; [exact HB1|do 2 f_equal; lia]|].
    rewrite HB.
    rewrite E0. change (Z.to_nat 0) with 0%nat. rewrite take_0.
    f_equal. apply drop_ge. rewrite <- (Nat2Z.id (length _)).
    rewrite <- (csum_entries A2 H2). lia.
  - destruct (delrange_abs_rest_entries A2
                (A1 ++ [(a, (take (Z.to_nat (c + off)) zl, c + off))])
                (csum A2) (cnt - - off) H2 ltac:(lia) ltac:(lia)
                ltac:(lia)) as (B & HB1 & HB).
    exists B. split; [etransitivity; [exact HB1|do 2 f_equal; lia]|].
    rewrite HB.
    rewrite chain_snoc_entries, <- app_assoc. f_equal.
    rewrite (drop_ge (concat _)); [by rewrite app_nil_r|].
    rewrite <- (Nat2Z.id (length _)).
    rewrite <- (csum_entries A2 H2). lia.
Qed.

Lemma range_entries (L1 zl X : list zlentry) off count :
  (off ≤ length zl)%nat →
  L1 ++ take off zl ++ drop count (drop off zl ++ X) =
    take (length L1 + off) (L1 ++ zl ++ X) ++
    drop (length L1 + off + count) (L1 ++ zl ++ X).
Proof.
  intros Hoff. rewrite take_app_add. rewrite (take_app_le zl) by done.
  rewrite <- app_assoc. f_equal. f_equal.
  rewrite <- Nat.add_assoc. rewrite (drop_app_ge L1) by lia.
  replace (length L1 + (off + count) - length L1)%nat with (off + count)%nat
    by lia.
  rewrite <- drop_drop. by rewrite (drop_app_le zl) by done.
Qed.

(** X20: [quicklistDelRange] on a live list, for a range that lies inside the
    list and does not overrun its first node from the middle, returns 1 and
    removes exactly the [count] entries from position [start] on; the total
    drops by [count]. *)
Theorem quicklistDelRange_entries ql σ oit es start count :
  live ql σ oit → quicklistEntries σ ql = Some es →
  0 ≤ start → 0 < count → start + count ≤ Z.of_nat (length es) →
  ¬ overruns σ ql start count →
  ∃ σ', quicklistDelRange ql start count σ = Done (1, σ') ∧
        quicklistEntries σ' ql =
          Some (take (Z.to_nat start) es ++
                drop (Z.to_nat (start + count)) es) ∧
        q_count <$> lists σ' !! ql = Some (Z.of_nat (length es) - count).
Proof.
  intros Hl Hes Hs Hn Hin Hnover.
  destruct (live_view _ _ _ _ Hl Hes) as (A & Hg & _ & -> & Hc).
  pose proof Hg as (Hst & Hok & Hcap). rewrite <- Hc in *.
  destruct (index_abs_forward ql start A Hok Hcap ltac:(lia))
    as (A1 & a & zl & c & A2 & -> & Hpos & Habs).
  pose proof Hok as Hok'. apply Forall_app_ok in Hok' as [Hok1 Hok'].
  apply Forall_cons_ok in Hok' as [Ha Hok2].
  pose proof Ha as [Hac Har]. cbn [fst snd] in Hac, Har.
  pose proof (csum_nonneg _ Hok1) as Hn1.
  pose proof (csum_nonneg _ Hok2) as Hn2.
  pose proof (csum_entries _ Hok1) as HL1.
  rewrite csum_app, csum_cons in Hin, Hcap. cbn [fst snd] in Hin, Hcap.
  set (cnt := csum (A1 ++ (a, (zl, c)) :: A2)) in *.
  assert (cnt = csum A1 + (c + csum A2)) as Hcnt.
  { unfold cnt. by rewrite csum_app, csum_cons. }
  set (off := start - csum A1) in *.
  assert (off = 0 ∨ count ≤ c - off ∨ c < count) as Hcase.
  { destruct (Z.eq_dec off 0) as [|Hoff]; [by left|]. right.
    destruct (Z_le_gt_dec count (c - off)) as [|Hgt]; [by left|]. right.
    destruct (Z_lt_le_dec c count) as [|Hle]; [done|]. exfalso.
    apply Hnover.
    exists (entry_at ql a zl (Z.to_nat off) off), a,
           (mkNode (last A1.*1) (head A2.*1) zl c).
    split.
    { rewrite (quicklistIndex_st _ _ _ _ _ _ _ start initEntry Hst).
      by rewrite Habs. }
    destruct (entry_at_node ql a zl (Z.to_nat off) off) as (-> & _ & -> & _).
    split; [done|]. split; [by eapply st_node|]. cbn [n_count].
    unfold off in *. lia. }
  assert (delrange_extent cnt start count = count) as Hext.
  { unfold delrange_extent. rewrite !wrap64_id by lia.
    rewrite Z.geb_leb, (proj2 (Z.leb_le 0 start)) by lia. cbn [andb].
    rewrite Z.gtb_ltb, (proj2 (Z.ltb_ge (cnt - start) count)) by lia.
    by rewrite (proj2 (Z.ltb_ge start 0)) by lia. }
  destruct (delrange_abs_first_entries A1 a zl c A2 count off cnt Ha Hok2
              ltac:(lia) ltac:(lia) ltac:(unfold off; lia) Hn
              ltac:(unfold off; lia) Hcase) as (B & HB1 & HBe).
  pose proof (quicklistDelRange_hit _ _ _ _ _ _ _ _ _ _ _ start count
                (Z.to_nat off) off Hst Hn Habs) as Hhit.
  rewrite Hext in Hhit.
  assert (∃ σ', quicklistDelRange ql start count σ = Done (1, σ') ∧
                st σ (A1 ++ (a, (zl, c)) :: A2).*1 σ' ql B (cnt - count) None)
    as (σ' & Hrun & Hst').
  { revert Hhit. fold cnt. generalize HB1.
    generalize (delrange_abs A1 ((a, (zl, c)) :: A2) count off cnt).
    by intros ? ->. }
  exists σ'. split; [done|].
  rewrite (st_obs_entries _ _ _ _ _ _ _ Hst'), HBe.
  rewrite (st_header _ _ _ _ _ _ _ Hst').
  cbn [fmap option_fmap option_map q_count]. split; [|done].
  f_equal. rewrite (fmap_app _ A1), (fmap_app _ (A1.*2)), concat_app.
  cbn [fmap list_fmap fst snd concat].
  rewrite range_entries by (unfold off; lia).
  f_equal; f_equal; unfold off; lia.
Qed.

Lemma quicklistDelRange_entries_witness :
  ∃ σ', quicklistDelRange 1%positive 1 1 demo = Done (1, σ') ∧
        quicklistEntries σ' 1%positive =
          Some (take (Z.to_nat 1) [ZStr "a"; ZStr "b"; ZStr "c"] ++
                drop (Z.to_nat (1 + 1)) [ZStr "a"; ZStr "b"; ZStr "c"]) ∧
        q_count <$> lists σ' !! 1%positive = Some (Z.of_nat 3 - 1).
Proof.
  apply (quicklistDelRange_entries 1%positive demo None
           [ZStr "a"; ZStr "b"; ZStr "c"] 1 1).
  - apply live_demo.
  - vm_compute. reflexivity.
  - lia.
  - lia.
  - cbn. lia.
  - intros (e & a & n & Hidx & Hnode & Hn & Hoff & Hcnt).
    vm_compute in Hidx. injection Hidx as <-. cbn in Hnode, Hoff, Hcnt.
    injection Hnode as <-. vm_compute in Hn. injection Hn as <-.
    cbn in Hcnt. lia.
Defined.

Lemma delrange_abs_rest_short A2 : ∀ A1 extent cnt,
  Forall entry_ok A2 → csum A2 ≤ cnt → cnt < 2 ^ 64 →
  csum A2 < extent < 2 ^ 64 →
  delrange_abs A1 A2 extent 0 cnt = None.
Proof.
  induction A2 as [|[a [zl c]] A2 IH]; intros A1 extent cnt H2 Hc Hcap He;
    cbn [delrange_abs].
  - cbn in He. by rewrite (proj2 (Z.eqb_neq extent 0)) by lia.
  - apply Forall_cons_ok in H2 as [Ha H2].
    pose proof (csum_nonneg _ H2) as Hn2.
    pose proof Ha as [Hac Har]. cbn [fst snd] in Hac, Har.
    rewrite csum_cons in Hc, He. cbn [fst snd] in Hc, He. unfold INT_MAX in *.
    rewrite (proj2 (Z.eqb_neq extent 0)) by lia.
    unfold range_del. cbn [andb Z.eqb].
    rewrite Z.geb_leb, (proj2 (Z.leb_le c extent)) by lia.
    rewrite !wrap64_id by lia. apply IH; try done; lia.
Qed.

(** X21: [quicklistDelRange] on a live list with a negative start [-k] that is
    in range removes the last [k] entries when [count] is [k], or when [count]
    exceeds the total minus [k] plus 1, where the source caps it. *)
Theorem quicklistDelRange_tail ql σ oit es k count :
  live ql σ oit → quicklistEntries σ ql = Some es →
  0 < k ≤ Z.of_nat (length es) → count ≤ LLONG_MAX →
  count = k ∨ Z.of_nat (length es) - k + 1 < count →
  ∃ σ', quicklistDelRange ql (- k) count σ = Done (1, σ') ∧
        quicklistEntries σ' ql =
          Some (take (Z.to_nat (Z.of_nat (length es) - k)) es) ∧
        q_count <$> lists σ' !! ql = Some (Z.of_nat (length es) - k).
Proof.
  intros Hl Hes Hk Hmax Hcount.
  destruct (live_view _ _ _ _ Hl Hes) as (A & Hg & _ & -> & Hc).
  pose proof Hg as (Hst & Hok & Hcap). rewrite <- Hc in *.
  destruct (index_abs_backward ql (csum A - k) A Hok Hcap ltac:(lia))
    as (A1 & a & zl & c & A2 & -> & Hpos & Habs).
  pose proof Hok as Hok'. apply Forall_app_ok in Hok' as [Hok1 Hok'].
  apply Forall_cons_ok in Hok' as [Ha Hok2].
  pose proof Ha as [Hac Har]. cbn [fst snd] in Hac, Har.
  pose proof (csum_nonneg _ Hok1) as Hn1.
  pose proof (csum_nonneg _ Hok2) as Hn2.
  pose proof (csum_entries _ Hok1) as HL1.
  set (cnt := csum (A1 ++ (a, (zl, c)) :: A2)) in *.
  assert (cnt = csum A1 + (c + csum A2)) as Hcnt.
  { unfold cnt. by rewrite csum_app, csum_cons. }
  replace (- (cnt - (cnt - k))) with (- k) in Habs by lia.
  set (off := cnt - k - csum A1 - c) in *.
  assert (delrange_extent cnt (- k) count = - off + csum A2) as Hext.
  { unfold delrange_extent, LLONG_MAX in *.
    rewrite Z.geb_leb, (proj2 (Z.leb_gt 0 (- k))) by lia. cbn [andb].
    rewrite (proj2 (Z.ltb_lt (- k) 0)) by lia. cbn [andb].
    rewrite Z.opp_involutive. rewrite !wrap64_id by lia.
    rewrite Z.gtb_ltb.
    destruct (cnt - k + 1 <? count) eqn:E;
      [apply Z.ltb_lt in E|apply Z.ltb_ge in E]; unfold off; lia. }
  destruct (delrange_abs_tail_entries A1 a zl c A2 off cnt Ha Hok2
              ltac:(lia) ltac:(lia) ltac:(unfold off; lia))
    as (B & HB1 & HBe).
  assert (0 < count) as Hn by lia.
  pose proof (quicklistDelRange_hit _ _ _ _ _ _ _ _ _ _ _ (- k) count
                _ off Hst Hn Habs) as Hhit.
  rewrite Hext in Hhit.
  assert (∃ σ', quicklistDelRange ql (- k) count σ = Done (1, σ') ∧
                st σ (A1 ++ (a, (zl, c)) :: A2).*1 σ' ql B
                   (cnt - (- off + csum A2)) None)
    as (σ' & Hrun & Hst').
  { revert Hhit. fold cnt. generalize HB1.
    generalize (delrange_abs A1 ((a, (zl, c)) :: A2) (- off + csum A2) off
                  cnt).
    by intros ? ->. }
  exists σ'. split; [done|].
  rewrite (st_obs_entries _ _ _ _ _ _ _ Hst'), HBe.
  rewrite (st_header _ _ _ _ _ _ _ Hst').
  cbn [fmap option_fmap option_map q_count]. split; [|f_equal; unfold off; lia].
  f_equal. rewrite (fmap_app _ A1), (fmap_app _ (A1.*2)), concat_app.
  cbn [fmap list_fmap fst snd concat].
  replace (Z.to_nat (cnt - k))
    with (length (concat (A1.*2.*1)) + Z.to_nat (c + off))%nat
    by (unfold off; lia).
  rewrite take_app_add. f_equal. by rewrite take_app_le by lia.
Qed.

Lemma quicklistDelRange_tail_witness :
  ∃ σ', quicklistDelRange 1%positive (- 2) 2 demo = Done (1, σ') ∧
        quicklistEntries σ' 1%positive =
          Some (take (Z.to_nat (Z.of_nat 3 - 2))
                     [ZStr "a"; ZStr "b"; ZStr "c"]) ∧
        q_count <$> lists σ' !! 1%positive = Some (Z.of_nat 3 - 2).
Proof.
  apply (quicklistDelRange_tail 1%positive demo None
           [ZStr "a"; ZStr "b"; ZStr "c"] 2 2).
  - apply live_demo.
  - vm_compute. reflexivity.
  - cbn. lia.
  - unfold LLONG_MAX. lia.
  - by left.
Defined.

(** X22: [quicklistDelRange] on a live list with a negative start [-k] that is
    in range traps when [count] is more than [k] and at most the total minus
    [k] plus 1: the extent is then not capped, and the loop runs off the end
    of the chain. *)
Theorem quicklistDelRange_tail_traps ql σ oit es k count :
  live ql σ oit → quicklistEntries σ ql = Some es →
  0 < k ≤ Z.of_nat (length es) →
  k < count ≤ Z.of_nat (length es) - k + 1 →
  quicklistDelRange ql (- k) count σ = Fault.
Proof.
  intros Hl Hes Hk Hcount.
  destruct (live_view _ _ _ _ Hl Hes) as (A & Hg & _ & -> & Hc).
  pose proof Hg as (Hst & Hok & Hcap). rewrite <- Hc in *.
  destruct (index_abs_backward ql (csum A - k) A Hok Hcap ltac:(lia))
    as (A1 & a & zl & c & A2 & -> & Hpos & Habs).
  pose proof Hok as Hok'. apply Forall_app_ok in Hok' as [Hok1 Hok'].
  apply Forall_cons_ok in Hok' as [Ha Hok2].
  pose proof Ha as [Hac Har]. cbn [fst snd] in Hac, Har.
  pose proof (csum_nonneg _ Hok1) as Hn1.
  pose proof (csum_nonneg _ Hok2) as Hn2.
  set (cnt := csum (A1 ++ (a, (zl, c)) :: A2)) in *.
  assert (cnt = csum A1 + (c + csum A2)) as Hcnt.
  { unfold cnt. by rewrite csum_app, csum_cons. }
  replace (- (cnt - (cnt - k))) with (- k) in Habs by lia.
  set (off := cnt - k - csum A1 - c) in *.
  assert (delrange_extent cnt (- k) count = count) as Hext.
  { unfold delrange_extent.
    rewrite Z.geb_leb, (proj2 (Z.leb_gt 0 (- k))) by lia. cbn [andb].
    rewrite (proj2 (Z.ltb_lt (- k) 0)) by lia. cbn [andb].
    rewrite Z.opp_involutive. rewrite !wrap64_id by lia.
    by rewrite Z.gtb_ltb, (proj2 (Z.ltb_ge (cnt - k + 1) count)) by lia. }
  assert (0 < count) as Hn by lia.
  pose proof (quicklistDelRange_hit _ _ _ _ _ _ _ _ _ _ _ (- k) count
                _ off Hst Hn Habs) as Hhit.
  rewrite Hext in Hhit.
  assert (delrange_abs A1 ((a, (zl, c)) :: A2) count off cnt = None) as HN.
  { unfold INT_MAX in *. cbn [delrange_abs].
    rewrite (proj2 (Z.eqb_neq count 0)) by lia.
    unfold range_del. rewrite (proj2 (Z.eqb_neq off 0)) by (unfold off; lia).
    cbn [andb].
    rewrite Z.geb_leb, (proj2 (Z.leb_gt 0 off)) by (unfold off; lia).
    cbn [andb]. rewrite (proj2 (Z.ltb_lt off 0)) by (unfold off; lia).
    rewrite (wrap64_id (- off)) by (unfold off; lia).
    rewrite Z.gtb_ltb, (proj2 (Z.ltb_ge count (- off)))
      by (unfold off; lia).
    replace (c - - off) with (c + off) by lia.
    rewrite (wrap32_small (c + off)) by (unfold off; lia).
    rewrite (wrap64_id (cnt - - off)) by (unfold off; lia).
    rewrite (wrap64_id (count - - off)) by (unfold off; lia).
    destruct (c + off =? 0) eqn:E0;
      [apply Z.eqb_eq in E0|apply Z.eqb_neq in E0].
    - rewrite wrap64_id by (unfold off in *; lia).
      apply delrange_abs_rest_short; try done; unfold off in *; lia.
    - apply delrange_abs_rest_short; try done; unfold off in *; lia. }
  revert Hhit. fold cnt. generalize HN.
  generalize (delrange_abs A1 ((a, (zl, c)) :: A2) count off cnt).
  by intros ? ->.
Qed.

Lemma quicklistDelRange_tail_traps_witness :
  quicklistDelRange 1%positive (- 1) 2 demo = Fault.
Proof.
  apply (quicklistDelRange_tail_traps 1%positive demo None
           [ZStr "a"; ZStr "b"; ZStr "c"] 1 2).
  - apply live_demo.
  - vm_compute. reflexivity.
  - cbn. lia.
  - cbn. lia.
Defined.

(** X23: [quicklistDelRange] on a live list returns 0 and changes nothing when
    [count] is not positive or [start] is out of range. *)
Theorem quicklistDelRange_nothing ql σ oit es start count :
  live ql σ oit → quicklistEntries σ ql = Some es →
  LLONG_MIN ≤ start ≤ LLONG_MAX →
  count ≤ 0 ∨ Z.of_nat (length es) ≤ start ∨
    start < - Z.of_nat (length es) →
  quicklistDelRange ql start count σ = Done (0, σ).
Proof.
  intros Hl Hes Hr Hcase.
  destruct (live_view _ _ _ _ Hl Hes) as (A & Hg & _ & -> & Hc).
  pose proof Hg as (Hst & Hok & Hcap). rewrite <- Hc in *.
  pose proof (csum_nonneg _ Hok) as Hnn.
  eapply quicklistDelRange_miss; [exact Hst|].
  destruct Hcase as [?|Hout]; [by left|right].
  apply index_abs_miss; [done|done|].
  unfold abs_pos. destruct (start <? 0) eqn:E;
    [apply Z.ltb_lt in E|apply Z.ltb_ge in E]; lia.
Qed.

Lemma quicklistDelRange_nothing_witness :
  quicklistDelRange 1%positive 3 1 demo = Done (0, demo).
Proof.
  apply (quicklistDelRange_nothing 1%positive demo None
           [ZStr "a"; ZStr "b"; ZStr "c"] 3 1).
  - apply live_demo.
  - vm_compute. reflexivity.
  - unfold LLONG_MIN, LLONG_MAX. lia.
  - right. left. cbn. lia.
Defined.

(** ** Release *)

Lemma release_loop_wp ql : ∀ (R : chain) fuel σ l,
  (length R < fuel)%nat → Z.of_nat (length R) < 2 ^ 64 →
  lists σ !! ql = Some l → NoDup R.*1 →
  (∀ R1 a zl c R2, R = R1 ++ (a, (zl, c)) :: R2 →
     ∃ p, nodes σ !! a = Some (mkNode p (head R2.*1) zl c)) →
  wp (release_loop fuel ql (Z.of_nat (length R)) (head R.*1)) σ (λ _ σ',
    (∃ l', lists σ' = <[ql := l']> (lists σ)) ∧
    (∀ a, nodes σ' !! a =
            if bool_decide (a ∈ R.*1) then None else nodes σ !! a) ∧
    brk σ' = brk σ ∧ uninit σ' = uninit σ ∧ stray σ' = stray σ).
Proof.
  induction R as [|[a [zl c]] R IH]; intros fuel σ l Hf Hlen Hl Hnd Hlk.
  - eapply (wp_eq _ _ tt σ); [by destruct fuel|].
    split; [|done]. exists l. by rewrite insert_id.
  - destruct fuel as [|fuel]; [cbn in Hf; lia|].
    cbn [length] in Hlen, Hf. cbn [fmap list_fmap fst] in Hnd.
    apply NoDup_cons in Hnd as [Ha Hnd].
    destruct (Hlk [] a zl c R eq_refl) as [p Hn].
    cbn [release_loop length head fmap list_fmap fst].
    rewrite (proj2 (Z.eqb_neq _ 0)) by lia.
    replace (wrap64 (Z.of_nat (S (length R)) - 1))
      with (Z.of_nat (length R)) by (rewrite wrap64_id; lia).
    wp_steps. mem_simpl.
    eapply wp_mono.
    + eapply (IH fuel _ _ ltac:(lia) ltac:(lia)).
      * mem_simpl. apply lookup_insert_eq.
      * done.
      * intros R1 b zb cb R2 ->.
        destruct (Hlk ((a, (zl, c)) :: R1) b zb cb R2 eq_refl) as [q Hq].
        exists q. mem_simpl. rewrite lookup_delete_ne; [done|].
        intros ->. apply Ha. rewrite fmap_app. cbn.
        apply elem_of_app. right. left.
    + intros [] σ' ([l' Hl'] & Hnodes & Hb & Hu & Hs). mem_simpl.
      revert Hl' Hnodes Hb Hu Hs. mem_simpl. intros Hl' Hnodes Hb Hu Hs.
      split; [|split; [|done]].
      * exists l'. rewrite Hl'. by rewrite !insert_insert_eq.
      * intros x. rewrite Hnodes.
        destruct (decide (x = a)) as [->|Hx].
        -- rewrite lookup_delete_eq.
           rewrite (bool_decide_true (a ∈ a :: R.*1)) by left.
           by destruct (bool_decide _).
        -- rewrite lookup_delete_ne by done.
           destruct (decide (x ∈ R.*1)) as [Hin|Hin].
           ++ rewrite !bool_decide_true; [done|by right|done].
           ++ rewrite !bool_decide_false; [done| |done].
              intros [?|?]%elem_of_cons; done.
Qed.

Lemma wp_freeList q l0 σ (Q : unit → mem → Prop) :
  lists σ !! q = Some l0 →
  Q tt (with_lists σ (delete q (lists σ))) → wp (freeList q) σ Q.
Proof. intros H HQ. unfold wp, freeList. by rewrite H. Qed.

(** X24: [quicklistRelease] on a live list completes and frees exactly the
    nodes of the list and its header: every other node and every other list of
    the store is as it was, and nothing is allocated. *)
Theorem quicklistRelease_frees ql σ oit ns :
  live ql σ oit → quicklistNodes σ ql = Some ns →
  ∃ σ', quicklistRelease ql σ = Done (tt, σ') ∧
        lists σ' = delete ql (lists σ) ∧
        (∀ a, nodes σ' !! a =
                if bool_decide (a ∈ ns.*1) then None else nodes σ !! a) ∧
        brk σ' = brk σ.
Proof.
  intros Hl Hns. destruct (live_good _ _ _ Hl) as (A & Hg & _).
  pose proof Hg as (Hst & Hok & Hcap).
  rewrite (st_nodes _ _ _ _ _ _ _ Hst) in Hns. injection Hns as <-.
  rewrite recs_fst.
  pose proof (length_le_csum _ Hok) as Hlen.
  pose proof (st_size _ _ _ _ _ _ _ Hst) as Hsz.
  assert (wp (quicklistRelease ql) σ (λ _ σ',
            lists σ' = delete ql (lists σ) ∧
            (∀ a, nodes σ' !! a =
                    if bool_decide (a ∈ A.*1) then None else nodes σ !! a) ∧
            brk σ' = brk σ)) as Hwp.
  { unfold quicklistRelease. apply wp_bind.
    eapply wp_getList; [exact (st_header _ _ _ _ _ _ _ Hst)|].
    cbn [q_len q_head]. wp_steps.
    eapply wp_mono.
    - assert (length A < S (size (nodes σ)))%nat as Hfuel by lia.
      assert (Z.of_nat (length A) < 2 ^ 64) as Hlen' by lia.
      eapply (release_loop_wp ql A _ σ _ Hfuel Hlen'
                (st_header _ _ _ _ _ _ _ Hst) (st_nodup _ _ _ _ _ _ _ Hst)).
      intros R1 a zl c R2 ->. eexists. by eapply st_node.
    - intros [] σ1 ([l' Hl'] & Hnodes & Hb & _).
      eapply wp_freeList; [rewrite Hl'; apply lookup_insert_eq|].
      mem_simpl. rewrite Hl'. split; [|done].
      by rewrite delete_insert_eq. }
  apply wp_done in Hwp as ([] & σ' & Hrun & H). by exists σ'.
Qed.

Lemma quicklistRelease_frees_witness :
  ∃ σ', quicklistRelease 1%positive demo = Done (tt, σ') ∧
        lists σ' = delete 1%positive (lists demo) ∧
        (∀ a, nodes σ' !! a =
                if bool_decide
                     (a ∈ [(2%positive, mkNode None (Some 3%positive)
                                          [ZStr "a"; ZStr "b"] 2);
                           (3%positive, mkNode (Some 2%positive) None
                                          [ZStr "c"] 1)].*1)
                then None else nodes demo !! a) ∧
        brk σ' = brk demo.
Proof.
  apply (quicklistRelease_frees 1%positive demo None).
  - apply live_demo.
  - vm_compute. reflexivity.
Defined.

(** ** Creation *)

(** X25: [quicklistCreate] on a well-formed store returns an address that held
    no list, now holding an empty live list: no node, no entry, total and
    length 0. No node and no other list changes. *)
Theorem quicklistCreate_fresh σ :
  heap_ok σ →
  ∃ ql σ', quicklistCreate σ = Done (ql, σ') ∧ lists σ !! ql = None ∧
           live ql σ' None ∧
           lists σ' !! ql = Some (mkList None None 0 0) ∧
           quicklistNodes σ' ql = Some [] ∧
           quicklistEntries σ' ql = Some [] ∧
           nodes σ' = nodes σ ∧
           ∀ q, q ≠ ql → lists σ' !! q = lists σ !! q.
Proof.
  intros Hh. exists (brk σ), (created σ). split; [done|].
  split; [by apply heap_ok_fresh_list|].
  split; [exists σ, (created σ); split; [done|]; split; [done|apply acts_nil]|].
  pose proof (good_created σ Hh) as Hg. destruct Hg as (Hst & _).
  split; [exact (st_header _ _ _ _ _ _ _ Hst)|].
  split; [exact (st_nodes _ _ _ _ _ _ _ Hst)|].
  split; [exact (st_obs_entries _ _ _ _ _ _ _ Hst)|].
  split; [done|]. intros q Hq. cbn. by rewrite lookup_insert_ne.
Qed.

Lemma quicklistCreate_fresh_witness :
  ∃ ql σ', quicklistCreate emptyMem = Done (ql, σ') ∧
           lists emptyMem !! ql = None ∧ live ql σ' None ∧
           lists σ' !! ql = Some (mkList None None 0 0) ∧
           quicklistNodes σ' ql = Some [] ∧
           quicklistEntries σ' ql = Some [] ∧
           nodes σ' = nodes emptyMem ∧
           ∀ q, q ≠ ql → lists σ' !! q = lists emptyMem !! q.
Proof. apply (quicklistCreate_fresh emptyMem). apply heap_ok_empty. Defined.

(** ** Splitting a node *)

Lemma chain_from_lookup fuel σ : ∀ p ns a n,
  chain_from fuel σ p = Some ns → (a, n) ∈ ns → nodes σ !! a = Some n.
Proof.
  induction fuel as [|fuel IH]; intros [b|] ns a n H Hin; cbn in H.
  - done.
  - injection H as <-. by apply elem_of_nil in Hin.
  - destruct (nodes σ !! b) as [nb|] eqn:Eb; [|done].
    destruct (chain_from fuel σ (n_next nb)) as [rest|] eqn:Er; [|done].
    cbn in H. injection H as <-.
    apply elem_of_cons in Hin as [[= -> ->]|Hin]; [done|].
    by eapply IH.
  - injection H as <-. by apply elem_of_nil in Hin.
Qed.

Lemma chain_of_fst ns : (chain_of ns).*1 = ns.*1.
Proof. induction ns as [|[a n] ns IH]; [done|]. cbn. by rewrite <- IH. Qed.

Lemma quicklistNodes_lookup σ ql ns a n :
  quicklistNodes σ ql = Some ns → (a, n) ∈ ns → nodes σ !! a = Some n.
Proof.
  unfold quicklistNodes. destruct (lists σ !! ql); [|done].
  apply chain_from_lookup.
Qed.

(** X26: [_quicklistSplitNode] on a node of a live list, at the position of
    one of its entries, returns a fresh node that is not linked into the list.
    With [after] set the node keeps its entries up to and including that
    position and the new node holds the rest; otherwise the new node holds the
    entries before the position and the node keeps the rest. Both counts are
    the numbers of entries held, the links of the node and the header of the
    list stay. *)
Theorem quicklistSplitNode_parts ql σ oit N1 a n N2 i (after : bool) :
  live ql σ oit → quicklistNodes σ ql = Some (N1 ++ (a, n) :: N2) →
  (i < length (n_zl n))%nat →
  ∃ new σ',
    _quicklistSplitNode a (Z.of_nat i) after σ = Done (new, σ') ∧
    nodes σ !! new = None ∧ (new ∉ (N1 ++ (a, n) :: N2).*1) ∧
    nodes σ' !! a =
      Some (mkNode (n_prev n) (n_next n)
              (if after then take (S i) (n_zl n) else drop i (n_zl n))
              (if after then Z.of_nat (S i)
               else Z.of_nat (length (n_zl n) - i))) ∧
    nodes σ' !! new =
      Some (mkNode None None
              (if after then drop (S i) (n_zl n) else take i (n_zl n))
              (if after then Z.of_nat (length (n_zl n) - S i)
               else Z.of_nat i)) ∧
    lists σ' !! ql = lists σ !! ql.
Proof.
  intros Hl Hns Hi.
  pose proof (live_chain _ _ _ _ Hl Hns) as Hg.
  pose proof Hg as (Hst & Hok & Hcap).
  rewrite chain_of_app in Hst, Hok. cbn [chain_of fmap list_fmap fst snd] in *.
  fold (chain_of N2) in *.
  pose proof Hok as Hok'. apply Forall_app_ok in Hok' as [_ Hok'].
  apply Forall_cons_ok in Hok' as [[Hca Hra] _]. cbn [fst snd] in Hca, Hra.
  pose proof (st_node _ _ _ _ _ _ _ _ _ _ _ Hst) as Hnode.
  pose proof (quicklistSplitNode_st _ _ _ _ _ _ _ _ _ _ (Z.of_nat i) after
                Hst) as Hwp.
  apply wp_done in Hwp as (r & σ' & Hrun & -> & Hst').
  exists (brk σ), σ'. split; [done|].
  pose proof (st_heap _ _ _ _ _ _ _ Hst) as Hh.
  split; [by apply heap_ok_fresh_node|].
  destruct (st_loose _ _ _ _ _ _ _ Hst') as [Hnew Hnotin].
  pose proof (st_node _ _ _ _ _ _ _ _ _ _ _ Hst') as Hnode'.
  assert (n = mkNode (last (chain_of N1).*1) (head (chain_of N2).*1)
                     (n_zl n) (n_count n)) as Hn.
  { assert (nodes σ !! a = Some n) as Hlk.
    { eapply quicklistNodes_lookup; [exact Hns|].
      apply elem_of_app. right. left. }
    pose proof (eq_trans (eq_sym Hlk) Hnode) as E.
    by injection E. }
  split.
  { intros Hin. apply Hnotin. revert Hin.
    rewrite !fmap_app. cbn [fmap list_fmap fst].
    by rewrite !chain_of_fst. }
  assert (Z.of_nat (length (n_zl n)) ≤ INT_MAX) as Hlen by lia.
  rewrite Hn. cbn [n_prev n_next n_zl n_count].
  rewrite (st_header _ _ _ _ _ _ _ Hst'), (st_header _ _ _ _ _ _ _ Hst).
  destruct after.
  - destruct (split_after (n_zl n) i Hi Hlen) as [Eo Enw].
    rewrite Eo in Hnode'. rewrite Enw in Hnew.
    rewrite !ziplistLen_small in Hnode', Hnew
      by (rewrite ?length_take, ?length_drop; lia).
    rewrite length_take in Hnode'. rewrite length_drop in Hnew.
    replace (S i `min` length (n_zl n))%nat with (S i) in Hnode' by lia.
    split; [exact Hnode'|]. split; [exact Hnew|].
    by rewrite !fmap_app, !length_app.
  - destruct (split_before (n_zl n) i Hi) as [Eo Enw].
    rewrite Eo in Hnode'. rewrite Enw in Hnew.
    rewrite !ziplistLen_small in Hnode', Hnew
      by (rewrite ?length_take, ?length_drop; lia).
    rewrite length_drop in Hnode'. rewrite length_take in Hnew.
    replace (i `min` length (n_zl n))%nat with i in Hnew by lia.
    split; [exact Hnode'|]. split; [exact Hnew|].
    by rewrite !fmap_app, !length_app.
Qed.

Lemma quicklistSplitNode_parts_witness :
  ∃ new σ',
    _quicklistSplitNode 2%positive (Z.of_nat 0) true demo = Done (new, σ') ∧
    nodes demo !! new = None ∧
    (new ∉ ([] ++ (2%positive, mkNode None (Some 3%positive)
                                 [ZStr "a"; ZStr "b"] 2)
               :: [(3%positive, mkNode (Some 2%positive) None
                                  [ZStr "c"] 1)]).*1) ∧
    nodes σ' !! 2%positive =
      Some (mkNode None (Some 3%positive) (take 1 [ZStr "a"; ZStr "b"])
                   (Z.of_nat 1)) ∧
    nodes σ' !! new =
      Some (mkNode None None (drop 1 [ZStr "a"; ZStr "b"])
                   (Z.of_nat (2 - 1))) ∧
    lists σ' !! 1%positive = lists demo !! 1%positive.
Proof.
  apply (quicklistSplitNode_parts 1%positive demo None []
           2%positive (mkNode None (Some 3%positive) [ZStr "a"; ZStr "b"] 2)
           [(3%positive, mkNode (Some 2%positive) None [ZStr "c"] 1)]
           0%nat true).
  - apply live_demo.
  - vm_compute. reflexivity.
  - cbn. lia.
Defined.

(** ** The layout of a copy *)

(** X27: [quicklistDup] copies a live list node by node: the copy has as many
    nodes as the original, each holding the block and the count of the
    corresponding node, in cells that were not allocated before. *)
Theorem quicklistDup_layout ql σ oit ns :
  live ql σ oit → quicklistNodes σ ql = Some ns →
  ∃ copy σ' ns',
    quicklistDup ql σ = Done (Some copy, σ') ∧
    quicklistNodes σ' copy = Some ns' ∧
    (chain_of ns').*2 = (chain_of ns).*2 ∧
    ∀ a, a ∈ ns'.*1 → nodes σ !! a = None.
Proof.
  intros Hl Hns.
  pose proof (live_chain _ _ _ _ Hl Hns) as Hg.
  pose proof Hg as (Hst & Hok & Hcap).
  pose proof (st_heap _ _ _ _ _ _ _ Hst) as Hh.
  pose proof (quicklistDup_st _ _ _ _ _ Hst Hok Hcap) as Hwp.
  apply wp_done in Hwp as (r & σ' & Hrun & -> & Hk & B & HB & HstB).
  exists (brk σ), σ', (recs None B). split; [done|].
  split; [exact (st_nodes _ _ _ _ _ _ _ HstB)|].
  rewrite chain_of_recs. split; [done|].
  intros a Ha. rewrite recs_fst in Ha.
  pose proof (st_frame_chain _ _ _ _ _ _ HstB) as Hfr.
  destruct (fr_chain _ _ _ _ _ Hfr a Ha) as [Hin|Hge].
  - by apply elem_of_nil in Hin.
  - cbn in Hge. destruct (nodes σ !! a) as [n|] eqn:En; [|done].
    pose proof (proj1 Hh a n En). lia.
Qed.

Lemma quicklistDup_layout_witness :
  ∃ copy σ' ns',
    quicklistDup 1%positive demo = Done (Some copy, σ') ∧
    quicklistNodes σ' copy = Some ns' ∧
    (chain_of ns').*2 =
      (chain_of [(2%positive, mkNode None (Some 3%positive)
                                [ZStr "a"; ZStr "b"] 2);
                 (3%positive, mkNode (Some 2%positive) None
                                [ZStr "c"] 1)]).*2 ∧
    ∀ a, a ∈ ns'.*1 → nodes demo !! a = None.
Proof.
  apply (quicklistDup_layout 1%positive demo None).
  - apply live_demo.
  - vm_compute. reflexivity.
Defined.

(** ** Insertion and merging, on the decoded entries *)

Lemma insert_bytes_at A1 a (zl : ziplist) c A2 k v :
  (k ≤ length zl)%nat →
  insert_bytes A1 zl A2 k v =
    take (length (bytes A1) + k) (bytes (A1 ++ (a, (zl, c)) :: A2)) ++
    v :: drop (length (bytes A1) + k) (bytes (A1 ++ (a, (zl, c)) :: A2)).
Proof.
  intros Hk. unfold insert_bytes. rewrite bytes_app, bytes_cons.
  rewrite take_app_add, drop_app_add.
  rewrite take_app_le, drop_app_le by (by rewrite length_fmap).
  rewrite <- fmap_take, <- fmap_drop. by rewrite <- !app_assoc.
Qed.

(** X28: Looking up the entry at a non-negative index in range of a live list
    and inserting a value after it, or before it, completes and puts the value
    right behind, or right in front of, that position: the decoded byte
    strings of the entry sequence are the old ones with the value put in, the
    total grows by one and the invariants hold. The representation of other
    entries may change where nodes are merged. *)
Theorem quicklistInsert_bytes ql σ oit es idx fill v (after : bool) :
  live ql σ oit → quicklistEntries σ ql = Some es →
  0 ≤ idx < Z.of_nat (length es) → fill ≤ INT_MAX →
  Z.of_nat (length es) + 1 < 2 ^ 64 →
  ∃ σ' es',
    ('(_, e) ← quicklistIndex ql idx initEntry;
     if after then quicklistInsertAfter ql fill e v
     else quicklistInsertBefore ql fill e v) σ = Done (tt, σ') ∧
    quicklistEntries σ' ql = Some es' ∧
    entry_bytes <$> es' =
      take (Z.to_nat idx + (if after then 1 else 0)) (entry_bytes <$> es) ++
      v :: drop (Z.to_nat idx + (if after then 1 else 0))
             (entry_bytes <$> es) ∧
    q_count <$> lists σ' !! ql = Some (Z.of_nat (length es) + 1) ∧
    ql_invariants σ' ql = true.
Proof.
  intros Hl Hes Hidx Hf Hcap.
  destruct (live_view _ _ _ _ Hl Hes) as (A & Hg & _ & -> & Hc).
  pose proof Hg as (Hst & Hok & Hcap'). rewrite <- Hc in *.
  destruct (index_abs_forward ql idx A Hok Hcap' Hidx)
    as (A1 & a & zl & c & A2 & -> & Hpos & Habs).
  pose proof Hok as Hok'. apply Forall_app_ok in Hok' as [Hok1 Hok'].
  apply Forall_cons_ok in Hok' as [[Hca Hra] _]. cbn [fst snd] in Hca, Hra.
  pose proof (csum_entries _ Hok1) as HL1.
  pose proof (csum_nonneg _ Hok1) as Hn1.
  set (i := Z.to_nat (idx - csum A1)).
  destruct (entry_at_node ql a zl i (idx - csum A1)) as (Hen & Hez & Heo & _).
  assert (i < length zl)%nat as Hlt by (unfold i; lia).
  pose proof (quicklistInsert_st _ _ _ _ _ _ _ _ _ _ fill _ v after i
                Hst Hok eq_refl Hcap Hf Hen Hez Hlt
                ltac:(rewrite Heo; unfold i; lia)) as Hwp.
  apply wp_done in Hwp as ([] & σ' & Hrun & B & Hst' & [HokB HsB] & HbB).
  exists σ', (concat (B.*2.*1)). split.
  { unfold mbind at 1, M_bind at 1.
    rewrite (quicklistIndex_st _ _ _ _ _ _ _ idx initEntry Hst), Habs.
    by destruct after. }
  split; [exact (st_obs_entries _ _ _ _ _ _ _ Hst')|].
  split; [|split].
  - fold (bytes B). rewrite HbB.
    fold (bytes (A1 ++ (a, (zl, c)) :: A2)).
    rewrite (insert_bytes_at A1 a zl c A2) by (destruct after; lia).
    assert (length (bytes A1) = Z.to_nat (csum A1)) as HlA.
    { unfold bytes. rewrite length_fmap. lia. }
    rewrite HlA.
    replace (Z.to_nat (csum A1) + (if after then S i else i))%nat
      with (Z.to_nat idx + (if after then 1 else 0))%nat
      by (unfold i; destruct after; lia).
    done.
  - rewrite (st_header _ _ _ _ _ _ _ Hst'). done.
  - eapply st_invariants; [|exact HokB].
    eapply st_rebase. rewrite HsB. exact Hst'.
Qed.

Lemma quicklistInsert_bytes_witness :
  ∃ σ' es',
    ('(_, e) ← quicklistIndex 1%positive 1 initEntry;
     if true then quicklistInsertAfter 1%positive 2 e "x"
     else quicklistInsertBefore 1%positive 2 e "x") demo = Done (tt, σ') ∧
    quicklistEntries σ' 1%positive = Some es' ∧
    entry_bytes <$> es' =
      take (Z.to_nat 1 + 1) (entry_bytes <$> [ZStr "a"; ZStr "b"; ZStr "c"]) ++
      "x"%string :: drop (Z.to_nat 1 + 1)
                      (entry_bytes <$> [ZStr "a"; ZStr "b"; ZStr "c"]) ∧
    q_count <$> lists σ' !! 1%positive = Some (Z.of_nat 3 + 1) ∧
    ql_invariants σ' 1%positive = true.
Proof.
  apply (quicklistInsert_bytes 1%positive demo None
           [ZStr "a"; ZStr "b"; ZStr "c"] 1 2 "x" true).
  - apply live_demo.
  - vm_compute. reflexivity.
  - cbn. lia.
  - unfold INT_MAX. lia.
  - cbn. lia.
Defined.

(** X29: [_quicklistMergeNodes] around a node of a well-linked list whose
    nodes all hold as many entries as they count, and at least one -
    between two calls as well as inside the insertion that runs the merge
    pass, where the total is one below the sum of the node counts -
    completes; it never adds a node, and it keeps the total, the sum of the
    node counts, the decoded byte strings of the entry sequence, the links
    and the agreement of every node's count with its block. *)
Theorem quicklistMergeNodes_bytes ql σ N1 c n N2 l es fill :
  well_linked σ ql → quicklistNodes σ ql = Some (N1 ++ (c, n) :: N2) →
  Forall (λ an, node_ok an.2) (N1 ++ (c, n) :: N2) →
  lists σ !! ql = Some l → 0 ≤ q_count l < 2 ^ 64 →
  quicklistEntries σ ql = Some es → fill ≤ INT_MAX →
  ∃ σ' ns' es',
    _quicklistMergeNodes ql fill c σ = Done (tt, σ') ∧
    quicklistNodes σ' ql = Some ns' ∧
    (length ns' ≤ length (N1 ++ (c, n) :: N2))%nat ∧
    Forall (λ an, node_ok an.2) ns' ∧
    sumZ ((λ an, n_count an.2) <$> ns') =
      sumZ ((λ an, n_count an.2) <$> N1 ++ (c, n) :: N2) ∧
    quicklistEntries σ' ql = Some es' ∧
    entry_bytes <$> es' = entry_bytes <$> es ∧
    q_count <$> lists σ' !! ql = Some (q_count l) ∧
    well_linked σ' ql.
Proof.
  intros Hwl Hns Hnok Hl Hcnt Hes Hf.
  destruct (well_linked_chain _ _ _ Hwl Hns) as (cnt & Hst).
  pose proof (proj1 (chain_of_ok _) Hnok) as Hok.
  rewrite (st_obs_entries _ _ _ _ _ _ _ Hst) in Hes. injection Hes as <-.
  pose proof (st_header _ _ _ _ _ _ _ Hst) as Hh.
  pose proof (eq_trans (eq_sym Hl) Hh) as El. injection El as ->.
  cbn [q_count] in *.
  assert (length (chain_of (N1 ++ (c, n) :: N2)) =
          length (N1 ++ (c, n) :: N2)) as Hlen.
  { unfold chain_of. by rewrite length_fmap. }
  assert (sumZ ((λ an, n_count an.2) <$> N1 ++ (c, n) :: N2) =
          csum (chain_of (N1 ++ (c, n) :: N2))) as Hsum.
  { rewrite <- (recs_counts None (chain_of (N1 ++ (c, n) :: N2))).
    pose proof (eq_trans (eq_sym Hns) (st_nodes _ _ _ _ _ _ _ Hst)) as E.
    by injection E as <-. }
  revert Hst Hok Hlen Hsum. rewrite chain_of_app.
  cbn [chain_of fmap list_fmap fst snd]. fold (chain_of N2).
  intros Hst Hok Hlen Hsum.
  pose proof (quicklistMergeNodes_st _ _ _ _ _ _ _ _ _ _ _ fill Hst Hok
                Hcnt Hf) as Hwp.
  apply wp_done in Hwp as ([] & σ' & Hrun & B & Hst' & HokB & HsB & HlB & HbB).
  exists σ', (recs None B), (concat (B.*2.*1)). split; [done|].
  split; [exact (st_nodes _ _ _ _ _ _ _ Hst')|].
  split.
  { rewrite <- (length_fmap fst (recs None B)), recs_fst, length_fmap. lia. }
  split; [by apply recs_ok|].
  split; [by rewrite recs_counts, HsB, Hsum|].
  split; [exact (st_obs_entries _ _ _ _ _ _ _ Hst')|].
  split; [exact HbB|]. split.
  - by rewrite (st_header _ _ _ _ _ _ _ Hst').
  - eexists _, _. eapply st_rebase. exact Hst'.
Qed.

Lemma quicklistMergeNodes_bytes_witness :
  ∃ σ' ns' es',
    _quicklistMergeNodes 1%positive 4 2%positive mid_insert =
      Done (tt, σ') ∧
    quicklistNodes σ' 1%positive = Some ns' ∧
    (length ns' ≤ 3)%nat ∧
    Forall (λ an, node_ok an.2) ns' ∧
    sumZ ((λ an, n_count an.2) <$> ns') = 6 ∧
    quicklistEntries σ' 1%positive = Some es' ∧
    entry_bytes <$> es' = ["a"; "b"; "x"; "c"; "d"; "e"]%string ∧
    q_count <$> lists σ' !! 1%positive = Some 5 ∧
    well_linked σ' 1%positive.
Proof.
  apply (quicklistMergeNodes_bytes 1%positive mid_insert []
           2%positive (mkNode None (Some 4%positive) [ZStr "a"; ZStr "b"] 2)
           [(4%positive, mkNode (Some 2%positive) (Some 3%positive)
                                [ZStr "x"; ZStr "c"; ZStr "d"] 3);
            (3%positive, mkNode (Some 4%positive) None [ZStr "e"] 1)]
           (mkList (Some 2%positive) (Some 3%positive) 3 5)
           [ZStr "a"; ZStr "b"; ZStr "x"; ZStr "c"; ZStr "d"; ZStr "e"] 4).
  - apply well_linked_mid_insert.
  - vm_compute. reflexivity.
  - repeat constructor; cbn; unfold INT_MAX; lia.
  - vm_compute. reflexivity.
  - cbn. lia.
  - vm_compute. reflexivity.
  - unfold INT_MAX. lia.
Defined.

(** In that store the pass does merge: the node ["x"; "c"; "d"] takes in
    the node ["e"] behind it, and three nodes become two. *)
Lemma merge_pass_fires_in_insert :
  match _quicklistMergeNodes 1%positive 4 2%positive mid_insert with
  | Done (_, σ') =>
      chain_of <$> quicklistNodes σ' 1%positive =
        Some [(2%positive, ([ZStr "a"; ZStr "b"], 2));
              (4%positive, ([ZStr "x"; ZStr "c"; ZStr "d"; ZStr "e"], 4))]
  | _ => False
  end.
Proof. vm_compute. reflexivity. Qed.

(** X30: On an empty live list a lookup finds nothing, and inserting next to
    the record it leaves creates the first node: the list then holds the one
    encoded value, with total and length 1. *)
Theorem quicklistInsert_into_empty ql σ oit idx fill v (after : bool) :
  live ql σ oit → quicklistEntries σ ql = Some [] →
  LLONG_MIN ≤ idx ≤ LLONG_MAX →
  ∃ σ' a,
    ('(_, e) ← quicklistIndex ql idx initEntry;
     if after then quicklistInsertAfter ql fill e v
     else quicklistInsertBefore ql fill e v) σ = Done (tt, σ') ∧
    quicklistNodes σ' ql = Some [(a, mkNode None None [zipEntry v] 1)] ∧
    lists σ' !! ql = Some (mkList (Some a) (Some a) 1 1) ∧
    nodes σ !! a = None.
Proof.
  intros Hl Hes Hidx.
  destruct (live_view _ _ _ _ Hl Hes) as (A & Hg & _ & HA & Hc).
  pose proof Hg as (Hst & Hok & Hcap).
  assert (A = []) as ->.
  { destruct A as [|[a [zl c]] A]; [done|].
    apply Forall_cons_ok in Hok as [[Hca Hra] _]. cbn [fst snd] in Hca, Hra.
    destruct zl; [cbn in Hca; lia|done]. }
  pose proof (quicklistInsert_empty _ _ _ _ _ fill (none_entry ql) v after
                Hst ltac:(cbn; lia) ltac:(cbn; lia) eq_refl) as Hwp.
  apply wp_done in Hwp as ([] & σ' & Hrun & Hst').
  exists σ', (brk σ). split.
  { unfold mbind at 1, M_bind at 1.
    rewrite (quicklistIndex_st _ _ _ _ _ _ _ idx initEntry Hst).
    rewrite index_abs_miss; [by destruct after|done|done|].
    unfold abs_pos. cbn. destruct (idx <? 0); lia. }
  split; [exact (st_nodes _ _ _ _ _ _ _ Hst')|].
  split; [exact (st_header _ _ _ _ _ _ _ Hst')|].
  apply heap_ok_fresh_node. exact (st_heap _ _ _ _ _ _ _ Hst).
Qed.

Lemma quicklistInsert_into_empty_witness :
  ∃ σ' a,
    ('(_, e) ← quicklistIndex 1%positive 0 initEntry;
     if false then quicklistInsertAfter 1%positive 4 e "7"
     else quicklistInsertBefore 1%positive 4 e "7") (created emptyMem) =
      Done (tt, σ') ∧
    quicklistNodes σ' 1%positive =
      Some [(a, mkNode None None [zipEntry "7"] 1)] ∧
    lists σ' !! 1%positive = Some (mkList (Some a) (Some a) 1 1) ∧
    nodes (created emptyMem) !! a = None.
Proof.
  apply (quicklistInsert_into_empty 1%positive (created emptyMem) None 0 4
           "7" false).
  - apply live_created.
  - vm_compute. reflexivity.
  - unfold LLONG_MIN, LLONG_MAX. lia.
Defined.
